(** * zultra: a shallow embedding of the optimal DEFLATE block compressor

    The C sources modelled here are [src/huffman/bitwriter.c],
    [src/huffman/huffencoder.c], [src/blockdeflate.c] and [src/libzultra.c].
    C [int] and [unsigned int] values are modelled as [Z]; the 32-bit
    wrap-around of unsigned arithmetic is written out with [u32].  Arrays
    are total maps [Z -> Z] updated with [upd]; the output buffer, which
    the bit writer only points to, is a separate store threaded through
    every call, so that copying a bit writer state (as
    [zultra_bitwriter_copy] does) shares the buffer rather than copying it. *)

From Stdlib Require Import ZArith Lia List Bool Permutation.
Import ListNotations.
Open Scope Z_scope.

(** ** Common helpers *)

(** An array: a total map from indices to values. *)
Definition array := Z -> Z.

Definition upd (a : array) (k v : Z) : array :=
  fun j => if Z.eqb j k then v else a j.

(** C [unsigned int] truncation. *)
Definition u32 (z : Z) : Z := z mod 2 ^ 32.

(** ** Bit writer ([src/huffman/bitwriter.c], [bitwriter.h]) *)
Module BitWriter.

(** [zultra_bitwriter_t]; the [pOutData] pointer is the shared store
    passed alongside the state. *)
Record zultra_bitwriter_t := mkBitWriter {
  nEncBitCount : Z;
  nEncBitsData : Z;
  nOutOffset : Z;
  nMaxOutDataOffset : Z
}.

(** [zultra_bitwriter_init] *)
Definition zultra_bitwriter_init (nOutOffset nMaxOutDataSize : Z) : zultra_bitwriter_t :=
  mkBitWriter 0 0 nOutOffset nMaxOutDataSize.

(** [zultra_bitwriter_copy]: every field of the source is copied. *)
Definition zultra_bitwriter_copy (dst src : zultra_bitwriter_t) : zultra_bitwriter_t :=
  mkBitWriter (nEncBitCount src) (nEncBitsData src) (nOutOffset src) (nMaxOutDataOffset src).

(** [zultra_bitwriter_get_offset] *)
Definition zultra_bitwriter_get_offset (w : zultra_bitwriter_t) : Z :=
  if nOutOffset w <=? nMaxOutDataOffset w then nOutOffset w else -1.

(** [zultra_bitwriter_set_offset] *)
Definition zultra_bitwriter_set_offset (w : zultra_bitwriter_t) (off : Z) : zultra_bitwriter_t :=
  mkBitWriter (nEncBitCount w) (nEncBitsData w) off (nMaxOutDataOffset w).

(** The [while (nEncBitCount >= 8)] loop of [zultra_bitwriter_put_bits].
    It runs exactly [nEncBitCount / 8] times when it does not fail, so
    that count is passed as the iteration budget: at [O] the loop
    condition is false. *)
Fixpoint flush_whole_bytes (k : nat) (w : zultra_bitwriter_t) (out : array)
  : Z * zultra_bitwriter_t * array :=
  match k with
  | O => (0, w, out)
  | S k' =>
      if nEncBitCount w >=? 8 then
        if nOutOffset w >=? nMaxOutDataOffset w then (-1, w, out)
        else
          flush_whole_bytes k'
            (mkBitWriter (nEncBitCount w - 8) (Z.shiftr (nEncBitsData w) 8)
               (nOutOffset w + 1) (nMaxOutDataOffset w))
            (upd out (nOutOffset w) (nEncBitsData w mod 256))
      else (0, w, out)
  end.

(** [zultra_bitwriter_put_bits]: returns the C result (0 or -1), the
    updated state and the output buffer; as in C, a failing call leaves
    the state as far as it got. *)
Definition zultra_bitwriter_put_bits (w : zultra_bitwriter_t) (out : array) (nValue nBits : Z)
  : Z * zultra_bitwriter_t * array :=
  if nBits >? 16 then (-1, w, out)
  else
    let w1 := mkBitWriter (nEncBitCount w + nBits)
                (Z.lor (nEncBitsData w) (u32 (Z.shiftl nValue (nEncBitCount w))))
                (nOutOffset w) (nMaxOutDataOffset w) in
    flush_whole_bytes (Z.to_nat (nEncBitCount w1 / 8)) w1 out.

(** [zultra_bitwriter_flush_bits] *)
Definition zultra_bitwriter_flush_bits (w : zultra_bitwriter_t) (out : array)
  : Z * zultra_bitwriter_t * array :=
  if nEncBitCount w >? 8 then (-1, w, out)
  else if nEncBitCount w >? 0 then
    if nOutOffset w >=? nMaxOutDataOffset w then (-1, w, out)
    else (0, mkBitWriter 0 0 (nOutOffset w + 1) (nMaxOutDataOffset w),
          upd out (nOutOffset w)
            (Z.land (nEncBitsData w) (Z.shiftl 1 (nEncBitCount w) - 1) mod 256))
  else (0, w, out).

(** The value of [m] bytes of [out] starting at [o], least significant
    byte first. *)
Fixpoint bytes_value (out : array) (o : Z) (m : nat) : Z :=
  match m with
  | O => 0
  | S m' => out o + 256 * bytes_value out (o + 1) m'
  end.

(** The state invariant: at most 7 pending bits, no pending bit above
    the count, and the offset within the buffer. *)
Definition writer_ok (w : zultra_bitwriter_t) : Prop :=
  0 <= nEncBitCount w <= 7 /\ 0 <= nEncBitsData w < 2 ^ nEncBitCount w /\
  nOutOffset w <= nMaxOutDataOffset w.

(** The part of the invariant that concerns the count and the offset. *)
Definition writer_inv (w : zultra_bitwriter_t) : Prop :=
  0 <= nEncBitCount w <= 7 /\ nOutOffset w <= nMaxOutDataOffset w.

End BitWriter.

(** ** Stream layer ([src/libzultra.c]) *)
Module Stream.
Import BitWriter.

(** [zultra_status_t] *)
Definition ZULTRA_OK := 0.
Definition ZULTRA_ERROR_SRC := 1.
Definition ZULTRA_ERROR_DST := 2.
Definition ZULTRA_ERROR_DICTIONARY := 3.
Definition ZULTRA_ERROR_MEMORY := 4.
Definition ZULTRA_ERROR_COMPRESSION := 5.

(** Framing flags and constants of [libzultra.h], [private.h], [format.h]. *)
Definition ZULTRA_FLAG_DEFLATE_FRAMING := 0.
Definition ZULTRA_FLAG_ZLIB_FRAMING := 1.
Definition ZULTRA_FLAG_GZIP_FRAMING := 2.
Definition ZULTRA_DEFAULT_MAX_BLOCK_SIZE := 1048576.
Definition MAX_SPLITS := 64.
Definition HISTORY_SIZE := 32768.

(** C [size_t] truncation (64-bit). *)
Definition u64 (z : Z) : Z := z mod 2 ^ 64.

(** The defaulting and clamping of [nMaxBlockSize] shared by
    [zultra_stream_init] and [zultra_memory_bound]. *)
Definition clamp_block_size (nMaxBlockSize : Z) : Z :=
  let n := if nMaxBlockSize =? 0 then ZULTRA_DEFAULT_MAX_BLOCK_SIZE else nMaxBlockSize in
  let n := if n <? 32768 then 32768 else n in
  if n >? 2097152 then 2097152 else n.

(** Size of the block output buffer allocated by [zultra_stream_init]. *)
Definition out_buffer_size (nMaxBlockSize : Z) : Z :=
  1 + nMaxBlockSize + (1 + 4) * ((nMaxBlockSize / 65535) + 1).

(** The part of [zultra_compressor_t] that [zultra_stream_init] sets up. *)
Record init_result := mkInitResult {
  init_flags : Z;
  init_max_block_size : Z;
  init_bitwriter : zultra_bitwriter_t
}.

(** [zultra_stream_init].  The outcome of each allocation is given by
    the oracle [alloc_ok], in call order: 0 the compressor state, 1
    [in_data], 2 [out_buffer], 3 [divsufsort_init], 4 [intervals], 5
    [pos_data], 6 [open_intervals], 7 [match], 8 [best_match]. *)
Definition zultra_stream_init (alloc_ok : nat -> bool) (nFlags nMaxBlockSize : Z)
  : Z * option init_result :=
  let B := clamp_block_size nMaxBlockSize in
  if negb (alloc_ok 0%nat) then (ZULTRA_ERROR_MEMORY, None)
  else if negb (alloc_ok 1%nat) then (ZULTRA_ERROR_MEMORY, None)
  else if negb (alloc_ok 2%nat) then (ZULTRA_ERROR_MEMORY, None)
  else
    let nResult := if alloc_ok 3%nat then 0 else -1 in
    let nResult :=
      if nResult =? 0 then
        if alloc_ok 4%nat && alloc_ok 5%nat && alloc_ok 6%nat && alloc_ok 7%nat && alloc_ok 8%nat
        then 0 else -1
      else nResult in
    if negb (nResult =? 0) then (ZULTRA_ERROR_MEMORY, None)
    else (ZULTRA_OK, Some (mkInitResult nFlags B
                             (zultra_bitwriter_init 0 (out_buffer_size B)))).

(** [zultra_memory_bound], over the frame header and footer sizes of
    [frame.c] (not part of the sources) given as functions of the
    flags; the arithmetic is on [size_t]. *)
Definition zultra_memory_bound (zultra_frame_get_header_size zultra_frame_get_footer_size : Z -> Z)
  (nInputSize nFlags nMaxBlockSize : Z) : Z :=
  let nMaxSplits := MAX_SPLITS in
  let B := clamp_block_size nMaxBlockSize in
  let nBlocks := u64 (nInputSize + (B - 1)) / B in
  let nSplitBytes := u64 (u64 (nBlocks * (1 + 4 + 1)) * nMaxSplits) in
  u64 (u64 (u64 (u64 (u64 (zultra_frame_get_header_size nFlags) + nSplitBytes) + nInputSize) + 1)
       + u64 (zultra_frame_get_footer_size nFlags)).

(** Modelled from the spec: the header and footer sizes of [frame.c]
    (which is not part of the sources): none for raw deflate, a 2-byte
    header and 4-byte Adler-32 for zlib, a 10-byte header and an 8-byte
    trailer for gzip. *)
Definition spec_frame_header_size (nFlags : Z) : Z :=
  if nFlags =? ZULTRA_FLAG_GZIP_FRAMING then 10
  else if nFlags =? ZULTRA_FLAG_ZLIB_FRAMING then 2 else 0.

(** Modelled from the spec: see [spec_frame_header_size]. *)
Definition spec_frame_footer_size (nFlags : Z) : Z :=
  if nFlags =? ZULTRA_FLAG_GZIP_FRAMING then 8
  else if nFlags =? ZULTRA_FLAG_ZLIB_FRAMING then 4 else 0.

(** [memcpy (dst + d, src + s, n)] on arrays. *)
Definition memcpy (dst : array) (d : Z) (src : array) (s n : Z) : array :=
  fun j => if (d <=? j) && (j <? d + n) then src (s + (j - d)) else dst j.

Section SubRange.
(** [zultra_block_deflate] for the current sub-range, as a function
    of the bit writer state and the output buffer. *)
Variable zultra_block_deflate : zultra_bitwriter_t -> array -> Z * zultra_bitwriter_t * array.
(** [in_data]; the sub-range starts at [HISTORY_SIZE + nInStart]. *)
Variable in_data : array.
Variable nMaxBlockSize nInStart nBlockSize nIsFinal nIsDynamic : Z.

(** One iteration of the stored-block loop of [zultra_stream_compress]:
    the sub-block header bits, the padding, LEN and NLEN and the raw
    bytes.  Returns [nError], the state and the buffer. *)
Definition stored_sub_block (nSubBlockOffset nRemainingBlockSize : Z)
  (bw : zultra_bitwriter_t) (out : array) : Z * zultra_bitwriter_t * array :=
  let nSubBlockSize := if nRemainingBlockSize >? 65535 then 65535 else nRemainingBlockSize in
  let nSubIsFinal := if nRemainingBlockSize >? 65535 then 0 else nIsFinal in
  let '(r1, bw1, out1) := zultra_bitwriter_put_bits bw out nSubIsFinal 1 in
  if r1 <? 0 then (ZULTRA_ERROR_DST, bw1, out1) else
  let '(r2, bw2, out2) := zultra_bitwriter_put_bits bw1 out1 0 2 in
  if r2 <? 0 then (ZULTRA_ERROR_DST, bw2, out2) else
  let '(r3, bw3, out3) := zultra_bitwriter_flush_bits bw2 out2 in
  if r3 <? 0 then (ZULTRA_ERROR_DST, bw3, out3) else
  let nCurWriteOffset := zultra_bitwriter_get_offset bw3 in
  if (nCurWriteOffset <? 0) ||
     (nCurWriteOffset + 4 + nSubBlockSize >? out_buffer_size nMaxBlockSize)
  then (ZULTRA_ERROR_DST, bw3, out3)
  else
    let o1 := upd out3 nCurWriteOffset (Z.land nSubBlockSize 255) in
    let o2 := upd o1 (nCurWriteOffset + 1) (Z.land (Z.shiftr nSubBlockSize 8) 255) in
    let o3 := upd o2 (nCurWriteOffset + 2) (Z.lxor (Z.land nSubBlockSize 255) 255) in
    let o4 := upd o3 (nCurWriteOffset + 3)
                (Z.lxor (Z.land (Z.shiftr nSubBlockSize 8) 255) 255) in
    let o5 := memcpy o4 (nCurWriteOffset + 4) in_data
                (HISTORY_SIZE + nInStart + nSubBlockOffset) nSubBlockSize in
    (ZULTRA_OK, zultra_bitwriter_set_offset bw3 (nCurWriteOffset + 4 + nSubBlockSize), o5).

(** The [while (!nError && nRemainingBlockSize)] loop.  Each iteration
    consumes at least one byte, so [Z.to_nat nRemainingBlockSize]
    iterations suffice for a non-negative size. *)
Fixpoint stored_blocks (fuel : nat) (nSubBlockOffset nRemainingBlockSize : Z)
  (bw : zultra_bitwriter_t) (out : array) : Z * zultra_bitwriter_t * array :=
  match fuel with
  | O => (ZULTRA_OK, bw, out)
  | S fuel' =>
      if nRemainingBlockSize =? 0 then (ZULTRA_OK, bw, out)
      else
        let nSubBlockSize :=
          if nRemainingBlockSize >? 65535 then 65535 else nRemainingBlockSize in
        let '(e, bw', out') := stored_sub_block nSubBlockOffset nRemainingBlockSize bw out in
        if negb (e =? 0) then (e, bw', out')
        else stored_blocks fuel' (nSubBlockOffset + nSubBlockSize)
               (nRemainingBlockSize - nSubBlockSize) bw' out'
  end.

(** The emission of one sub-range by [zultra_stream_compress]: save the
    writer, write BFINAL and BTYPE, try [zultra_block_deflate], and on
    failure or expansion rewind and emit stored blocks. *)
Definition emit_sub_range (bitwriter : zultra_bitwriter_t) (out : array)
  : Z * zultra_bitwriter_t * array :=
  let blockBitWriter := zultra_bitwriter_copy bitwriter bitwriter in
  let '(r1, bw1, out1) := zultra_bitwriter_put_bits bitwriter out nIsFinal 1 in
  if r1 <? 0 then (ZULTRA_ERROR_DST, bw1, out1) else
  let '(r2, bw2, out2) := zultra_bitwriter_put_bits bw1 out1 (1 + nIsDynamic) 2 in
  if r2 <? 0 then (ZULTRA_ERROR_DST, bw2, out2) else
  let nPrevOffset := zultra_bitwriter_get_offset bw2 in
  let '(nCompressionResult, bw3, out3) :=
    if nPrevOffset <? 0 then (ZULTRA_ERROR_DST, bw2, out2)
    else zultra_block_deflate bw2 out2 in
  if (nCompressionResult <? 0) || (zultra_bitwriter_get_offset bw3 <? 0) ||
     (zultra_bitwriter_get_offset bw3 - nPrevOffset >? nBlockSize)
  then
    let bw4 := zultra_bitwriter_copy bw3 blockBitWriter in
    stored_blocks (Z.to_nat nBlockSize) 0 nBlockSize bw4 out3
  else (ZULTRA_OK, bw3, out3).
End SubRange.

(** The stored-block emission described by the specification, used to
    state the fallback of [emit_sub_range]: the remaining [rem] bytes of
    [data] from [off] are cut into chunks of [min rem 65535] bytes; each
    chunk has BFINAL (the block's final flag on its last chunk only) and
    BTYPE 00, padding to a byte boundary, LEN as two little-endian bytes,
    NLEN as the 16-bit one's complement of LEN, then the raw bytes. *)
Inductive spec_stored_blocks (data : Z -> Z) (nIsFinal : Z)
  : zultra_bitwriter_t -> array -> Z -> Z -> zultra_bitwriter_t -> array -> Prop :=
| spec_stored_done w out off :
    spec_stored_blocks data nIsFinal w out off 0 w out
| spec_stored_chunk w out off rem size fin w1 o1 w2 o2 w3 o3 o4 w' out' :
    0 < rem -> size = Z.min rem 65535 ->
    fin = (if rem <=? 65535 then nIsFinal else 0) ->
    zultra_bitwriter_put_bits w out fin 1 = (0, w1, o1) ->
    zultra_bitwriter_put_bits w1 o1 0 2 = (0, w2, o2) ->
    zultra_bitwriter_flush_bits w2 o2 = (0, w3, o3) ->
    0 <= nOutOffset w3 ->
    (let c := nOutOffset w3 in
     0 <= o4 c < 256 /\ 0 <= o4 (c + 1) < 256 /\ 0 <= o4 (c + 2) < 256 /\ 0 <= o4 (c + 3) < 256 /\
     o4 c + 256 * o4 (c + 1) = size /\
     o4 (c + 2) + 256 * o4 (c + 3) = 65535 - size /\
     (forall i, 0 <= i < size -> o4 (c + 4 + i) = data (off + i)) /\
     (forall j, j < c \/ c + 4 + size <= j -> o4 j = o3 j)) ->
    spec_stored_blocks data nIsFinal
      (zultra_bitwriter_set_offset w3 (nOutOffset w3 + 4 + size)) o4 (off + size) (rem - size)
      w' out' ->
    spec_stored_blocks data nIsFinal w out off rem w' out'.

(** The compression flags of [zultra_stream_compress]. *)
Definition ZULTRA_CONTINUE := 0.
Definition ZULTRA_FINALIZE := 1.
Definition CSTATE_HEADER_EMITTED := 2.
Definition CSTATE_FINALIZED_COMPRESSION := 4.
Definition CSTATE_FOOTER_EMITTED := 8.

(** The fields of [zultra_compressor_t] used by [zultra_stream_compress];
    [in_block] is the data at [in_data + HISTORY_SIZE] (the history
    window before it only feeds the match finder).  No dictionary is
    set ([zultra_memory_compress] never sets one). *)
Record zultra_compressor_t := mkCompressor {
  flags : Z;
  max_block_size : Z;
  in_block : list Z;
  cur_in_bytes : Z;
  previous_block_size : Z;
  out_buffer : array;
  cur_out_index : Z;
  pending_out_bytes : Z;
  bitwriter : zultra_bitwriter_t;
  compression_state : Z;
  cur_frame_index : Z;
  pending_frame_bytes : Z;
  frame_buffer : list Z
}.

(** The fields of [zultra_stream_t]; [next_out] is the list of bytes
    written through the output pointer so far. *)
Record zultra_stream_t := mkStream {
  next_in : list Z;
  avail_in : Z;
  total_in : Z;
  next_out : list Z;
  avail_out : Z;
  total_out : Z;
  adler : Z;
  state : zultra_compressor_t
}.

(** [n] bytes of an array from [start]. *)
Definition array_slice (a : array) (start : Z) (n : nat) : list Z :=
  map (fun i => a (start + Z.of_nat i)) (seq 0 n).

Section StreamCompress.
(** The framing functions of [frame.c] (not part of the sources):
    header and footer encoders return the size (negative on error)
    and the bytes put in [frame_buffer]. *)
Variable zultra_frame_encode_header : Z -> Z * list Z.
Variable zultra_frame_init_checksum : Z -> Z.
Variable zultra_frame_update_checksum : Z -> list Z -> Z -> Z.
Variable zultra_frame_encode_footer : Z -> Z -> Z -> Z * list Z.
(** Lines 273 to 388 of [zultra_stream_compress] for a block holding
    data: suffix array, match finding, block splitting and the
    emission of every sub-range ([emit_sub_range]); given the block
    data and whether it is the last one, it returns [nError], the bit
    writer and the output buffer. *)
Variable compress_block_data :
  zultra_compressor_t -> list Z -> bool -> Z * zultra_bitwriter_t * array.

(** The copy of pending frame bytes to the output (done twice per
    iteration in the source). *)
Definition emit_frame_bytes (nError : Z) (s : zultra_stream_t) : Z * zultra_stream_t :=
  let c := state s in
  if (nError =? 0) && negb (pending_frame_bytes c =? 0) then
    if cur_frame_index c + pending_frame_bytes c >? 16 then (ZULTRA_ERROR_COMPRESSION, s)
    else if negb (avail_out s =? 0) then
      let n := Z.min (avail_out s) (pending_frame_bytes c) in
      let c' := mkCompressor (flags c) (max_block_size c) (in_block c) (cur_in_bytes c)
                  (previous_block_size c) (out_buffer c) (cur_out_index c) (pending_out_bytes c)
                  (bitwriter c) (compression_state c) (cur_frame_index c + n)
                  (pending_frame_bytes c - n) (frame_buffer c) in
      (nError, mkStream (next_in s) (avail_in s) (total_in s)
                 (next_out s ++ firstn (Z.to_nat n) (skipn (Z.to_nat (cur_frame_index c)) (frame_buffer c)))
                 (avail_out s - n) (total_out s + n) (adler s) c')
    else (nError, s)
  else (nError, s).

(** Header emission at the top of the loop body. *)
Definition start_header (s : zultra_stream_t) : Z * zultra_stream_t :=
  let c := state s in
  if Z.land (compression_state c) CSTATE_HEADER_EMITTED =? 0 then
    let cs := Z.lor (compression_state c) CSTATE_HEADER_EMITTED in
    let '(nHeaderSize, fb) := zultra_frame_encode_header (flags c) in
    let a := zultra_frame_init_checksum (flags c) in
    if nHeaderSize <? 0 then
      (ZULTRA_ERROR_COMPRESSION,
       mkStream (next_in s) (avail_in s) (total_in s) (next_out s) (avail_out s) (total_out s) a
         (mkCompressor (flags c) (max_block_size c) (in_block c) (cur_in_bytes c)
            (previous_block_size c) (out_buffer c) (cur_out_index c) (pending_out_bytes c)
            (bitwriter c) cs (cur_frame_index c) (pending_frame_bytes c) (frame_buffer c)))
    else
      (ZULTRA_OK,
       mkStream (next_in s) (avail_in s) (total_in s) (next_out s) (avail_out s) (total_out s) a
         (mkCompressor (flags c) (max_block_size c) (in_block c) (cur_in_bytes c)
            (previous_block_size c) (out_buffer c) (cur_out_index c) (pending_out_bytes c)
            (bitwriter c) cs 0 nHeaderSize fb))
  else (ZULTRA_OK, s).

(** Input absorption and block compression (source lines 247 to 421). *)
Definition absorb_and_compress (nDoFinalize : Z) (nError : Z) (s : zultra_stream_t)
  : Z * zultra_stream_t :=
  let c := state s in
  if (nError =? 0) && (pending_frame_bytes c =? 0) && (pending_out_bytes c =? 0) then
    let nMaxBlockSize := max_block_size c in
    let nMaxInBytes := Z.min (avail_in s) (nMaxBlockSize - cur_in_bytes c) in
    let blk := in_block c ++ firstn (Z.to_nat nMaxInBytes) (next_in s) in
    let nin := skipn (Z.to_nat nMaxInBytes) (next_in s) in
    let ain := avail_in s - nMaxInBytes in
    let tin := total_in s + nMaxInBytes in
    let cin := cur_in_bytes c + nMaxInBytes in
    if ((cin >=? nMaxBlockSize) && negb (ain =? 0)) || negb (nDoFinalize =? 0) then
      let nInDataSize := cin in
      if nInDataSize >? 0 then
        let a := zultra_frame_update_checksum (adler s) blk (flags c) in
        let c1 := mkCompressor (flags c) nMaxBlockSize blk 0 (previous_block_size c)
                    (out_buffer c) (cur_out_index c) (pending_out_bytes c) (bitwriter c)
                    (compression_state c) (cur_frame_index c) (pending_frame_bytes c)
                    (frame_buffer c) in
        let '(e, bw, ob) := compress_block_data c1 blk (negb (nDoFinalize =? 0) && (ain =? 0)) in
        let pbs := Z.min nInDataSize HISTORY_SIZE in
        let '(e, bw, ob, cs) :=
          if (e =? 0) && negb (nDoFinalize =? 0) && (ain =? 0) then
            let '(r, bw', ob') := zultra_bitwriter_flush_bits bw ob in
            if r <? 0 then (ZULTRA_ERROR_DST, bw', ob', compression_state c)
            else (e, bw', ob', Z.lor (compression_state c) CSTATE_FINALIZED_COMPRESSION)
          else (e, bw, ob, compression_state c) in
        let '(e, bw, coi, pob) :=
          if e =? 0 then
            let nCurWriteOffset := zultra_bitwriter_get_offset bw in
            if nCurWriteOffset <? 0 then (ZULTRA_ERROR_DST, bw, cur_out_index c, pending_out_bytes c)
            else (e, zultra_bitwriter_set_offset bw 0, 0, nCurWriteOffset)
          else (e, bw, cur_out_index c, pending_out_bytes c) in
        (e, mkStream nin ain tin (next_out s) (avail_out s) (total_out s) a
              (mkCompressor (flags c) nMaxBlockSize [] 0 pbs ob coi pob bw cs
                 (cur_frame_index c) (pending_frame_bytes c) (frame_buffer c)))
      else
        (nError, mkStream nin ain tin (next_out s) (avail_out s) (total_out s) (adler s)
                   (mkCompressor (flags c) nMaxBlockSize blk cin (previous_block_size c)
                      (out_buffer c) (cur_out_index c) (pending_out_bytes c) (bitwriter c)
                      (compression_state c) (cur_frame_index c) (pending_frame_bytes c)
                      (frame_buffer c)))
    else
      (nError, mkStream nin ain tin (next_out s) (avail_out s) (total_out s) (adler s)
                 (mkCompressor (flags c) nMaxBlockSize blk cin (previous_block_size c)
                    (out_buffer c) (cur_out_index c) (pending_out_bytes c) (bitwriter c)
                    (compression_state c) (cur_frame_index c) (pending_frame_bytes c)
                    (frame_buffer c)))
  else (nError, s).

(** Copy of pending compressed bytes to the output. *)
Definition emit_out_bytes (nError : Z) (s : zultra_stream_t) : Z * zultra_stream_t :=
  let c := state s in
  if (nError =? 0) && (pending_frame_bytes c =? 0) && negb (pending_out_bytes c =? 0) then
    if cur_out_index c + pending_frame_bytes c >? out_buffer_size (max_block_size c) then
      (ZULTRA_ERROR_COMPRESSION, s)
    else if negb (avail_out s =? 0) then
      let n := Z.min (avail_out s) (pending_out_bytes c) in
      (nError, mkStream (next_in s) (avail_in s) (total_in s)
                 (next_out s ++ array_slice (out_buffer c) (cur_out_index c) (Z.to_nat n))
                 (avail_out s - n) (total_out s + n) (adler s)
                 (mkCompressor (flags c) (max_block_size c) (in_block c) (cur_in_bytes c)
                    (previous_block_size c) (out_buffer c) (cur_out_index c + n)
                    (pending_out_bytes c - n) (bitwriter c) (compression_state c)
                    (cur_frame_index c) (pending_frame_bytes c) (frame_buffer c)))
    else (nError, s)
  else (nError, s).

(** Footer preparation once compression is finalized. *)
Definition start_footer (nError : Z) (s : zultra_stream_t) : Z * zultra_stream_t :=
  let c := state s in
  if (nError =? 0) && (pending_frame_bytes c =? 0) && (pending_out_bytes c =? 0) &&
     negb (Z.land (compression_state c) CSTATE_FINALIZED_COMPRESSION =? 0) &&
     (Z.land (compression_state c) CSTATE_FOOTER_EMITTED =? 0) then
    let '(nFooterSize, fb) := zultra_frame_encode_footer (adler s) (total_in s) (flags c) in
    if nFooterSize <? 0 then (ZULTRA_ERROR_COMPRESSION, s)
    else
      (nError, mkStream (next_in s) (avail_in s) (total_in s) (next_out s) (avail_out s)
                 (total_out s) (adler s)
                 (mkCompressor (flags c) (max_block_size c) (in_block c) (cur_in_bytes c)
                    (previous_block_size c) (out_buffer c) (cur_out_index c)
                    (pending_out_bytes c) (bitwriter c)
                    (Z.land (Z.lor (compression_state c) CSTATE_FOOTER_EMITTED)
                       (Z.lnot CSTATE_FINALIZED_COMPRESSION))
                    0 nFooterSize fb))
  else (nError, s).

(** One execution of the body of the [do ... while] loop. *)
Definition stream_compress_body (nDoFinalize : Z) (s : zultra_stream_t) : Z * zultra_stream_t :=
  let '(e, s) := start_header s in
  let '(e, s) := emit_frame_bytes e s in
  let '(e, s) := absorb_and_compress nDoFinalize e s in
  let '(e, s) := emit_out_bytes e s in
  let '(e, s) := start_footer e s in
  emit_frame_bytes e s.

(** [zultra_stream_compress]: the loop runs while there is no error,
    input is left and output space is left.  [fuel] bounds the number
    of iterations; [None] means the bound was reached. *)
Fixpoint zultra_stream_compress (fuel : nat) (s : zultra_stream_t) (nDoFinalize : Z)
  : option (Z * zultra_stream_t) :=
  match fuel with
  | O => None
  | S fuel' =>
      let '(e, s') := stream_compress_body nDoFinalize s in
      if (e =? 0) && negb (avail_in s' =? 0) && negb (avail_out s' =? 0)
      then zultra_stream_compress fuel' s' nDoFinalize
      else Some (e, s')
  end.

(** [zultra_memory_compress]: returns the compressed size (-1 as a
    [size_t] on error) and the bytes written to [pOutBuffer]; the loop
    budget is one iteration per input byte and per output byte, plus
    one. *)
Definition zultra_memory_compress (alloc_ok : nat -> bool) (pInputData : list Z)
  (nMaxOutBufferSize nFlags nMaxBlockSize : Z) : option (Z * list Z) :=
  let nInputSize := Z.of_nat (length pInputData) in
  match zultra_stream_init alloc_ok nFlags nMaxBlockSize with
  | (_, None) => Some (u64 (-1), [])
  | (_, Some ir) =>
      let c := mkCompressor (init_flags ir) (init_max_block_size ir) [] 0 0 (fun _ => 0) 0 0
                 (init_bitwriter ir) 0 0 0 (repeat 0 16) in
      let strm := mkStream pInputData nInputSize 0 [] nMaxOutBufferSize 0 0 c in
      match zultra_stream_compress (Z.to_nat (nInputSize + nMaxOutBufferSize) + 1) strm ZULTRA_FINALIZE with
      | None => None
      | Some (nStatus, strm') =>
          if negb (nStatus =? 0) then Some (u64 (-1), next_out strm')
          else Some (nMaxOutBufferSize - avail_out strm', next_out strm')
      end
  end.
End StreamCompress.

(** Modelled from the spec: the gzip header written by
    [zultra_frame_encode_header] for gzip framing (10 bytes
    [1f 8b 08 00 00 00 00 00 00 ff]). *)
Definition spec_gzip_header : list Z := [31; 139; 8; 0; 0; 0; 0; 0; 0; 255].

End Stream.

(** * Optimal parser (blockdeflate.c) *)

Module Parser.

(** The tables of blockdeflate.c mapping a match offset minus one
    ([g_nOffsetSymbol], [g_nOffsetExtraBits], 256 direct entries then 256
    entries in steps of 128) and a match length minus three
    ([g_nMatchLenSymbol], [g_nMatchLenExtraBits]) to a symbol and its
    number of extra bits. *)
Definition g_nOffsetSymbol_table : list Z := [
  0; 1; 2; 3; 4; 4; 5; 5; 6; 6; 6; 6; 7; 7; 7; 7; 8; 8; 8; 8; 8; 8; 8; 8; 9; 9; 9; 9; 9; 9; 9; 9;
  10; 10; 10; 10; 10; 10; 10; 10; 10; 10; 10; 10; 10; 10; 10; 10; 11; 11; 11; 11; 11; 11; 11; 11; 11; 11; 11; 11; 11; 11; 11; 11;
  12; 12; 12; 12; 12; 12; 12; 12; 12; 12; 12; 12; 12; 12; 12; 12; 12; 12; 12; 12; 12; 12; 12; 12; 12; 12; 12; 12; 12; 12; 12; 12;
  13; 13; 13; 13; 13; 13; 13; 13; 13; 13; 13; 13; 13; 13; 13; 13; 13; 13; 13; 13; 13; 13; 13; 13; 13; 13; 13; 13; 13; 13; 13; 13;
  14; 14; 14; 14; 14; 14; 14; 14; 14; 14; 14; 14; 14; 14; 14; 14; 14; 14; 14; 14; 14; 14; 14; 14; 14; 14; 14; 14; 14; 14; 14; 14;
  14; 14; 14; 14; 14; 14; 14; 14; 14; 14; 14; 14; 14; 14; 14; 14; 14; 14; 14; 14; 14; 14; 14; 14; 14; 14; 14; 14; 14; 14; 14; 14;
  15; 15; 15; 15; 15; 15; 15; 15; 15; 15; 15; 15; 15; 15; 15; 15; 15; 15; 15; 15; 15; 15; 15; 15; 15; 15; 15; 15; 15; 15; 15; 15;
  15; 15; 15; 15; 15; 15; 15; 15; 15; 15; 15; 15; 15; 15; 15; 15; 15; 15; 15; 15; 15; 15; 15; 15; 15; 15; 15; 15; 15; 15; 15; 15;
  16; 17; 18; 18; 19; 19; 20; 20; 20; 20; 21; 21; 21; 21; 22; 22; 22; 22; 22; 22; 22; 22; 23; 23; 23; 23; 23; 23; 23; 23; 24; 24;
  24; 24; 24; 24; 24; 24; 24; 24; 24; 24; 24; 24; 24; 24; 25; 25; 25; 25; 25; 25; 25; 25; 25; 25; 25; 25; 25; 25; 25; 25; 26; 26;
  26; 26; 26; 26; 26; 26; 26; 26; 26; 26; 26; 26; 26; 26; 26; 26; 26; 26; 26; 26; 26; 26; 26; 26; 26; 26; 26; 26; 26; 26; 27; 27;
  27; 27; 27; 27; 27; 27; 27; 27; 27; 27; 27; 27; 27; 27; 27; 27; 27; 27; 27; 27; 27; 27; 27; 27; 27; 27; 27; 27; 27; 27; 28; 28;
  28; 28; 28; 28; 28; 28; 28; 28; 28; 28; 28; 28; 28; 28; 28; 28; 28; 28; 28; 28; 28; 28; 28; 28; 28; 28; 28; 28; 28; 28; 28; 28;
  28; 28; 28; 28; 28; 28; 28; 28; 28; 28; 28; 28; 28; 28; 28; 28; 28; 28; 28; 28; 28; 28; 28; 28; 28; 28; 28; 28; 28; 28; 29; 29;
  29; 29; 29; 29; 29; 29; 29; 29; 29; 29; 29; 29; 29; 29; 29; 29; 29; 29; 29; 29; 29; 29; 29; 29; 29; 29; 29; 29; 29; 29; 29; 29;
  29; 29; 29; 29; 29; 29; 29; 29; 29; 29; 29; 29; 29; 29; 29; 29; 29; 29; 29; 29; 29; 29; 29; 29; 29; 29; 29; 29; 29; 29; 0; 0].

Definition g_nOffsetExtraBits_table : list Z := [
  0; 0; 0; 0; 1; 1; 1; 1; 2; 2; 2; 2; 2; 2; 2; 2; 3; 3; 3; 3; 3; 3; 3; 3; 3; 3; 3; 3; 3; 3; 3; 3;
  4; 4; 4; 4; 4; 4; 4; 4; 4; 4; 4; 4; 4; 4; 4; 4; 4; 4; 4; 4; 4; 4; 4; 4; 4; 4; 4; 4; 4; 4; 4; 4;
  5; 5; 5; 5; 5; 5; 5; 5; 5; 5; 5; 5; 5; 5; 5; 5; 5; 5; 5; 5; 5; 5; 5; 5; 5; 5; 5; 5; 5; 5; 5; 5;
  5; 5; 5; 5; 5; 5; 5; 5; 5; 5; 5; 5; 5; 5; 5; 5; 5; 5; 5; 5; 5; 5; 5; 5; 5; 5; 5; 5; 5; 5; 5; 5;
  6; 6; 6; 6; 6; 6; 6; 6; 6; 6; 6; 6; 6; 6; 6; 6; 6; 6; 6; 6; 6; 6; 6; 6; 6; 6; 6; 6; 6; 6; 6; 6;
  6; 6; 6; 6; 6; 6; 6; 6; 6; 6; 6; 6; 6; 6; 6; 6; 6; 6; 6; 6; 6; 6; 6; 6; 6; 6; 6; 6; 6; 6; 6; 6;
  6; 6; 6; 6; 6; 6; 6; 6; 6; 6; 6; 6; 6; 6; 6; 6; 6; 6; 6; 6; 6; 6; 6; 6; 6; 6; 6; 6; 6; 6; 6; 6;
  6; 6; 6; 6; 6; 6; 6; 6; 6; 6; 6; 6; 6; 6; 6; 6; 6; 6; 6; 6; 6; 6; 6; 6; 6; 6; 6; 6; 6; 6; 6; 6;
  7; 7; 8; 8; 8; 8; 9; 9; 9; 9; 9; 9; 9; 9; 10; 10; 10; 10; 10; 10; 10; 10; 10; 10; 10; 10; 10; 10; 10; 10; 11; 11;
  11; 11; 11; 11; 11; 11; 11; 11; 11; 11; 11; 11; 11; 11; 11; 11; 11; 11; 11; 11; 11; 11; 11; 11; 11; 11; 11; 11; 11; 11; 12; 12;
  12; 12; 12; 12; 12; 12; 12; 12; 12; 12; 12; 12; 12; 12; 12; 12; 12; 12; 12; 12; 12; 12; 12; 12; 12; 12; 12; 12; 12; 12; 12; 12;
  12; 12; 12; 12; 12; 12; 12; 12; 12; 12; 12; 12; 12; 12; 12; 12; 12; 12; 12; 12; 12; 12; 12; 12; 12; 12; 12; 12; 12; 12; 13; 13;
  13; 13; 13; 13; 13; 13; 13; 13; 13; 13; 13; 13; 13; 13; 13; 13; 13; 13; 13; 13; 13; 13; 13; 13; 13; 13; 13; 13; 13; 13; 13; 13;
  13; 13; 13; 13; 13; 13; 13; 13; 13; 13; 13; 13; 13; 13; 13; 13; 13; 13; 13; 13; 13; 13; 13; 13; 13; 13; 13; 13; 13; 13; 13; 13;
  13; 13; 13; 13; 13; 13; 13; 13; 13; 13; 13; 13; 13; 13; 13; 13; 13; 13; 13; 13; 13; 13; 13; 13; 13; 13; 13; 13; 13; 13; 13; 13;
  13; 13; 13; 13; 13; 13; 13; 13; 13; 13; 13; 13; 13; 13; 13; 13; 13; 13; 13; 13; 13; 13; 13; 13; 13; 13; 13; 13; 13; 13; 0; 0].

Definition g_nMatchLenSymbol_table : list Z := [
  257; 258; 259; 260; 261; 262; 263; 264; 265; 265; 266; 266; 267; 267; 268; 268; 269; 269; 269; 269; 270; 270; 270; 270; 271; 271; 271; 271; 272; 272; 272; 272;
  273; 273; 273; 273; 273; 273; 273; 273; 274; 274; 274; 274; 274; 274; 274; 274; 275; 275; 275; 275; 275; 275; 275; 275; 276; 276; 276; 276; 276; 276; 276; 276;
  277; 277; 277; 277; 277; 277; 277; 277; 277; 277; 277; 277; 277; 277; 277; 277; 278; 278; 278; 278; 278; 278; 278; 278; 278; 278; 278; 278; 278; 278; 278; 278;
  279; 279; 279; 279; 279; 279; 279; 279; 279; 279; 279; 279; 279; 279; 279; 279; 280; 280; 280; 280; 280; 280; 280; 280; 280; 280; 280; 280; 280; 280; 280; 280;
  281; 281; 281; 281; 281; 281; 281; 281; 281; 281; 281; 281; 281; 281; 281; 281; 281; 281; 281; 281; 281; 281; 281; 281; 281; 281; 281; 281; 281; 281; 281; 281;
  282; 282; 282; 282; 282; 282; 282; 282; 282; 282; 282; 282; 282; 282; 282; 282; 282; 282; 282; 282; 282; 282; 282; 282; 282; 282; 282; 282; 282; 282; 282; 282;
  283; 283; 283; 283; 283; 283; 283; 283; 283; 283; 283; 283; 283; 283; 283; 283; 283; 283; 283; 283; 283; 283; 283; 283; 283; 283; 283; 283; 283; 283; 283; 283;
  284; 284; 284; 284; 284; 284; 284; 284; 284; 284; 284; 284; 284; 284; 284; 284; 284; 284; 284; 284; 284; 284; 284; 284; 284; 284; 284; 284; 284; 284; 284; 285].

Definition g_nMatchLenExtraBits_table : list Z := [
  0; 0; 0; 0; 0; 0; 0; 0; 1; 1; 1; 1; 1; 1; 1; 1; 2; 2; 2; 2; 2; 2; 2; 2; 2; 2; 2; 2; 2; 2; 2; 2;
  3; 3; 3; 3; 3; 3; 3; 3; 3; 3; 3; 3; 3; 3; 3; 3; 3; 3; 3; 3; 3; 3; 3; 3; 3; 3; 3; 3; 3; 3; 3; 3;
  4; 4; 4; 4; 4; 4; 4; 4; 4; 4; 4; 4; 4; 4; 4; 4; 4; 4; 4; 4; 4; 4; 4; 4; 4; 4; 4; 4; 4; 4; 4; 4;
  4; 4; 4; 4; 4; 4; 4; 4; 4; 4; 4; 4; 4; 4; 4; 4; 4; 4; 4; 4; 4; 4; 4; 4; 4; 4; 4; 4; 4; 4; 4; 4;
  5; 5; 5; 5; 5; 5; 5; 5; 5; 5; 5; 5; 5; 5; 5; 5; 5; 5; 5; 5; 5; 5; 5; 5; 5; 5; 5; 5; 5; 5; 5; 5;
  5; 5; 5; 5; 5; 5; 5; 5; 5; 5; 5; 5; 5; 5; 5; 5; 5; 5; 5; 5; 5; 5; 5; 5; 5; 5; 5; 5; 5; 5; 5; 5;
  5; 5; 5; 5; 5; 5; 5; 5; 5; 5; 5; 5; 5; 5; 5; 5; 5; 5; 5; 5; 5; 5; 5; 5; 5; 5; 5; 5; 5; 5; 5; 5;
  5; 5; 5; 5; 5; 5; 5; 5; 5; 5; 5; 5; 5; 5; 5; 5; 5; 5; 5; 5; 5; 5; 5; 5; 5; 5; 5; 5; 5; 5; 5; 0].

(** Table lookup [t[i]]; every access in the code is in range. *)
Definition tbl (t : list Z) (i : Z) : Z := nth (Z.to_nat i) t 0.

Definition NOFFSETSYMS : Z := 32.
Definition MATCHES_PER_OFFSET_SHIFT : Z := 3.
Definition NMATCHES_PER_OFFSET : nat := 8.
Definition LEAVE_ALONE_MATCH_SIZE : Z := 40.
Definition LAST_LITERALS : Z := 1.
Definition MIN_MATCH_SIZE : Z := 3.

(** [unsigned short] conversion. *)
Definition u16 (x : Z) : Z := x mod 65536.

(** [zultra_match_t] of private.h: two [unsigned short] fields. *)
Record zultra_match_t := mkMatch { length : Z; offset : Z }.

Definition updm (f : Z -> zultra_match_t) (i : Z) (v : zultra_match_t) : Z -> zultra_match_t :=
  fun j => if j =? i then v else f j.

(** A candidate of the dynamic program: (nCurCost, nMatchLen, nMatchOffset),
    the same triple the code keeps as (nBestCost, nBestMatchLen,
    nBestMatchOffset). *)
Definition cand_cost (c : Z * Z * Z) : Z := fst (fst c).
Definition cand_len (c : Z * Z * Z) : Z := snd (fst c).

Section OptimalParser.

(** [pCompressor->literalsEncoder.nCodeLength],
    [pCompressor->offsetEncoder.nCodeLength], [pInWindow] and
    [pCompressor->match]. *)
Variable literals_nCodeLength : array.
Variable offset_nCodeLength : array.
Variable pInWindow : array.
Variable compressor_match : Z -> zultra_match_t.
Variables nStartOffset nEndOffset : Z.

Definition zultra_get_literal_size (nLiteralByte : Z) : Z :=
  if nLiteralByte <? 256 then literals_nCodeLength nLiteralByte else 8.

(** [nLength] is an [unsigned int]: a negative argument wraps and is then
    capped to 255. *)
Definition zultra_get_varlen_size (nLength : Z) : Z :=
  let nLength := u32 nLength in
  let nLength := if nLength >? 255 then 255 else nLength in
  literals_nCodeLength (tbl g_nMatchLenSymbol_table nLength)
    + tbl g_nMatchLenExtraBits_table nLength.

Definition zultra_get_offset_size (nMatchOffset : Z) : Z :=
  let nMatchOffset := u32 (nMatchOffset - 1) in
  if nMatchOffset <? 256 then
    offset_nCodeLength (tbl g_nOffsetSymbol_table nMatchOffset)
      + tbl g_nOffsetExtraBits_table nMatchOffset
  else if nMatchOffset <? 32768 then
    let nMatchOffset := 256 + Z.shiftr (nMatchOffset - 256) 7 in
    offset_nCodeLength (tbl g_nOffsetSymbol_table nMatchOffset)
      + tbl g_nOffsetExtraBits_table nMatchOffset
  else NOFFSETSYMS.

(** [nCachedVarlenSize[LEAVE_ALONE_MATCH_SIZE]], filled for 0..39. *)
Definition nCachedVarlenSize (j : Z) : Z :=
  if (0 <=? j) && (j <? LEAVE_ALONE_MATCH_SIZE) then zultra_get_varlen_size j else 0.

(** [for (k = nMatchLen; k >= MIN_MATCH_SIZE; k--)] with the strict
    [nBestCost > nCurCost] update. *)
Fixpoint k_loop (cost : array) (i nOffsetSize nOffset : Z) (fuel : nat) (k : Z)
    (b : Z * Z * Z) : Z * Z * Z :=
  match fuel with
  | O => b
  | S f =>
      if k >=? MIN_MATCH_SIZE then
        let nCurCost := nCachedVarlenSize (k - MIN_MATCH_SIZE) + (nOffsetSize + cost (i + k)) in
        let b' := if cand_cost b >? nCurCost then (nCurCost, k, nOffset) else b in
        k_loop cost i nOffsetSize nOffset f (k - 1) b'
      else b
  end.

(** The clamped length of a match at [i]. *)
Definition clamp_match_len (i : Z) (pm : zultra_match_t) : Z :=
  if i + length pm >? nEndOffset - LAST_LITERALS
  then nEndOffset - LAST_LITERALS - i else length pm.

(** The body of the [m] loop for one match [pm] at [i]. *)
Definition match_step (cost : array) (i : Z) (pm : zultra_match_t) (b : Z * Z * Z) : Z * Z * Z :=
  let nOffsetSize := zultra_get_offset_size (offset pm) in
  let nMatchLen := clamp_match_len i pm in
  if length pm >=? LEAVE_ALONE_MATCH_SIZE then
    let nCurCost := zultra_get_varlen_size (nMatchLen - MIN_MATCH_SIZE)
                    + (nOffsetSize + cost (i + nMatchLen)) in
    if cand_cost b >? nCurCost then (nCurCost, nMatchLen, offset pm) else b
  else
    k_loop cost i nOffsetSize (offset pm)
      (Z.to_nat (nMatchLen - MIN_MATCH_SIZE + 1)) nMatchLen b.

(** [for (m = 0; m < NMATCHES_PER_OFFSET && pMatch[m].length >= MIN_MATCH_SIZE; m++)];
    the fuel, started at [NMATCHES_PER_OFFSET], is the bound on [m]. *)
Fixpoint m_loop (cost : array) (i : Z) (fuel : nat) (m : Z) (b : Z * Z * Z) : Z * Z * Z :=
  match fuel with
  | O => b
  | S f =>
      let pm := compressor_match (Z.shiftl i MATCHES_PER_OFFSET_SHIFT + m) in
      if length pm >=? MIN_MATCH_SIZE then m_loop cost i f (m + 1) (match_step cost i pm b)
      else b
  end.

(** One iteration of the [i] loop: the best (cost, length, offset) at [i]. *)
Definition position_step (cost : array) (i : Z) : Z * Z * Z :=
  m_loop cost i NMATCHES_PER_OFFSET 0
    (zultra_get_literal_size (pInWindow i) + cost (i + 1), 0, 0).

(** [for (i = nEndOffset - 2; i != (nStartOffset - 1); i--)]; the fuel is
    the number of iterations. [nLastLiteralsOffset] is assigned but never
    read, and is left out. *)
Fixpoint i_loop (fuel : nat) (i : Z) (cost : array) (best_match : Z -> zultra_match_t)
    : array * (Z -> zultra_match_t) :=
  match fuel with
  | O => (cost, best_match)
  | S f =>
      if i =? nStartOffset - 1 then (cost, best_match) else
      let '(nBestCost, nBestMatchLen, nBestMatchOffset) := position_step cost i in
      i_loop f (i - 1) (upd cost i nBestCost)
        (updm best_match i (mkMatch (u16 nBestMatchLen) (u16 nBestMatchOffset)))
  end.

(** [zultra_optimize_matches_lwd]: returns the [cost] array (the reused
    [pos_data]) and [best_match]. *)
Definition zultra_optimize_matches_lwd (cost : array) (best_match : Z -> zultra_match_t)
    : array * (Z -> zultra_match_t) :=
  if nEndOffset <=? nStartOffset then (cost, best_match) else
  let cost := upd cost (nEndOffset - 1) (zultra_get_literal_size (pInWindow (nEndOffset - 1))) in
  let best_match := updm best_match (nEndOffset - 1) (mkMatch 0 0) in
  i_loop (Z.to_nat (nEndOffset - 1 - nStartOffset)) (nEndOffset - 2) cost best_match.

(** The candidates of [position_step] in the order the loops evaluate
    them: the literal, then for each match slot either its single clamped
    length (long matches) or its lengths from the clamped length down to
    [MIN_MATCH_SIZE]. *)
Fixpoint k_candidates (cost : array) (i nOffsetSize nOffset : Z) (fuel : nat) (k : Z)
    : list (Z * Z * Z) :=
  match fuel with
  | O => []
  | S f =>
      if k >=? MIN_MATCH_SIZE then
        (nCachedVarlenSize (k - MIN_MATCH_SIZE) + (nOffsetSize + cost (i + k)), k, nOffset)
          :: k_candidates cost i nOffsetSize nOffset f (k - 1)
      else []
  end.

Definition match_candidates (cost : array) (i : Z) (pm : zultra_match_t) : list (Z * Z * Z) :=
  let nOffsetSize := zultra_get_offset_size (offset pm) in
  let nMatchLen := clamp_match_len i pm in
  if length pm >=? LEAVE_ALONE_MATCH_SIZE then
    [(zultra_get_varlen_size (nMatchLen - MIN_MATCH_SIZE)
        + (nOffsetSize + cost (i + nMatchLen)), nMatchLen, offset pm)]
  else
    k_candidates cost i nOffsetSize (offset pm)
      (Z.to_nat (nMatchLen - MIN_MATCH_SIZE + 1)) nMatchLen.

Fixpoint m_candidates (cost : array) (i : Z) (fuel : nat) (m : Z) : list (Z * Z * Z) :=
  match fuel with
  | O => []
  | S f =>
      let pm := compressor_match (Z.shiftl i MATCHES_PER_OFFSET_SHIFT + m) in
      if length pm >=? MIN_MATCH_SIZE then match_candidates cost i pm ++ m_candidates cost i f (m + 1)
      else []
  end.

Definition parse_candidates (cost : array) (i : Z) : list (Z * Z * Z) :=
  (zultra_get_literal_size (pInWindow i) + cost (i + 1), 0, 0)
    :: m_candidates cost i NMATCHES_PER_OFFSET 0.

End OptimalParser.

(** The strict update [if (nBestCost > nCurCost) ...] shared by the loops. *)
Definition keep_better (b c : Z * Z * Z) : Z * Z * Z :=
  if cand_cost b >? cand_cost c then c else b.

(** Spec-side reading of the tie-break: [x] is the first candidate of
    minimum cost in the list, every earlier candidate costing strictly
    more and no later one less. *)
Definition spec_first_min (l : list (Z * Z * Z)) (x : Z * Z * Z) : Prop :=
  exists pre post, l = pre ++ x :: post
    /\ Forall (fun y => cand_cost y > cand_cost x) pre
    /\ Forall (fun y => cand_cost y >= cand_cost x) post.

End Parser.


(** * Huffman encoder (huffman/huffencoder.c) *)

Module Huffman.

Definition MAX_SYMBOLS : Z := 288.

(** [zultra_huffman_encoder_t]: the arrays hold [MAX_SYMBOLS] entries. *)
Record zultra_huffman_encoder_t := mkEncoder {
  nSymbols : Z;
  nMaxCodeLength : Z;
  nEntropy : array;
  nCodeWord : array;
  nCodeLength : array
}.

Definition set_code_length (e : zultra_huffman_encoder_t) (l : array) :=
  mkEncoder (nSymbols e) (nMaxCodeLength e) (nEntropy e) (nCodeWord e) l.
Definition set_code_word (e : zultra_huffman_encoder_t) (w : array) :=
  mkEncoder (nSymbols e) (nMaxCodeLength e) (nEntropy e) w (nCodeLength e).
Definition set_entropy (e : zultra_huffman_encoder_t) (h : array) :=
  mkEncoder (nSymbols e) (nMaxCodeLength e) h (nCodeWord e) (nCodeLength e).

(** The order of [zultra_huffman_encoder_qsort]: [value[a] > value[b] ||
    (value[a] == value[b] && a > b)] is "b before a". *)
Definition qsort_gt (value : array) (a b : Z) : bool :=
  (value a >? value b) || ((value a =? value b) && (a >? b)).

Definition swap (idx : array) (i j : Z) : array :=
  upd (upd idx i (idx j)) j (idx i).

(** [for (i = left + 1; i <= right; i++)] of the partition; the fuel is the
    number of remaining iterations. *)
Fixpoint qsort_partition (value : array) (fuel : nat) (left i : Z) (idx : array) (last : Z)
    : array * Z :=
  match fuel with
  | O => (idx, last)
  | S f =>
      let tmp := idx i in
      if qsort_gt value (idx left) tmp then
        let last := last + 1 in
        let idx := upd (upd idx i (idx last)) last tmp in
        qsort_partition value f left (i + 1) idx last
      else qsort_partition value f left (i + 1) idx last
  end.

(** [zultra_huffman_encoder_qsort]; the fuel bounds the recursion depth
    and the entry point gives it the size of the range. *)
Fixpoint qsort_rec (value : array) (fuel : nat) (idx : array) (left right : Z) : array :=
  match fuel with
  | O => idx
  | S f =>
      if left >=? right then idx else
      let mid := Z.shiftr (left + right) 1 in
      let idx := swap idx left mid in
      let '(idx, last) := qsort_partition value (Z.to_nat (right - left)) left (left + 1) idx left in
      let idx := swap idx left last in
      let idx := qsort_rec value f idx left (last - 1) in
      qsort_rec value f idx (last + 1) right
  end.

Definition zultra_huffman_encoder_qsort (value idx : array) (left right : Z) : array :=
  qsort_rec value (Z.to_nat (right - left + 1)) idx left right.

(** [zultra_huffman_encoder_init]. *)
Definition zultra_huffman_encoder_init (nSym nMaxLen nDefaultCodeLength : Z)
    : Z * option zultra_huffman_encoder_t :=
  if (nSym <? 0) || (nSym >? MAX_SYMBOLS) || (nMaxLen <? 0) || (nMaxLen >? 32) then (-1, None)
  else (0, Some (mkEncoder nSym nMaxLen (fun _ => 0) (fun _ => 0)
                  (fun i => if (0 <=? i) && (i <? nSym) then nDefaultCodeLength else 0))).

(** [for (i = 0; i < nSymbols; i++) if (test(value[i])) nMinQueue[nNumSorted++] = i;] *)
Fixpoint enum_symbols (test : Z -> bool) (value : array) (fuel : nat) (i : Z) (q : array) (n : Z)
    : array * Z :=
  match fuel with
  | O => (q, n)
  | S f =>
      if test (value i) then enum_symbols test value f (i + 1) (upd q n i) (n + 1)
      else enum_symbols test value f (i + 1) q n
  end.

Definition nonzero (v : Z) : bool := negb (v =? 0).

(** [for (; i < MAX_SYMBOLS; i++) nMinQueue[i] = 0;] *)
Definition clear_from (q : array) (i : Z) : array :=
  fun j => if (i <=? j) && (j <? MAX_SYMBOLS) then 0 else q j.

(** The local [nMinQueue[]], [A[]] and [nMinQueue[]] of the builders are
    not initialised; the model starts them at 0. *)
Definition uninit : array := fun _ => 0.

(** Moffat-Katajainen, phase 1: one node selection. Returns the weight,
    [A], [s] and [r]. *)
Definition mk_select (n : Z) (A : array) (s r t : Z) : Z * array * Z * Z :=
  if (s >=? n) || ((r <? t) && (A r <? A s)) then (A r, upd A r (t + 1), s, r + 1)
  else (A s, A, s + 1, r).

(** [for (t = 0; t < (n - 1); t++)]; returns [A], [s] and [r]. *)
Fixpoint mk_phase1 (n : Z) (fuel : nat) (t : Z) (A : array) (s r : Z) : array * Z * Z :=
  match fuel with
  | O => (A, s, r)
  | S f =>
      let '(nNew, A, s, r) := mk_select n A s r t in
      let '(nNew2, A, s, r) := mk_select n A s r t in
      mk_phase1 n f (t + 1) (upd A t (nNew + nNew2)) s r
  end.

(** Phase 2: [for (t = n - 3; t >= 0; t--) A[t] = A[A[t] - 1] + 1;] *)
Fixpoint mk_phase2 (fuel : nat) (t : Z) (A : array) : array :=
  match fuel with
  | O => A
  | S f => mk_phase2 f (t - 1) (upd A t (A (A t - 1) + 1))
  end.

(** [while (t >= 0 && A[t] == d) { u++; t--; }] *)
Fixpoint mk_count (fuel : nat) (A : array) (d t u : Z) : Z * Z :=
  match fuel with
  | O => (t, u)
  | S f => if (t >=? 0) && (A t =? d) then mk_count f A d (t - 1) (u + 1) else (t, u)
  end.

(** [while (a > u) { A[x] = d; x--; a--; }] *)
Fixpoint mk_assign (fuel : nat) (A : array) (d u x a : Z) : array * Z * Z :=
  match fuel with
  | O => (A, x, a)
  | S f => if a >? u then mk_assign f (upd A x d) d u (x - 1) (a - 1) else (A, x, a)
  end.

(** Phase 3: [while (a > 0) { ...; a = u << 1; d++; u = 0; }]. *)
Fixpoint mk_phase3 (fuel : nat) (A : array) (a u d x t : Z) : array :=
  match fuel with
  | O => A
  | S f =>
      if a >? 0 then
        let '(t, u) := mk_count (Z.to_nat (t + 1)) A d t u in
        let '(A, x, a) := mk_assign (Z.to_nat (a - u)) A d u x a in
        mk_phase3 f A (Z.shiftl u 1) 0 (d + 1) x t
      else A
  end.

(** The code lengths of the [n] sorted entropies [A[0..n-1]]. *)
Definition mk_code_lengths (n : Z) (A : array) : array :=
  let '(A, _, _) := mk_phase1 n (Z.to_nat (n - 1)) 0 A 0 0 in
  let A := upd A (n - 2) 0 in
  let A := mk_phase2 (Z.to_nat (n - 2)) (n - 3) A in
  mk_phase3 (Z.to_nat n + 1) A 1 0 0 (n - 1) (n - 2).

(** [for (i = 0; i < nNumSorted; i++) pEncoder->nCodeLength[nMinQueue[i]] = A[i];]
    after the [memset]. *)
Fixpoint scatter (fuel : nat) (q A : array) (i : Z) (l : array) : array :=
  match fuel with
  | O => l
  | S f => scatter f q A (i + 1) (upd l (q i) (A i))
  end.

Definition zultra_huffman_encoder_estimate_dynamic_codelens (e : zultra_huffman_encoder_t)
    : Z * zultra_huffman_encoder_t :=
  if (nSymbols e <? 0) || (nSymbols e >? MAX_SYMBOLS) then (-1, e) else
  let '(q, nNumSorted) := enum_symbols nonzero (nEntropy e) (Z.to_nat (nSymbols e)) 0 uninit 0 in
  let q := clear_from q (nSymbols e) in
  if nNumSorted >? 1 then
    let q := zultra_huffman_encoder_qsort (nEntropy e) q 0 (nNumSorted - 1) in
    let A := fun i => nEntropy e (q i) in
    let A := mk_code_lengths nNumSorted A in
    (0, set_code_length e (scatter (Z.to_nat nNumSorted) q A 0 (fun _ => 0)))
  else (0, set_code_length e (upd (fun _ => 0) 0 1)).

(** Length limiting, first loop: [for (i = nNumSorted - 1; i >= 0; i--)]
    clamps each length to [nMaxCodeLength] and adds up the Kraft number. *)
Fixpoint limit_clamp (L maxk : Z) (q : array) (fuel : nat) (i : Z) (len : array) (k : Z)
    : array * Z :=
  match fuel with
  | O => (len, k)
  | S f =>
      let n := q i in
      let len := if len n >? L then upd len n L else len in
      limit_clamp L maxk q f (i - 1) len (k + Z.shiftr maxk (len n))
  end.

(** [while (pEncoder->nCodeLength[n] < nMaxCodeLength && k > maxk)
    { pEncoder->nCodeLength[n]++; k -= maxk >> pEncoder->nCodeLength[n]; }] *)
Fixpoint limit_lengthen (L maxk n : Z) (fuel : nat) (len : array) (k : Z) : array * Z :=
  match fuel with
  | O => (len, k)
  | S f =>
      if (len n <? L) && (k >? maxk) then
        let len := upd len n (len n + 1) in
        limit_lengthen L maxk n f len (k - Z.shiftr maxk (len n))
      else (len, k)
  end.

(** [for (i = nNumSorted - 1; k > maxk && i >= 0; i--)]. *)
Fixpoint limit_propagate (L maxk : Z) (q : array) (fuel : nat) (i : Z) (len : array) (k : Z)
    : array * Z :=
  match fuel with
  | O => (len, k)
  | S f =>
      if (k >? maxk) && (i >=? 0) then
        let '(len, k) := limit_lengthen L maxk (q i) (Z.to_nat (L - len (q i))) len k in
        limit_propagate L maxk q f (i - 1) len k
      else (len, k)
  end.

(** [while ((k + (maxk >> pEncoder->nCodeLength[n])) <= maxk)
    { k += maxk >> pEncoder->nCodeLength[n]; pEncoder->nCodeLength[n]--; }];
    the fuel, one more than the length, bounds the iterations while [k > 0]. *)
Fixpoint limit_shorten (maxk n : Z) (fuel : nat) (len : array) (k : Z) : array * Z :=
  match fuel with
  | O => (len, k)
  | S f =>
      if k + Z.shiftr maxk (len n) <=? maxk then
        let k := k + Z.shiftr maxk (len n) in
        limit_shorten maxk n f (upd len n (len n - 1)) k
      else (len, k)
  end.

(** [for (i = 0; k < maxk && i <= nNumSorted; i++)]. *)
Fixpoint limit_reclaim (maxk : Z) (q : array) (fuel : nat) (i nNumSorted : Z) (len : array) (k : Z)
    : array * Z :=
  match fuel with
  | O => (len, k)
  | S f =>
      if (k <? maxk) && (i <=? nNumSorted) then
        let '(len, k) := limit_shorten maxk (q i) (Z.to_nat (len (q i)) + 1) len k in
        limit_reclaim maxk q f (i + 1) nNumSorted len k
      else (len, k)
  end.

(** The length limiting block of [zultra_huffman_encoder_build_dynamic_codewords]. *)
Definition limit_code_lengths (L : Z) (q : array) (nNumSorted : Z) (len : array) : array :=
  let maxk := Z.shiftl 1 L in
  let '(len, k) := limit_clamp L maxk q (Z.to_nat nNumSorted) (nNumSorted - 1) len 0 in
  let '(len, k) := limit_propagate L maxk q (Z.to_nat nNumSorted) (nNumSorted - 1) len k in
  let '(len, k) := limit_reclaim maxk q (Z.to_nat nNumSorted + 1) 0 nNumSorted len k in
  len.

(** The upside-down codeword of [zultra_huffman_encoder_build_dynamic_codewords]. *)
Definition rev_word (w len : Z) : Z :=
  let r := Z.lor (Z.shiftl (Z.land w 21845) 1) (Z.shiftr (Z.land w 43690) 1) in
  let r := Z.lor (Z.shiftl (Z.land r 13107) 2) (Z.shiftr (Z.land r 52428) 2) in
  let r := Z.lor (Z.shiftl (Z.land r 3855) 4) (Z.shiftr (Z.land r 61680) 4) in
  let r := Z.lor (Z.shiftl (Z.land r 255) 8) (Z.shiftr (Z.land r 65280) 8) in
  Z.shiftr r (16 - len).

(** Canonical codeword issue loop. *)
Fixpoint issue_codewords (len q : array) (nNumSorted : Z) (fuel : nat) (i w cl : Z) (cw : array)
    : array :=
  match fuel with
  | O => cw
  | S f =>
      let cw := upd cw (q i) (rev_word w cl) in
      if i + 1 <? nNumSorted then
        let nl := len (q (i + 1)) in
        issue_codewords len q nNumSorted f (i + 1) (u32 (Z.shiftl (w + 1) (nl - cl))) nl cw
      else issue_codewords len q nNumSorted f (i + 1) w cl cw
  end.

Definition zultra_huffman_encoder_build_dynamic_codewords (e0 : zultra_huffman_encoder_t)
    : Z * zultra_huffman_encoder_t :=
  let '(r, e) := zultra_huffman_encoder_estimate_dynamic_codelens e0 in
  if r <? 0 then (-1, e) else
  let '(q, nNumSorted) := enum_symbols nonzero (nCodeLength e) (Z.to_nat (nSymbols e)) 0 uninit 0 in
  let '(q, len) :=
    if (nNumSorted >? 0) && (nMaxCodeLength e >? 0) then
      let q := zultra_huffman_encoder_qsort (nCodeLength e) q 0 (nNumSorted - 1) in
      if nCodeLength e (q (nNumSorted - 1)) >? nMaxCodeLength e then
        let len := limit_code_lengths (nMaxCodeLength e) q nNumSorted (nCodeLength e) in
        (zultra_huffman_encoder_qsort len q 0 (nNumSorted - 1), len)
      else (q, nCodeLength e)
    else (q, nCodeLength e) in
  let e := set_code_length e len in
  if nNumSorted >? 0 then
    (0, set_code_word e (issue_codewords len q nNumSorted (Z.to_nat nNumSorted) 0 0 (len (q 0))
                           (nCodeWord e)))
  else (0, e).

(** [zultra_huffman_encoder_get_defined_var_lengths_count]. *)
Fixpoint defined_count_loop (len : array) (nMinSymbols : Z) (fuel : nat) (i : Z) : Z :=
  match fuel with
  | O => i
  | S f => if (i >? nMinSymbols) && (len (i - 1) =? 0) then defined_count_loop len nMinSymbols f (i - 1) else i
  end.

Definition zultra_huffman_encoder_get_defined_var_lengths_count (e : zultra_huffman_encoder_t)
    (nMinSymbols : Z) : Z :=
  defined_count_loop (nCodeLength e) nMinSymbols (Z.to_nat (nSymbols e - nMinSymbols)) (nSymbols e).

(** The integers [l, l+1, ..., l+n-1] and a sum over a list of them. *)
Fixpoint zseq (l : Z) (n : nat) : list Z :=
  match n with
  | O => []
  | S m => l :: zseq (l + 1) m
  end.

Definition zsum (f : Z -> Z) (xs : list Z) : Z := fold_right (fun x acc => f x + acc) 0 xs.

(** The Kraft number at depth [L] of the symbols [0..nSym-1] with a
    nonzero length: the sum of [2^(L - len[s])] over those symbols. *)
Definition kraft_sum (L : Z) (len : array) (nSym : Z) : Z :=
  zsum (fun s => if len s =? 0 then 0 else 2 ^ (L - len s)) (zseq 0 (Z.to_nat nSym)).

(** Number of symbols among [0..nSym-1] with a nonzero entry. *)
Definition count_nonzero (v : array) (nSym : Z) : Z :=
  zsum (fun s => if v s =? 0 then 0 else 1) (zseq 0 (Z.to_nat nSym)).

End Huffman.

(** ** The final tables of [zultra_block_deflate] (blockdeflate.c) *)
Module BlockTail.
Import Huffman.

Definition NLITERALSYMS : Z := 288.
Definition NOFFSETSYMS : Z := 32.

(** [for (i = 0; nOffsetLens < 2 && i < NOFFSETSYMS - 2; i++)
      if (pCompressor->offsetEncoder.nEntropy[i]) nOffsetLens++;] *)
Fixpoint count_offset_lens (E : array) (fuel : nat) (i nOffsetLens : Z) : Z :=
  match fuel with
  | O => nOffsetLens
  | S f =>
      if (nOffsetLens <? 2) && (i <? NOFFSETSYMS - 2) then
        count_offset_lens E f (i + 1) (if E i =? 0 then nOffsetLens else nOffsetLens + 1)
      else nOffsetLens
  end.

(** The phantom distance frequencies of the last convergence pass. *)
Definition synthesize_phantom_offsets (E : array) : array :=
  let nOffsetLens := count_offset_lens E (Z.to_nat (NOFFSETSYMS - 2)) 0 0 in
  if nOffsetLens =? 0 then upd (upd E 1 1) 0 1
  else if nOffsetLens =? 1 then
    (if negb (E 0 =? 0) then upd E 1 1 else upd E 0 1)
  else E.

(** Modelled from the spec: [zultra_huffman_encoder_optimize_for_rle]
    (huffutils.c). Each maximal span of consecutive positive counts among
    the first [length] symbols is equalised to a common count, the rounded
    average of the span and at least 1; the other counts are kept. *)
Fixpoint rle_run_start (counts : array) (fuel : nat) (i : Z) : Z :=
  match fuel with
  | O => i
  | S f => if (i >? 0) && (counts (i - 1) >? 0) then rle_run_start counts f (i - 1) else i
  end.

(** Modelled from the spec: the last symbol of the span of
    [zultra_huffman_encoder_optimize_for_rle] containing [i]. *)
Fixpoint rle_run_end (counts : array) (length : Z) (fuel : nat) (i : Z) : Z :=
  match fuel with
  | O => i
  | S f => if (i + 1 <? length) && (counts (i + 1) >? 0) then rle_run_end counts length f (i + 1) else i
  end.

(** Modelled from the spec: [zultra_huffman_encoder_optimize_for_rle]. *)
Definition zultra_huffman_encoder_optimize_for_rle (length : Z) (counts : array) : array :=
  fun i =>
    if (0 <=? i) && (i <? length) && (counts i >? 0) then
      let a := rle_run_start counts (Z.to_nat i) i in
      let b := rle_run_end counts length (Z.to_nat (length - i)) i in
      let n := b - a + 1 in
      Z.max 1 ((zsum counts (zseq a (Z.to_nat n)) + n / 2) / n)
    else counts i.

(** blockdeflate.c, from the last [zultra_build_final_entropy_lwd] of the
    convergence passes to [nOffsetSyms]: the phantom frequencies, the
    final builds, the tables rebuilt from RLE-friendly frequencies and
    kept if [zultra_block_evaluate_dynamic_cost] finds them cheaper, and
    the numbers of literal and distance lengths written in the header.
    [zultra_block_evaluate_dynamic_cost] only reads the encoders; its value
    is the parameter [block_cost]. [zultra_post_optimize_block_lwd] changes
    the matches, not the encoders, and is left out. Returns [None] where
    the source returns [-1]. *)
Definition block_final_tables (block_cost : zultra_huffman_encoder_t -> zultra_huffman_encoder_t -> Z)
    (literalsEncoder offsetEncoder : zultra_huffman_encoder_t)
    : option (zultra_huffman_encoder_t * zultra_huffman_encoder_t * Z * Z) :=
  let offsetEncoder := set_entropy offsetEncoder (synthesize_phantom_offsets (nEntropy offsetEncoder)) in
  let '(r, literalsEncoder) := zultra_huffman_encoder_build_dynamic_codewords literalsEncoder in
  if r <? 0 then None else
  let '(r, offsetEncoder) := zultra_huffman_encoder_build_dynamic_codewords offsetEncoder in
  if r <? 0 then None else
  let nCurTotalBitCost := block_cost literalsEncoder offsetEncoder in
  let optLiteralsEncoder := set_entropy literalsEncoder
        (zultra_huffman_encoder_optimize_for_rle NLITERALSYMS (nEntropy literalsEncoder)) in
  let optOffsetEncoder := set_entropy offsetEncoder
        (zultra_huffman_encoder_optimize_for_rle NOFFSETSYMS (nEntropy offsetEncoder)) in
  let '(r, optLiteralsEncoder) := zultra_huffman_encoder_build_dynamic_codewords optLiteralsEncoder in
  if r <? 0 then None else
  let '(r, optOffsetEncoder) := zultra_huffman_encoder_build_dynamic_codewords optOffsetEncoder in
  if r <? 0 then None else
  let nOptTotalBitCost := block_cost optLiteralsEncoder optOffsetEncoder in
  let '(literalsEncoder, offsetEncoder) :=
    if nOptTotalBitCost <? nCurTotalBitCost then (optLiteralsEncoder, optOffsetEncoder)
    else (literalsEncoder, offsetEncoder) in
  Some (literalsEncoder, offsetEncoder,
        zultra_huffman_encoder_get_defined_var_lengths_count literalsEncoder 257,
        zultra_huffman_encoder_get_defined_var_lengths_count offsetEncoder 1).

End BlockTail.

(** ** Code length tables and canonical codewords ([src/huffman/huffencoder.c]) *)
Module CodeLengths.
Import BitWriter Huffman.

(** [format.h] and [huffencoder.h] *)
Definition NCODELENSYMS : Z := 19.
Definition NCODELENBITS : Z := 3.
Definition MAX_CODES_MASK : Z := 31.

(** [zultra_huffman_encoder_codelen_sym_idx] (RFC 1951, 3.2.7). *)
Definition zultra_huffman_encoder_codelen_sym_idx : list Z :=
  [16; 17; 18; 0; 8; 7; 9; 6; 10; 5; 11; 4; 12; 3; 13; 2; 14; 1; 15].

Definition codelen_sym_idx (i : Z) : Z := nth (Z.to_nat i) zultra_huffman_encoder_codelen_sym_idx 0.

(** [zultra_huffman_encoder_write_codeword] *)
Definition zultra_huffman_encoder_write_codeword (e : zultra_huffman_encoder_t) (nSymbol : Z)
    (w : zultra_bitwriter_t) (out : array) : Z * zultra_bitwriter_t * array :=
  if (nSymbol >=? 0) && (nSymbol <? nSymbols e) then
    zultra_bitwriter_put_bits w out (nCodeWord e nSymbol) (nCodeLength e nSymbol)
  else (-1, w, out).

(** [while (i > 4 && !pEncoder->nCodeLength[zultra_huffman_encoder_codelen_sym_idx[i - 1]]) i--;] *)
Fixpoint raw_table_size_loop (len : array) (fuel : nat) (i : Z) : Z :=
  match fuel with
  | O => i
  | S f => if (i >? 4) && (len (codelen_sym_idx (i - 1)) =? 0) then raw_table_size_loop len f (i - 1) else i
  end.

(** [zultra_huffman_encoder_get_raw_table_size] *)
Definition zultra_huffman_encoder_get_raw_table_size (e : zultra_huffman_encoder_t) : Z :=
  raw_table_size_loop (nCodeLength e) (Z.to_nat (nSymbols e - 4)) (nSymbols e).

(** The [while (i < nWriteSymbols)] loop of [zultra_huffman_encoder_write_raw_table];
    the result of [zultra_bitwriter_put_bits] is ignored, as in C. *)
Fixpoint raw_table_loop (e : zultra_huffman_encoder_t) (nLenBits nWriteSymbols : Z) (fuel : nat) (i : Z)
    (w : zultra_bitwriter_t) (out : array) : Z * zultra_bitwriter_t * array :=
  match fuel with
  | O => (0, w, out)
  | S f =>
      if i <? nWriteSymbols then
        let '(_, w, out) := zultra_bitwriter_put_bits w out (nCodeLength e (codelen_sym_idx i)) nLenBits in
        if zultra_bitwriter_get_offset w <? 0 then (-1, w, out)
        else raw_table_loop e nLenBits nWriteSymbols f (i + 1) w out
      else (0, w, out)
  end.

(** [zultra_huffman_encoder_write_raw_table] *)
Definition zultra_huffman_encoder_write_raw_table (e : zultra_huffman_encoder_t) (nLenBits nWriteSymbols : Z)
    (w : zultra_bitwriter_t) (out : array) : Z * zultra_bitwriter_t * array :=
  if (nWriteSymbols <? 4) || (nWriteSymbols >? nSymbols e) then (-1, w, out)
  else if zultra_bitwriter_get_offset w <? 0 then (-1, w, out)
  else raw_table_loop e nLenBits nWriteSymbols (Z.to_nat nWriteSymbols) 0 w out.

(** The code length alphabet emitted by the run-length encoder: a code
    length symbol, or extra bits ([put_bits(v, k)]). *)
Inductive cl_token := TCode (s : Z) | TBits (v k : Z).

(** [zultra_huffman_encoder_update_var_lengths_entropy],
    [zultra_huffman_encoder_get_var_lengths_size] and
    [zultra_huffman_encoder_write_var_lengths] run the same loop; they
    differ in what they do when the loop emits a code length symbol
    ([emit_code]: count it, add its length, write its codeword) or extra
    bits ([emit_bits]: nothing, add their number, write them), in what
    they do with a nonzero length above 15 ([fail_long]: the writer returns
    -1, the others clamp it to 15) and in the writer's offset checks
    ([offset_ok]). The loop is written once, over these parameters. *)
Section VarLengths.
Context {St : Type}.
Variable emit_code : Z -> St -> St.
Variable emit_bits : Z -> Z -> St -> St.
Variable fail_long : bool.
Variable offset_ok : St -> bool.
Variable pCodeLength : array.
Variable nWriteSymbols : Z.
Variable nEnabledCodesMask : Z.

Definition mask_has (b : Z) : bool := negb (Z.land nEnabledCodesMask b =? 0).

(** [while ((i + nRunLen) < nWriteSymbols && pCodeLength[i + nRunLen] == pCodeLength[i]) nRunLen++;] *)
Fixpoint run_length (fuel : nat) (i nRunLen : Z) : Z :=
  match fuel with
  | O => nRunLen
  | S f =>
      if (i + nRunLen <? nWriteSymbols) && (pCodeLength (i + nRunLen) =? pCodeLength i)
      then run_length f i (nRunLen + 1) else nRunLen
  end.

(** [while (nRunLen >= 11 && (nEnabledCodesMask & 4))]: code 18. *)
Fixpoint zero_run_18 (fuel : nat) (i nRunLen : Z) (st : St) : Z * Z * St :=
  match fuel with
  | O => (i, nRunLen, st)
  | S f =>
      if (nRunLen >=? 11) && mask_has 4 then
        let nMaxRunLen := if nRunLen >? 138 then 138 else nRunLen in
        zero_run_18 f (i + nMaxRunLen) (nRunLen - nMaxRunLen) (emit_bits (nMaxRunLen - 11) 7 (emit_code 18 st))
      else (i, nRunLen, st)
  end.

(** [while (nRunLen >= 3 && (nEnabledCodesMask & 2))]: code 17. *)
Fixpoint zero_run_17 (fuel : nat) (i nRunLen : Z) (st : St) : Z * Z * St :=
  match fuel with
  | O => (i, nRunLen, st)
  | S f =>
      if (nRunLen >=? 3) && mask_has 2 then
        let nMaxRunLen := if nRunLen >? 10 then 10 else nRunLen in
        zero_run_17 f (i + nMaxRunLen) (nRunLen - nMaxRunLen) (emit_bits (nMaxRunLen - 3) 3 (emit_code 17 st))
      else (i, nRunLen, st)
  end.

(** [while (nRunLen >= 3 && (nEnabledCodesMask & 1))]: code 16. *)
Fixpoint rep_run_16 (fuel : nat) (i nRunLen : Z) (st : St) : Z * Z * St :=
  match fuel with
  | O => (i, nRunLen, st)
  | S f =>
      if (nRunLen >=? 3) && mask_has 1 then
        let nMaxRunLen := if nRunLen >? 6 then 6 else nRunLen in
        rep_run_16 f (i + nMaxRunLen) (nRunLen - nMaxRunLen) (emit_bits (nMaxRunLen - 3) 2 (emit_code 16 st))
      else (i, nRunLen, st)
  end.

(** The special cases of a repeat of 7 (4 + 3) and 8 (4 + 4) lengths. *)
Definition rep_special (i nRunLen : Z) (st : St) : Z * Z * St :=
  if (nRunLen =? 7) && mask_has 1 && negb (mask_has 8) then
    (i + 7, nRunLen - 7, emit_bits (3 - 3) 2 (emit_code 16 (emit_bits (4 - 3) 2 (emit_code 16 st))))
  else if (nRunLen =? 8) && mask_has 1 && negb (mask_has 16) then
    (i + 8, nRunLen - 8, emit_bits (4 - 3) 2 (emit_code 16 (emit_bits (4 - 3) 2 (emit_code 16 st))))
  else (i, nRunLen, st).

(** [while (i < nWriteSymbols)]; the fuel is the number of remaining
    iterations, each of which consumes at least one length. *)
Fixpoint var_lengths_loop (fuel : nat) (i : Z) (st : St) : Z * St :=
  match fuel with
  | O => (0, st)
  | S f =>
      if i <? nWriteSymbols then
        let nRunLen := run_length (Z.to_nat (nWriteSymbols - i)) i 1 in
        if pCodeLength i =? 0 then
          if nRunLen >=? 3 then
            let '(i, nRunLen, st) := zero_run_18 (Z.to_nat nRunLen) i nRunLen st in
            let '(i, nRunLen, st) := zero_run_17 (Z.to_nat nRunLen) i nRunLen st in
            let '(i, st) := if negb (nRunLen =? 0) then (i + 1, emit_code (pCodeLength i) st) else (i, st) in
            if offset_ok st then var_lengths_loop f i st else (-1, st)
          else var_lengths_loop f (i + 1) (emit_code (pCodeLength i) st)
        else
          let nRunLen := nRunLen - 1 in
          let nCodeLength := pCodeLength i in
          if fail_long && (nCodeLength >? 15) then (-1, st) else
          let nCodeLength := if nCodeLength >? 15 then 15 else nCodeLength in
          let st := emit_code nCodeLength st in
          let '(i, nRunLen, st) := rep_special (i + 1) nRunLen st in
          let '(i, nRunLen, st) := rep_run_16 (Z.to_nat nRunLen) i nRunLen st in
          if offset_ok st then var_lengths_loop f i st else (-1, st)
      else (0, st)
  end.

Definition var_lengths_run (st : St) : Z * St :=
  var_lengths_loop (Z.to_nat nWriteSymbols) 0 st.

End VarLengths.

(** [zultra_huffman_encoder_update_var_lengths_entropy] *)
Definition zultra_huffman_encoder_update_var_lengths_entropy (e : zultra_huffman_encoder_t)
    (nWriteSymbols : Z) (pCodeLength : array) (nEnabledCodesMask : Z) : zultra_huffman_encoder_t :=
  set_entropy e (snd (var_lengths_run (fun s E => upd E s (E s + 1)) (fun _ _ E => E) false (fun _ => true)
                        pCodeLength nWriteSymbols nEnabledCodesMask (nEntropy e))).

(** [zultra_huffman_encoder_get_var_lengths_size] *)
Definition zultra_huffman_encoder_get_var_lengths_size (e : zultra_huffman_encoder_t)
    (nWriteSymbols : Z) (pCodeLength : array) (nEnabledCodesMask : Z) : Z :=
  snd (var_lengths_run (fun s nBitSize => nBitSize + nCodeLength e s) (fun _ k nBitSize => nBitSize + k)
         false (fun _ => true) pCodeLength nWriteSymbols nEnabledCodesMask 0).

(** What [zultra_huffman_encoder_write_var_lengths] does for a code
    length symbol and for extra bits; the results of the writes are
    ignored, as in C. *)
Definition write_code_action (e : zultra_huffman_encoder_t) (s : Z) (st : zultra_bitwriter_t * array)
    : zultra_bitwriter_t * array :=
  let '(_, w, out) := zultra_huffman_encoder_write_codeword e s (fst st) (snd st) in (w, out).

Definition write_bits_action (v k : Z) (st : zultra_bitwriter_t * array) : zultra_bitwriter_t * array :=
  let '(_, w, out) := zultra_bitwriter_put_bits (fst st) (snd st) v k in (w, out).

(** [zultra_huffman_encoder_write_var_lengths] *)
Definition zultra_huffman_encoder_write_var_lengths (e : zultra_huffman_encoder_t)
    (nWriteSymbols : Z) (pCodeLength : array) (nEnabledCodesMask : Z)
    (w : zultra_bitwriter_t) (out : array) : Z * zultra_bitwriter_t * array :=
  if zultra_bitwriter_get_offset w <? 0 then (-1, w, out) else
  let '(r, (w, out)) :=
    var_lengths_run (write_code_action e) write_bits_action
      true (fun st => zultra_bitwriter_get_offset (fst st) >=? 0)
      pCodeLength nWriteSymbols nEnabledCodesMask (w, out) in
  (r, w, out).

(** Recording a code length symbol or extra bits in a token list. *)
Definition trace_code (s : Z) (l : list cl_token) : list cl_token := l ++ [TCode s].
Definition trace_bits (v k : Z) (l : list cl_token) : list cl_token := l ++ [TBits v k].

(** The sequence of code length symbols and extra bits that
    [zultra_huffman_encoder_write_var_lengths] emits. *)
Definition var_lengths_trace (pCodeLength : array) (nWriteSymbols nEnabledCodesMask : Z) : Z * list cl_token :=
  var_lengths_run trace_code trace_bits true (fun _ => true) pCodeLength nWriteSymbols nEnabledCodesMask [].

(** Running a token sequence through the [emit_code]/[emit_bits] actions
    of one of the three functions. *)
Definition replay {St : Type} (emit_code : Z -> St -> St) (emit_bits : Z -> Z -> St -> St)
    (t : list cl_token) (st : St) : St :=
  fold_left (fun st tok => match tok with TCode s => emit_code s st | TBits v k => emit_bits v k st end) t st.

(** The position of the next bit in the output stream: whole bytes
    written plus pending bits. *)
Definition bit_position (w : zultra_bitwriter_t) : Z := 8 * nOutOffset w + nEncBitCount w.

(** The number of bits a token takes with the tables encoder [e]. *)
Definition token_bits (e : zultra_huffman_encoder_t) (t : cl_token) : Z :=
  match t with TCode s => nCodeLength e s | TBits _ k => k end.

(** The number of bits a token sequence takes. *)
Definition tokens_bits (e : zultra_huffman_encoder_t) (t : list cl_token) : Z :=
  zsum (fun x => x) (map (token_bits e) t).

(** How often code [s] occurs in a token sequence. *)
Definition code_count (s : Z) (l : list cl_token) : Z :=
  zsum (fun x => x) (map (fun t => match t with TCode s' => if s' =? s then 1 else 0 | TBits _ _ => 0 end) l).

(** Spec-side: the code length sequence an RFC 1951 (3.2.7) inflater
    reads back: 0-15 is a length; 16 repeats the previous length 3 + (2
    extra bits) times; 17 repeats a zero 3 + (3 bits) times; 18 repeats
    a zero 11 + (7 bits) times. [None] for an ill-formed sequence. *)
Fixpoint rfc1951_read_code_lengths (toks : list cl_token) (acc : list Z) : option (list Z) :=
  match toks with
  | [] => Some acc
  | TCode s :: rest =>
      if (0 <=? s) && (s <=? 15) then rfc1951_read_code_lengths rest (acc ++ [s])
      else
        match rest with
        | TBits v k :: rest' =>
            if (s =? 16) && (k =? 2) && (0 <=? v) && (v <? 4) then
              match acc with
              | [] => None
              | _ :: _ => rfc1951_read_code_lengths rest' (acc ++ repeat (last acc 0) (Z.to_nat (3 + v)))
              end
            else if (s =? 17) && (k =? 3) && (0 <=? v) && (v <? 8) then
              rfc1951_read_code_lengths rest' (acc ++ repeat 0 (Z.to_nat (3 + v)))
            else if (s =? 18) && (k =? 7) && (0 <=? v) && (v <? 128) then
              rfc1951_read_code_lengths rest' (acc ++ repeat 0 (Z.to_nat (11 + v)))
            else None
        | _ => None
        end
  | TBits _ _ :: _ => None
  end.

(** [zultra_huffman_encoder_build_static_codewords]: every symbol is
    enumerated, sorted by code length and given the canonical codeword
    by the same issue loop as the dynamic builder. *)
Definition zultra_huffman_encoder_build_static_codewords (e : zultra_huffman_encoder_t)
    : Z * zultra_huffman_encoder_t :=
  let '(q, nNumSorted) := enum_symbols (fun _ => true) (nCodeLength e) (Z.to_nat (nSymbols e)) 0 uninit 0 in
  if nNumSorted >? 0 then
    let q := zultra_huffman_encoder_qsort (nCodeLength e) q 0 (nNumSorted - 1) in
    (0, set_code_word e (issue_codewords (nCodeLength e) q nNumSorted (Z.to_nat nNumSorted) 0 0
                           (nCodeLength e (q 0)) (nCodeWord e)))
  else (0, e).

(** Spec-side, RFC 1951 3.2.2: [bl_count[l]], the number of symbols of
    [0..nSym-1] with code length [l]. *)
Definition rfc1951_bl_count (len : array) (nSym l : Z) : Z :=
  zsum (fun s => if len s =? l then 1 else 0) (zseq 0 (Z.to_nat nSym)).

(** [code = 0; bl_count[0] = 0; for (bits = 1; bits <= MAX_BITS; bits++)
    { code = (code + bl_count[bits-1]) << 1; next_code[bits] = code; }] *)
Fixpoint rfc1951_next_code (len : array) (nSym : Z) (bits : nat) : Z :=
  match bits with
  | O => 0
  | S b =>
      (rfc1951_next_code len nSym b + (if Z.of_nat b =? 0 then 0 else rfc1951_bl_count len nSym (Z.of_nat b))) * 2
  end.

(** The code of symbol [s]: [next_code[len]] plus the number of smaller
    symbols of the same length. *)
Definition rfc1951_code (len : array) (nSym s : Z) : Z :=
  rfc1951_next_code len nSym (Z.to_nat (len s))
  + zsum (fun t => if len t =? len s then 1 else 0) (zseq 0 (Z.to_nat s)).

(** The [n] low bits of [c] in reverse order: DEFLATE sends Huffman codes
    most significant bit first while the bit writer sends values least
    significant bit first. *)
Fixpoint bit_reverse (n : nat) (c : Z) : Z :=
  match n with
  | O => 0
  | S m => bit_reverse m (c / 2) + (c mod 2) * 2 ^ Z.of_nat m
  end.

End CodeLengths.

(** * Deflate token emission (blockdeflate.c) *)
Module Deflate.
Import BitWriter Huffman Parser CodeLengths.

(** [g_nOffsetBase] and [g_nMatchLenBase]: the base value of each entry of
    the offset and match length tables. *)
Definition g_nOffsetBase_table : list Z := [
  1; 2; 3; 4; 5; 5; 7; 7; 9; 9; 9; 9; 13; 13; 13; 13; 17; 17; 17; 17; 17; 17; 17; 17; 25; 25; 25; 25; 25; 25; 25; 25;
  33; 33; 33; 33; 33; 33; 33; 33; 33; 33; 33; 33; 33; 33; 33; 33; 49; 49; 49; 49; 49; 49; 49; 49; 49; 49; 49; 49; 49; 49; 49; 49;
  65; 65; 65; 65; 65; 65; 65; 65; 65; 65; 65; 65; 65; 65; 65; 65; 65; 65; 65; 65; 65; 65; 65; 65; 65; 65; 65; 65; 65; 65; 65; 65;
  97; 97; 97; 97; 97; 97; 97; 97; 97; 97; 97; 97; 97; 97; 97; 97; 97; 97; 97; 97; 97; 97; 97; 97; 97; 97; 97; 97; 97; 97; 97; 97;
  129; 129; 129; 129; 129; 129; 129; 129; 129; 129; 129; 129; 129; 129; 129; 129; 129; 129; 129; 129; 129; 129; 129; 129; 129; 129; 129; 129; 129; 129; 129; 129;
  129; 129; 129; 129; 129; 129; 129; 129; 129; 129; 129; 129; 129; 129; 129; 129; 129; 129; 129; 129; 129; 129; 129; 129; 129; 129; 129; 129; 129; 129; 129; 129;
  193; 193; 193; 193; 193; 193; 193; 193; 193; 193; 193; 193; 193; 193; 193; 193; 193; 193; 193; 193; 193; 193; 193; 193; 193; 193; 193; 193; 193; 193; 193; 193;
  193; 193; 193; 193; 193; 193; 193; 193; 193; 193; 193; 193; 193; 193; 193; 193; 193; 193; 193; 193; 193; 193; 193; 193; 193; 193; 193; 193; 193; 193; 193; 193;
  257; 385; 513; 513; 769; 769; 1025; 1025; 1025; 1025; 1537; 1537; 1537; 1537; 2049; 2049; 2049; 2049; 2049; 2049; 2049; 2049; 3073; 3073; 3073; 3073; 3073; 3073; 3073; 3073; 4097; 4097;
  4097; 4097; 4097; 4097; 4097; 4097; 4097; 4097; 4097; 4097; 4097; 4097; 4097; 4097; 6145; 6145; 6145; 6145; 6145; 6145; 6145; 6145; 6145; 6145; 6145; 6145; 6145; 6145; 6145; 6145; 8193; 8193;
  8193; 8193; 8193; 8193; 8193; 8193; 8193; 8193; 8193; 8193; 8193; 8193; 8193; 8193; 8193; 8193; 8193; 8193; 8193; 8193; 8193; 8193; 8193; 8193; 8193; 8193; 8193; 8193; 8193; 8193; 12289; 12289;
  12289; 12289; 12289; 12289; 12289; 12289; 12289; 12289; 12289; 12289; 12289; 12289; 12289; 12289; 12289; 12289; 12289; 12289; 12289; 12289; 12289; 12289; 12289; 12289; 12289; 12289; 12289; 12289; 12289; 12289; 16385; 16385;
  16385; 16385; 16385; 16385; 16385; 16385; 16385; 16385; 16385; 16385; 16385; 16385; 16385; 16385; 16385; 16385; 16385; 16385; 16385; 16385; 16385; 16385; 16385; 16385; 16385; 16385; 16385; 16385; 16385; 16385; 16385; 16385;
  16385; 16385; 16385; 16385; 16385; 16385; 16385; 16385; 16385; 16385; 16385; 16385; 16385; 16385; 16385; 16385; 16385; 16385; 16385; 16385; 16385; 16385; 16385; 16385; 16385; 16385; 16385; 16385; 16385; 16385; 24577; 24577;
  24577; 24577; 24577; 24577; 24577; 24577; 24577; 24577; 24577; 24577; 24577; 24577; 24577; 24577; 24577; 24577; 24577; 24577; 24577; 24577; 24577; 24577; 24577; 24577; 24577; 24577; 24577; 24577; 24577; 24577; 24577; 24577;
  24577; 24577; 24577; 24577; 24577; 24577; 24577; 24577; 24577; 24577; 24577; 24577; 24577; 24577; 24577; 24577; 24577; 24577; 24577; 24577; 24577; 24577; 24577; 24577; 24577; 24577; 24577; 24577; 24577; 24577; 0; 0].

Definition g_nMatchLenBase_table : list Z := [
  0; 1; 2; 3; 4; 5; 6; 7; 8; 8; 10; 10; 12; 12; 14; 14; 16; 16; 16; 16; 20; 20; 20; 20; 24; 24; 24; 24; 28; 28; 28; 28;
  32; 32; 32; 32; 32; 32; 32; 32; 40; 40; 40; 40; 40; 40; 40; 40; 48; 48; 48; 48; 48; 48; 48; 48; 56; 56; 56; 56; 56; 56; 56; 56;
  64; 64; 64; 64; 64; 64; 64; 64; 64; 64; 64; 64; 64; 64; 64; 64; 80; 80; 80; 80; 80; 80; 80; 80; 80; 80; 80; 80; 80; 80; 80; 80;
  96; 96; 96; 96; 96; 96; 96; 96; 96; 96; 96; 96; 96; 96; 96; 96; 112; 112; 112; 112; 112; 112; 112; 112; 112; 112; 112; 112; 112; 112; 112; 112;
  128; 128; 128; 128; 128; 128; 128; 128; 128; 128; 128; 128; 128; 128; 128; 128; 128; 128; 128; 128; 128; 128; 128; 128; 128; 128; 128; 128; 128; 128; 128; 128;
  160; 160; 160; 160; 160; 160; 160; 160; 160; 160; 160; 160; 160; 160; 160; 160; 160; 160; 160; 160; 160; 160; 160; 160; 160; 160; 160; 160; 160; 160; 160; 160;
  192; 192; 192; 192; 192; 192; 192; 192; 192; 192; 192; 192; 192; 192; 192; 192; 192; 192; 192; 192; 192; 192; 192; 192; 192; 192; 192; 192; 192; 192; 192; 192;
  224; 224; 224; 224; 224; 224; 224; 224; 224; 224; 224; 224; 224; 224; 224; 224; 224; 224; 224; 224; 224; 224; 224; 224; 224; 224; 224; 224; 224; 224; 224; 255].

(** [g_nRevMatchSymbolBits] and [g_nRevOffsetSymbolBits]: the number of
    extra bits of each match length symbol (from [NMATCHLENSYMSTART]) and
    of each offset symbol. *)
Definition g_nRevMatchSymbolBits_table : list Z := [
  0; 0; 0; 0; 0; 0; 0; 0; 1; 1; 1; 1; 2; 2; 2; 2; 3; 3; 3; 3; 4; 4; 4; 4; 5; 5; 5; 5; 0].

Definition g_nRevOffsetSymbolBits_table : list Z := [
  0; 0; 0; 0; 1; 1; 2; 2; 3; 3; 4; 4; 5; 5; 6; 6; 7; 7; 8; 8; 9; 9; 10; 10; 11; 11; 12; 12; 13; 13; 0; 0].

Definition NEODMARKERSYM : Z := 256.
Definition NMATCHLENSYMSTART : Z := 257.
Definition NMATCHLENSYMS : Z := 29.
Definition MIN_OFFSET : Z := 1.
Definition MAX_OFFSET : Z := 32768.

(** [zultra_get_offset_symbol]; [nMatchOffset] is an [unsigned int]. *)
Definition zultra_get_offset_symbol (nMatchOffset : Z) : Z :=
  let nMatchOffset := u32 (nMatchOffset - 1) in
  if nMatchOffset <? 256 then tbl g_nOffsetSymbol_table nMatchOffset
  else if nMatchOffset <? 32768 then tbl g_nOffsetSymbol_table (256 + Z.shiftr (nMatchOffset - 256) 7)
  else NOFFSETSYMS.

(** [zultra_get_varlen_symbol]; [nLength] is an [unsigned int]. *)
Definition zultra_get_varlen_symbol (nLength : Z) : Z :=
  let nLength := u32 nLength in
  let nLength := if nLength >? 255 then 255 else nLength in
  tbl g_nMatchLenSymbol_table nLength.

(** [zultra_write_literal], on [pCompressor->literalsEncoder]. *)
Definition zultra_write_literal (lit : zultra_huffman_encoder_t) (nLiteralByte : Z)
    (w : zultra_bitwriter_t) (out : array) : Z * zultra_bitwriter_t * array :=
  let nLiteralByte := u32 nLiteralByte in
  if nLiteralByte >=? 256 then (-1, w, out) else
  let '(r, w, out) := zultra_huffman_encoder_write_codeword lit nLiteralByte w out in
  if r <? 0 then (-1, w, out) else (0, w, out).

(** The symbol, base and number of extra bits [zultra_write_offset] looks
    up for [nMatchOffset], or [None] when it returns -1 on the range test. *)
Definition offset_fields (nMatchOffset : Z) : option (Z * Z * Z) :=
  let nMatchOffsetIdx := u32 (nMatchOffset - 1) in
  if nMatchOffsetIdx <? 256 then
    Some (tbl g_nOffsetSymbol_table nMatchOffsetIdx, tbl g_nOffsetBase_table nMatchOffsetIdx,
          tbl g_nOffsetExtraBits_table nMatchOffsetIdx)
  else if nMatchOffsetIdx <? 32768 then
    let nMatchOffsetIdx := 256 + Z.shiftr (nMatchOffsetIdx - 256) 7 in
    Some (tbl g_nOffsetSymbol_table nMatchOffsetIdx, tbl g_nOffsetBase_table nMatchOffsetIdx,
          tbl g_nOffsetExtraBits_table nMatchOffsetIdx)
  else None.

(** [zultra_write_offset], on [pCompressor->offsetEncoder]. *)
Definition zultra_write_offset (off : zultra_huffman_encoder_t) (nMatchOffset : Z)
    (w : zultra_bitwriter_t) (out : array) : Z * zultra_bitwriter_t * array :=
  match offset_fields nMatchOffset with
  | None => (-1, w, out)
  | Some (nSymbol, nBase, nExtraBits) =>
      let nDisp := u32 (nMatchOffset - nBase) in
      let '(r, w, out) := zultra_huffman_encoder_write_codeword off nSymbol w out in
      if r <? 0 then (-1, w, out) else
      let '(r, w, out) := zultra_bitwriter_put_bits w out nDisp nExtraBits in
      if r <? 0 then (-1, w, out) else (0, w, out)
  end.

(** [zultra_write_varlen], on [pCompressor->literalsEncoder]; [nLength]
    is the match length minus [MIN_MATCH_SIZE], an [unsigned int]. *)
Definition zultra_write_varlen (lit : zultra_huffman_encoder_t) (nLength : Z)
    (w : zultra_bitwriter_t) (out : array) : Z * zultra_bitwriter_t * array :=
  let nLength := u32 nLength in
  let nLengthIdx := if nLength >? 255 then 255 else nLength in
  let nSymbol := tbl g_nMatchLenSymbol_table nLengthIdx in
  let nBase := tbl g_nMatchLenBase_table nLengthIdx in
  let nExtraBits := tbl g_nMatchLenExtraBits_table nLengthIdx in
  let nDisp := u32 (nLength - nBase) in
  let '(r, w, out) := zultra_huffman_encoder_write_codeword lit nSymbol w out in
  if r <? 0 then (-1, w, out) else
  let '(r, w, out) := zultra_bitwriter_put_bits w out nDisp nExtraBits in
  if r <? 0 then (-1, w, out) else (0, w, out).

(** The [for (i = nStartOffset; i < nEndOffset; )] loop of
    [zultra_write_block_lwd]; the fuel bounds the number of iterations. *)
Fixpoint write_block_loop (lit off : zultra_huffman_encoder_t) (pInWindow : array)
    (best_match : Z -> zultra_match_t) (nEndOffset : Z) (fuel : nat) (i : Z)
    (w : zultra_bitwriter_t) (out : array) : Z * zultra_bitwriter_t * array :=
  match fuel with
  | O => (0, w, out)
  | S f =>
      if i <? nEndOffset then
        let pMatch := best_match i in
        if length pMatch >=? MIN_MATCH_SIZE then
          let nMatchOffset := offset pMatch in
          let nMatchLen := length pMatch in
          let nEncodedMatchLen := u32 (nMatchLen - MIN_MATCH_SIZE) in
          if (nMatchOffset <? MIN_OFFSET) || (nMatchOffset >? MAX_OFFSET) then (-1, w, out) else
          let '(r, w, out) := zultra_write_varlen lit nEncodedMatchLen w out in
          if r <? 0 then (-1, w, out) else
          let '(r, w, out) := zultra_write_offset off nMatchOffset w out in
          if r <? 0 then (-1, w, out) else
          write_block_loop lit off pInWindow best_match nEndOffset f (i + nMatchLen) w out
        else
          let '(r, w, out) := zultra_write_literal lit (pInWindow i) w out in
          if r <? 0 then (-1, w, out) else
          write_block_loop lit off pInWindow best_match nEndOffset f (i + 1) w out
      else (0, w, out)
  end.

(** [zultra_write_block_lwd]: the tokens of [best_match] over
    [nStartOffset..nEndOffset-1], then the end-of-block marker. *)
Definition zultra_write_block_lwd (lit off : zultra_huffman_encoder_t) (pInWindow : array)
    (best_match : Z -> zultra_match_t) (nStartOffset nEndOffset : Z)
    (w : zultra_bitwriter_t) (out : array) : Z * zultra_bitwriter_t * array :=
  let '(r, w, out) := write_block_loop lit off pInWindow best_match nEndOffset
                        (Z.to_nat (nEndOffset - nStartOffset)) nStartOffset w out in
  if r <? 0 then (-1, w, out) else
  let '(r, w, out) := zultra_huffman_encoder_write_codeword lit NEODMARKERSYM w out in
  if r <? 0 then (-1, w, out) else (0, w, out).

(** [nEntropy[i]++]. *)
Definition incr (a : array) (i : Z) : array := upd a i (a i + 1).

(** The loop of [zultra_build_final_entropy_lwd] over [best_match]; it
    returns the literal and offset entropies. *)
Fixpoint final_entropy_loop (pInWindow : array) (best_match : Z -> zultra_match_t) (nEndOffset : Z)
    (fuel : nat) (i : Z) (elit eoff : array) : array * array :=
  match fuel with
  | O => (elit, eoff)
  | S f =>
      if i <? nEndOffset then
        let pMatch := best_match i in
        if length pMatch >=? MIN_MATCH_SIZE then
          let nMatchOffset := offset pMatch in
          let nMatchLen := length pMatch in
          let nEncodedMatchLen := u32 (nMatchLen - MIN_MATCH_SIZE) in
          let elit := incr elit (zultra_get_varlen_symbol nEncodedMatchLen) in
          let eoff := incr eoff (zultra_get_offset_symbol nMatchOffset) in
          final_entropy_loop pInWindow best_match nEndOffset f (i + nMatchLen) elit eoff
        else
          let nByte := pInWindow i in
          let elit := if nByte <? 256 then incr elit nByte else elit in
          final_entropy_loop pInWindow best_match nEndOffset f (i + 1) elit eoff
      else (elit, eoff)
  end.

(** [zultra_build_final_entropy_lwd]: counts the symbols of the parse and
    the end-of-block marker into the two encoders. *)
Definition zultra_build_final_entropy_lwd (lit off : zultra_huffman_encoder_t) (pInWindow : array)
    (best_match : Z -> zultra_match_t) (nStartOffset nEndOffset : Z)
    : zultra_huffman_encoder_t * zultra_huffman_encoder_t :=
  let '(elit, eoff) := final_entropy_loop pInWindow best_match nEndOffset
                         (Z.to_nat (nEndOffset - nStartOffset)) nStartOffset (nEntropy lit) (nEntropy off) in
  (set_entropy lit (incr elit NEODMARKERSYM), set_entropy off eoff).

(** The first three loops of [zultra_block_evaluate_dynamic_cost]: the
    cost in bits of the block data under the encoders' entropies and
    code lengths. *)
Definition evaluate_data_cost (lit off : zultra_huffman_encoder_t) : Z :=
  zsum (fun i => nEntropy lit i * nCodeLength lit i) (zseq 0 (Z.to_nat NMATCHLENSYMSTART))
  + zsum (fun i => nEntropy lit i * (nCodeLength lit i + tbl g_nRevMatchSymbolBits_table (i - NMATCHLENSYMSTART)))
         (zseq NMATCHLENSYMSTART (Z.to_nat NMATCHLENSYMS))
  + zsum (fun i => nEntropy off i * (nCodeLength off i + tbl g_nRevOffsetSymbolBits_table i))
         (zseq 0 (Z.to_nat NOFFSETSYMS)).

(** The [for (j = 0; j < nMatchLen && nLiteralsCost < nMatchCost; j++)]
    loop of [zultra_post_optimize_block_lwd]: the cost of the match's
    bytes as literals, or -1 when one of them has no code. *)
Fixpoint literals_cost_loop (nCodeLength pInWindow : array) (nStartIdx nMatchLen nMatchCost : Z)
    (fuel : nat) (j nLiteralsCost : Z) : Z :=
  match fuel with
  | O => nLiteralsCost
  | S f =>
      if (j <? nMatchLen) && (nLiteralsCost <? nMatchCost) then
        let nCurLiteralCost := nCodeLength (pInWindow (nStartIdx + j)) in
        if nCurLiteralCost =? 0 then -1
        else literals_cost_loop nCodeLength pInWindow nStartIdx nMatchLen nMatchCost f (j + 1)
               (nLiteralsCost + nCurLiteralCost)
      else nLiteralsCost
  end.

(** [for (j = 0; j < nMatchLen; j++) pCompressor->best_match[nStartIdx + j].length = 0;] *)
Fixpoint clear_match_loop (best_match : Z -> zultra_match_t) (nStartIdx nMatchLen : Z) (fuel : nat) (j : Z)
    : Z -> zultra_match_t :=
  match fuel with
  | O => best_match
  | S f =>
      if j <? nMatchLen then
        clear_match_loop (updm best_match (nStartIdx + j) (mkMatch 0 (offset (best_match (nStartIdx + j)))))
          nStartIdx nMatchLen f (j + 1)
      else best_match
  end.

(** The [for (i = nStartOffset; i < nEndOffset; )] loop of
    [zultra_post_optimize_block_lwd]; [literals_nCodeLength] and
    [offset_nCodeLength] are the code lengths of the two encoders. *)
Fixpoint post_optimize_loop (literals_nCodeLength offset_nCodeLength pInWindow : array) (nEndOffset : Z)
    (fuel : nat) (i : Z) (best_match : Z -> zultra_match_t) : Z -> zultra_match_t :=
  match fuel with
  | O => best_match
  | S f =>
      if i <? nEndOffset then
        let pMatch := best_match i in
        if length pMatch >=? MIN_MATCH_SIZE then
          let nMatchOffset := offset pMatch in
          let nMatchLen := length pMatch in
          let nEncodedMatchLen := u32 (nMatchLen - MIN_MATCH_SIZE) in
          let nStartIdx := i in
          let i := i + nMatchLen in
          if (nMatchOffset <? MIN_OFFSET) || (nMatchOffset >? MAX_OFFSET) then
            post_optimize_loop literals_nCodeLength offset_nCodeLength pInWindow nEndOffset f i best_match
          else
            let nMatchCost := zultra_get_varlen_size literals_nCodeLength nEncodedMatchLen
                              + zultra_get_offset_size offset_nCodeLength nMatchOffset in
            let nLiteralsCost := literals_cost_loop literals_nCodeLength pInWindow nStartIdx nMatchLen nMatchCost
                                   (Z.to_nat nMatchLen) 0 0 in
            if nLiteralsCost =? -1 then
              post_optimize_loop literals_nCodeLength offset_nCodeLength pInWindow nEndOffset f i best_match
            else if nLiteralsCost <? nMatchCost then
              post_optimize_loop literals_nCodeLength offset_nCodeLength pInWindow nEndOffset f i
                (clear_match_loop best_match nStartIdx nMatchLen (Z.to_nat nMatchLen) 0)
            else
              post_optimize_loop literals_nCodeLength offset_nCodeLength pInWindow nEndOffset f i best_match
        else
          post_optimize_loop literals_nCodeLength offset_nCodeLength pInWindow nEndOffset f (i + 1) best_match
      else best_match
  end.

(** [zultra_post_optimize_block_lwd]: the rewritten [best_match] array. *)
Definition zultra_post_optimize_block_lwd (literals_nCodeLength offset_nCodeLength pInWindow : array)
    (best_match : Z -> zultra_match_t) (nStartOffset nEndOffset : Z) : Z -> zultra_match_t :=
  post_optimize_loop literals_nCodeLength offset_nCodeLength pInWindow nEndOffset
    (Z.to_nat (nEndOffset - nStartOffset)) nStartOffset best_match.

(** [nStaticLiteralCodeLength] of [zultra_block_evaluate_static_cost]
    (RFC 1951 3.2.6). *)
Definition nStaticLiteralCodeLength (i : Z) : Z :=
  if i <? 144 then 8 else if i <? 256 then 9 else if i <? 280 then 7 else 8.

(** [zultra_block_evaluate_static_cost]: the cost written to
    [*pStaticCost] (the function returns 0). *)
Definition zultra_block_evaluate_static_cost (lit off : zultra_huffman_encoder_t) : Z :=
  zsum (fun i => nEntropy lit i * nStaticLiteralCodeLength i) (zseq 0 (Z.to_nat NMATCHLENSYMSTART))
  + zsum (fun i => nEntropy lit i * (nStaticLiteralCodeLength i + tbl g_nRevMatchSymbolBits_table (i - NMATCHLENSYMSTART)))
         (zseq NMATCHLENSYMSTART (Z.to_nat NMATCHLENSYMS))
  + zsum (fun i => nEntropy off i * (5 + tbl g_nRevOffsetSymbolBits_table i)) (zseq 0 (Z.to_nat NOFFSETSYMS))
  + 3.

(** Spec-side, RFC 1951 3.2.5: the base lengths of the length codes
    257..285 and their extra bits, the base distances of the distance
    codes 0..29 and their extra bits. *)
Definition rfc1951_length_base : list Z :=
  [3; 4; 5; 6; 7; 8; 9; 10; 11; 13; 15; 17; 19; 23; 27; 31; 35; 43; 51; 59; 67; 83; 99; 115; 131; 163; 195; 227; 258].
Definition rfc1951_length_extra : list Z :=
  [0; 0; 0; 0; 0; 0; 0; 0; 1; 1; 1; 1; 2; 2; 2; 2; 3; 3; 3; 3; 4; 4; 4; 4; 5; 5; 5; 5; 0].
Definition rfc1951_dist_base : list Z :=
  [1; 2; 3; 4; 5; 7; 9; 13; 17; 25; 33; 49; 65; 97; 129; 193; 257; 385; 513; 769; 1025; 1537; 2049; 3073;
   4097; 6145; 8193; 12289; 16385; 24577].
Definition rfc1951_dist_extra : list Z :=
  [0; 0; 0; 0; 1; 1; 2; 2; 3; 3; 4; 4; 5; 5; 6; 6; 7; 7; 8; 8; 9; 9; 10; 10; 11; 11; 12; 12; 13; 13].

(** The length code of a match length in [3..258]: the last code whose
    base is at most the length. *)
Definition rfc1951_length_code (len : Z) : Z :=
  256 + Z.of_nat (List.length (filter (fun b => b <=? len) rfc1951_length_base)).

(** The distance code of a distance in [1..32768]. *)
Definition rfc1951_dist_code (d : Z) : Z :=
  Z.of_nat (List.length (filter (fun b => b <=? d) rfc1951_dist_base)) - 1.

(** Spec-side, RFC 1951 3.2.5: a distance is sent as the code of its
    distance code, then the distance minus the code's base in as many
    extra bits as the code has. *)
Definition rfc1951_write_distance (off : zultra_huffman_encoder_t) (d : Z)
    (w : zultra_bitwriter_t) (out : array) : Z * zultra_bitwriter_t * array :=
  let c := rfc1951_dist_code d in
  let '(r, w, out) := zultra_huffman_encoder_write_codeword off c w out in
  if r <? 0 then (-1, w, out) else
  let '(r, w, out) := zultra_bitwriter_put_bits w out (d - nth (Z.to_nat c) rfc1951_dist_base 0)
                        (nth (Z.to_nat c) rfc1951_dist_extra 0) in
  if r <? 0 then (-1, w, out) else (0, w, out).

(** Spec-side, RFC 1951 3.2.5: a match length is sent the same way with
    the length codes 257..285. *)
Definition rfc1951_write_length (lit : zultra_huffman_encoder_t) (len : Z)
    (w : zultra_bitwriter_t) (out : array) : Z * zultra_bitwriter_t * array :=
  let c := rfc1951_length_code len in
  let '(r, w, out) := zultra_huffman_encoder_write_codeword lit c w out in
  if r <? 0 then (-1, w, out) else
  let '(r, w, out) := zultra_bitwriter_put_bits w out (len - nth (Z.to_nat (c - 257)) rfc1951_length_base 0)
                        (nth (Z.to_nat (c - 257)) rfc1951_length_extra 0) in
  if r <? 0 then (-1, w, out) else (0, w, out).

End Deflate.

(** ** Runs of bit writes *)
Module BitSequence.
Import BitWriter.

(** A run of [zultra_bitwriter_put_bits] calls on [(value, bits)] pairs,
    stopping at the first failing one, as the callers of the bit writer
    write it: [if (zultra_bitwriter_put_bits(pBitWriter, v, n) < 0) return -1;]. *)
Fixpoint put_bits_seq (w : zultra_bitwriter_t) (out : array) (l : list (Z * Z))
  : Z * zultra_bitwriter_t * array :=
  match l with
  | [] => (0, w, out)
  | (v, n) :: l' =>
      let '(r, w1, o1) := zultra_bitwriter_put_bits w out v n in
      if r <? 0 then (r, w1, o1) else put_bits_seq w1 o1 l'
  end.

(** The bit string of a run, least significant bit first: each value
    placed above the bits of the values before it. *)
Fixpoint seq_value (l : list (Z * Z)) : Z :=
  match l with
  | [] => 0
  | (v, n) :: l' => v + 2 ^ n * seq_value l'
  end.

(** The number of bits of a run. *)
Fixpoint seq_bits (l : list (Z * Z)) : Z :=
  match l with
  | [] => 0
  | (_, n) :: l' => n + seq_bits l'
  end.

End BitSequence.

(** * Proofs *)

Lemma upd_eq (a : array) k v : upd a k v k = v.
Proof. unfold upd. now rewrite Z.eqb_refl. Qed.

Lemma upd_neq (a : array) k v j : j <> k -> upd a k v j = a j.
Proof. intro H. unfold upd. destruct (Z.eqb_spec j k); congruence. Qed.

(** ** Bit writer *)
Module BitWriterProofs.
Import BitWriter.

(** The byte-flushing loop: [k] iterations write [k] bytes at the
    current offset, unless the buffer end is reached first. *)
Lemma flush_whole_bytes_spec (k : nat) : forall w out r w' out',
  8 * Z.of_nat k <= nEncBitCount w ->
  nOutOffset w <= nMaxOutDataOffset w ->
  flush_whole_bytes k w out = (r, w', out') ->
  if nOutOffset w + Z.of_nat k >? nMaxOutDataOffset w then r = -1
  else (r = 0 /\ nEncBitCount w' = nEncBitCount w - 8 * Z.of_nat k /\
       nOutOffset w' = nOutOffset w + Z.of_nat k /\
       nMaxOutDataOffset w' = nMaxOutDataOffset w /\
       (forall j, j < nOutOffset w \/ nOutOffset w + Z.of_nat k <= j -> out' j = out j) /\
       (forall j, nOutOffset w <= j < nOutOffset w + Z.of_nat k -> 0 <= out' j < 256) /\
       (0 <= nEncBitsData w ->
        bytes_value out' (nOutOffset w) k + nEncBitsData w' * 2 ^ (8 * Z.of_nat k)
          = nEncBitsData w /\
        nEncBitsData w' = nEncBitsData w / 2 ^ (8 * Z.of_nat k))).
Proof.
  induction k as [|k IH]; intros [c d o mx] out r w' out' Hc Ho E;
    cbn [flush_whole_bytes] in E; cbn [nEncBitCount nOutOffset nMaxOutDataOffset nEncBitsData] in *.
  - inversion E; subst. destruct (_ >? _) eqn:G; [apply Z.gtb_lt in G; lia|].
    cbn. repeat split; try lia; intros; try lia; try rewrite Z.div_1_r; lia.
  - rewrite Nat2Z.inj_succ in *.
    replace (c >=? 8) with true in E by (symmetry; apply Z.geb_le; lia).
    destruct (o >=? mx) eqn:Eo.
    + inversion E; subst. apply Z.geb_le in Eo.
      rewrite (proj2 (Z.gtb_lt _ _)) by lia. reflexivity.
    + rewrite Z.geb_leb in Eo; apply Z.leb_gt in Eo.
      apply IH in E; [|cbn [nEncBitCount nOutOffset nMaxOutDataOffset]; lia..].
      clear IH. rename E into IH. cbn [nEncBitCount nOutOffset nMaxOutDataOffset nEncBitsData] in IH.
      replace (o + Z.succ (Z.of_nat k)) with (o + 1 + Z.of_nat k) by lia.
      destruct (o + 1 + Z.of_nat k >? mx); [exact IH|].
      destruct IH as (-> & Hc' & Ho' & Hm' & Hout & Hb & Hd).
      assert (Hout0 : out' o = d mod 256).
      { rewrite Hout by lia. apply upd_eq. }
      repeat split; try lia.
      * intros j Hj. rewrite Hout by lia. apply upd_neq. lia.
      * destruct (Z.eq_dec j o) as [->|Hne].
        -- rewrite Hout0. apply Z.mod_pos_bound. lia.
        -- apply Hb. lia.
      * destruct (Z.eq_dec j o) as [->|Hne].
        -- rewrite Hout0. apply Z.mod_pos_bound. lia.
        -- apply Hb. lia.
      * rewrite Z.shiftr_div_pow2 in Hd by lia. change (2 ^ 8) with 256 in Hd.
        destruct Hd as [Hd1 Hd2]; [apply Z.div_pos; lia|].
        cbn [bytes_value]. rewrite Hout0.
        replace (8 * Z.succ (Z.of_nat k)) with (8 + 8 * Z.of_nat k) by lia.
        rewrite Z.pow_add_r by lia. change (2 ^ 8) with 256.
        pose proof (Z.div_mod d 256 ltac:(lia)). nia.
      * rewrite Z.shiftr_div_pow2 in Hd by lia. change (2 ^ 8) with 256 in Hd.
        destruct Hd as [_ Hd2]; [apply Z.div_pos; lia|].
        rewrite Hd2, Z.div_div by (try apply Z.pow_pos_nonneg; lia).
        f_equal. replace (8 * Z.succ (Z.of_nat k)) with (8 + 8 * Z.of_nat k) by lia.
        now rewrite Z.pow_add_r by lia.
Qed.


Lemma lor_disjoint_add (a b c : Z) :
  0 <= c -> 0 <= a < 2 ^ c -> Z.lor a (b * 2 ^ c) = a + b * 2 ^ c.
Proof.
  intros Hc Ha. rewrite <- Z.shiftl_mul_pow2 by lia.
  assert (H0 : Z.land a (Z.shiftl b c) = 0).
  { apply Z.bits_inj'. intros i Hi. rewrite Z.land_spec, Z.bits_0.
    destruct (Z.lt_ge_cases i c).
    - rewrite Z.shiftl_spec, (Z.testbit_neg_r b (i - c)) by lia. apply andb_false_r.
    - rewrite <- (Z.mod_small a (2 ^ c)) by lia.
      rewrite Z.mod_pow2_bits_high by lia. reflexivity. }
  rewrite <- Z.lxor_lor, <- Z.add_nocarry_lxor by exact H0. reflexivity.
Qed.

(** [zultra_bitwriter_put_bits] in general: the accumulator gains the
    (unmasked) shifted value, then [(count + n) / 8] bytes are flushed. *)
Lemma put_bits_spec (w : zultra_bitwriter_t) (out : array) (v n : Z) r w' out' :
  0 <= nEncBitCount w -> 0 <= n <= 16 -> nOutOffset w <= nMaxOutDataOffset w ->
  zultra_bitwriter_put_bits w out v n = (r, w', out') ->
  let k := (nEncBitCount w + n) / 8 in
  if nOutOffset w + k >? nMaxOutDataOffset w then r = -1
  else (r = 0 /\ nEncBitCount w' = nEncBitCount w + n - 8 * k /\
        nOutOffset w' = nOutOffset w + k /\
        nMaxOutDataOffset w' = nMaxOutDataOffset w /\
        (forall j, j < nOutOffset w \/ nOutOffset w + k <= j -> out' j = out j) /\
        (forall j, nOutOffset w <= j < nOutOffset w + k -> 0 <= out' j < 256) /\
        (0 <= nEncBitsData w ->
         let acc := Z.lor (nEncBitsData w) (u32 (Z.shiftl v (nEncBitCount w))) in
         bytes_value out' (nOutOffset w) (Z.to_nat k) + nEncBitsData w' * 2 ^ (8 * k) = acc /\
         nEncBitsData w' = acc / 2 ^ (8 * k))).
Proof.
  intros Hc Hn Ho E k. unfold zultra_bitwriter_put_bits in E.
  replace (n >? 16) with false in E by (symmetry; rewrite Z.gtb_ltb; apply Z.ltb_ge; lia).
  apply flush_whole_bytes_spec in E;
    cbn [nEncBitCount nOutOffset nMaxOutDataOffset nEncBitsData] in *;
    rewrite ?Z2Nat.id in * by (apply Z.div_pos; lia); fold k in E |- *.
  - destruct (_ >? _); [exact E|].
    destruct E as (-> & ? & ? & ? & ? & ? & Hd).
    refine (conj eq_refl (conj _ (conj _ (conj _ (conj _ (conj _ _)))))); try assumption.
    intros Hd0. apply Hd. unfold u32. apply Z.lor_nonneg. split; [lia|].
    apply Z.mod_pos_bound. lia.
  - pose proof (Z.mul_div_le (nEncBitCount w + n) 8). unfold k. lia.
  - assumption.
Qed.

(** C6 (amended).  For a state satisfying the invariant [writer_ok] and
    a value that fits in [n_bits] (0 <= n_bits <= 16), [put_bits] adds
    the value above the pending bits and flushes [(count + n_bits) / 8]
    whole bytes LSB-first at the current offset; it fails exactly when
    the last of those bytes would be written at or past the maximum
    offset.  On success the emitted bytes followed by the remaining
    pending bits hold exactly the old pending bits followed by the
    value, the state again satisfies [writer_ok], and the buffer is
    unchanged outside the written bytes. *)
Theorem put_bits_appends_value (w : zultra_bitwriter_t) (out : array) (v n : Z) r w' out' :
  writer_ok w -> 0 <= n <= 16 -> 0 <= v < 2 ^ n ->
  zultra_bitwriter_put_bits w out v n = (r, w', out') ->
  let k := (nEncBitCount w + n) / 8 in
  if nOutOffset w + k >? nMaxOutDataOffset w then r = -1
  else (r = 0 /\ nEncBitCount w' = nEncBitCount w + n - 8 * k /\
        nOutOffset w' = nOutOffset w + k /\
        bytes_value out' (nOutOffset w) (Z.to_nat k) + nEncBitsData w' * 2 ^ (8 * k)
          = nEncBitsData w + v * 2 ^ nEncBitCount w /\
        writer_ok w' /\
        (forall j, j < nOutOffset w \/ nOutOffset w + k <= j -> out' j = out j) /\
        (forall j, nOutOffset w <= j < nOutOffset w + k -> 0 <= out' j < 256)).
Proof.
  intros (Hc & Hd & Ho) Hn Hv E k.
  pose proof (put_bits_spec w out v n r w' out' ltac:(lia) Hn Ho E) as S. cbv zeta in S.
  destruct (_ >? _) eqn:G; [exact S|].
  rewrite Z.gtb_ltb in G; apply Z.ltb_ge in G.
  destruct S as (-> & Hc' & Ho' & Hm' & Hout & Hb & Hacc).
  set (c := nEncBitCount w) in *. set (d := nEncBitsData w) in *.
  assert (Hpc : 0 < 2 ^ c) by (apply Z.pow_pos_nonneg; lia).
  assert (Hpn : 0 < 2 ^ n) by (apply Z.pow_pos_nonneg; lia).
  assert (Hcn : 2 ^ (c + n) = 2 ^ c * 2 ^ n) by (apply Z.pow_add_r; lia).
  assert (Hsum : d + v * 2 ^ c < 2 ^ (c + n)) by nia.
  assert (Hlt32 : 2 ^ (c + n) <= 2 ^ 32) by (apply Z.pow_le_mono_r; lia).
  assert (Hacc' : Z.lor d (u32 (Z.shiftl v c)) = d + v * 2 ^ c).
  { unfold u32. rewrite Z.shiftl_mul_pow2 by lia.
    rewrite Z.mod_small by nia. apply lor_disjoint_add; lia. }
  rewrite Hacc' in Hacc. destruct (Hacc ltac:(lia)) as [Hbv Hd'].
  assert (Hk : 0 <= k) by (apply Z.div_pos; lia).
  assert (H8k : 8 * k <= c + n) by (apply Z.mul_div_le; lia).
  assert (Hk8 : c + n - 8 * k < 8) by (pose proof (Z.mod_pos_bound (c + n) 8); unfold k;
                                       rewrite (Z.div_mod (c + n) 8) at 1 by lia; lia).
  refine (conj eq_refl (conj _ (conj _ (conj _ (conj (conj _ (conj (conj _ _) _)) _))))).
  all: try assumption; try lia.
  3: split; assumption.
  - rewrite Hd'. apply Z.div_pos; nia.
  - rewrite Hd', Hc'. apply Z.div_lt_upper_bound; [apply Z.pow_pos_nonneg; lia|].
    rewrite <- Z.pow_add_r by lia.
    match goal with |- _ < 2 ^ ?e => replace e with (c + n) by lia end. exact Hsum.
Qed.

(** C6 counterexample: [put_bits] does not mask the value to [n_bits]
    bits.  Writing the 1-bit field with value 3 (whose low bit is 1, as
    for value 1) and then 7 zero bits emits the byte 3 instead of 1:
    the bit above position [n_bits] reaches the output. *)
Lemma put_bits_high_bits_leak :
  let out0 : array := fun _ => 0 in
  let '(_, w1, o1) := zultra_bitwriter_put_bits (zultra_bitwriter_init 0 10) out0 3 1 in
  let '(_, w2, o2) := zultra_bitwriter_put_bits w1 o1 0 7 in
  let '(_, v1, p1) := zultra_bitwriter_put_bits (zultra_bitwriter_init 0 10) out0 1 1 in
  let '(_, v2, p2) := zultra_bitwriter_put_bits v1 p1 0 7 in
  Z.land 3 (2 ^ 1 - 1) = Z.land 1 (2 ^ 1 - 1) /\ o2 0 = 3 /\ p2 0 = 1.
Proof. vm_compute. repeat split. Qed.

(** Witness for [put_bits_appends_value]: 5 bits of value 21 written
    into a state holding 4 pending bits 0b1010 flush one byte. *)
Lemma put_bits_appends_value_witness :
  let w := mkBitWriter 4 10 2 8 in
  let out0 : array := fun _ => 0 in
  let '(r, w', out') := zultra_bitwriter_put_bits w out0 21 5 in
  r = 0 /\ out' 2 = 90 /\ nEncBitCount w' = 1 /\ nEncBitsData w' = 1 /\
  (if nOutOffset w + (nEncBitCount w + 5) / 8 >? nMaxOutDataOffset w then r = -1
   else (r = 0 /\ nEncBitCount w' = nEncBitCount w + 5 - 8 * ((nEncBitCount w + 5) / 8) /\
         nOutOffset w' = nOutOffset w + (nEncBitCount w + 5) / 8 /\
         bytes_value out' (nOutOffset w) (Z.to_nat ((nEncBitCount w + 5) / 8))
           + nEncBitsData w' * 2 ^ (8 * ((nEncBitCount w + 5) / 8))
           = nEncBitsData w + 21 * 2 ^ nEncBitCount w /\
         writer_ok w' /\
         (forall j, j < nOutOffset w \/ nOutOffset w + (nEncBitCount w + 5) / 8 <= j -> out' j = out0 j) /\
         (forall j, nOutOffset w <= j < nOutOffset w + (nEncBitCount w + 5) / 8 -> 0 <= out' j < 256))).
Proof.
  intros w out0.
  destruct (zultra_bitwriter_put_bits w out0 21 5) as [[r w'] out'] eqn:E.
  pose proof (put_bits_appends_value w out0 21 5 r w' out'
                ltac:(unfold writer_ok; simpl; lia) ltac:(lia) ltac:(simpl; lia) E) as H.
  vm_compute in E. injection E as <- <- <-. split; [reflexivity|].
  split; [reflexivity|]. split; [reflexivity|]. split; [reflexivity|]. exact H.
Defined.

(** C10 (amended).  The bit-writer invariant [writer_inv] (0 to 7
    pending bits, offset at most the maximum) holds after
    [zultra_bitwriter_init] with an initial offset within the buffer,
    and is kept by every successful [put_bits] with a non-negative bit
    count and by every successful [flush_bits] (which leaves no pending
    bit).  From such a state [flush_bits] changes at most the byte at
    the current offset and advances the offset by at most one, and it
    fails only when bits are pending and the buffer is full, never for
    a pending count above 8. *)
Theorem bitwriter_state_invariant :
  (forall o mx, o <= mx -> writer_inv (zultra_bitwriter_init o mx)) /\
  (forall w out v n r w' out', writer_inv w -> 0 <= n ->
     zultra_bitwriter_put_bits w out v n = (r, w', out') -> r = 0 -> writer_inv w') /\
  (forall w out r w' out', writer_inv w ->
     zultra_bitwriter_flush_bits w out = (r, w', out') -> r = 0 ->
     writer_inv w' /\ nEncBitCount w' = 0) /\
  (forall w out r w' out', writer_inv w ->
     zultra_bitwriter_flush_bits w out = (r, w', out') ->
     (forall j, j <> nOutOffset w -> out' j = out j) /\
     nOutOffset w <= nOutOffset w' <= nOutOffset w + 1) /\
  (forall w out r w' out', writer_inv w ->
     zultra_bitwriter_flush_bits w out = (r, w', out') -> r = -1 ->
     0 < nEncBitCount w /\ nMaxOutDataOffset w <= nOutOffset w).
Proof.
  split; [|split; [|split; [|split]]].
  - intros o mx H. unfold writer_inv, zultra_bitwriter_init. simpl. lia.
  - intros w out v n r w' out' [Hc Ho] Hn E Hr. subst r.
    destruct (Z.le_gt_cases n 16) as [H16|H16].
    + pose proof (put_bits_spec w out v n 0 w' out' ltac:(lia) ltac:(lia) Ho E) as S.
      cbv zeta in S. destruct (_ >? _) eqn:G; [discriminate|].
      rewrite Z.gtb_ltb in G; apply Z.ltb_ge in G.
      destruct S as (_ & Hc' & Ho' & Hm' & _).
      pose proof (Z.mod_pos_bound (nEncBitCount w + n) 8).
      pose proof (Z.div_mod (nEncBitCount w + n) 8).
      unfold writer_inv. lia.
    + unfold zultra_bitwriter_put_bits in E.
      replace (n >? 16) with true in E by (symmetry; apply Z.gtb_lt; lia).
      discriminate.
  - intros [c d o mx] out r w' out' [Hc Ho] E Hr; simpl in *.
    unfold zultra_bitwriter_flush_bits in E; simpl in E.
    destruct (c >? 8); [inversion E; lia|].
    destruct (c >? 0) eqn:Gc.
    + destruct (o >=? mx) eqn:Go; inversion E; subst; [lia|].
      rewrite Z.geb_leb in Go; apply Z.leb_gt in Go. unfold writer_inv; simpl; lia.
    + inversion E; subst. rewrite Z.gtb_ltb in Gc; apply Z.ltb_ge in Gc.
      unfold writer_inv; simpl; lia.
  - intros [c d o mx] out r w' out' [Hc Ho] E; simpl in *.
    unfold zultra_bitwriter_flush_bits in E; simpl in E.
    destruct (c >? 8); [inversion E; subst; split; [reflexivity|simpl; lia]|].
    destruct (c >? 0).
    + destruct (o >=? mx); inversion E; subst; (split; [|simpl; lia]).
      * reflexivity.
      * intros j Hj. apply upd_neq. exact Hj.
    + inversion E; subst; split; [reflexivity|simpl; lia].
  - intros [c d o mx] out r w' out' [Hc Ho] E Hr; simpl in *.
    unfold zultra_bitwriter_flush_bits in E; simpl in E.
    replace (c >? 8) with false in E by (symmetry; rewrite Z.gtb_ltb; apply Z.ltb_ge; lia).
    destruct (c >? 0) eqn:Gc; [|inversion E; lia].
    rewrite Z.gtb_ltb in Gc; apply Z.ltb_lt in Gc.
    destruct (o >=? mx) eqn:Go; [|inversion E; lia].
    apply Z.geb_le in Go. lia.
Qed.

(** C10 counterexample: [put_bits] accepts a negative bit count; from a
    freshly initialised writer, [put_bits 0 (-1)] succeeds and leaves a
    pending count of -1, outside 0..7. *)
Lemma put_bits_negative_count :
  let '(r, w', _) := zultra_bitwriter_put_bits (zultra_bitwriter_init 0 10) (fun _ => 0) 0 (-1) in
  r = 0 /\ nEncBitCount w' = -1.
Proof. vm_compute. split; reflexivity. Qed.

(** Witness for [bitwriter_state_invariant]: a fresh writer on a
    10-byte buffer satisfies the invariant, and so does the state after
    writing 3 bits into it. *)
Lemma bitwriter_state_invariant_witness :
  writer_inv (zultra_bitwriter_init 0 10) /\
  writer_inv (snd (fst (zultra_bitwriter_put_bits (zultra_bitwriter_init 0 10) (fun _ => 0) 5 3))).
Proof.
  destruct bitwriter_state_invariant as (Hinit & Hput & _).
  split.
  - apply Hinit. lia.
  - destruct (zultra_bitwriter_put_bits (zultra_bitwriter_init 0 10) (fun _ => 0) 5 3)
      as [[r w'] out'] eqn:E.
    apply (Hput (zultra_bitwriter_init 0 10) (fun _ => 0) 5 3 r w' out'
             (Hinit 0 10 ltac:(lia)) ltac:(lia) E).
    vm_compute in E. injection E as <- _ _. reflexivity.
Defined.
End BitWriterProofs.

(** Decide the boolean comparisons of a goal by [lia]. *)
Ltac zbool :=
  rewrite ?Z.geb_leb, ?Z.gtb_ltb;
  repeat match goal with
  | |- context [?a =? ?b] =>
      first [ rewrite (proj2 (Z.eqb_eq a b)) by lia | rewrite (proj2 (Z.eqb_neq a b)) by lia ]
  | |- context [?a <=? ?b] =>
      first [ rewrite (proj2 (Z.leb_le a b)) by lia | rewrite (proj2 (Z.leb_gt a b)) by lia ]
  | |- context [?a <? ?b] =>
      first [ rewrite (proj2 (Z.ltb_lt a b)) by lia | rewrite (proj2 (Z.ltb_ge a b)) by lia ]
  end; cbn [andb orb negb].

(** ** Stream layer *)
Module StreamProofs.
Import BitWriter Stream.

Lemma clamp_block_size_range (n : Z) :
  32768 <= clamp_block_size n <= 2097152 /\
  (32768 <= n <= 2097152 -> clamp_block_size n = n).
Proof.
  unfold clamp_block_size, ZULTRA_DEFAULT_MAX_BLOCK_SIZE.
  destruct (Z.eqb_spec n 0); [subst; cbn; lia|].
  destruct (Z.ltb_spec n 32768); [cbn; lia|].
  destruct (Z.gtb_spec n 2097152); lia.
Qed.

(** C5 (amended).  [zultra_memory_bound] returns the header size, plus
    [(1 + 4 + 1) * MAX_SPLITS] bytes (not [5 * MAX_SPLITS]) for each
    started block of the defaulted and clamped block size, plus the input
    length, one byte and the footer size, whenever the 64-bit arithmetic
    does not wrap (here: input at most 2^62 bytes and frame sizes at
    most 2^31). *)
Theorem memory_bound_formula (hs fs : Z -> Z) (nInputSize nFlags nMaxBlockSize : Z) :
  0 <= nInputSize <= 2 ^ 62 -> 0 <= hs nFlags <= 2 ^ 31 -> 0 <= fs nFlags <= 2 ^ 31 ->
  let B := clamp_block_size nMaxBlockSize in
  zultra_memory_bound hs fs nInputSize nFlags nMaxBlockSize =
  hs nFlags + (nInputSize + (B - 1)) / B * ((1 + 4 + 1) * MAX_SPLITS) + nInputSize + 1 + fs nFlags.
Proof.
  intros Hin Hh Hf B. pose proof (clamp_block_size_range nMaxBlockSize) as [HB _].
  assert (H62 : 2 ^ 62 = 4611686018427387904) by reflexivity.
  assert (H31 : 2 ^ 31 = 2147483648) by reflexivity.
  assert (H64 : 2 ^ 64 = 18446744073709551616) by reflexivity.
  fold B in HB. unfold zultra_memory_bound, u64, MAX_SPLITS. fold B.
  rewrite (Z.mod_small (nInputSize + (B - 1))) by lia.
  set (q := (nInputSize + (B - 1)) / B).
  assert (Hq : 0 <= q) by (apply Z.div_pos; lia).
  assert (Hq' : B * q <= nInputSize + (B - 1)) by (apply Z.mul_div_le; lia).
  assert (Hq2 : q <= 281474976710656) by nia.
  rewrite (Z.mod_small (q * (1 + 4 + 1))) by lia.
  rewrite (Z.mod_small (q * (1 + 4 + 1) * 64)) by lia.
  rewrite (Z.mod_small (hs nFlags)) by lia.
  rewrite (Z.mod_small (fs nFlags)) by lia.
  rewrite (Z.mod_small (hs nFlags + q * (1 + 4 + 1) * 64)) by lia.
  rewrite (Z.mod_small (hs nFlags + q * (1 + 4 + 1) * 64 + nInputSize)) by lia.
  rewrite (Z.mod_small (hs nFlags + q * (1 + 4 + 1) * 64 + nInputSize + 1)) by lia.
  rewrite Z.mod_small by lia. lia.
Qed.

(** C5 counterexample: for one byte of gzip input with the default
    block size (and the 10-byte header and 8-byte trailer of gzip), the
    code returns 404 while the stated formula gives 340. *)
Lemma memory_bound_not_five_per_split :
  zultra_memory_bound spec_frame_header_size spec_frame_footer_size 1
    ZULTRA_FLAG_GZIP_FRAMING 0 = 404 /\
  spec_frame_header_size ZULTRA_FLAG_GZIP_FRAMING
    + (1 + (1048576 - 1)) / 1048576 * (5 * MAX_SPLITS) + 1 + 1
    + spec_frame_footer_size ZULTRA_FLAG_GZIP_FRAMING = 340.
Proof. vm_compute. split; reflexivity. Qed.

(** Witness for [memory_bound_formula]: 100000 bytes with zlib framing
    and a requested block size of 40000. *)
Lemma memory_bound_formula_witness :
  zultra_memory_bound spec_frame_header_size spec_frame_footer_size 100000
    ZULTRA_FLAG_ZLIB_FRAMING 40000 = 2 + 3 * 384 + 100000 + 1 + 4.
Proof.
  rewrite (memory_bound_formula spec_frame_header_size spec_frame_footer_size 100000
             ZULTRA_FLAG_ZLIB_FRAMING 40000) by (vm_compute; split; discriminate).
  vm_compute. reflexivity.
Defined.

(** C9 (amended).  [zultra_stream_init] never rejects a block size: out
    of range values are silently clamped to [32768, 2097152] (0 selects
    the default 1048576).  It returns [ZULTRA_OK] exactly when all nine
    allocations succeed, [ZULTRA_ERROR_MEMORY] otherwise, and on success
    the context holds the clamped size and a bit writer on the whole
    output buffer. *)
Theorem stream_init_clamps_block_size (alloc_ok : nat -> bool) (nFlags nMaxBlockSize : Z) :
  let '(st, res) := zultra_stream_init alloc_ok nFlags nMaxBlockSize in
  (st = ZULTRA_OK \/ st = ZULTRA_ERROR_MEMORY) /\
  (st = ZULTRA_OK <-> forall k, (k <= 8)%nat -> alloc_ok k = true) /\
  (st = ZULTRA_OK ->
   res = Some (mkInitResult nFlags (clamp_block_size nMaxBlockSize)
                 (zultra_bitwriter_init 0 (out_buffer_size (clamp_block_size nMaxBlockSize))))) /\
  32768 <= clamp_block_size nMaxBlockSize <= 2097152.
Proof.
  pose proof (proj1 (clamp_block_size_range nMaxBlockSize)) as HB.
  unfold zultra_stream_init.
  destruct (alloc_ok 0%nat) eqn:E0; destruct (alloc_ok 1%nat) eqn:E1;
  destruct (alloc_ok 2%nat) eqn:E2; destruct (alloc_ok 3%nat) eqn:E3;
  destruct (alloc_ok 4%nat) eqn:E4; destruct (alloc_ok 5%nat) eqn:E5;
  destruct (alloc_ok 6%nat) eqn:E6; destruct (alloc_ok 7%nat) eqn:E7;
  destruct (alloc_ok 8%nat) eqn:E8; cbn -[clamp_block_size out_buffer_size];
  (split; [unfold ZULTRA_OK, ZULTRA_ERROR_MEMORY; lia|]);
  (split; [|split; [|exact HB]]);
  try (intro H; discriminate H);
  try (intros _; reflexivity);
  try (split; [intros _ k Hk;
               do 9 (destruct k as [|k]; [assumption|]); lia
              |reflexivity]);
  split; try discriminate; intro H;
  pose proof (H 0%nat ltac:(lia)); pose proof (H 1%nat ltac:(lia));
  pose proof (H 2%nat ltac:(lia)); pose proof (H 3%nat ltac:(lia));
  pose proof (H 4%nat ltac:(lia)); pose proof (H 5%nat ltac:(lia));
  pose proof (H 6%nat ltac:(lia)); pose proof (H 7%nat ltac:(lia));
  pose proof (H 8%nat ltac:(lia)); congruence.
Qed.

(** C9 counterexample: a requested block size of 100, far below the
    allowed range, is not reported as an error: with every allocation
    succeeding, [zultra_stream_init] returns [ZULTRA_OK] and uses 32768. *)
Lemma stream_init_accepts_small_block :
  zultra_stream_init (fun _ => true) ZULTRA_FLAG_GZIP_FRAMING 100 =
  (ZULTRA_OK, Some (mkInitResult ZULTRA_FLAG_GZIP_FRAMING 32768
                      (zultra_bitwriter_init 0 (out_buffer_size 32768)))).
Proof. vm_compute. reflexivity. Qed.


Lemma flush_whole_bytes_result (k : nat) : forall w out r w' out',
  flush_whole_bytes k w out = (r, w', out') -> r = 0 \/ r = -1.
Proof.
  induction k as [|k IH]; intros w out r w' out' E; cbn [flush_whole_bytes] in E.
  - inversion E; auto.
  - destruct (nEncBitCount w >=? 8); [|inversion E; auto].
    destruct (nOutOffset w >=? nMaxOutDataOffset w); [inversion E; auto|].
    exact (IH _ _ _ _ _ E).
Qed.

Lemma put_bits_result w out v n r w' out' :
  zultra_bitwriter_put_bits w out v n = (r, w', out') -> r = 0 \/ r = -1.
Proof.
  unfold zultra_bitwriter_put_bits. destruct (n >? 16); [intro E; inversion E; auto|].
  apply flush_whole_bytes_result.
Qed.

Lemma flush_bits_result w out r w' out' :
  zultra_bitwriter_flush_bits w out = (r, w', out') -> r = 0 \/ r = -1.
Proof.
  unfold zultra_bitwriter_flush_bits.
  destruct (nEncBitCount w >? 8); [intro E; inversion E; auto|].
  destruct (nEncBitCount w >? 0); [|intro E; inversion E; auto].
  destruct (nOutOffset w >=? nMaxOutDataOffset w); intro E; inversion E; auto.
Qed.

Lemma get_offset_nonneg w :
  0 <= zultra_bitwriter_get_offset w ->
  zultra_bitwriter_get_offset w = nOutOffset w /\ 0 <= nOutOffset w <= nMaxOutDataOffset w.
Proof.
  unfold zultra_bitwriter_get_offset. destruct (Z.leb_spec (nOutOffset w) (nMaxOutDataOffset w)); lia.
Qed.

Lemma copy_restores (dst src : zultra_bitwriter_t) : zultra_bitwriter_copy dst src = src.
Proof. destruct src; reflexivity. Qed.

(** [x ^ 0xff] is the one's complement of a byte. *)
Lemma lxor_255 (x : Z) : 0 <= x < 256 -> Z.lxor x 255 = 255 - x.
Proof.
  intros Hx.
  assert (Hall : forallb (fun n => Z.lxor (Z.of_nat n) 255 =? 255 - Z.of_nat n) (seq 0 256) = true)
    by (vm_compute; reflexivity).
  rewrite forallb_forall in Hall.
  specialize (Hall (Z.to_nat x) ltac:(apply in_seq; lia)).
  rewrite Z2Nat.id in Hall by lia. apply Z.eqb_eq in Hall. exact Hall.
Qed.

Lemma len_bytes (size : Z) : 0 <= size <= 65535 ->
  0 <= Z.land size 255 < 256 /\ 0 <= Z.land (Z.shiftr size 8) 255 < 256 /\
  Z.land size 255 + 256 * Z.land (Z.shiftr size 8) 255 = size.
Proof.
  intros Hs. change 255 with (Z.ones 8).
  rewrite !Z.land_ones, Z.shiftr_div_pow2 by lia. change (2 ^ 8) with 256.
  rewrite (Z.mod_small (size / 256)) by (split; [apply Z.div_pos|apply Z.div_lt_upper_bound]; lia).
  pose proof (Z.mod_pos_bound size 256). pose proof (Z.div_mod size 256).
  split; [lia|]. split; [split; [apply Z.div_pos|apply Z.div_lt_upper_bound]; lia|]. lia.
Qed.

Section SubRangeProofs.
Variable zultra_block_deflate : zultra_bitwriter_t -> array -> Z * zultra_bitwriter_t * array.
Variable in_data : array.
Variable nMaxBlockSize nInStart nBlockSize nIsFinal nIsDynamic : Z.

(** The stored-block loop of the code performs the stored-block
    emission of the specification. *)
Lemma stored_blocks_spec (fuel : nat) : forall off rem bw out bw' out',
  0 <= rem <= Z.of_nat fuel ->
  stored_blocks in_data nMaxBlockSize nInStart nIsFinal fuel off rem bw out = (ZULTRA_OK, bw', out') ->
  spec_stored_blocks (fun i => in_data (HISTORY_SIZE + nInStart + i)) nIsFinal bw out off rem bw' out'.
Proof.
  induction fuel as [|fuel IH]; intros off rem bw out bw' out' Hrem E.
  - assert (rem = 0) by lia. subst. cbn in E. injection E as <- <-. constructor.
  - cbn [stored_blocks] in E.
    destruct (Z.eqb_spec rem 0) as [->|Hr0].
    { injection E as <- <-. constructor. }
    unfold stored_sub_block in E.
    set (size := if rem >? 65535 then 65535 else rem) in E.
    set (fin := if rem >? 65535 then 0 else nIsFinal) in E.
    assert (Hsize : size = Z.min rem 65535)
      by (unfold size; destruct (Z.gtb_spec rem 65535); lia).
    assert (Hfin : fin = (if rem <=? 65535 then nIsFinal else 0)).
    { unfold fin; destruct (Z.gtb_spec rem 65535);
        [rewrite (proj2 (Z.leb_gt _ _)) by lia | rewrite (proj2 (Z.leb_le _ _)) by lia];
        reflexivity. }
    destruct (zultra_bitwriter_put_bits bw out fin 1) as [[r1 w1] o1] eqn:P1.
    cbv beta iota zeta in E.
    destruct (put_bits_result _ _ _ _ _ _ _ P1) as [->| ->]; [|discriminate E].
    cbn [Z.ltb Z.compare] in E.
    destruct (zultra_bitwriter_put_bits w1 o1 0 2) as [[r2 w2] o2] eqn:P2.
    cbv beta iota zeta in E.
    destruct (put_bits_result _ _ _ _ _ _ _ P2) as [->| ->]; [|discriminate E].
    cbn [Z.ltb Z.compare] in E.
    destruct (zultra_bitwriter_flush_bits w2 o2) as [[r3 w3] o3] eqn:P3.
    cbv beta iota zeta in E.
    destruct (flush_bits_result _ _ _ _ _ P3) as [->| ->]; [|discriminate E].
    cbn [Z.ltb Z.compare] in E.
    destruct (Z.ltb_spec (zultra_bitwriter_get_offset w3) 0) as [Hg|Hg];
      [discriminate E|].
    destruct (get_offset_nonneg w3 Hg) as [Hc Hc']. rewrite Hc in E.
    destruct (Z.gtb_spec (nOutOffset w3 + 4 + size) (out_buffer_size nMaxBlockSize));
      [discriminate E|].
    cbn [orb negb Z.eqb] in E.
    assert (Hs : 0 <= size <= 65535) by lia.
    destruct (len_bytes size Hs) as (Hlo & Hhi & Hlohi).
    set (c := nOutOffset w3) in *.
    apply IH in E; [|lia].
    eapply spec_stored_chunk with (size := size); try eassumption; try lia.
    cbv zeta. unfold memcpy, upd. fold c.
    repeat split; zbool; try lia.
    + rewrite lxor_255 by lia. lia.
    + rewrite lxor_255 by lia. lia.
    + rewrite lxor_255 by lia. lia.
    + rewrite lxor_255 by lia. lia.
    + rewrite !lxor_255 by lia. lia.
    + intros i Hi. zbool. f_equal. lia.
    + intros j [Hj|Hj]; zbool; reflexivity.
Qed.

(** C3.  When the emission of a sub-range succeeds, either the
    compressed attempt was kept, and then the header bits were written,
    [zultra_block_deflate] succeeded and the compressed payload after
    the header bits takes at most [nBlockSize] bytes; or the attempt
    failed or took more than [nBlockSize] bytes, and then the output is
    the stored-block emission of the specification (chunks of at most
    65535 bytes, each with LEN little-endian and NLEN its one's
    complement) started from the very writer state saved before the
    block header bits. *)
Theorem emit_sub_range_bounded_or_stored (bitwriter : zultra_bitwriter_t) (out : array) bw' out' :
  0 <= nBlockSize ->
  emit_sub_range zultra_block_deflate in_data nMaxBlockSize nInStart nBlockSize nIsFinal nIsDynamic
    bitwriter out = (ZULTRA_OK, bw', out') ->
  (exists w1 o1 w2 o2 res,
     zultra_bitwriter_put_bits bitwriter out nIsFinal 1 = (0, w1, o1) /\
     zultra_bitwriter_put_bits w1 o1 (1 + nIsDynamic) 2 = (0, w2, o2) /\
     0 <= zultra_bitwriter_get_offset w2 /\
     zultra_block_deflate w2 o2 = (res, bw', out') /\ 0 <= res /\
     0 <= zultra_bitwriter_get_offset bw' /\
     zultra_bitwriter_get_offset bw' - zultra_bitwriter_get_offset w2 <= nBlockSize)
  \/
  (exists out3,
     spec_stored_blocks (fun i => in_data (HISTORY_SIZE + nInStart + i)) nIsFinal
       bitwriter out3 0 nBlockSize bw' out').
Proof.
  intros Hbs E. unfold emit_sub_range in E.
  destruct (zultra_bitwriter_put_bits bitwriter out nIsFinal 1) as [[r1 w1] o1] eqn:P1.
  cbv beta iota zeta in E.
  destruct (put_bits_result _ _ _ _ _ _ _ P1) as [->| ->]; [|discriminate E].
  cbn [Z.ltb Z.compare] in E.
  destruct (zultra_bitwriter_put_bits w1 o1 (1 + nIsDynamic) 2) as [[r2 w2] o2] eqn:P2.
  cbv beta iota zeta in E.
  destruct (put_bits_result _ _ _ _ _ _ _ P2) as [->| ->]; [|discriminate E].
  cbn [Z.ltb Z.compare] in E.
  rewrite !copy_restores in E.
  assert (Hfuel : 0 <= nBlockSize <= Z.of_nat (Z.to_nat nBlockSize)) by lia.
  destruct (Z.ltb_spec (zultra_bitwriter_get_offset w2) 0) as [Hg|Hg].
  - cbv beta iota zeta in E. rewrite (proj2 (Z.ltb_lt _ _) Hg) in E.
    cbn [ZULTRA_ERROR_DST Z.ltb Z.compare orb] in E.
    right. exists o2. rewrite ?copy_restores in E; exact (stored_blocks_spec _ _ _ _ _ _ _ Hfuel E).
  - destruct (zultra_block_deflate w2 o2) as [[res w3] o3] eqn:D.
    cbv beta iota zeta in E.
    destruct (Z.ltb_spec res 0);
      [cbn [orb] in E; right; exists o3; rewrite ?copy_restores in E; exact (stored_blocks_spec _ _ _ _ _ _ _ Hfuel E)|].
    destruct (Z.ltb_spec (zultra_bitwriter_get_offset w3) 0);
      [cbn [orb] in E; right; exists o3; rewrite ?copy_restores in E; exact (stored_blocks_spec _ _ _ _ _ _ _ Hfuel E)|].
    destruct (Z.gtb_spec (zultra_bitwriter_get_offset w3 - zultra_bitwriter_get_offset w2) nBlockSize);
      cbn [orb] in E;
      [right; exists o3; rewrite ?copy_restores in E; exact (stored_blocks_spec _ _ _ _ _ _ _ Hfuel E)|].
    injection E as <- <-. left.
    exists w1, o1, w2, o2, res. repeat split; assumption || lia.
Qed.
End SubRangeProofs.


(** Witness for [emit_sub_range_bounded_or_stored]: a 3-byte final
    sub-range whose compressed attempt takes 100 bytes falls back to a
    single stored block [01 03 00 fc ff 00 01 02]. *)
Lemma emit_sub_range_bounded_or_stored_witness :
  let defl (bw : zultra_bitwriter_t) (o : array) :=
    (0, zultra_bitwriter_set_offset bw (nOutOffset bw + 100), o) in
  let data : array := fun i => i mod 256 in
  let bw0 := zultra_bitwriter_init 0 (out_buffer_size 32768) in
  let '(e, bw', out') := emit_sub_range defl data 32768 0 3 1 1 bw0 (fun _ => 0) in
  e = ZULTRA_OK /\ map out' [0; 1; 2; 3; 4; 5; 6; 7] = [1; 3; 0; 252; 255; 0; 1; 2] /\
  ((exists w1 o1 w2 o2 res,
      zultra_bitwriter_put_bits bw0 (fun _ => 0) 1 1 = (0, w1, o1) /\
      zultra_bitwriter_put_bits w1 o1 (1 + 1) 2 = (0, w2, o2) /\
      0 <= zultra_bitwriter_get_offset w2 /\
      defl w2 o2 = (res, bw', out') /\ 0 <= res /\
      0 <= zultra_bitwriter_get_offset bw' /\
      zultra_bitwriter_get_offset bw' - zultra_bitwriter_get_offset w2 <= 3)
   \/
   (exists out3,
      spec_stored_blocks (fun i => data (HISTORY_SIZE + 0 + i)) 1 bw0 out3 0 3 bw' out')).
Proof.
  intros defl data bw0.
  destruct (emit_sub_range defl data 32768 0 3 1 1 bw0 (fun _ => 0)) as [[e bw'] out'] eqn:E.
  assert (He : e = ZULTRA_OK)
    by (vm_compute in E; injection E as He _ _; rewrite <- He; reflexivity). subst e.
  split; [reflexivity|]. split.
  - vm_compute in E. injection E as _ <-. reflexivity.
  - exact (emit_sub_range_bounded_or_stored defl data 32768 0 3 1 1 bw0 (fun _ => 0) bw' out'
             ltac:(lia) E).
Defined.


(** C8 (the code's behaviour).  Compressing the empty input with
    [zultra_memory_compress] (all allocations succeeding, output room for
    the header) produces exactly the frame header and nothing else,
    whatever the framing functions and the block compressor are: the
    block compression, the final flush that marks the compression
    finalized, and hence the footer, are all guarded by
    [nInDataSize > 0], so no deflate block and no trailer is written. *)
Theorem memory_compress_empty_input_header_only
  (zultra_frame_encode_header : Z -> Z * list Z) (zultra_frame_init_checksum : Z -> Z)
  (zultra_frame_update_checksum : Z -> list Z -> Z -> Z)
  (zultra_frame_encode_footer : Z -> Z -> Z -> Z * list Z)
  (compress_block_data : zultra_compressor_t -> list Z -> bool -> Z * zultra_bitwriter_t * array)
  (alloc_ok : nat -> bool) (nMaxOutBufferSize nFlags nMaxBlockSize nHeaderSize : Z)
  (header_bytes : list Z) :
  (forall k, alloc_ok k = true) ->
  zultra_frame_encode_header nFlags = (nHeaderSize, header_bytes) ->
  0 <= nHeaderSize <= 16 -> nHeaderSize <= nMaxOutBufferSize ->
  zultra_memory_compress zultra_frame_encode_header zultra_frame_init_checksum
    zultra_frame_update_checksum zultra_frame_encode_footer compress_block_data alloc_ok []
    nMaxOutBufferSize nFlags nMaxBlockSize =
  Some (nHeaderSize, firstn (Z.to_nat nHeaderSize) header_bytes).
Proof.
  intros Halloc Hh Hhs Hout.
  pose proof (proj1 (clamp_block_size_range nMaxBlockSize)) as HB.
  unfold zultra_memory_compress.
  replace (zultra_stream_init alloc_ok nFlags nMaxBlockSize) with
    (ZULTRA_OK, Some (mkInitResult nFlags (clamp_block_size nMaxBlockSize)
                        (zultra_bitwriter_init 0 (out_buffer_size (clamp_block_size nMaxBlockSize)))))
    by (unfold zultra_stream_init; rewrite !Halloc; reflexivity).
  cbn -[clamp_block_size out_buffer_size zultra_stream_compress].
  replace (Z.to_nat nMaxOutBufferSize + 1)%nat with (S (Z.to_nat nMaxOutBufferSize)) by lia.
  cbn [zultra_stream_compress]. unfold stream_compress_body, start_header.
  cbn [state compression_state flags]. cbn [Z.land Z.eqb]. rewrite Hh.
  destruct (Z.eq_dec nHeaderSize 0) as [Hz|Hz].
  - subst nHeaderSize. cbn -[clamp_block_size out_buffer_size]. zbool.
    cbn -[clamp_block_size out_buffer_size].
    rewrite (Z.min_l 0) by lia. cbn -[clamp_block_size out_buffer_size]. zbool.
    cbn -[clamp_block_size out_buffer_size].
    rewrite Z.sub_diag. reflexivity.
  - zbool. cbn -[clamp_block_size out_buffer_size firstn skipn]. zbool.
    cbn -[clamp_block_size out_buffer_size firstn skipn].
    unfold emit_frame_bytes at 1. cbn -[clamp_block_size out_buffer_size firstn skipn]. zbool.
    rewrite Z.min_r by lia. zbool. cbn -[clamp_block_size out_buffer_size firstn skipn].
    rewrite Z.sub_diag. unfold absorb_and_compress at 1.
    cbn -[clamp_block_size out_buffer_size firstn skipn]. zbool.
    rewrite (Z.min_l 0) by lia. cbn -[clamp_block_size out_buffer_size firstn skipn]. zbool.
    cbn -[clamp_block_size out_buffer_size firstn skipn].
    replace (nMaxOutBufferSize - (nMaxOutBufferSize - nHeaderSize)) with nHeaderSize by lia.
    reflexivity.
Qed.

(** Witness for [memory_compress_empty_input_header_only], and the
    failing input of C8: with gzip framing (the 10-byte header of the
    specification) and a 20-byte output buffer, compressing the empty
    input returns 10, the header bytes alone, instead of the 20-byte
    member with the deflate payload [03 00] and the CRC-32 and ISIZE
    trailer. *)
Lemma memory_compress_empty_input_header_only_witness :
  zultra_memory_compress (fun _ => (10, spec_gzip_header ++ repeat 0 6)) (fun _ => 0)
    (fun a _ _ => a) (fun _ _ _ => (8, repeat 0 16))
    (fun c _ _ => (ZULTRA_OK, bitwriter c, out_buffer c)) (fun _ => true) []
    20 ZULTRA_FLAG_GZIP_FRAMING 0 = Some (10, spec_gzip_header) /\
  length spec_gzip_header = 10%nat.
Proof.
  split; [|reflexivity].
  exact (memory_compress_empty_input_header_only
           (fun _ => (10, spec_gzip_header ++ repeat 0 6)) (fun _ => 0)
           (fun a _ _ => a) (fun _ _ _ => (8, repeat 0 16))
           (fun c _ _ => (ZULTRA_OK, bitwriter c, out_buffer c)) (fun _ => true)
           20 ZULTRA_FLAG_GZIP_FRAMING 0 10 (spec_gzip_header ++ repeat 0 6)
           (fun _ => eq_refl) eq_refl ltac:(lia) ltac:(lia)).
Defined.

End StreamProofs.

Module ParserProofs.
Import Parser.

Lemma k_loop_fold (lit cost : array) (i os o : Z) :
  forall fuel k b,
    k_loop lit cost i os o fuel k b = fold_left keep_better (k_candidates lit cost i os o fuel k) b.
Proof.
  induction fuel as [|f IH]; intros k b; [reflexivity|].
  cbn [k_loop k_candidates]. destruct (k >=? MIN_MATCH_SIZE); [|reflexivity].
  cbn [fold_left]. rewrite IH. reflexivity.
Qed.

Lemma match_step_fold lit offl e cost i pm b :
  match_step lit offl e cost i pm b = fold_left keep_better (match_candidates lit offl e cost i pm) b.
Proof.
  unfold match_step, match_candidates.
  destruct (length pm >=? LEAVE_ALONE_MATCH_SIZE); [reflexivity|].
  apply k_loop_fold.
Qed.

Lemma m_loop_fold lit offl mt e cost i :
  forall fuel m b,
    m_loop lit offl mt e cost i fuel m b = fold_left keep_better (m_candidates lit offl mt e cost i fuel m) b.
Proof.
  induction fuel as [|f IH]; intros m b; [reflexivity|].
  cbn [m_loop m_candidates].
  destruct (length (mt (Z.shiftl i MATCHES_PER_OFFSET_SHIFT + m)) >=? MIN_MATCH_SIZE); [|reflexivity].
  rewrite fold_left_app, <- match_step_fold. apply IH.
Qed.

Lemma position_step_fold lit offl win mt e cost i :
  position_step lit offl win mt e cost i
  = fold_left keep_better (m_candidates lit offl mt e cost i NMATCHES_PER_OFFSET 0)
      (zultra_get_literal_size lit (win i) + cost (i + 1), 0, 0).
Proof. apply m_loop_fold. Qed.

Lemma fold_first_min :
  forall l b, spec_first_min (b :: l) (fold_left keep_better l b).
Proof.
  induction l as [|c l IH]; intros b.
  - exists [], []. repeat split; constructor.
  - cbn [fold_left]. unfold keep_better at 2.
    destruct (cand_cost b >? cand_cost c) eqn:Hbc.
    + apply Z.gtb_lt in Hbc.
      destruct (IH c) as [pre [post [Hl [Hpre Hpost]]]].
      destruct pre as [|y pre]; cbn in Hl; injection Hl as Hy Hl.
      * rewrite <- Hy. subst post. exists [b], l. split; [reflexivity|].
        split; [|rewrite <- Hy in Hpost; assumption].
        constructor; [lia|constructor].
      * subst y. exists (b :: c :: pre), post. split; [cbn; f_equal; f_equal; exact Hl|].
        split; [|assumption].
        inversion Hpre as [|? ? Hc Hpre']; subst.
        constructor; [lia|]. constructor; assumption.
    + rewrite Z.gtb_ltb in Hbc. apply Z.ltb_ge in Hbc.
      destruct (IH b) as [pre [post [Hl [Hpre Hpost]]]].
      destruct pre as [|y pre]; cbn in Hl; injection Hl as Hy Hl.
      * rewrite <- Hy in *. subst l. exists [], (c :: post). split; [reflexivity|].
        split; [constructor|]. constructor; [lia|assumption].
      * subst y. exists (b :: c :: pre), post. split; [cbn; f_equal; f_equal; exact Hl|].
        split; [|assumption].
        inversion Hpre as [|? ? Hb Hpre']; subst.
        constructor; [assumption|]. constructor; [lia|assumption].
Qed.

Lemma first_min_in l x : spec_first_min l x -> In x l.
Proof.
  intros [pre [post [Hl _]]]. subst l. apply in_or_app. right. left. reflexivity.
Qed.

Lemma k_candidates_len lit cost i os o :
  forall fuel k c, In c (k_candidates lit cost i os o fuel k) -> MIN_MATCH_SIZE <= cand_len c <= k.
Proof.
  induction fuel as [|f IH]; intros k c Hin; [destruct Hin|].
  cbn [k_candidates] in Hin. destruct (k >=? MIN_MATCH_SIZE) eqn:Hk; [|destruct Hin].
  rewrite Z.geb_leb in Hk. apply Z.leb_le in Hk.
  destruct Hin as [Hc|Hin].
  - subst c. cbn. lia.
  - apply IH in Hin. lia.
Qed.

Lemma clamp_match_len_le e i pm : clamp_match_len e i pm <= e - LAST_LITERALS - i.
Proof.
  unfold clamp_match_len. destruct (i + length pm >? e - LAST_LITERALS) eqn:H; [lia|].
  rewrite Z.gtb_ltb in H. apply Z.ltb_ge in H. lia.
Qed.

Lemma match_candidates_len lit offl e cost i pm c :
  i <= e - 2 -> In c (match_candidates lit offl e cost i pm) -> 0 <= cand_len c <= e - 1 - i.
Proof.
  intros Hi Hin. pose proof (clamp_match_len_le e i pm) as Hcl.
  unfold LAST_LITERALS in Hcl. unfold match_candidates in Hin.
  destruct (length pm >=? LEAVE_ALONE_MATCH_SIZE) eqn:Hl.
  - destruct Hin as [Hc|[]]. subst c. cbn [cand_len fst snd].
    rewrite Z.geb_leb in Hl. apply Z.leb_le in Hl. unfold LEAVE_ALONE_MATCH_SIZE in Hl.
    assert (0 <= clamp_match_len e i pm); [|lia].
    unfold clamp_match_len. destruct (i + length pm >? e - LAST_LITERALS); unfold LAST_LITERALS; lia.
  - apply k_candidates_len in Hin. unfold MIN_MATCH_SIZE in Hin. lia.
Qed.

Lemma m_candidates_len lit offl mt e cost i :
  i <= e - 2 ->
  forall fuel m c, In c (m_candidates lit offl mt e cost i fuel m) -> 0 <= cand_len c <= e - 1 - i.
Proof.
  intros Hi. induction fuel as [|f IH]; intros m c Hin; [destruct Hin|].
  cbn [m_candidates] in Hin.
  destruct (length (mt (Z.shiftl i MATCHES_PER_OFFSET_SHIFT + m)) >=? MIN_MATCH_SIZE); [|destruct Hin].
  apply in_app_or in Hin. destruct Hin as [Hin|Hin].
  - eapply match_candidates_len; eassumption.
  - eapply IH; eassumption.
Qed.

Lemma position_step_len lit offl win mt e cost i :
  i <= e - 2 -> 0 <= cand_len (position_step lit offl win mt e cost i) <= e - 1 - i.
Proof.
  intros Hi. rewrite position_step_fold.
  pose proof (first_min_in _ _ (fold_first_min (m_candidates lit offl mt e cost i NMATCHES_PER_OFFSET 0)
    (zultra_get_literal_size lit (win i) + cost (i + 1), 0, 0))) as Hin.
  destruct Hin as [Hc|Hin].
  - rewrite <- Hc. cbn. lia.
  - eapply m_candidates_len; eassumption.
Qed.

Lemma i_loop_spec lit offl win mt s e :
  forall fuel i cost best,
    Z.of_nat fuel = i - s + 1 -> i <= e - 2 ->
    let best' := snd (i_loop lit offl win mt s e fuel i cost best) in
    (forall j, j < s \/ i < j -> best' j = best j)
    /\ (forall j, s <= j <= i -> j + length (best' j) <= e - 1).
Proof.
  induction fuel as [|f IH]; intros i cost best Hf Hi; cbn zeta.
  - cbn [i_loop snd]. split; [reflexivity|]. intros j Hj. lia.
  - cbn [i_loop]. rewrite Nat2Z.inj_succ in Hf.
    rewrite (proj2 (Z.eqb_neq i (s - 1))) by lia.
    pose proof (position_step_len lit offl win mt e cost i Hi) as Hlen.
    destruct (position_step lit offl win mt e cost i) as [[c l] o] eqn:P.
    cbn in Hlen.
    destruct (IH (i - 1) (upd cost i c) (updm best i (mkMatch (u16 l) (u16 o)))) as [Hout Hin];
      [lia|lia|].
    split.
    + intros j Hj. rewrite Hout by lia. unfold updm.
      rewrite (proj2 (Z.eqb_neq j i)) by lia. reflexivity.
    + intros j Hj. destruct (Z.eq_dec j i) as [->|Hne].
      * rewrite Hout by lia. unfold updm. rewrite Z.eqb_refl. cbn [length].
        unfold u16. pose proof (Z.mod_le l 65536 ltac:(lia) ltac:(lia)). lia.
      * apply Hin. lia.
Qed.

(** C2: for a sub-range [nStartOffset, nEndOffset) with
    nEndOffset > nStartOffset, after [zultra_optimize_matches_lwd] the
    choice at nEndOffset - 1 is a literal (length 0), and the choice at
    every position i of [nStartOffset, nEndOffset - 1) has
    i + length <= nEndOffset - 1, whatever the match table holds. *)
Theorem optimize_matches_last_literal (lit offl win : array) (mt : Z -> zultra_match_t)
    (s e : Z) (cost : array) (best : Z -> zultra_match_t) (Hse : s < e) :
  let best' := snd (zultra_optimize_matches_lwd lit offl win mt s e cost best) in
  length (best' (e - 1)) = 0
  /\ forall i, s <= i < e - 1 -> i + length (best' i) <= e - 1.
Proof.
  cbv zeta. unfold zultra_optimize_matches_lwd.
  rewrite (proj2 (Z.leb_gt e s)) by lia. cbv zeta.
  destruct (i_loop_spec lit offl win mt s e (Z.to_nat (e - 1 - s)) (e - 2)
    (upd cost (e - 1) (zultra_get_literal_size lit (win (e - 1))))
    (updm best (e - 1) (mkMatch 0 0))) as [Hout Hin]; [lia|lia|].
  split.
  - rewrite Hout by lia. unfold updm. rewrite Z.eqb_refl. reflexivity.
  - intros i Hi. apply Hin. lia.
Qed.

(** Witness of C2: a ten-byte range whose match table proposes at every
    position a match running past the end. *)
Lemma optimize_matches_last_literal_witness :
  0 < 10 /\
  (let best' := snd (zultra_optimize_matches_lwd (fun _ => 8) (fun _ => 5) (fun _ => 0)
                       (fun _ => mkMatch 258 1) 0 10 (fun _ => 0) (fun _ => mkMatch 0 0)) in
   length (best' (10 - 1)) = 0
   /\ forall i, 0 <= i < 10 - 1 -> i + length (best' i) <= 10 - 1).
Proof.
  split; [lia|].
  apply (optimize_matches_last_literal (fun _ => 8) (fun _ => 5) (fun _ => 0)
           (fun _ => mkMatch 258 1) 0 10 (fun _ => 0) (fun _ => mkMatch 0 0)).
  lia.
Defined.

(** C7: the choice [position_step] makes at a position is the first
    candidate of minimum total cost in evaluation order (the literal, then
    each match slot in turn, a short match by decreasing length): on a
    tie the literal beats a match, and a longer length of a match slot
    beats a shorter one. *)
Theorem position_step_first_min (lit offl win : array) (mt : Z -> zultra_match_t)
    (e : Z) (cost : array) (i : Z) :
  spec_first_min (parse_candidates lit offl win mt e cost i)
                 (position_step lit offl win mt e cost i).
Proof.
  rewrite position_step_fold. unfold parse_candidates. apply fold_first_min.
Qed.

(** Counterexample to C7: on [0, 10) with literals of 8 bits, length
    symbols 257 and 258 of 7 and 15 bits, offset codes of 5 bits and one
    match of length 4 at offset 1 at position 0, lengths 3 and 4 both cost
    68 bits (the literal 80) and the parser stores length 4, the longer. *)
Lemma optimize_tie_keeps_longer :
  let lit : array := fun j => if j =? 257 then 7 else if j =? 258 then 15 else 8 in
  let mt := fun j => if j =? 0 then mkMatch 4 1 else mkMatch 0 0 in
  let res := zultra_optimize_matches_lwd lit (fun _ => 5) (fun _ => 0) mt 0 10
               (fun _ => 0) (fun _ => mkMatch 0 0) in
  parse_candidates lit (fun _ => 5) (fun _ => 0) mt 10 (fst res) 0 = [(80, 0, 0); (68, 4, 1); (68, 3, 1)]
  /\ length (snd res 0) = 4 /\ fst res 0 = 68.
Proof. vm_compute. split; [reflexivity|split; reflexivity]. Qed.

End ParserProofs.

Module HuffmanProofs.
Import Huffman.

(** ** Ranges and sums *)

Lemma In_zseq x l n : In x (zseq l n) <-> l <= x < l + Z.of_nat n.
Proof.
  revert l. induction n as [|n IH]; intros l; cbn [zseq In].
  - lia.
  - rewrite IH. lia.
Qed.

Lemma zseq_app l m k : zseq l (m + k) = zseq l m ++ zseq (l + Z.of_nat m) k.
Proof.
  revert l. induction m as [|m IH]; intros l; cbn [zseq plus app].
  - now rewrite Z.add_0_r.
  - rewrite IH. replace (l + Z.of_nat (S m)) with (l + 1 + Z.of_nat m) by lia. reflexivity.
Qed.

Lemma NoDup_zseq l n : NoDup (zseq l n).
Proof.
  revert l. induction n as [|n IH]; intros l; cbn [zseq]; constructor; [|apply IH].
  rewrite In_zseq. lia.
Qed.

Lemma zseq_length l n : List.length (zseq l n) = n.
Proof. revert l. induction n; intros l; cbn; [reflexivity|now rewrite IHn]. Qed.

Lemma zsum_app f xs ys : zsum f (xs ++ ys) = zsum f xs + zsum f ys.
Proof. unfold zsum. induction xs as [|x xs IH]; cbn; [reflexivity|]. rewrite IH. lia. Qed.

Lemma zsum_ext_in f g xs : (forall x, In x xs -> f x = g x) -> zsum f xs = zsum g xs.
Proof.
  induction xs as [|x xs IH]; intros H; cbn; [reflexivity|].
  unfold zsum in IH. rewrite H by (left; reflexivity). rewrite IH; [reflexivity|].
  intros y Hy. apply H. right. exact Hy.
Qed.

Lemma zsum_perm f xs ys : Permutation xs ys -> zsum f xs = zsum f ys.
Proof.
  induction 1; cbn; unfold zsum in *; lia.
Qed.

Lemma zsum_map f g xs : zsum f (map g xs) = zsum (fun x => f (g x)) xs.
Proof. induction xs as [|x xs IH]; cbn; [reflexivity|]. unfold zsum in IH. rewrite IH. reflexivity. Qed.

Lemma zsum_nonneg f xs : (forall x, In x xs -> 0 <= f x) -> 0 <= zsum f xs.
Proof.
  induction xs as [|x xs IH]; intros H; cbn; [lia|].
  unfold zsum in IH. pose proof (H x (or_introl eq_refl)).
  assert (0 <= fold_right (fun x acc => f x + acc) 0 xs) by (apply IH; intros; apply H; right; assumption).
  lia.
Qed.

Lemma zsum_scale c f xs : zsum (fun x => c * f x) xs = c * zsum f xs.
Proof. induction xs as [|x xs IH]; cbn; [lia|]. unfold zsum in IH. rewrite IH. lia. Qed.

Lemma zsum_const c xs : zsum (fun _ => c) xs = c * Z.of_nat (List.length xs).
Proof. induction xs as [|x xs IH]; cbn [zsum fold_right List.length]; [lia|]. unfold zsum in IH. rewrite IH. lia. Qed.

Lemma upd_swap_eq_l (a : array) i j : swap a i j i = a j.
Proof. unfold swap, upd. destruct (Z.eqb_spec i j); destruct (Z.eqb_spec i i); congruence. Qed.

Lemma swap_eq_r (a : array) i j : swap a i j j = a i.
Proof. unfold swap, upd. rewrite Z.eqb_refl. reflexivity. Qed.

Lemma swap_other (a : array) i j x : x <> i -> x <> j -> swap a i j x = a x.
Proof. intros. unfold swap, upd. rewrite (proj2 (Z.eqb_neq x j)), (proj2 (Z.eqb_neq x i)) by assumption. reflexivity. Qed.

Lemma perm_exchange {A} (x y : A) B C : Permutation (x :: B ++ y :: C) (y :: B ++ x :: C).
Proof.
  apply perm_trans with (y :: x :: B ++ C).
  - apply Permutation_sym. exact (Permutation_middle (x :: B) C y).
  - apply perm_skip. exact (Permutation_middle B C x).
Qed.

Lemma map_swap_perm (a : array) xs i j :
  NoDup xs -> In i xs -> In j xs -> Permutation (map a xs) (map (swap a i j) xs).
Proof.
  intros Hnd Hi Hj.
  destruct (Z.eq_dec i j) as [<-|Hne].
  - erewrite (map_ext_in _ (swap a i i)); [apply Permutation_refl|].
    intros x _. unfold swap, upd. destruct (Z.eqb_spec x i); congruence.
  - assert (Hgen : forall u v, u <> v -> In u xs -> In v xs ->
              (exists p1 p2 p3, xs = p1 ++ u :: p2 ++ v :: p3) ->
              Permutation (map a xs) (map (swap a u v) xs) /\ Permutation (map a xs) (map (swap a v u) xs)).
    { intros u v Huv _ _ [p1 [p2 [p3 Hxs]]]. subst xs.
      pose proof (NoDup_remove _ _ _ Hnd) as [_ Hu]. rewrite in_app_iff in Hu.
      pose proof Hnd as Hnd2.
      rewrite app_comm_cons, app_assoc in Hnd2. apply NoDup_remove in Hnd2 as [_ Hv].
      rewrite !in_app_iff in Hv. cbn [In] in Hu, Hv.
      assert (Hsw : forall w, swap a u v w = swap a v u w).
      { intros w. unfold swap, upd. destruct (Z.eqb_spec w v), (Z.eqb_spec w u); congruence. }
      assert (Hperm : Permutation (map a (p1 ++ u :: p2 ++ v :: p3)) (map (swap a u v) (p1 ++ u :: p2 ++ v :: p3))).
      { rewrite !map_app. cbn [map]. rewrite !map_app. cbn [map].
        rewrite (map_ext_in (swap a u v) a p1), (map_ext_in (swap a u v) a p2), (map_ext_in (swap a u v) a p3).
        - rewrite upd_swap_eq_l, swap_eq_r.
          apply Permutation_app_head. apply perm_exchange.
        - intros w Hw. apply swap_other; intros ->;
            first [apply Hu | apply Hv]; rewrite ?in_app_iff; cbn [In]; tauto.
        - intros w Hw. apply swap_other; intros ->;
            first [apply Hu | apply Hv]; rewrite ?in_app_iff; cbn [In]; tauto.
        - intros w Hw. apply swap_other; intros ->;
            first [apply Hu | apply Hv]; rewrite ?in_app_iff; cbn [In]; tauto. }
      split; [exact Hperm|].
      replace (map (swap a v u) (p1 ++ u :: p2 ++ v :: p3)) with (map (swap a u v) (p1 ++ u :: p2 ++ v :: p3));
        [exact Hperm|]. apply map_ext. exact Hsw. }
    destruct (in_split _ _ Hi) as [l1 [l2 Hxs]].
    destruct (in_app_or l1 (i :: l2) j) as [Hj1|Hj2]; [rewrite <- Hxs; exact Hj|..].
    + destruct (in_split _ _ Hj1) as [m1 [m2 Hl1]]. subst l1.
      apply (Hgen j i); [congruence|assumption|assumption|].
      exists m1, m2, l2. rewrite Hxs, <- app_assoc. reflexivity.
    + destruct Hj2 as [Hji|Hj2]; [congruence|].
      destruct (in_split _ _ Hj2) as [m1 [m2 Hl2]]. subst l2.
      apply (Hgen i j); [assumption|assumption|assumption|]. exists l1, m1, m2. exact Hxs.
Qed.

(** ** [zultra_huffman_encoder_qsort] sorts a permutation of its range *)

Lemma qsort_gt_asym value a b : qsort_gt value a b = true -> qsort_gt value b a = false.
Proof.
  unfold qsort_gt. intros H.
  destruct (Z.gtb_spec (value a) (value b)), (Z.eqb_spec (value a) (value b)),
    (Z.gtb_spec a b), (Z.gtb_spec (value b) (value a)), (Z.eqb_spec (value b) (value a)),
    (Z.gtb_spec b a); cbn in *; try reflexivity; try discriminate; lia.
Qed.

Lemma qsort_gt_false_le value a b : qsort_gt value a b = false -> value a <= value b.
Proof.
  unfold qsort_gt. intros H. destruct (Z.gtb_spec (value a) (value b)); [discriminate|lia].
Qed.

Lemma qsort_partition_spec value left right p :
  forall fuel i idx last,
    Z.of_nat fuel = right + 1 - i -> left < i -> left <= last < i ->
    idx left = p ->
    (forall j, left < j <= last -> qsort_gt value p (idx j) = true) ->
    (forall j, last < j < i -> qsort_gt value p (idx j) = false) ->
    let r := qsort_partition value fuel left i idx last in
    left <= snd r <= right /\ fst r left = p /\
    (forall j, left < j <= snd r -> qsort_gt value p (fst r j) = true) /\
    (forall j, snd r < j <= right -> qsort_gt value p (fst r j) = false) /\
    (forall j, j <= left \/ right < j -> fst r j = idx j) /\
    Permutation (map idx (zseq (left + 1) (Z.to_nat (right - left))))
                (map (fst r) (zseq (left + 1) (Z.to_nat (right - left)))).
Proof.
  induction fuel as [|f IH]; intros i idx last Hf Hi Hl Hp Hlt Hge; cbn zeta.
  - cbn [qsort_partition fst snd]. split; [lia|]. split; [exact Hp|].
    split; [exact Hlt|]. split; [intros j Hj; apply Hge; lia|].
    split; [reflexivity|apply Permutation_refl].
  - cbn [qsort_partition]. cbv zeta. rewrite Hp.
    assert (Hin : forall x, left < x <= right -> In x (zseq (left + 1) (Z.to_nat (right - left))))
      by (intros x Hx; apply In_zseq; lia).
    destruct (qsort_gt value p (idx i)) eqn:Hc.
    + change (upd (upd idx i (idx (last + 1))) (last + 1) (idx i)) with (swap idx i (last + 1)).
      destruct (IH (i + 1) (swap idx i (last + 1)) (last + 1)) as [H1 [H2 [H3 [H4 [H5 H6]]]]];
        [lia|lia|lia| | | |].
      * rewrite swap_other by lia. exact Hp.
      * intros j Hj. destruct (Z.eq_dec j (last + 1)) as [->|Hne].
        -- rewrite swap_eq_r. exact Hc.
        -- rewrite swap_other by lia. apply Hlt. lia.
      * intros j Hj. destruct (Z.eq_dec j i) as [->|Hne].
        -- rewrite upd_swap_eq_l. apply Hge. lia.
        -- rewrite swap_other by lia. apply Hge. lia.
      * split; [exact H1|]. split; [exact H2|]. split; [exact H3|]. split; [exact H4|].
        split; [intros j Hj; rewrite H5 by exact Hj; apply swap_other; lia|].
        eapply perm_trans; [|exact H6].
        apply map_swap_perm; [apply NoDup_zseq|apply Hin; lia..].
    + destruct (IH (i + 1) idx last) as [H1 [H2 [H3 [H4 [H5 H6]]]]]; [lia|lia|lia|exact Hp|exact Hlt| |].
      * intros j Hj. destruct (Z.eq_dec j i) as [->|Hne]; [exact Hc|apply Hge; lia].
      * repeat (split; [assumption|]). exact H6.
Qed.

Lemma zseq_split3 l m r :
  l <= m <= r ->
  zseq l (Z.to_nat (r - l + 1)) = zseq l (Z.to_nat (m - l)) ++ m :: zseq (m + 1) (Z.to_nat (r - m)).
Proof.
  intros H.
  replace (Z.to_nat (r - l + 1)) with (Z.to_nat (m - l) + S (Z.to_nat (r - m)))%nat by lia.
  rewrite zseq_app. cbn [zseq]. do 3 f_equal; lia.
Qed.

Lemma map_ext_zseq (a b : array) l n :
  (forall x, l <= x < l + Z.of_nat n -> a x = b x) -> map a (zseq l n) = map b (zseq l n).
Proof. intros H. apply map_ext_in. intros x Hx. apply H. apply In_zseq. exact Hx. Qed.

Lemma in_map_zseq (a : array) l n y :
  In y (map a (zseq l n)) -> exists x, l <= x < l + Z.of_nat n /\ y = a x.
Proof. intros Hy. apply in_map_iff in Hy as [x [<- Hx]]. exists x. apply In_zseq in Hx. split; [exact Hx|reflexivity]. Qed.

Lemma qsort_rec_spec value :
  forall fuel idx left right,
    right - left + 1 <= Z.of_nat fuel ->
    let idx' := qsort_rec value fuel idx left right in
    (forall j, j < left \/ right < j -> idx' j = idx j) /\
    Permutation (map idx (zseq left (Z.to_nat (right - left + 1))))
                (map idx' (zseq left (Z.to_nat (right - left + 1)))) /\
    (forall j, left <= j < right -> qsort_gt value (idx' j) (idx' (j + 1)) = false).
Proof.
  induction fuel as [|f IH]; intros idx left right Hf; cbn zeta.
  - cbn [qsort_rec]. split; [reflexivity|]. split; [apply Permutation_refl|]. intros j Hj. lia.
  - cbn [qsort_rec]. destruct (left >=? right) eqn:E.
    { split; [reflexivity|]. split; [apply Permutation_refl|]. rewrite Z.geb_leb in E.
      apply Z.leb_le in E. intros j Hj. lia. }
    rewrite Z.geb_leb in E. apply Z.leb_gt in E.
    set (mid := Z.shiftr (left + right) 1).
    assert (Hmid : left <= mid <= right).
    { unfold mid. rewrite Z.shiftr_div_pow2 by lia. change (2 ^ 1) with 2.
      split; [apply Z.div_le_lower_bound|apply Z.div_le_upper_bound]; lia. }
    set (idx1 := swap idx left mid).
    destruct (qsort_partition_spec value left right (idx1 left) (Z.to_nat (right - left)) (left + 1) idx1 left)
      as [P1 [P2 [P3 [P4 [P5 P6]]]]]; [lia|lia|lia|reflexivity|intros; lia|intros; lia|].
    destruct (qsort_partition value (Z.to_nat (right - left)) left (left + 1) idx1 left) as [idx2 last] eqn:Ep.
    cbn [fst snd] in *.
    set (idx3 := swap idx2 left last).
    destruct (IH idx3 left (last - 1)) as [Q1 [Q2 Q3]]; [lia|].
    set (idx4 := qsort_rec value f idx3 left (last - 1)) in *.
    destruct (IH idx4 (last + 1) right) as [R1 [R2 R3]]; [lia|].
    set (idx5 := qsort_rec value f idx4 (last + 1) right) in *.
    replace (last - 1 - left + 1) with (last - left) in Q2 by lia.
    replace (right - (last + 1) + 1) with (right - last) in R2 by lia.
    assert (E3last : idx3 last = idx1 left) by (unfold idx3; rewrite swap_eq_r; exact P2).
    assert (E45 : forall j, j <= last -> idx5 j = idx4 j) by (intros j Hj; apply R1; lia).
    assert (E34 : forall j, last <= j -> idx4 j = idx3 j) by (intros j Hj; apply Q1; lia).
    assert (Hleft : forall y, In y (map idx4 (zseq left (Z.to_nat (last - left)))) ->
                      qsort_gt value (idx1 left) y = true).
    { intros y Hy. apply (Permutation_in _ (Permutation_sym Q2)) in Hy.
      apply in_map_zseq in Hy as [x [Hx ->]]. unfold idx3.
      destruct (Z.eq_dec x left) as [->|Hne].
      - rewrite upd_swap_eq_l. apply P3. lia.
      - rewrite swap_other by lia. apply P3. lia. }
    assert (Hright : forall y, In y (map idx5 (zseq (last + 1) (Z.to_nat (right - last)))) ->
                       qsort_gt value (idx1 left) y = false).
    { intros y Hy. apply (Permutation_in _ (Permutation_sym R2)) in Hy.
      apply in_map_zseq in Hy as [x [Hx ->]]. rewrite E34 by lia. unfold idx3.
      rewrite swap_other by lia. apply P4. lia. }
    split; [|split].
    + intros j Hj. rewrite R1 by lia. rewrite Q1 by lia. unfold idx3. rewrite swap_other by lia.
      rewrite P5 by lia. unfold idx1. apply swap_other; lia.
    + eapply perm_trans.
      { apply (map_swap_perm idx _ left mid); [apply NoDup_zseq|apply In_zseq; lia..]. }
      fold idx1.
      eapply perm_trans with (map idx2 (zseq left (Z.to_nat (right - left + 1)))).
      { replace (Z.to_nat (right - left + 1)) with (S (Z.to_nat (right - left))) by lia.
        cbn [zseq map]. rewrite P2. apply perm_skip. exact P6. }
      eapply perm_trans.
      { apply (map_swap_perm idx2 _ left last); [apply NoDup_zseq|apply In_zseq; lia..]. }
      fold idx3. rewrite (zseq_split3 left last right) by lia. rewrite !map_app. cbn [map].
      apply Permutation_trans with
        (map idx4 (zseq left (Z.to_nat (last - left))) ++ idx4 last :: map idx4 (zseq (last + 1) (Z.to_nat (right - last)))).
      * apply Permutation_app; [exact Q2|]. rewrite (E34 last) by lia. apply perm_skip.
        rewrite (map_ext_zseq idx4 idx3); [apply Permutation_refl|]. intros x Hx. apply E34. lia.
      * rewrite (map_ext_zseq idx5 idx4 left); [|intros x Hx; apply E45; lia].
        rewrite (E45 last) by lia.
        apply Permutation_app_head. apply perm_skip. exact R2.
    + intros j Hj.
      destruct (Z_lt_ge_dec (j + 1) last) as [Hlt|Hge].
      * rewrite !E45 by lia. apply Q3. lia.
      * destruct (Z.eq_dec (j + 1) last) as [Hj1|Hne].
        -- rewrite !E45 by lia. rewrite Hj1, (E34 last), E3last by lia.
           apply qsort_gt_asym. apply Hleft.
           apply in_map. apply In_zseq. lia.
        -- destruct (Z.eq_dec j last) as [->|Hne2].
           ++ rewrite (E45 last), (E34 last), E3last by lia. apply Hright. apply in_map. apply In_zseq. lia.
           ++ apply R3. lia.
Qed.

Lemma qsort_spec value idx n :
  0 <= n ->
  let idx' := zultra_huffman_encoder_qsort value idx 0 (n - 1) in
  (forall j, j < 0 \/ n - 1 < j -> idx' j = idx j) /\
  Permutation (map idx (zseq 0 (Z.to_nat n))) (map idx' (zseq 0 (Z.to_nat n))) /\
  (forall j, 0 <= j < n - 1 -> value (idx' j) <= value (idx' (j + 1))).
Proof.
  intros Hn. unfold zultra_huffman_encoder_qsort.
  destruct (qsort_rec_spec value (Z.to_nat (n - 1 - 0 + 1)) idx 0 (n - 1)) as [H1 [H2 H3]]; [lia|].
  replace (n - 1 - 0 + 1) with n in * by lia.
  split; [exact H1|]. split; [exact H2|].
  intros j Hj. apply qsort_gt_false_le. apply H3. lia.
Qed.

(** ** Symbol enumeration and scatter *)

Lemma zseq_snoc l n : zseq l (S n) = zseq l n ++ [l + Z.of_nat n].
Proof. replace (S n) with (n + 1)%nat by lia. rewrite zseq_app. reflexivity. Qed.

Lemma enum_symbols_spec test value :
  forall fuel i q n, 0 <= n ->
    let r := enum_symbols test value fuel i q n in
    map (fst r) (zseq 0 (Z.to_nat (snd r)))
      = map q (zseq 0 (Z.to_nat n)) ++ filter (fun s => test (value s)) (zseq i fuel)
    /\ snd r = n + Z.of_nat (List.length (filter (fun s => test (value s)) (zseq i fuel)))
    /\ (forall j, j < n \/ snd r <= j -> fst r j = q j).
Proof.
  induction fuel as [|f IH]; intros i q n Hn; cbn zeta.
  - cbn [enum_symbols fst snd zseq filter List.length]. rewrite app_nil_r.
    split; [reflexivity|]. split; [lia|]. intros; reflexivity.
  - cbn [enum_symbols zseq filter]. destruct (test (value i)) eqn:Ht.
    + destruct (IH (i + 1) (upd q n i) (n + 1)) as [H1 [H2 H3]]; [lia|].
      split; [|split].
      * rewrite H1. replace (Z.to_nat (n + 1)) with (S (Z.to_nat n)) by lia.
        rewrite zseq_snoc, map_app, <- app_assoc. cbn [map app].
        rewrite (map_ext_zseq (upd q n i) q); [|intros x Hx; unfold upd; rewrite (proj2 (Z.eqb_neq x n)) by lia; reflexivity].
        unfold upd at 1. rewrite (proj2 (Z.eqb_eq (0 + Z.of_nat (Z.to_nat n)) n)) by lia. reflexivity.
      * rewrite H2. cbn [List.length]. lia.
      * intros j Hj. rewrite H3 by lia. unfold upd. rewrite (proj2 (Z.eqb_neq j n)) by lia. reflexivity.
    + apply IH. exact Hn.
Qed.

Lemma In_filter_zseq (P : Z -> bool) l n s : In s (filter P (zseq l n)) <-> l <= s < l + Z.of_nat n /\ P s = true.
Proof. rewrite filter_In, In_zseq. reflexivity. Qed.

Lemma NoDup_filter_zseq (P : Z -> bool) l n : NoDup (filter P (zseq l n)).
Proof. apply NoDup_filter, NoDup_zseq. Qed.

Lemma scatter_spec (q A : array) :
  forall fuel i l, NoDup (map q (zseq i fuel)) ->
    let r := scatter fuel q A i l in
    (forall j, i <= j < i + Z.of_nat fuel -> r (q j) = A j) /\
    (forall s, ~ In s (map q (zseq i fuel)) -> r s = l s).
Proof.
  induction fuel as [|f IH]; intros i l Hnd; cbn zeta.
  - cbn [scatter]. split; [intros j Hj; lia|]. intros; reflexivity.
  - cbn [scatter]. cbn [zseq map] in Hnd. inversion Hnd as [|? ? Hni Hnd']; subst.
    destruct (IH (i + 1) (upd l (q i) (A i)) Hnd') as [H1 H2]. split.
    + intros j Hj. destruct (Z.eq_dec j i) as [->|Hne].
      * rewrite H2 by exact Hni. unfold upd. rewrite Z.eqb_refl. reflexivity.
      * apply H1. lia.
    + intros s Hs. cbn [zseq map In] in Hs. rewrite H2 by tauto. unfold upd.
      rewrite (proj2 (Z.eqb_neq s (q i))) by (intros ->; tauto). reflexivity.
Qed.

Lemma zsum_filter_split (P : Z -> bool) h xs :
  zsum h xs = zsum h (filter P xs) + zsum h (filter (fun x => negb (P x)) xs).
Proof.
  unfold zsum. induction xs as [|x xs IH]; cbn; [reflexivity|].
  destruct (P x); cbn; rewrite IH; lia.
Qed.

Lemma zsum_zero_on h xs : (forall x, In x xs -> h x = 0) -> zsum h xs = 0.
Proof.
  intros H. rewrite (zsum_ext_in h (fun _ => 0)) by exact H. rewrite zsum_const. lia.
Qed.

(** The sum over the symbols [0..N-1] of [h] equals the sum over any
    enumeration [Q] of the symbols selected by [P], when [h] vanishes on
    the others. *)
Lemma zsum_enumeration (P : Z -> bool) h Q N :
  Permutation Q (filter P (zseq 0 N)) ->
  (forall s, In s (zseq 0 N) -> P s = false -> h s = 0) ->
  zsum h (zseq 0 N) = zsum h Q.
Proof.
  intros Hp Hz. rewrite (zsum_filter_split P). rewrite (zsum_zero_on h (filter (fun x => negb (P x)) (zseq 0 N))).
  - rewrite (zsum_perm h _ _ (Permutation_sym Hp)). lia.
  - intros x Hx. apply filter_In in Hx as [Hx Hnp]. apply Hz; [exact Hx|].
    destruct (P x); [discriminate|reflexivity].
Qed.

(** ** Moffat-Katajainen, phase 3: internal depths to leaf depths *)

Lemma mk_count_spec :
  forall fuel A d t u, Z.of_nat fuel = t + 1 -> -1 <= t ->
    let r := mk_count fuel A d t u in
    -1 <= fst r <= t /\ snd r = u + (t - fst r) /\
    (forall j, fst r < j <= t -> A j = d) /\ (0 <= fst r -> A (fst r) <> d).
Proof.
  induction fuel as [|f IH]; intros A d t u Hf Ht; cbn zeta.
  - cbn [mk_count fst snd]. split; [lia|]. split; [lia|]. split; [intros; lia|]. intros; lia.
  - cbn [mk_count]. rewrite (proj2 (Z.geb_le t 0)) by lia. cbn [andb].
    destruct (Z.eqb_spec (A t) d) as [Ha|Ha].
    + destruct (IH A d (t - 1) (u + 1)) as [H1 [H2 [H3 H4]]]; [lia|lia|].
      split; [lia|]. split; [lia|]. split; [|exact H4].
      intros j Hj. destruct (Z.eq_dec j t) as [->|Hne]; [exact Ha|apply H3; lia].
    + cbn [fst snd]. split; [lia|]. split; [lia|]. split; [intros; lia|]. intros _; exact Ha.
Qed.

Lemma mk_assign_spec :
  forall fuel A d u x a, Z.of_nat fuel = a - u ->
    let r := mk_assign fuel A d u x a in
    snd (fst r) = x - (a - u) /\ snd r = u /\
    (forall j, x - (a - u) < j <= x -> fst (fst r) j = d) /\
    (forall j, j <= x - (a - u) \/ x < j -> fst (fst r) j = A j).
Proof.
  induction fuel as [|f IH]; intros A d u x a Hf; cbn zeta.
  - cbn [mk_assign fst snd]. split; [lia|]. split; [lia|]. split; [intros; lia|]. intros; reflexivity.
  - cbn [mk_assign]. rewrite (proj2 (Z.gtb_lt a u)) by lia.
    destruct (IH (upd A x d) d u (x - 1) (a - 1)) as [H1 [H2 [H3 H4]]]; [lia|].
    replace (x - 1 - (a - 1 - u)) with (x - (a - u)) in * by lia.
    split; [exact H1|]. split; [exact H2|]. split.
    + intros j Hj. destruct (Z.eq_dec j x) as [->|Hne].
      * rewrite H4 by lia. unfold upd. rewrite Z.eqb_refl. reflexivity.
      * apply H3. lia.
    + intros j Hj. rewrite H4 by lia. unfold upd. rewrite (proj2 (Z.eqb_neq j x)) by lia. reflexivity.
Qed.

Lemma zsum_pow_split e (A : array) lo mid hi :
  lo <= mid <= hi ->
  zsum (fun j => 2 ^ (e - A j)) (zseq (lo + 1) (Z.to_nat (hi - lo)))
  = zsum (fun j => 2 ^ (e - A j)) (zseq (lo + 1) (Z.to_nat (mid - lo)))
    + zsum (fun j => 2 ^ (e - A j)) (zseq (mid + 1) (Z.to_nat (hi - mid))).
Proof.
  intros H. replace (Z.to_nat (hi - lo)) with (Z.to_nat (mid - lo) + Z.to_nat (hi - mid))%nat by lia.
  rewrite zseq_app, zsum_app. replace (lo + 1 + Z.of_nat (Z.to_nat (mid - lo))) with (mid + 1) by lia.
  reflexivity.
Qed.

Section Phase3.

(** The internal-node depths [D] over [0..n-2] that phase 2 leaves, with
    the parent map [p] of phase 1. *)
Variables (n : Z) (D p : array).
Hypothesis Hn : 2 <= n.
Hypothesis HD0 : D (n - 2) = 0.
Hypothesis HDp : forall j, 0 <= j <= n - 3 -> D j = D (p j) + 1.
Hypothesis Hp_range : forall j, 0 <= j <= n - 3 -> j + 1 <= p j <= n - 2.
Hypothesis Hp_mono : forall j j', 0 <= j /\ j <= j' /\ j' <= n - 3 -> p j <= p j'.
Hypothesis Hp_two : forall j, 0 <= j -> j + 2 <= n - 3 -> p j < p (j + 2).
Hypothesis HD_noninc : forall j j', 0 <= j /\ j <= j' /\ j' <= n - 2 -> D j' <= D j.
Hypothesis HD_step : forall j, 0 <= j <= n - 3 -> D j <= D (j + 1) + 1.

Lemma parent_spread :
  forall m a b, 0 <= a <= b -> b <= n - 3 -> b - a <= Z.of_nat m -> b - a - 1 <= 2 * (p b - p a).
Proof.
  induction m as [|m IH]; intros a b Hab Hb Hm.
  - assert (b = a) by lia. subst. lia.
  - destruct (Z_le_gt_dec (b - a) 1) as [Hle|Hgt].
    + pose proof (Hp_mono a b ltac:(lia)). lia.
    + pose proof (IH a (b - 2) ltac:(lia) ltac:(lia) ltac:(lia)).
      pose proof (Hp_two (b - 2) ltac:(lia) ltac:(lia)). replace (b - 2 + 2) with b in * by lia. lia.
Qed.

Lemma D_root_only j : 0 <= j <= n - 3 -> 1 <= D j.
Proof.
  intros Hj. rewrite HDp by exact Hj. pose proof (Hp_range j Hj).
  pose proof (HD_noninc (p j) (n - 2) ltac:(lia)). lia.
Qed.

Lemma phase3_count_bound d a t t' :
  1 <= d -> 0 < a -> a mod 2 = 0 -> -1 <= t' <= t -> t <= n - 2 ->
  (forall j, t' < j <= t -> D j = d) ->
  (forall j, t < j <= t + a / 2 -> D j = d - 1) ->
  (forall j, t + a / 2 < j <= n - 2 -> D j < d - 1) ->
  (0 <= t -> D t = d) ->
  t - t' <= a.
Proof.
  intros Hd Ha Hev Ht Htn Hcur Hprev Hold HDt.
  destruct (Z_le_gt_dec (t - t') 1) as [Hle|Hgt]; [lia|].
  assert (Hpar : forall j, t' < j <= t -> t < p j <= t + a / 2 /\ j <= n - 3).
  { intros j Hj. assert (Hjn : j <= n - 3).
    { destruct (Z.eq_dec j (n - 2)) as [->|Hne]; [|lia]. rewrite Hcur in HD0 by lia. lia. }
    pose proof (Hp_range j ltac:(lia)) as Hpr.
    pose proof (HDp j ltac:(lia)) as Hdp. rewrite Hcur in Hdp by lia.
    split; [|exact Hjn]. split.
    - destruct (Z_le_gt_dec (p j) t) as [Hpt|Hpt]; [|lia].
      pose proof (HD_noninc (p j) t ltac:(lia)). rewrite HDt in * by lia. lia.
    - destruct (Z_le_gt_dec (p j) (t + a / 2)) as [Hpt|Hpt]; [exact Hpt|].
      pose proof (Hold (p j) ltac:(lia)). lia. }
  destruct (Hpar t ltac:(lia)) as [Hpt Htn3]. destruct (Hpar (t' + 1) ltac:(lia)) as [Hpt' _].
  pose proof (parent_spread (Z.to_nat (t - (t' + 1))) (t' + 1) t ltac:(lia) Htn3 ltac:(lia)).
  assert (a = 2 * (a / 2)) by (pose proof (Z.div_mod a 2); lia). lia.
Qed.

Lemma phase3_spec :
  forall F A a d x t,
    -1 <= t <= n - 2 -> x = t + a -> x <= n - 1 -> 0 <= a ->
    (forall j, 0 <= j <= t -> A j = D j) ->
    (forall j, x < j <= n - 1 -> 1 <= A j <= n - 1) ->
    zsum (fun j => 2 ^ (n - A j)) (zseq (x + 1) (Z.to_nat (n - 1 - x))) + a * 2 ^ (n - d) = 2 ^ n ->
    (0 < a -> (0 <= t -> D t = d) /\ 0 <= d <= n - 2 - t) ->
    (d = 0 -> a = 1 /\ t = n - 2) ->
    (1 <= d -> a mod 2 = 0 /\ (forall j, t < j <= t + a / 2 -> D j = d - 1)
                /\ (forall j, t + a / 2 < j <= n - 2 -> D j < d - 1)) ->
    (a = 0 -> t = -1) ->
    (0 < a -> t + 2 <= Z.of_nat F) ->
    let R := mk_phase3 F A a 0 d x t in
    (forall j, 0 <= j <= n - 1 -> 1 <= R j <= n - 1) /\
    zsum (fun j => 2 ^ (n - R j)) (zseq 0 (Z.to_nat n)) = 2 ^ n.
Proof.
  induction F as [|f IH]; intros A a d x t Ht Hx Hxn Ha HA Hleaf Hsum H5 H6 H7 H8 H9; cbn zeta.
  - destruct (Z.eq_dec a 0) as [Ha0|Ha0]; [|lia].
    specialize (H8 Ha0). subst. cbn [mk_phase3].
    replace (-1 + 0 + 1) with 0 in Hsum by lia. replace (n - 1 - (-1 + 0)) with n in Hsum by lia.
    split; [intros j Hj; apply Hleaf; lia|lia].
  - cbn [mk_phase3]. destruct (a >? 0) eqn:Ea.
    2:{ rewrite Z.gtb_ltb in Ea. apply Z.ltb_ge in Ea. assert (a = 0) by lia. subst a.
        specialize (H8 eq_refl). subst.
        replace (-1 + 0 + 1) with 0 in Hsum by lia. replace (n - 1 - (-1 + 0)) with n in Hsum by lia.
        split; [intros j Hj; apply Hleaf; lia|lia]. }
    apply Z.gtb_lt in Ea. specialize (H5 Ea) as [H5a H5b]. specialize (H9 Ea).
    destruct (mk_count_spec (Z.to_nat (t + 1)) A d t 0) as [C1 [C2 [C3 C4]]]; [lia|lia|].
    destruct (mk_count (Z.to_nat (t + 1)) A d t 0) as [t' u] eqn:Ec. cbn [fst snd] in *.
    assert (Hcur : forall j, t' < j <= t -> D j = d) by (intros j Hj; rewrite <- HA by lia; apply C3; lia).
    assert (Hu1 : 0 <= t -> 1 <= u).
    { intros Ht0. destruct (Z.eq_dec t' t) as [Heq|Hne]; [|lia].
      exfalso. apply C4; [lia|]. rewrite Heq, HA by lia. apply H5a. exact Ht0. }
    assert (Hua : u <= a).
    { destruct (Z.eq_dec d 0) as [Hd0|Hd0].
      - destruct (H6 Hd0) as [-> ->]. subst d.
        destruct (Z_le_gt_dec t' (n - 4)) as [Hlt|Hge]; [|lia].
        pose proof (Hcur (n - 3) ltac:(lia)). pose proof (D_root_only (n - 3) ltac:(lia)). lia.
      - destruct (H7 ltac:(lia)) as [Hev [Hprev Hold]].
        subst u. pose proof (phase3_count_bound d a t t' ltac:(lia) Ea Hev ltac:(lia) ltac:(lia)
                               Hcur Hprev Hold H5a). lia. }
    destruct (mk_assign_spec (Z.to_nat (a - u)) A d u x a) as [S1 [S2 [S3 S4]]]; [lia|].
    destruct (mk_assign (Z.to_nat (a - u)) A d u x a) as [[A' x'] a'] eqn:Es. cbn [fst snd] in *.
    assert (Hdn : d <= n - 1) by lia.
    assert (Hd1 : x - (a - u) < x -> 1 <= d).
    { intros Hlt. destruct (Z.eq_dec d 0) as [Hd0|Hd0]; [|lia].
      destruct (H6 Hd0) as [-> ->]. pose proof (Hu1 ltac:(lia)). lia. }
    rewrite Z.shiftl_mul_pow2 by lia. change (2 ^ 1) with 2.
    apply IH; try lia.
    + intros j Hj. rewrite S4 by lia. apply HA. lia.
    + intros j Hj. destruct (Z_le_gt_dec j x) as [Hjx|Hjx].
      * rewrite S3 by lia. lia.
      * rewrite S4 by lia. apply Hleaf. lia.
    + rewrite S1. rewrite (zsum_pow_split n A' (x - (a - u)) x (n - 1)) by lia.
      rewrite (zsum_ext_in _ (fun _ => 2 ^ (n - d)) (zseq (x - (a - u) + 1) _)).
      2:{ intros j Hj. apply In_zseq in Hj. rewrite S3 by lia. reflexivity. }
      rewrite (zsum_ext_in _ (fun j => 2 ^ (n - A j)) (zseq (x + 1) _)).
      2:{ intros j Hj. apply In_zseq in Hj. rewrite S4 by lia. reflexivity. }
      rewrite zsum_const, zseq_length.
      replace (x - (a - u) + 1) with (x - (a - u) + 1) by reflexivity.
      replace (n - 1 - (x - (a - u))) with (n - 1 - (x - (a - u))) by reflexivity.
      assert (Hpw : 2 ^ (n - d) = 2 * 2 ^ (n - (d + 1))).
      { replace (n - d) with (Z.succ (n - (d + 1))) by lia. apply Z.pow_succ_r. lia. }
      rewrite Z2Nat.id by lia. rewrite Hpw in Hsum |- *. nia.
    + intros Hu. split.
      * intros Ht'. destruct (Z.eq_dec (D t') d) as [Heq|Hne].
        -- exfalso. apply C4; [exact Ht'|]. rewrite HA by lia. exact Heq.
        -- pose proof (Hu1 ltac:(lia)).
           pose proof (HD_noninc t' (t' + 1) ltac:(lia)). pose proof (HD_step t' ltac:(lia)).
           rewrite (Hcur (t' + 1)) in * by lia. lia.
      * pose proof (Hu1 ltac:(lia)). lia.
    + intros Hd. split; [|split].
      * apply Z.mod_divide; [lia|]. exists u. lia.
      * intros j Hj. replace (d + 1 - 1) with d by lia. apply Hcur.
        rewrite Z.div_mul in Hj by lia. lia.
      * intros j Hj. rewrite Z.div_mul in Hj by lia.
        destruct (Z.eq_dec d 0) as [Hd0|Hd0].
        -- destruct (H6 Hd0). lia.
        -- destruct (H7 ltac:(lia)) as [_ [Hprev Hold]].
           destruct (Z_le_gt_dec j (t + a / 2)) as [Hj2|Hj2].
           ++ rewrite Hprev by lia. lia.
           ++ pose proof (Hold j ltac:(lia)). lia.
Qed.

End Phase3.

(** ** Moffat-Katajainen, phase 1: the parent pointers *)

Lemma mk_select_spec n A s r t r0 :
  0 <= t <= n - 2 -> 0 <= r0 <= r -> r <= r0 + 1 -> r <= t -> s <= n ->
  2 * t <= s + r <= 2 * t + 1 ->
  (forall j, 0 <= j < r -> j + 2 <= A j <= t + 1) ->
  (forall j, 0 <= j < r0 -> A j <= t) ->
  (forall j j', 0 <= j /\ j <= j' /\ j' < r -> A j <= A j') ->
  (forall j, 0 <= j -> j + 2 < r -> A j < A (j + 2)) ->
  let '(_, A', s', r') := mk_select n A s r t in
  s' + r' = s + r + 1 /\ s' <= n /\ r <= r' <= r + 1 /\ r' <= t /\
  (forall j, 0 <= j < r -> A' j = A j) /\
  (forall j, 0 <= j < r' -> j + 2 <= A' j <= t + 1) /\
  (forall j j', 0 <= j /\ j <= j' /\ j' < r' -> A' j <= A' j') /\
  (forall j, 0 <= j -> j + 2 < r' -> A' j < A' (j + 2)).
Proof.
  intros Ht Hr Hr1 Hrt Hs Hsr P2 P2' P3 P4. unfold mk_select.
  destruct ((s >=? n) || ((r <? t) && (A r <? A s))) eqn:Ec.
  - assert (Hlt : r < t).
    { apply Bool.orb_true_iff in Ec as [E|E].
      - apply Z.geb_le in E. lia.
      - apply Bool.andb_true_iff in E as [E _]. apply Z.ltb_lt in E. exact E. }
    assert (Hu : forall j, 0 <= j < r -> upd A r (t + 1) j = A j).
    { intros j Hj. unfold upd. rewrite (proj2 (Z.eqb_neq j r)) by lia. reflexivity. }
    assert (Hr' : upd A r (t + 1) r = t + 1) by (unfold upd; now rewrite Z.eqb_refl).
    split; [lia|]. split; [lia|]. split; [lia|]. split; [lia|]. split; [exact Hu|].
    split; [|split].
    + intros j Hj. destruct (Z.eq_dec j r) as [->|Hne]; [rewrite Hr'; lia|].
      rewrite Hu by lia. apply P2. lia.
    + intros j j' Hj. destruct (Z.eq_dec j' r) as [->|Hne].
      * rewrite Hr'. destruct (Z.eq_dec j r) as [->|Hne']; [rewrite Hr'; lia|].
        rewrite Hu by lia. pose proof (P2 j ltac:(lia)). lia.
      * rewrite !Hu by lia. apply P3. lia.
    + intros j Hj Hjr. destruct (Z.eq_dec (j + 2) r) as [He|Hne].
      * rewrite He, Hr'. rewrite Hu by lia. pose proof (P2' j ltac:(lia)). lia.
      * rewrite !Hu by lia. apply P4; lia.
  - assert (Hsn : s < n).
    { destruct (Z_lt_le_dec s n) as [H|H]; [exact H|].
      exfalso. apply Bool.orb_false_iff in Ec as [Ec _]. rewrite Z.geb_leb, Z.leb_gt in Ec. lia. }
    split; [lia|]. split; [lia|]. split; [lia|]. split; [lia|]. split; [intros; reflexivity|].
    split; [exact P2|]. split; [exact P3|exact P4].
Qed.

Lemma mk_phase1_spec n :
  2 <= n ->
  forall fuel t A s r, Z.of_nat fuel = n - 1 - t -> 0 <= t <= n - 1 ->
    0 <= r -> s <= n -> s + r = 2 * t -> (r = 0 \/ r + 1 <= t) ->
    (forall j, 0 <= j < r -> j + 2 <= A j <= t) ->
    (forall j j', 0 <= j /\ j <= j' /\ j' < r -> A j <= A j') ->
    (forall j, 0 <= j -> j + 2 < r -> A j < A (j + 2)) ->
    let '(A', s', r') := mk_phase1 n fuel t A s r in
    s' = n /\ r' = n - 2 /\
    (forall j, 0 <= j < n - 2 -> j + 2 <= A' j <= n - 1) /\
    (forall j j', 0 <= j /\ j <= j' /\ j' < n - 2 -> A' j <= A' j') /\
    (forall j, 0 <= j -> j + 2 < n - 2 -> A' j < A' (j + 2)).
Proof.
  intros Hn. induction fuel as [|f IH]; intros t A s r Hf Ht Hr Hs Hsr Hrt P2 P3 P4.
  - cbn [mk_phase1]. assert (t = n - 1) by lia. subst t.
    assert (r = n - 2) by lia. subst r. assert (s = n) by lia. subst s.
    split; [reflexivity|]. split; [reflexivity|]. split; [exact P2|]. split; [exact P3|exact P4].
  - cbn [mk_phase1].
    pose proof (mk_select_spec n A s r t r ltac:(lia) ltac:(lia) ltac:(lia) ltac:(lia) Hs ltac:(lia)
                  ltac:(intros j Hj; pose proof (P2 j Hj); lia) ltac:(intros j Hj; pose proof (P2 j Hj); lia)
                  P3 P4) as S1.
    destruct (mk_select n A s r t) as [[[w1 A1] s1] r1] eqn:E1.
    destruct S1 as [S1a [S1b [S1c [S1d [S1e [S1f [S1g S1h]]]]]]].
    pose proof (mk_select_spec n A1 s1 r1 t r ltac:(lia) ltac:(lia) ltac:(lia) S1d S1b ltac:(lia)
                  S1f ltac:(intros j Hj; rewrite S1e by lia; pose proof (P2 j Hj); lia)
                  S1g S1h) as S2.
    destruct (mk_select n A1 s1 r1 t) as [[[w2 A2] s2] r2] eqn:E2.
    destruct S2 as [S2a [S2b [S2c [S2d [S2e [S2f [S2g S2h]]]]]]].
    assert (Hu : forall j, 0 <= j < r2 -> upd A2 t (w1 + w2) j = A2 j).
    { intros j Hj. unfold upd. rewrite (proj2 (Z.eqb_neq j t)) by lia. reflexivity. }
    apply IH; try lia.
    + intros j Hj. rewrite Hu by exact Hj. replace (t + 1) with (t + 1) by reflexivity. apply S2f. exact Hj.
    + intros j j' Hj. rewrite !Hu by lia. apply S2g. exact Hj.
    + intros j Hj Hj2. rewrite !Hu by lia. apply S2h; assumption.
Qed.

(** ** Moffat-Katajainen, phase 2: internal depths *)

Lemma mk_phase2_spec n (P : array) :
  (forall j, 0 <= j <= n - 3 -> j + 2 <= P j <= n - 1) ->
  forall fuel t A, Z.of_nat fuel = t + 1 -> -1 <= t <= n - 3 ->
    (forall j, 0 <= j <= t -> A j = P j) -> A (n - 2) = 0 ->
    (forall j, t < j <= n - 3 -> A j = A (P j - 1) + 1) ->
    let R := mk_phase2 fuel t A in
    R (n - 2) = 0 /\ (forall j, 0 <= j <= n - 3 -> R j = R (P j - 1) + 1).
Proof.
  intros HP. induction fuel as [|f IH]; intros t A Hf Ht HA H0 Hd; cbn zeta; cbn [mk_phase2].
  - split; [exact H0|]. intros j Hj. apply Hd. lia.
  - assert (Hne : forall j, j <> t -> upd A t (A (A t - 1) + 1) j = A j).
    { intros j Hj. unfold upd. rewrite (proj2 (Z.eqb_neq j t)) by exact Hj. reflexivity. }
    pose proof (HP t ltac:(lia)) as HPt.
    apply IH; try lia.
    + intros j Hj. rewrite Hne by lia. apply HA. lia.
    + rewrite Hne by lia. exact H0.
    + intros j Hj. destruct (Z.eq_dec j t) as [->|Hjt].
      * rewrite (Hne (P t - 1)) by lia. unfold upd at 1. rewrite Z.eqb_refl.
        rewrite (HA t) by lia. reflexivity.
      * pose proof (HP j ltac:(lia)). rewrite !Hne by lia. apply Hd. lia.
Qed.

Lemma depth_shape n (D p : array) :
  2 <= n -> D (n - 2) = 0 ->
  (forall j, 0 <= j <= n - 3 -> D j = D (p j) + 1) ->
  (forall j, 0 <= j <= n - 3 -> j + 1 <= p j <= n - 2) ->
  (forall j j', 0 <= j /\ j <= j' /\ j' <= n - 3 -> p j <= p j') ->
  forall k : nat, Z.of_nat k <= n - 2 ->
    (forall j, n - 2 - Z.of_nat k <= j <= n - 2 -> 0 <= D j) /\
    (forall j j', n - 2 - Z.of_nat k <= j /\ j <= j' /\ j' <= n - 2 -> D j' <= D j) /\
    (forall j, n - 2 - Z.of_nat k <= j <= n - 3 -> D j <= D (j + 1) + 1).
Proof.
  intros Hn H0 Hp Hr Hm. induction k as [|k IH]; intros Hk.
  - split; [intros j Hj; replace j with (n - 2) by lia; lia|]. split.
    + intros j j' Hj. replace j with (n - 2) by lia. replace j' with (n - 2) by lia. lia.
    + intros; lia.
  - destruct (IH ltac:(lia)) as [I1 [I2 I3]]. set (j0 := n - 2 - Z.of_nat (S k)).
    assert (Hj0 : 0 <= j0 <= n - 3) by lia.
    pose proof (Hr j0 Hj0) as Hrj0. pose proof (Hp j0 Hj0) as Hpj0.
    pose proof (I1 (p j0) ltac:(lia)).
    assert (Hnext : D (j0 + 1) <= D j0).
    { destruct (Z.eq_dec (j0 + 1) (n - 2)) as [He|He].
      - rewrite He, H0. lia.
      - pose proof (Hr (j0 + 1) ltac:(lia)). rewrite (Hp (j0 + 1)) by lia.
        pose proof (Hm j0 (j0 + 1) ltac:(lia)). pose proof (I2 (p j0) (p (j0 + 1)) ltac:(lia)). lia. }
    split; [|split].
    + intros j Hj. destruct (Z.eq_dec j j0) as [->|Hne]; [lia|apply I1; lia].
    + intros j j' Hj. destruct (Z.eq_dec j j0) as [->|Hne].
      * destruct (Z.eq_dec j' j0) as [->|Hne']; [lia|].
        pose proof (I2 (j0 + 1) j' ltac:(lia)). lia.
      * apply I2. lia.
    + intros j Hj. destruct (Z.eq_dec j j0) as [->|Hne].
      * pose proof (I2 (j0 + 1) (p j0) ltac:(lia)). lia.
      * apply I3. lia.
Qed.

Theorem mk_code_lengths_kraft n A :
  2 <= n ->
  let R := mk_code_lengths n A in
  (forall j, 0 <= j <= n - 1 -> 1 <= R j <= n - 1) /\
  zsum (fun j => 2 ^ (n - R j)) (zseq 0 (Z.to_nat n)) = 2 ^ n.
Proof.
  intros Hn. cbn zeta. unfold mk_code_lengths.
  pose proof (mk_phase1_spec n Hn (Z.to_nat (n - 1)) 0 A 0 0 ltac:(lia) ltac:(lia) ltac:(lia) ltac:(lia)
                ltac:(lia) ltac:(lia) ltac:(intros; lia) ltac:(intros; lia) ltac:(intros; lia)) as H1.
  destruct (mk_phase1 n (Z.to_nat (n - 1)) 0 A 0 0) as [[P s] r] eqn:E1.
  destruct H1 as [_ [_ [HP2 [HP3 HP4]]]].
  set (B := upd P (n - 2) 0).
  pose proof (mk_phase2_spec n P ltac:(intros j Hj; apply HP2; lia) (Z.to_nat (n - 2)) (n - 3) B
                ltac:(lia) ltac:(lia)
                ltac:(intros j Hj; unfold B, upd; rewrite (proj2 (Z.eqb_neq j (n - 2))) by lia; reflexivity)
                ltac:(unfold B, upd; rewrite Z.eqb_refl; reflexivity)
                ltac:(intros; lia)) as H2.
  cbn zeta in H2. set (D := mk_phase2 (Z.to_nat (n - 2)) (n - 3) B) in *.
  destruct H2 as [HD0 HDp].
  set (p := fun j => P j - 1).
  assert (Hpr : forall j, 0 <= j <= n - 3 -> j + 1 <= p j <= n - 2)
    by (intros j Hj; unfold p; pose proof (HP2 j ltac:(lia)); lia).
  assert (Hpm : forall j j', 0 <= j /\ j <= j' /\ j' <= n - 3 -> p j <= p j')
    by (intros j j' Hj; unfold p; pose proof (HP3 j j' ltac:(lia)); lia).
  assert (Hpt : forall j, 0 <= j -> j + 2 <= n - 3 -> p j < p (j + 2))
    by (intros j Hj Hj2; unfold p; pose proof (HP4 j Hj ltac:(lia)); lia).
  destruct (depth_shape n D p Hn HD0 HDp Hpr Hpm (Z.to_nat (n - 2)) ltac:(lia)) as [_ [Hni Hst]].
  replace (n - 2 - Z.of_nat (Z.to_nat (n - 2))) with 0 in * by lia.
  apply (phase3_spec n D p Hn HD0 HDp Hpr Hpm Hpt
           ltac:(intros j j' Hj; apply Hni; lia) ltac:(intros j Hj; apply Hst; lia));
    try lia.
  - replace (n - 1 + 1) with n by lia. replace (Z.to_nat (n - 1 - (n - 1))) with 0%nat by lia.
    cbn [zseq]. unfold zsum. cbn [fold_right]. rewrite Z.sub_0_r. lia.
Qed.

(** ** [zultra_huffman_encoder_estimate_dynamic_codelens] *)

Lemma filter_len_le {X} (f : X -> bool) (l : list X) : (List.length (filter f l) <= List.length l)%nat.
Proof. induction l as [|x l IH]; cbn; [lia|]. destruct (f x); cbn; lia. Qed.

Lemma count_nonzero_filter v N :
  count_nonzero v N = Z.of_nat (List.length (filter (fun s => nonzero (v s)) (zseq 0 (Z.to_nat N)))).
Proof.
  unfold count_nonzero. generalize (zseq 0 (Z.to_nat N)). intros xs.
  induction xs as [|x xs IH]; [reflexivity|]. cbn. unfold zsum in IH. rewrite IH. unfold nonzero.
  destruct (v x =? 0); cbn [negb List.length]; lia.
Qed.

Lemma estimate_spec e :
  0 <= nSymbols e <= MAX_SYMBOLS -> 2 <= count_nonzero (nEntropy e) (nSymbols e) ->
  let m := count_nonzero (nEntropy e) (nSymbols e) in
  let r := zultra_huffman_encoder_estimate_dynamic_codelens e in
  fst r = 0 /\ nSymbols (snd r) = nSymbols e /\ nMaxCodeLength (snd r) = nMaxCodeLength e /\
  (forall s, 0 <= s < nSymbols e -> (nCodeLength (snd r) s = 0 <-> nEntropy e s = 0)) /\
  (forall s, 0 <= nCodeLength (snd r) s <= m - 1) /\
  (forall s, ~ (0 <= s < nSymbols e) -> nCodeLength (snd r) s = 0) /\
  kraft_sum m (nCodeLength (snd r)) (nSymbols e) = 2 ^ m.
Proof.
  intros HN Hc. cbn zeta. unfold zultra_huffman_encoder_estimate_dynamic_codelens.
  rewrite (proj2 (Z.ltb_ge (nSymbols e) 0)) by lia.
  rewrite Z.gtb_ltb, (proj2 (Z.ltb_ge MAX_SYMBOLS (nSymbols e))) by lia. cbn [orb].
  set (N := nSymbols e) in *. set (E := nEntropy e) in *.
  set (F := filter (fun s => nonzero (E s)) (zseq 0 (Z.to_nat N))).
  rewrite count_nonzero_filter in Hc |- *. fold F in Hc |- *.
  pose proof (enum_symbols_spec nonzero E (Z.to_nat N) 0 uninit 0 ltac:(lia)) as [H1 [H2 _]].
  destruct (enum_symbols nonzero E (Z.to_nat N) 0 uninit 0) as [q0 m0] eqn:Ee. cbn [fst snd] in *.
  fold F in H1, H2. cbn in H1. rewrite Z.add_0_l in H2. subst m0.
  assert (HFlen : (List.length F <= Z.to_nat N)%nat) by (unfold F; rewrite <- (zseq_length 0 (Z.to_nat N)) at 2; apply filter_len_le).
  set (m := Z.of_nat (List.length F)) in *.
  rewrite (proj2 (Z.gtb_lt m 1)) by lia.
  set (q1 := clear_from q0 N).
  assert (Hq1 : map q1 (zseq 0 (Z.to_nat m)) = F).
  { rewrite <- H1. apply map_ext_zseq. intros x Hx. unfold q1, clear_from.
    rewrite (proj2 (Z.leb_gt N x)) by lia. reflexivity. }
  destruct (qsort_spec E q1 m ltac:(lia)) as [_ [Hperm _]].
  set (q2 := zultra_huffman_encoder_qsort E q1 0 (m - 1)) in *.
  set (Q := map q2 (zseq 0 (Z.to_nat m))).
  assert (HQ : Permutation Q F) by (unfold Q; rewrite <- Hq1; apply Permutation_sym; exact Hperm).
  assert (HQnd : NoDup Q) by (apply (Permutation_NoDup (Permutation_sym HQ)); apply NoDup_filter_zseq).
  destruct (mk_code_lengths_kraft m (fun i => E (q2 i)) ltac:(lia)) as [HR1 HR2].
  set (R := mk_code_lengths m (fun i => E (q2 i))) in *.
  destruct (scatter_spec q2 R (Z.to_nat m) 0 (fun _ => 0) HQnd) as [HS1 HS2].
  set (len := scatter (Z.to_nat m) q2 R 0 (fun _ => 0)) in *.
  assert (HinQ : forall s, In s Q <-> 0 <= s < N /\ E s <> 0).
  { intros s. split.
    - intros Hs. apply (Permutation_in _ HQ) in Hs. apply In_filter_zseq in Hs as [Hs Hn].
      unfold nonzero in Hn. apply Bool.negb_true_iff, Z.eqb_neq in Hn. lia.
    - intros [Hs Hn]. apply (Permutation_in _ (Permutation_sym HQ)). apply In_filter_zseq.
      split; [lia|]. unfold nonzero. apply Bool.negb_true_iff, Z.eqb_neq. exact Hn. }
  assert (Hlen : forall s, In s Q -> 1 <= len s <= m - 1).
  { intros s Hs. apply in_map_zseq in Hs as [j [Hj ->]]. rewrite HS1 by lia. apply HR1. lia. }
  cbn [fst snd set_code_length nSymbols nMaxCodeLength nCodeLength].
  split; [reflexivity|]. split; [reflexivity|]. split; [reflexivity|]. split; [|split; [|split]].
  - intros s Hs. split.
    + intros H0. destruct (Z.eq_dec (E s) 0) as [Hz|Hz]; [exact Hz|].
      pose proof (Hlen s (proj2 (HinQ s) (conj Hs Hz))). lia.
    + intros Hz. apply HS2. intros HQs. apply HinQ in HQs. tauto.
  - intros s. destruct (in_dec Z.eq_dec s Q) as [Hs|Hs]; [pose proof (Hlen s Hs); lia|].
    rewrite HS2 by exact Hs. lia.
  - intros s Hs. apply HS2. intros HQs. apply HinQ in HQs. tauto.
  - unfold kraft_sum.
    rewrite (zsum_enumeration (fun s => nonzero (E s)) _ Q (Z.to_nat N) HQ).
    + unfold Q. rewrite zsum_map. rewrite <- HR2. apply zsum_ext_in.
      intros j Hj. apply In_zseq in Hj. rewrite HS1 by lia.
      pose proof (HR1 j ltac:(lia)). rewrite (proj2 (Z.eqb_neq (R j) 0)) by lia. reflexivity.
    + intros s _ Hs. unfold nonzero in Hs. apply Bool.negb_false_iff, Z.eqb_eq in Hs.
      rewrite HS2; [reflexivity|]. intros HQs. apply HinQ in HQs. tauto.
Qed.

(** ** Length limiting *)

Lemma shiftr_pow2 L l : 0 <= l <= L -> Z.shiftr (2 ^ L) l = 2 ^ (L - l).
Proof.
  intros H. rewrite Z.shiftr_div_pow2 by lia. rewrite Z.pow_sub_r by lia. reflexivity.
Qed.

Lemma pow2_ge1 x : 0 <= x -> 1 <= 2 ^ x.
Proof. intros H. pose proof (Z.pow_pos_nonneg 2 x ltac:(lia) H). lia. Qed.

Lemma pow2_succ x : 0 <= x -> 2 ^ (x + 1) = 2 * 2 ^ x.
Proof. intros H. rewrite Z.pow_add_r by lia. lia. Qed.

Lemma zsum_point g g' xs x0 :
  NoDup xs -> In x0 xs -> (forall x, In x xs -> x <> x0 -> g' x = g x) ->
  zsum g' xs = zsum g xs - g x0 + g' x0.
Proof.
  induction xs as [|x xs IH]; intros Hnd Hin Hext; [destruct Hin|].
  inversion Hnd as [|? ? Hx Hnd']; subst. cbn [zsum fold_right]. fold (zsum g' xs) (zsum g xs).
  destruct Hin as [<-|Hin].
  - rewrite (zsum_ext_in g' g xs); [lia|]. intros y Hy. apply Hext; [now right|]. intros ->. contradiction.
  - rewrite (IH Hnd' Hin) by (intros y Hy; apply Hext; now right).
    rewrite (Hext x ltac:(now left)) by (intros ->; contradiction). lia.
Qed.

Lemma zsum_two g xs x0 x1 :
  NoDup xs -> In x0 xs -> In x1 xs -> x0 <> x1 -> (forall x, In x xs -> 0 <= g x) ->
  g x0 + g x1 <= zsum g xs.
Proof.
  induction xs as [|x xs IH]; intros Hnd H0 H1 Hne Hpos; [destruct H0|].
  inversion Hnd as [|? ? Hx Hnd']; subst. cbn [zsum fold_right]. fold (zsum g xs).
  assert (Hp : forall y, In y xs -> 0 <= g y) by (intros; apply Hpos; now right).
  destruct H0 as [<-|H0]; destruct H1 as [<-|H1].
  - contradiction.
  - pose proof (zsum_two_aux := in_split x1 xs). destruct (in_split x1 xs H1) as [l1 [l2 ->]].
    rewrite zsum_app. cbn [zsum fold_right]. fold (zsum g l2).
    pose proof (zsum_nonneg g l1 ltac:(intros; apply Hp; apply in_or_app; now left)).
    pose proof (zsum_nonneg g l2 ltac:(intros; apply Hp; apply in_or_app; right; now right)). lia.
  - destruct (in_split x0 xs H0) as [l1 [l2 ->]].
    rewrite zsum_app. cbn [zsum fold_right]. fold (zsum g l2).
    pose proof (zsum_nonneg g l1 ltac:(intros; apply Hp; apply in_or_app; now left)).
    pose proof (zsum_nonneg g l2 ltac:(intros; apply Hp; apply in_or_app; right; now right)). lia.
  - pose proof (IH Hnd' H0 H1 Hne Hp). pose proof (Hpos x ltac:(now left)). lia.
Qed.

Lemma zsum_divide c g xs : (forall x, In x xs -> (c | g x)) -> (c | zsum g xs).
Proof.
  induction xs as [|x xs IH]; intros H; cbn [zsum fold_right]; [apply Z.divide_0_r|].
  fold (zsum g xs). apply Z.divide_add_r; [apply H; now left|apply IH; intros; apply H; now right].
Qed.

Section Limit.

(** The [nNumSorted] symbols [q[0..n-1]] that the limiting loops visit. *)
Variables (L : Z) (q : array) (n : Z).
Hypothesis HL : 1 <= L.
Hypothesis Hn : 2 <= n.
Hypothesis HnL : n <= 2 ^ L.
Hypothesis Hinj : forall i j, 0 <= i < n -> 0 <= j < n -> q i = q j -> i = j.

Local Abbreviation kraft_q len := (zsum (fun j => 2 ^ (L - len (q j))) (zseq 0 (Z.to_nat n))).

Lemma kraft_q_point (len len' : array) i :
  0 <= i < n -> (forall s, s <> q i -> len' s = len s) ->
  kraft_q len' = kraft_q len - 2 ^ (L - len (q i)) + 2 ^ (L - len' (q i)).
Proof.
  intros Hi Hfr. apply (zsum_point (fun j => 2 ^ (L - len (q j))) (fun j => 2 ^ (L - len' (q j)))).
  - apply NoDup_zseq.
  - apply In_zseq. lia.
  - intros x Hx Hne. apply In_zseq in Hx. rewrite Hfr; [reflexivity|].
    intros He. apply Hne. apply Hinj; lia.
Qed.

Lemma limit_clamp_spec :
  forall fuel i len k, Z.of_nat fuel = i + 1 -> -1 <= i < n ->
    let r := limit_clamp L (2 ^ L) q fuel i len k in
    (forall j, 0 <= j <= i -> fst r (q j) = Z.min (len (q j)) L) /\
    (forall s, (forall j, 0 <= j <= i -> s <> q j) -> fst r s = len s) /\
    snd r = k + zsum (fun j => Z.shiftr (2 ^ L) (Z.min (len (q j)) L)) (zseq 0 (Z.to_nat (i + 1))).
Proof.
  induction fuel as [|f IH]; intros i len k Hf Hi; cbn zeta; cbn [limit_clamp fst snd].
  - split; [intros; lia|]. split; [reflexivity|]. replace (Z.to_nat (i + 1)) with 0%nat by lia. cbn. lia.
  - set (len1 := if len (q i) >? L then upd len (q i) L else len).
    assert (E1 : len1 (q i) = Z.min (len (q i)) L).
    { unfold len1. destruct (Z.gtb_spec (len (q i)) L); [rewrite upd_eq; lia|lia]. }
    assert (E2 : forall s, s <> q i -> len1 s = len s).
    { intros s Hs. unfold len1. destruct (len (q i) >? L); [apply upd_neq; exact Hs|reflexivity]. }
    destruct (IH (i - 1) len1 (k + Z.shiftr (2 ^ L) (len1 (q i))) ltac:(lia) ltac:(lia)) as [I1 [I2 I3]].
    assert (Hq : forall j, 0 <= j <= i - 1 -> q j <> q i) by (intros j Hj He; apply Hinj in He; lia).
    split; [|split].
    + intros j Hj. destruct (Z.eq_dec j i) as [->|Hne].
      * rewrite I2; [exact E1|]. intros j Hj' He. apply (Hq j Hj'). congruence.
      * rewrite I1 by lia. rewrite E2 by (apply Hq; lia). reflexivity.
    + intros s Hs. rewrite I2; [apply E2; apply Hs; lia|]. intros j Hj. apply Hs. lia.
    + rewrite I3. replace (Z.to_nat (i + 1)) with (S (Z.to_nat (i - 1 + 1))) by lia.
      rewrite zseq_snoc, zsum_app. cbn [zsum fold_right].
      replace (0 + Z.of_nat (Z.to_nat (i - 1 + 1))) with i by lia.
      rewrite (zsum_ext_in (fun j => Z.shiftr (2 ^ L) (Z.min (len1 (q j)) L))
                 (fun j => Z.shiftr (2 ^ L) (Z.min (len (q j)) L))).
      * rewrite E1. unfold zsum. lia.
      * intros j Hj. apply In_zseq in Hj. rewrite E2 by (apply Hq; lia). reflexivity.
Qed.

Lemma limit_lengthen_spec :
  forall fuel len k n0, Z.of_nat fuel = L - len n0 -> 0 <= len n0 <= L ->
    let r := limit_lengthen L (2 ^ L) n0 fuel len k in
    len n0 <= fst r n0 <= L /\ (forall s, s <> n0 -> fst r s = len s) /\
    snd r = k - 2 ^ (L - len n0) + 2 ^ (L - fst r n0) /\ (snd r <= 2 ^ L \/ fst r n0 = L).
Proof.
  induction fuel as [|f IH]; intros len k n0 Hf Hl; cbn zeta; cbn [limit_lengthen].
  - cbn [fst snd]. split; [lia|]. split; [reflexivity|]. split; [lia|]. right. lia.
  - rewrite (proj2 (Z.ltb_lt (len n0) L)) by lia. cbn [andb].
    destruct (Z.gtb_spec k (2 ^ L)) as [Hk|Hk].
    + rewrite upd_eq. rewrite shiftr_pow2 by lia.
      destruct (IH (upd len n0 (len n0 + 1)) (k - 2 ^ (L - (len n0 + 1))) n0)
        as [I1 [I2 [I3 I4]]]; rewrite ?upd_eq; [lia|lia|].
      rewrite upd_eq in I1, I3.
      split; [lia|]. split; [intros s Hs; rewrite I2 by exact Hs; apply upd_neq; exact Hs|].
      split; [|exact I4].
      rewrite I3. replace (L - len n0) with (L - (len n0 + 1) + 1) by lia.
      rewrite pow2_succ by lia. lia.
    + cbn [fst snd]. split; [lia|]. split; [reflexivity|]. split; [lia|]. left. lia.
Qed.

Lemma limit_propagate_spec :
  forall fuel i len k, Z.of_nat fuel = i + 1 -> -1 <= i < n ->
    k = kraft_q len ->
    (forall j, 0 <= j < n -> 1 <= len (q j) <= L) ->
    (forall j j', 0 <= j /\ j <= j' /\ j' < n -> len (q j) <= len (q j')) ->
    (2 ^ L < k -> forall j, i < j < n -> len (q j) = L) ->
    let r := limit_propagate L (2 ^ L) q fuel i len k in
    snd r = kraft_q (fst r) /\ snd r <= 2 ^ L /\
    (forall j, 0 <= j < n -> 1 <= fst r (q j) <= L) /\
    (forall j j', 0 <= j /\ j <= j' /\ j' < n -> fst r (q j) <= fst r (q j')) /\
    (forall s, (forall j, 0 <= j < n -> s <> q j) -> fst r s = len s).
Proof.
  assert (Hall : forall len, (forall j, -1 < j < n -> len (q j) = L) -> kraft_q len = n).
  { intros len H. rewrite (zsum_ext_in _ (fun _ => 1)).
    - rewrite zsum_const, zseq_length. lia.
    - intros j Hj. apply In_zseq in Hj. rewrite H by lia. rewrite Z.sub_diag. reflexivity. }
  induction fuel as [|f IH]; intros i len k Hf Hi Hk Hb Hs H3; cbn zeta; cbn [limit_propagate].
  - cbn [fst snd]. split; [exact Hk|]. split.
    + destruct (Z_le_gt_dec k (2 ^ L)) as [H|H]; [exact H|].
      rewrite Hk, Hall in H; [lia|]. intros j Hj. apply (H3 ltac:(lia)). lia.
    + split; [exact Hb|]. split; [exact Hs|]. reflexivity.
  - destruct ((k >? 2 ^ L) && (i >=? 0)) eqn:Ec.
    + apply Bool.andb_true_iff in Ec as [Ec1 Ec2]. apply Z.gtb_lt in Ec1. apply Z.geb_le in Ec2.
      pose proof (Hb i ltac:(lia)) as Hbi.
      destruct (limit_lengthen_spec (Z.to_nat (L - len (q i))) len k (q i) ltac:(lia) ltac:(lia))
        as [G1 [G2 [G3 G4]]].
      destruct (limit_lengthen L (2 ^ L) (q i) (Z.to_nat (L - len (q i))) len k) as [len1 k1] eqn:El.
      cbn [fst snd] in *.
      assert (Hq : forall j, 0 <= j < n -> j <> i -> len1 (q j) = len (q j)).
      { intros j Hj Hne. apply G2. intros He. apply Hinj in He; lia. }
      destruct (IH (i - 1) len1 k1) as [I1 [I2 [I3 [I4 I5]]]]; try lia.
      * rewrite (kraft_q_point len len1 i) by (try lia; exact G2). lia.
      * intros j Hj. destruct (Z.eq_dec j i) as [->|Hne]; [lia|rewrite Hq by lia; apply Hb; lia].
      * intros j j' Hj. destruct (Z.eq_dec j i) as [->|Hne]; destruct (Z.eq_dec j' i) as [->|Hne'].
        -- lia.
        -- rewrite (Hq j') by lia. rewrite (H3 Ec1 j') by lia. lia.
        -- rewrite (Hq j) by lia. pose proof (Hs j i ltac:(lia)). lia.
        -- rewrite !Hq by lia. apply Hs. lia.
      * intros Hk1 j Hj. destruct (Z.eq_dec j i) as [->|Hne]; [lia|].
        rewrite Hq by lia. apply H3; lia.
      * split; [exact I1|]. split; [exact I2|]. split; [exact I3|]. split; [exact I4|].
        intros s Hs'. rewrite I5 by exact Hs'. apply G2. intros ->. apply (Hs' i); [lia|reflexivity].
    + cbn [fst snd]. split; [exact Hk|]. split.
      * destruct (Z_le_gt_dec k (2 ^ L)) as [H|H]; [exact H|].
        assert (i < 0).
        { destruct (Z_lt_le_dec i 0) as [Hl|Hl]; [exact Hl|]. exfalso.
          rewrite (proj2 (Z.gtb_lt k (2 ^ L))), (proj2 (Z.geb_le i 0)) in Ec by lia. discriminate. }
        rewrite Hk, Hall in H; [lia|]. intros j Hj. apply (H3 ltac:(lia)). lia.
      * split; [exact Hb|]. split; [exact Hs|]. reflexivity.
Qed.

Lemma limit_shorten_spec :
  forall fuel len k n0, 1 <= len n0 <= L -> len n0 <= Z.of_nat fuel ->
    2 ^ (L - len n0) + 1 <= k -> k <= 2 ^ L ->
    let r := limit_shorten (2 ^ L) n0 fuel len k in
    1 <= fst r n0 <= len n0 /\ (forall s, s <> n0 -> fst r s = len s) /\
    snd r = k + 2 ^ (L - fst r n0) - 2 ^ (L - len n0) /\ snd r <= 2 ^ L /\
    2 ^ L - snd r < 2 ^ (L - fst r n0) /\
    (forall mu, mu <= len n0 -> 2 ^ L - k < 2 ^ (L - mu) -> mu <= fst r n0).
Proof.
  induction fuel as [|f IH]; intros len k n0 Hl Hf Hk1 Hk2; cbn zeta; cbn [limit_shorten]; [lia|].
  rewrite shiftr_pow2 by lia.
  destruct (Z.leb_spec (k + 2 ^ (L - len n0)) (2 ^ L)) as [Hc|Hc].
  - assert (H2 : 2 <= len n0).
    { destruct (Z.eq_dec (len n0) 1) as [He|He]; [|lia]. rewrite He in Hk1, Hc.
      replace L with (L - 1 + 1) in Hc at 2 by lia. rewrite pow2_succ in Hc by lia. lia. }
    assert (Hp : 2 ^ (L - (len n0 - 1)) = 2 * 2 ^ (L - len n0)).
    { replace (L - (len n0 - 1)) with (L - len n0 + 1) by lia. apply pow2_succ. lia. }
    destruct (IH (upd len n0 (len n0 - 1)) (k + 2 ^ (L - len n0)) n0) as [I1 [I2 [I3 [I4 [I5 I6]]]]];
      rewrite ?upd_eq; try lia.
    rewrite upd_eq in I1, I3, I6.
    split; [lia|]. split; [intros s Hs; rewrite I2 by exact Hs; apply upd_neq; exact Hs|].
    split; [lia|]. split; [exact I4|]. split; [exact I5|].
    intros mu Hmu Hlt. destruct (Z.eq_dec mu (len n0)) as [->|Hne]; [lia|].
    apply I6; lia.
  - cbn [fst snd]. split; [lia|]. split; [reflexivity|]. split; [lia|]. split; [lia|]. split; [lia|].
    intros; lia.
Qed.

Lemma limit_reclaim_spec :
  forall fuel i len k, Z.of_nat fuel = n + 1 - i -> 0 <= i <= n ->
    k = kraft_q len -> k <= 2 ^ L ->
    (forall j, 0 <= j < n -> 1 <= len (q j) <= L) ->
    (forall j j', 0 <= j /\ j <= j' /\ j' < n -> len (q j) <= len (q j')) ->
    (1 <= i -> 2 ^ L - k < 2 ^ (L - len (q (i - 1)))) ->
    let r := limit_reclaim (2 ^ L) q fuel i n len k in
    kraft_q (fst r) = 2 ^ L /\
    (forall j, 0 <= j < n -> 1 <= fst r (q j) <= L) /\
    (forall s, (forall j, 0 <= j < n -> s <> q j) -> fst r s = len s).
Proof.
  induction fuel as [|f IH]; intros i len k Hf Hi Hk HkM Hb Hs H3; cbn zeta; cbn [limit_reclaim]; [lia|].
  destruct (Z.ltb_spec k (2 ^ L)) as [Hlt|Hge]; cbn [andb].
  - assert (Hin : i < n).
    { destruct (Z.eq_dec i n) as [->|Hne]; [|lia]. exfalso.
      pose proof (Hb (n - 1) ltac:(lia)) as Hbl. set (c := 2 ^ (L - len (q (n - 1)))).
      assert (Hdk : (c | k)).
      { rewrite Hk. apply zsum_divide. intros j Hj. apply In_zseq in Hj.
        pose proof (Hs j (n - 1) ltac:(lia)). pose proof (Hb j ltac:(lia)).
        exists (2 ^ (len (q (n - 1)) - len (q j))). unfold c. rewrite <- Z.pow_add_r by lia.
        f_equal. lia. }
      assert (HdM : (c | 2 ^ L)).
      { exists (2 ^ (len (q (n - 1)))). unfold c. rewrite <- Z.pow_add_r by lia. f_equal. lia. }
      pose proof (Z.divide_sub_r _ _ _ HdM Hdk) as Hd.
      pose proof (Z.divide_pos_le c (2 ^ L - k) ltac:(lia) Hd). pose proof (H3 ltac:(lia)). replace (n - 1) with (n - 1) in * by reflexivity. unfold c in *. lia. }
    rewrite (proj2 (Z.leb_le i n)) by lia.
    pose proof (Hb i ltac:(lia)) as Hbi.
    assert (Hkk : 2 ^ (L - len (q i)) + 1 <= k).
    { set (i1 := if i =? 0 then 1 else 0).
      assert (Hi1 : 0 <= i1 < n /\ i1 <> i) by (unfold i1; destruct (Z.eqb_spec i 0); lia).
      pose proof (zsum_two (fun j => 2 ^ (L - len (q j))) (zseq 0 (Z.to_nat n)) i i1 (NoDup_zseq _ _)
                    ltac:(apply In_zseq; lia) ltac:(apply In_zseq; lia) ltac:(lia)
                    ltac:(intros x _; apply Z.pow_nonneg; lia)).
      pose proof (Hb i1 ltac:(lia)). pose proof (pow2_ge1 (L - len (q i1)) ltac:(lia)). cbn beta in *. lia. }
    destruct (limit_shorten_spec (Z.to_nat (len (q i)) + 1) len k (q i) ltac:(lia) ltac:(lia) Hkk HkM)
      as [G1 [G2 [G3 [G4 [G5 G6]]]]].
    destruct (limit_shorten (2 ^ L) (q i) (Z.to_nat (len (q i)) + 1) len k) as [len1 k1] eqn:Es.
    cbn [fst snd] in *.
    assert (Hq : forall j, 0 <= j < n -> j <> i -> len1 (q j) = len (q j)).
    { intros j Hj Hne. apply G2. intros He. apply Hinj in He; lia. }
    destruct (IH (i + 1) len1 k1) as [I1 [I2 I3]]; try lia.
    + rewrite (kraft_q_point len len1 i) by (try lia; exact G2). lia.
    + intros j Hj. destruct (Z.eq_dec j i) as [->|Hne]; [lia|rewrite Hq by lia; apply Hb; lia].
    + intros j j' Hj. destruct (Z.eq_dec j i) as [->|Hne]; destruct (Z.eq_dec j' i) as [->|Hne'].
      * lia.
      * rewrite (Hq j') by lia. pose proof (Hs i j' ltac:(lia)). lia.
      * rewrite (Hq j) by lia. pose proof (Hs j (i - 1) ltac:(lia)).
        pose proof (Hs (i - 1) i ltac:(lia)).
        pose proof (G6 (len (q (i - 1))) ltac:(lia) (H3 ltac:(lia))). lia.
      * rewrite !Hq by lia. apply Hs. lia.
    + intros _. replace (i + 1 - 1) with i by lia. exact G5.
    + split; [exact I1|]. split; [exact I2|].
      intros s Hs'. rewrite I3 by exact Hs'. apply G2. intros ->. apply (Hs' i); [lia|reflexivity].
  - destruct (i <=? n); cbn [fst snd].
    + split; [lia|]. split; [exact Hb|]. reflexivity.
    + split; [lia|]. split; [exact Hb|]. reflexivity.
Qed.

Lemma limit_code_lengths_spec len :
  (forall j, 0 <= j < n -> 1 <= len (q j)) ->
  (forall j j', 0 <= j /\ j <= j' /\ j' < n -> len (q j) <= len (q j')) ->
  let r := limit_code_lengths L q n len in
  kraft_q r = 2 ^ L /\ (forall j, 0 <= j < n -> 1 <= r (q j) <= L) /\
  (forall s, (forall j, 0 <= j < n -> s <> q j) -> r s = len s).
Proof.
  intros Hb Hs. cbn zeta. unfold limit_code_lengths. rewrite Z.shiftl_1_l.
  destruct (limit_clamp_spec (Z.to_nat n) (n - 1) len 0 ltac:(lia) ltac:(lia)) as [C1 [C2 C3]].
  destruct (limit_clamp L (2 ^ L) q (Z.to_nat n) (n - 1) len 0) as [len1 k1] eqn:Ec. cbn [fst snd] in *.
  replace (n - 1 + 1) with n in C3 by lia.
  assert (Hk1 : k1 = kraft_q len1).
  { rewrite C3, Z.add_0_l. apply zsum_ext_in. intros j Hj. apply In_zseq in Hj.
    rewrite C1 by lia. pose proof (Hb j ltac:(lia)). rewrite shiftr_pow2 by lia. reflexivity. }
  assert (Hb1 : forall j, 0 <= j < n -> 1 <= len1 (q j) <= L)
    by (intros j Hj; rewrite C1 by lia; pose proof (Hb j Hj); lia).
  assert (Hs1 : forall j j', 0 <= j /\ j <= j' /\ j' < n -> len1 (q j) <= len1 (q j'))
    by (intros j j' Hj; rewrite !C1 by lia; pose proof (Hs j j' Hj); lia).
  destruct (limit_propagate_spec (Z.to_nat n) (n - 1) len1 k1 ltac:(lia) ltac:(lia) Hk1 Hb1 Hs1
              ltac:(intros _ j Hj; lia)) as [P1 [P2 [P3 [P4 P5]]]].
  destruct (limit_propagate L (2 ^ L) q (Z.to_nat n) (n - 1) len1 k1) as [len2 k2] eqn:Ep.
  cbn [fst snd] in *.
  destruct (limit_reclaim_spec (Z.to_nat n + 1) 0 len2 k2 ltac:(lia) ltac:(lia) P1 P2 P3 P4
              ltac:(intros; lia)) as [R1 [R2 R3]].
  destruct (limit_reclaim (2 ^ L) q (Z.to_nat n + 1) 0 n len2 k2) as [len3 k3] eqn:Er.
  cbn [fst snd] in *.
  split; [exact R1|]. split; [exact R2|].
  intros s Hs'. rewrite R3 by exact Hs'. rewrite P5 by exact Hs'. apply C2. intros j Hj. apply Hs'. lia.
Qed.

End Limit.

(** ** [zultra_huffman_encoder_build_dynamic_codewords] *)

Lemma NoDup_map_zseq_inj (q : array) l n :
  NoDup (map q (zseq l n)) ->
  forall i j, l <= i < l + Z.of_nat n -> l <= j < l + Z.of_nat n -> q i = q j -> i = j.
Proof.
  revert l. induction n as [|n IH]; intros l Hnd i j Hi Hj He; [lia|].
  cbn [zseq map] in Hnd. inversion Hnd as [|? ? Hx Hnd']; subst.
  assert (Hin : forall k, l + 1 <= k < l + 1 + Z.of_nat n -> In (q k) (map q (zseq (l + 1) n)))
    by (intros k Hk; apply in_map, In_zseq; exact Hk).
  destruct (Z.eq_dec i l) as [->|Hil]; destruct (Z.eq_dec j l) as [->|Hjl].
  - reflexivity.
  - exfalso. apply Hx. rewrite He. apply Hin. lia.
  - exfalso. apply Hx. rewrite <- He. apply Hin. lia.
  - apply (IH (l + 1) Hnd'); lia.
Qed.

Lemma sorted_from_adj (f : Z -> Z) n :
  (forall j, 0 <= j < n - 1 -> f j <= f (j + 1)) ->
  forall j j', 0 <= j /\ j <= j' /\ j' < n -> f j <= f j'.
Proof.
  intros H.
  assert (G : forall k j, 0 <= j -> j + Z.of_nat k < n -> f j <= f (j + Z.of_nat k)).
  { induction k as [|k IH]; intros j Hj Hk; [rewrite Z.add_0_r; lia|].
    pose proof (IH j Hj ltac:(lia)). pose proof (H (j + Z.of_nat k) ltac:(lia)).
    replace (j + Z.of_nat (S k)) with (j + Z.of_nat k + 1) by lia. lia. }
  intros j j' Hj. replace j' with (j + Z.of_nat (Z.to_nat (j' - j))) by lia. apply G; lia.
Qed.

Lemma kraft_sum_rescale m L (len : array) N :
  0 <= L -> 0 <= m ->
  (forall s, 0 <= s < N -> len s <> 0 -> 0 <= len s <= L /\ len s <= m) ->
  kraft_sum m len N = 2 ^ m -> kraft_sum L len N = 2 ^ L.
Proof.
  intros HL Hm Hb Hk.
  assert (E : 2 ^ m * kraft_sum L len N = 2 ^ L * kraft_sum m len N).
  { unfold kraft_sum. rewrite <- !zsum_scale. apply zsum_ext_in. intros s Hs. apply In_zseq in Hs.
    destruct (Z.eqb_spec (len s) 0) as [H0|H0]; [lia|].
    destruct (Hb s ltac:(lia) H0). rewrite <- !Z.pow_add_r by lia. f_equal. lia. }
  rewrite Hk in E. pose proof (Z.pow_pos_nonneg 2 m ltac:(lia) Hm). nia.
Qed.

Lemma build_dynamic_codewords_spec e :
  0 <= nSymbols e <= MAX_SYMBOLS -> 1 <= nMaxCodeLength e -> nSymbols e <= 2 ^ nMaxCodeLength e ->
  2 <= count_nonzero (nEntropy e) (nSymbols e) ->
  let r := zultra_huffman_encoder_build_dynamic_codewords e in
  fst r = 0 /\ nSymbols (snd r) = nSymbols e /\
  (forall s, 0 <= s < nSymbols e -> (nCodeLength (snd r) s = 0 <-> nEntropy e s = 0)) /\
  (forall s, 0 <= nCodeLength (snd r) s <= nMaxCodeLength e) /\
  (forall s, ~ (0 <= s < nSymbols e) -> nCodeLength (snd r) s = 0) /\
  kraft_sum (nMaxCodeLength e) (nCodeLength (snd r)) (nSymbols e) = 2 ^ nMaxCodeLength e.
Proof.
  intros HN HL HNL Hc. cbn zeta. unfold zultra_huffman_encoder_build_dynamic_codewords.
  destruct (estimate_spec e HN Hc) as [E1 [E2 [E3 [E4 [E5 [E6 E7]]]]]].
  destruct (zultra_huffman_encoder_estimate_dynamic_codelens e) as [r0 e1] eqn:Ee.
  cbn [fst snd] in *. subst r0. rewrite (proj2 (Z.ltb_ge 0 0)) by lia.
  set (N := nSymbols e) in *. set (E := nEntropy e) in *. set (L := nMaxCodeLength e) in *.
  set (len1 := nCodeLength e1) in *. rewrite E2, E3.
  set (F := filter (fun s => nonzero (E s)) (zseq 0 (Z.to_nat N))).
  assert (HF : filter (fun s => nonzero (len1 s)) (zseq 0 (Z.to_nat N)) = F).
  { apply filter_ext_in. intros s Hs. apply In_zseq in Hs. unfold nonzero.
    destruct (Z.eqb_spec (len1 s) 0) as [H|H]; destruct (Z.eqb_spec (E s) 0) as [H'|H']; try reflexivity.
    - apply E4 in H; [congruence|lia].
    - apply E4 in H'; [congruence|lia]. }
  rewrite count_nonzero_filter in E5, E7, Hc. fold F in E5, E7, Hc. set (m := Z.of_nat (List.length F)) in *.
  assert (HFlen : (List.length F <= Z.to_nat N)%nat)
    by (unfold F; rewrite <- (zseq_length 0 (Z.to_nat N)) at 2; apply filter_len_le).
  pose proof (enum_symbols_spec nonzero len1 (Z.to_nat N) 0 uninit 0 ltac:(lia)) as [H1 [H2 _]].
  destruct (enum_symbols nonzero len1 (Z.to_nat N) 0 uninit 0) as [q0 m0] eqn:Eq. cbn [fst snd] in *.
  rewrite HF in H1, H2. cbn in H1. rewrite Z.add_0_l in H2. fold m in H2. subst m0.
  rewrite (proj2 (Z.gtb_lt m 0)), (proj2 (Z.gtb_lt L 0)) by lia. cbn [andb].
  destruct (qsort_spec len1 q0 m ltac:(lia)) as [_ [Hperm Hsort]].
  set (q1 := zultra_huffman_encoder_qsort len1 q0 0 (m - 1)) in *.
  set (Q := map q1 (zseq 0 (Z.to_nat m))).
  assert (HQ : Permutation Q F) by (unfold Q; rewrite <- H1; apply Permutation_sym; exact Hperm).
  assert (HQnd : NoDup Q) by (apply (Permutation_NoDup (Permutation_sym HQ)); apply NoDup_filter_zseq).
  assert (HinQ : forall s, In s Q <-> 0 <= s < N /\ E s <> 0).
  { intros s. split.
    - intros Hs. apply (Permutation_in _ HQ) in Hs. apply In_filter_zseq in Hs as [Hs Hn].
      unfold nonzero in Hn. apply Bool.negb_true_iff, Z.eqb_neq in Hn. lia.
    - intros [Hs Hn]. apply (Permutation_in _ (Permutation_sym HQ)). apply In_filter_zseq.
      split; [lia|]. unfold nonzero. apply Bool.negb_true_iff, Z.eqb_neq. exact Hn. }
  assert (Hq1 : forall j, 0 <= j < m -> 0 <= q1 j < N /\ E (q1 j) <> 0).
  { intros j Hj. apply HinQ. apply in_map, In_zseq. lia. }
  assert (Hlen1 : forall j, 0 <= j < m -> 1 <= len1 (q1 j)).
  { intros j Hj. destruct (Hq1 j Hj) as [Hr Hn]. pose proof (E5 (q1 j)).
    destruct (Z.eq_dec (len1 (q1 j)) 0) as [H0|H0]; [apply E4 in H0; [congruence|lia]|lia]. }
  assert (Hinj : forall i j, 0 <= i < m -> 0 <= j < m -> q1 i = q1 j -> i = j)
    by (intros i j Hi Hj; apply (NoDup_map_zseq_inj q1 0 (Z.to_nat m) HQnd); lia).
  assert (Hs1 : forall j j', 0 <= j /\ j <= j' /\ j' < m -> len1 (q1 j) <= len1 (q1 j'))
    by (apply (sorted_from_adj (fun j => len1 (q1 j)) m); exact Hsort).
  assert (HnotQ : forall s, ~ In s Q -> len1 s = 0).
  { intros s Hs. destruct (Z_le_gt_dec 0 s) as [H0|H0]; [destruct (Z_lt_le_dec s N) as [H3|H3]|].
    - apply E4; [lia|]. destruct (Z.eq_dec (E s) 0) as [Hz|Hz]; [exact Hz|].
      exfalso. apply Hs, HinQ. lia.
    - apply E6. lia.
    - apply E6. lia. }
  assert (HQj : forall s, In s Q -> exists j, 0 <= j < m /\ s = q1 j)
    by (intros s Hs; apply in_map_zseq in Hs as [j [Hj ->]]; exists j; split; [lia|reflexivity]).
  assert (Hkraft : forall len : array, (forall s, ~ In s Q -> len s = 0) -> (forall j, 0 <= j < m -> 1 <= len (q1 j)) ->
            kraft_sum L len N = zsum (fun j => 2 ^ (L - len (q1 j))) (zseq 0 (Z.to_nat m))).
  { intros len Hz Hp. unfold kraft_sum.
    rewrite (zsum_enumeration (fun s => nonzero (E s)) _ Q (Z.to_nat N) HQ).
    - unfold Q. rewrite zsum_map. apply zsum_ext_in. intros j Hj. apply In_zseq in Hj.
      pose proof (Hp j ltac:(lia)). rewrite (proj2 (Z.eqb_neq (len (q1 j)) 0)) by lia. reflexivity.
    - intros s _ Hs. unfold nonzero in Hs. apply Bool.negb_false_iff, Z.eqb_eq in Hs.
      rewrite Hz; [reflexivity|]. intros HQs. apply HinQ in HQs. tauto. }
  destruct (len1 (q1 (m - 1)) >? L) eqn:Elim.
  - destruct (limit_code_lengths_spec L q1 m ltac:(lia) ltac:(lia) ltac:(lia) Hinj len1 Hlen1 Hs1)
      as [K1 [K2 K3]].
    set (len2 := limit_code_lengths L q1 m len1) in *.
    assert (Hz2 : forall s, ~ In s Q -> len2 s = 0).
    { intros s Hs. rewrite K3; [apply HnotQ; exact Hs|]. intros j Hj ->. apply Hs. apply in_map, In_zseq. lia. }
    cbn [fst snd nSymbols nCodeLength set_code_length set_code_word].
    split; [reflexivity|]. split; [exact E2|]. split; [|split; [|split]].
    + intros s Hs. split.
      * intros H0. destruct (Z.eq_dec (E s) 0) as [Hz|Hz]; [exact Hz|].
        destruct (HQj s (proj2 (HinQ s) (conj Hs Hz))) as [j [Hj ->]]. pose proof (K2 j Hj). lia.
      * intros Hz. apply Hz2. intros HQs. apply HinQ in HQs. tauto.
    + intros s. destruct (in_dec Z.eq_dec s Q) as [Hs|Hs].
      * destruct (HQj s Hs) as [j [Hj ->]]. pose proof (K2 j Hj). lia.
      * rewrite Hz2 by exact Hs. lia.
    + intros s Hs. apply Hz2. intros HQs. apply HinQ in HQs. tauto.
    + rewrite Hkraft; [exact K1|exact Hz2|intros j Hj; pose proof (K2 j Hj); lia].
  - rewrite Z.gtb_ltb in Elim. apply Z.ltb_ge in Elim.
    cbn [fst snd nSymbols nCodeLength set_code_length set_code_word].
    assert (HleL : forall s, In s Q -> len1 s <= L).
    { intros s Hs. destruct (HQj s Hs) as [j [Hj ->]]. pose proof (Hs1 j (m - 1) ltac:(lia)). lia. }
    split; [reflexivity|]. split; [exact E2|]. split; [exact E4|]. split; [|split; [exact E6|]].
    + intros s. destruct (in_dec Z.eq_dec s Q) as [Hs|Hs].
      * pose proof (HleL s Hs). pose proof (E5 s). lia.
      * rewrite HnotQ by exact Hs. lia.
    + apply (kraft_sum_rescale m L len1 N); [lia|lia| |exact E7].
      intros s Hs Hn0. pose proof (E5 s). split; [|lia].
      destruct (in_dec Z.eq_dec s Q) as [HQs|HQs]; [pose proof (HleL s HQs); lia|].
      exfalso. apply Hn0. apply HnotQ. exact HQs.
Qed.

(** C1: for an encoder of at most [MAX_SYMBOLS] symbols with a maximum
    code length [L] in [1..15] (the encoders use 15 and 7) and
    [nSymbols <= 2^L], whenever at least two symbols have a nonzero
    frequency, [zultra_huffman_encoder_build_dynamic_codewords] succeeds
    and the lengths it leaves satisfy the exact Kraft equality at [L]:
    the sum of [2^(L - len[s])] over the symbols with a nonzero length is
    [2^L]; every other symbol has length 0. *)
Theorem build_dynamic_codewords_kraft (e : zultra_huffman_encoder_t) :
  0 <= nSymbols e <= MAX_SYMBOLS -> 1 <= nMaxCodeLength e <= 15 ->
  nSymbols e <= 2 ^ nMaxCodeLength e ->
  2 <= count_nonzero (nEntropy e) (nSymbols e) ->
  let r := zultra_huffman_encoder_build_dynamic_codewords e in
  fst r = 0 /\
  kraft_sum (nMaxCodeLength e) (nCodeLength (snd r)) (nSymbols e) = 2 ^ nMaxCodeLength e /\
  (forall s, ~ (0 <= s < nSymbols e) -> nCodeLength (snd r) s = 0).
Proof.
  intros HN HL HNL Hc. destruct (build_dynamic_codewords_spec e HN ltac:(lia) HNL Hc) as [B1 [_ [_ [_ [B5 B6]]]]].
  cbn zeta. split; [exact B1|]. split; [exact B6|exact B5].
Qed.

(** The Fibonacci frequencies 1, 1, 2, 3, 5 give Huffman lengths up to 4;
    with [L = 3] the limiting loops run. *)
Lemma build_dynamic_codewords_kraft_witness :
  let e := mkEncoder 5 3 (fun s => nth (Z.to_nat s) [1; 1; 2; 3; 5] 0) (fun _ => 0) (fun _ => 0) in
  (0 <= nSymbols e <= MAX_SYMBOLS /\ 1 <= nMaxCodeLength e <= 15 /\
   nSymbols e <= 2 ^ nMaxCodeLength e /\ 2 <= count_nonzero (nEntropy e) (nSymbols e)) /\
  let r := zultra_huffman_encoder_build_dynamic_codewords e in
  fst r = 0 /\
  kraft_sum (nMaxCodeLength e) (nCodeLength (snd r)) (nSymbols e) = 2 ^ nMaxCodeLength e /\
  (forall s, ~ (0 <= s < nSymbols e) -> nCodeLength (snd r) s = 0).
Proof.
  cbn zeta. split.
  - split; [vm_compute; split; discriminate|]. split; [vm_compute; split; discriminate|].
    split; vm_compute; discriminate.
  - apply build_dynamic_codewords_kraft.
    + vm_compute. split; discriminate.
    + vm_compute. split; discriminate.
    + vm_compute. discriminate.
    + vm_compute. discriminate.
Defined.

End HuffmanProofs.

(** ** The distance code of the emitted header *)
Module BlockTailProofs.
Import Huffman BlockTail HuffmanProofs.

Lemma estimate_fields e :
  let r := zultra_huffman_encoder_estimate_dynamic_codelens e in
  nSymbols (snd r) = nSymbols e /\ nMaxCodeLength (snd r) = nMaxCodeLength e /\
  nEntropy (snd r) = nEntropy e /\
  (0 <= nSymbols e <= MAX_SYMBOLS -> fst r = 0).
Proof.
  cbn zeta. unfold zultra_huffman_encoder_estimate_dynamic_codelens.
  destruct ((nSymbols e <? 0) || (nSymbols e >? MAX_SYMBOLS)) eqn:Eg.
  - cbn [fst snd]. split; [reflexivity|]. split; [reflexivity|]. split; [reflexivity|].
    intros H. exfalso. apply Bool.orb_true_iff in Eg as [Eg|Eg].
    + apply Z.ltb_lt in Eg. lia.
    + apply Z.gtb_lt in Eg. lia.
  - destruct (enum_symbols nonzero (nEntropy e) (Z.to_nat (nSymbols e)) 0 uninit 0) as [q m].
    destruct (m >? 1); cbn [fst snd set_code_length nSymbols nMaxCodeLength nEntropy];
      split; try reflexivity; split; try reflexivity; split; try reflexivity; intros; reflexivity.
Qed.

Lemma build_fields e :
  let r := zultra_huffman_encoder_build_dynamic_codewords e in
  nSymbols (snd r) = nSymbols e /\ nMaxCodeLength (snd r) = nMaxCodeLength e /\
  nEntropy (snd r) = nEntropy e /\
  (0 <= nSymbols e <= MAX_SYMBOLS -> fst r = 0).
Proof.
  cbn zeta. unfold zultra_huffman_encoder_build_dynamic_codewords.
  destruct (estimate_fields e) as [F1 [F2 [F3 F4]]].
  destruct (zultra_huffman_encoder_estimate_dynamic_codelens e) as [r0 e1]. cbn [fst snd] in *.
  destruct (r0 <? 0) eqn:Er.
  - cbn [fst snd]. split; [exact F1|]. split; [exact F2|]. split; [exact F3|].
    intros H. rewrite (F4 H) in Er. discriminate.
  - destruct (enum_symbols nonzero (nCodeLength e1) (Z.to_nat (nSymbols e1)) 0 uninit 0) as [q m].
    match goal with |- context [let '(_, _) := ?x in _] => destruct x as [q' len] end.
    destruct (m >? 0); cbn [fst snd set_code_length set_code_word nSymbols nMaxCodeLength nEntropy];
      split; try exact F1; split; try exact F2; split; try exact F3; intros; reflexivity.
Qed.

Lemma optimize_for_rle_zero length counts i :
  zultra_huffman_encoder_optimize_for_rle length counts i = 0 <-> counts i = 0.
Proof.
  unfold zultra_huffman_encoder_optimize_for_rle.
  destruct ((0 <=? i) && (i <? length) && (counts i >? 0)) eqn:Ec; [|reflexivity].
  apply Bool.andb_true_iff in Ec as [_ Ec]. apply Z.gtb_lt in Ec. cbn zeta. lia.
Qed.

Lemma count_nonzero_ext (v w : array) N :
  (forall s, 0 <= s < N -> (v s = 0 <-> w s = 0)) -> count_nonzero v N = count_nonzero w N.
Proof.
  intros H. unfold count_nonzero. apply zsum_ext_in. intros s Hs. apply In_zseq in Hs.
  specialize (H s ltac:(lia)).
  destruct (Z.eqb_spec (v s) 0); destruct (Z.eqb_spec (w s) 0); tauto.
Qed.

Lemma count_nonzero_two (v : array) N i0 i1 :
  0 <= i0 < N -> 0 <= i1 < N -> i0 <> i1 -> v i0 <> 0 -> v i1 <> 0 -> 2 <= count_nonzero v N.
Proof.
  intros H0 H1 Hne V0 V1. unfold count_nonzero.
  assert (I0 : In i0 (zseq 0 (Z.to_nat N))) by (apply In_zseq; lia).
  assert (I1 : In i1 (zseq 0 (Z.to_nat N))) by (apply In_zseq; lia).
  assert (Hp : forall x, In x (zseq 0 (Z.to_nat N)) -> 0 <= (fun s => if v s =? 0 then 0 else 1) x)
    by (intros x _; destruct (v x =? 0); lia).
  pose proof (zsum_two _ _ i0 i1 (NoDup_zseq _ _) I0 I1 Hne Hp) as H.
  cbn beta in H. rewrite (proj2 (Z.eqb_neq _ 0) V0), (proj2 (Z.eqb_neq _ 0) V1) in H. lia.
Qed.

Lemma count_offset_lens_spec (E : array) :
  forall fuel i c, Z.of_nat fuel = 30 - i -> 0 <= i <= 30 -> 0 <= c <= 2 ->
    (c = 1 -> exists j, 0 <= j < i /\ E j <> 0) ->
    (c = 2 -> exists j1 j2, 0 <= j1 < i /\ 0 <= j2 < i /\ j1 <> j2 /\ E j1 <> 0 /\ E j2 <> 0) ->
    let c' := count_offset_lens E fuel i c in
    0 <= c' <= 2 /\ (c' = 1 -> exists j, 0 <= j < 30 /\ E j <> 0) /\
    (c' = 2 -> exists j1 j2, 0 <= j1 < 30 /\ 0 <= j2 < 30 /\ j1 <> j2 /\ E j1 <> 0 /\ E j2 <> 0).
Proof.
  induction fuel as [|f IH]; intros i c Hf Hi Hc H1 H2; cbn zeta; cbn [count_offset_lens].
  - assert (i = 30) by lia. subst i. split; [exact Hc|]. split; [exact H1|exact H2].
  - change (NOFFSETSYMS - 2) with 30. rewrite (proj2 (Z.ltb_lt i 30)) by lia. rewrite Bool.andb_true_r.
    destruct (Z.ltb_spec c 2) as [Hlt|Hge].
    + apply IH; try lia.
      * destruct (Z.eqb_spec (E i) 0) as [Hz|Hz]; lia.
      * intros Hc1. destruct (Z.eqb_spec (E i) 0) as [Hz|Hz].
        -- destruct (H1 Hc1) as [j [Hj Hej]]. exists j. split; [lia|exact Hej].
        -- exists i. split; [lia|exact Hz].
      * intros Hc2. destruct (Z.eqb_spec (E i) 0) as [Hz|Hz]; [lia|].
        destruct (H1 ltac:(lia)) as [j [Hj Hej]]. exists j, i. split; [lia|]. split; [lia|].
        split; [lia|]. split; [exact Hej|exact Hz].
    + split; [exact Hc|]. split; [intros; lia|].
      intros Hc2. destruct (H2 Hc2) as [j1 [j2 [A [B [C [D F]]]]]].
      exists j1, j2. split; [lia|]. split; [lia|]. split; [exact C|]. split; [exact D|exact F].
Qed.

Lemma synthesize_phantom_offsets_two E :
  2 <= count_nonzero (synthesize_phantom_offsets E) NOFFSETSYMS.
Proof.
  unfold synthesize_phantom_offsets.
  destruct (count_offset_lens_spec E (Z.to_nat (NOFFSETSYMS - 2)) 0 0 ltac:(reflexivity) ltac:(lia)
              ltac:(lia) ltac:(lia) ltac:(lia)) as [C1 [C2 C3]].
  set (c := count_offset_lens E (Z.to_nat (NOFFSETSYMS - 2)) 0 0) in *.
  change NOFFSETSYMS with 32.
  destruct (Z.eqb_spec c 0) as [H0|H0].
  - apply (count_nonzero_two _ 32 0 1); try lia.
    + rewrite upd_eq. lia.
    + rewrite upd_neq by lia. rewrite upd_eq. lia.
  - destruct (Z.eqb_spec c 1) as [H1|H1].
    + destruct (C2 H1) as [j [Hj Hej]].
      destruct (Z.eqb_spec (E 0) 0) as [E0|E0]; cbn [negb].
      * apply (count_nonzero_two _ 32 0 j); try lia.
        -- intros Hj0. rewrite <- Hj0 in Hej. contradiction.
        -- rewrite upd_eq. lia.
        -- rewrite upd_neq by (intros ->; contradiction). exact Hej.
      * apply (count_nonzero_two _ 32 0 1); try lia.
        -- rewrite upd_neq by lia. exact E0.
        -- rewrite upd_eq. lia.
    + destruct (C3 ltac:(lia)) as [j1 [j2 [A [B [C [D F]]]]]].
      apply (count_nonzero_two _ 32 j1 j2); try lia; assumption.
Qed.

Lemma defined_count_loop_spec (len : array) m N :
  forall fuel i, Z.of_nat fuel = i - m -> m <= i <= N ->
    (forall j, i <= j < N -> len j = 0) ->
    let c := defined_count_loop len m fuel i in
    m <= c <= i /\ (forall j, c <= j < N -> len j = 0).
Proof.
  induction fuel as [|f IH]; intros i Hf Hi Hz; cbn zeta; cbn [defined_count_loop].
  - split; [lia|exact Hz].
  - rewrite (proj2 (Z.gtb_lt i m)) by lia. cbn [andb].
    destruct (Z.eqb_spec (len (i - 1)) 0) as [H0|H0].
    + destruct (IH (i - 1) ltac:(lia) ltac:(lia)) as [I1 I2].
      * intros j Hj. destruct (Z.eq_dec j (i - 1)) as [->|Hne]; [exact H0|apply Hz; lia].
      * split; [lia|exact I2].
    + split; [lia|exact Hz].
Qed.

Lemma defined_count_nonzero e :
  1 <= nSymbols e ->
  let c := zultra_huffman_encoder_get_defined_var_lengths_count e 1 in
  1 <= c <= nSymbols e /\ count_nonzero (nCodeLength e) c = count_nonzero (nCodeLength e) (nSymbols e).
Proof.
  intros HN. cbn zeta. unfold zultra_huffman_encoder_get_defined_var_lengths_count.
  destruct (defined_count_loop_spec (nCodeLength e) 1 (nSymbols e) (Z.to_nat (nSymbols e - 1)) (nSymbols e)
              ltac:(lia) ltac:(lia) ltac:(intros; lia)) as [D1 D2].
  set (c := defined_count_loop (nCodeLength e) 1 (Z.to_nat (nSymbols e - 1)) (nSymbols e)) in *.
  split; [exact D1|]. unfold count_nonzero.
  replace (Z.to_nat (nSymbols e)) with (Z.to_nat c + Z.to_nat (nSymbols e - c))%nat by lia.
  rewrite zseq_app, zsum_app.
  rewrite (zsum_zero_on _ (zseq (0 + Z.of_nat (Z.to_nat c)) _)); [lia|].
  intros x Hx. apply In_zseq in Hx. rewrite D2 by lia. reflexivity.
Qed.

Lemma build_offsets_two e :
  nSymbols e = NOFFSETSYMS -> nMaxCodeLength e = 15 -> 2 <= count_nonzero (nEntropy e) NOFFSETSYMS ->
  let r := zultra_huffman_encoder_build_dynamic_codewords e in
  fst r = 0 /\ nSymbols (snd r) = NOFFSETSYMS /\ nMaxCodeLength (snd r) = 15 /\
  nEntropy (snd r) = nEntropy e /\ 2 <= count_nonzero (nCodeLength (snd r)) NOFFSETSYMS.
Proof.
  intros HN HL Hc. cbn zeta. change NOFFSETSYMS with 32 in *.
  destruct (build_fields e) as [F1 [F2 [F3 F4]]].
  destruct (build_dynamic_codewords_spec e ltac:(rewrite HN; unfold MAX_SYMBOLS; lia) ltac:(lia)
              ltac:(rewrite HN, HL; vm_compute; discriminate) ltac:(rewrite HN; exact Hc)) as [B1 [_ [B3 _]]].
  split; [exact B1|]. split; [congruence|]. split; [congruence|]. split; [exact F3|].
  rewrite (count_nonzero_ext _ (nEntropy e)); [exact Hc|].
  intros s Hs. apply B3. lia.
Qed.

(** C4: whatever the frequencies the last pass leaves in the distance
    encoder (32 symbols, maximum length 15) and the literal encoder (288
    symbols), and whatever [zultra_block_evaluate_dynamic_cost] returns,
    the final tables of [zultra_block_deflate] are built, and among the
    [nOffsetSyms] distance code lengths written in the header at least two
    are nonzero. *)
Theorem block_header_two_distance_codes block_cost lit off :
  nSymbols lit = NLITERALSYMS -> nMaxCodeLength lit = 15 ->
  nSymbols off = NOFFSETSYMS -> nMaxCodeLength off = 15 ->
  match block_final_tables block_cost lit off with
  | Some (_, off', _, nOffsetSyms) =>
      1 <= nOffsetSyms <= NOFFSETSYMS /\ 2 <= count_nonzero (nCodeLength off') nOffsetSyms
  | None => False
  end.
Proof.
  intros HlN HlL HoN HoL. unfold block_final_tables.
  set (off1 := set_entropy off (synthesize_phantom_offsets (nEntropy off))).
  destruct (build_fields lit) as [L1 [L2 [L3 L4]]].
  specialize (L4 ltac:(rewrite HlN; unfold NLITERALSYMS, MAX_SYMBOLS; lia)).
  destruct (zultra_huffman_encoder_build_dynamic_codewords lit) as [r1 lit1] eqn:El. cbn [fst snd] in *.
  subst r1. rewrite (proj2 (Z.ltb_ge 0 0)) by lia.
  destruct (build_offsets_two off1 HoN HoL (synthesize_phantom_offsets_two _)) as [O1 [O2 [O3 [O4 O5]]]].
  destruct (zultra_huffman_encoder_build_dynamic_codewords off1) as [r2 off2] eqn:Eo. cbn [fst snd] in *.
  subst r2. rewrite (proj2 (Z.ltb_ge 0 0)) by lia.
  set (optLit := set_entropy lit1 (zultra_huffman_encoder_optimize_for_rle NLITERALSYMS (nEntropy lit1))).
  set (optOff := set_entropy off2 (zultra_huffman_encoder_optimize_for_rle NOFFSETSYMS (nEntropy off2))).
  destruct (build_fields optLit) as [P1 [P2 [P3 P4]]].
  specialize (P4 ltac:(cbn [optLit set_entropy nSymbols]; rewrite L1, HlN; unfold NLITERALSYMS, MAX_SYMBOLS; lia)).
  destruct (zultra_huffman_encoder_build_dynamic_codewords optLit) as [r3 lit3]. cbn [fst snd] in *.
  subst r3. rewrite (proj2 (Z.ltb_ge 0 0)) by lia.
  assert (Hopt : 2 <= count_nonzero (nEntropy optOff) NOFFSETSYMS).
  { cbn [optOff set_entropy nEntropy]. rewrite O4.
    rewrite (count_nonzero_ext _ (nEntropy off1)).
    - apply synthesize_phantom_offsets_two.
    - intros s _. apply optimize_for_rle_zero. }
  destruct (build_offsets_two optOff O2 O3 Hopt) as [Q1 [Q2 [Q3 [Q4 Q5]]]].
  destruct (zultra_huffman_encoder_build_dynamic_codewords optOff) as [r4 off4]. cbn [fst snd] in *.
  subst r4. rewrite (proj2 (Z.ltb_ge 0 0)) by lia.
  assert (Hfin : forall o, nSymbols o = NOFFSETSYMS -> 2 <= count_nonzero (nCodeLength o) NOFFSETSYMS ->
            1 <= zultra_huffman_encoder_get_defined_var_lengths_count o 1 <= NOFFSETSYMS /\
            2 <= count_nonzero (nCodeLength o) (zultra_huffman_encoder_get_defined_var_lengths_count o 1)).
  { intros o Ho Hc. destruct (defined_count_nonzero o ltac:(rewrite Ho; unfold NOFFSETSYMS; lia)) as [D1 D2].
    rewrite Ho in D1, D2. split; [exact D1|]. rewrite D2. exact Hc. }
  destruct (block_cost lit3 off4 <? block_cost lit1 off2).
  - apply Hfin; assumption.
  - apply Hfin; assumption.
Qed.

(** The distance encoder of a block without matches: the phantom
    frequencies give two distance codes. *)
Lemma block_header_two_distance_codes_witness :
  let lit := mkEncoder 288 15 (fun s => if s =? 256 then 1 else if s <? 10 then s + 1 else 0)
               (fun _ => 0) (fun _ => 0) in
  let off := mkEncoder 32 15 (fun _ => 0) (fun _ => 0) (fun _ => 0) in
  (nSymbols lit = NLITERALSYMS /\ nMaxCodeLength lit = 15 /\
   nSymbols off = NOFFSETSYMS /\ nMaxCodeLength off = 15) /\
  match block_final_tables (fun _ _ => 0) lit off with
  | Some (_, off', _, nOffsetSyms) =>
      1 <= nOffsetSyms <= NOFFSETSYMS /\ 2 <= count_nonzero (nCodeLength off') nOffsetSyms
  | None => False
  end.
Proof.
  cbn zeta. split.
  - split; [reflexivity|]. split; [reflexivity|]. split; reflexivity.
  - apply block_header_two_distance_codes; reflexivity.
Defined.

End BlockTailProofs.


Module CodeLengthsProofs.
Import BitWriter Huffman CodeLengths HuffmanProofs BitWriterProofs.

Lemma replay_app {St : Type} ec eb (t1 t2 : list cl_token) (st : St) :
  replay ec eb (t1 ++ t2) st = replay ec eb t2 (replay ec eb t1 st).
Proof. unfold replay. apply fold_left_app. Qed.

Lemma replay_cons {St : Type} ec eb x (t : list cl_token) (st : St) :
  replay ec eb (x :: t) st = replay ec eb t (match x with TCode s => ec s st | TBits v k => eb v k st end).
Proof. reflexivity. Qed.

(** ** The three instances run the same token sequence *)
Section Replay.
Context {St : Type}.
Variable ec : Z -> St -> St.
Variable eb : Z -> Z -> St -> St.
Variable P : St -> Prop.
Hypothesis Hec : forall s st, P st -> P (ec s st).
Hypothesis Heb : forall v k st, P st -> P (eb v k st).
Variable ok : St -> bool.
Hypothesis Hok : forall st, P st -> ok st = true.
Variable b : bool.
Variable cl : array.
Variable n mask : Z.


Lemma zero18_replay : forall fuel i r st l, P st ->
  let R := zero_run_18 ec eb mask fuel i r st in
  exists t, zero_run_18 trace_code trace_bits mask fuel i r l = (fst (fst R), snd (fst R), l ++ t) /\
            snd R = replay ec eb t st /\ P (snd R).
Proof.
  induction fuel as [|f IH]; intros i r st l HP; cbn zeta; cbn [zero_run_18].
  - exists []. rewrite app_nil_r. auto.
  - destruct ((r >=? 11) && mask_has mask 4); cbn zeta.
    + set (m := if r >? 138 then 138 else r).
      destruct (IH (i + m) (r - m) (eb (m - 11) 7 (ec 18 st)) (trace_bits (m - 11) 7 (trace_code 18 l)))
        as [t [E1 [E2 E3]]]; [apply Heb, Hec, HP|].
      exists ([TCode 18; TBits (m - 11) 7] ++ t). rewrite E1. unfold trace_bits, trace_code.
      rewrite <- !app_assoc. split; [reflexivity|]. split; [|exact E3]. rewrite E2.
      rewrite replay_app. reflexivity.
    + exists []. rewrite app_nil_r. auto.
Qed.

Lemma zero17_replay : forall fuel i r st l, P st ->
  let R := zero_run_17 ec eb mask fuel i r st in
  exists t, zero_run_17 trace_code trace_bits mask fuel i r l = (fst (fst R), snd (fst R), l ++ t) /\
            snd R = replay ec eb t st /\ P (snd R).
Proof.
  induction fuel as [|f IH]; intros i r st l HP; cbn zeta; cbn [zero_run_17].
  - exists []. rewrite app_nil_r. auto.
  - destruct ((r >=? 3) && mask_has mask 2); cbn zeta.
    + set (m := if r >? 10 then 10 else r).
      destruct (IH (i + m) (r - m) (eb (m - 3) 3 (ec 17 st)) (trace_bits (m - 3) 3 (trace_code 17 l)))
        as [t [E1 [E2 E3]]]; [apply Heb, Hec, HP|].
      exists ([TCode 17; TBits (m - 3) 3] ++ t). rewrite E1. unfold trace_bits, trace_code.
      rewrite <- !app_assoc. split; [reflexivity|]. split; [|exact E3]. rewrite E2.
      rewrite replay_app. reflexivity.
    + exists []. rewrite app_nil_r. auto.
Qed.

Lemma rep16_replay : forall fuel i r st l, P st ->
  let R := rep_run_16 ec eb mask fuel i r st in
  exists t, rep_run_16 trace_code trace_bits mask fuel i r l = (fst (fst R), snd (fst R), l ++ t) /\
            snd R = replay ec eb t st /\ P (snd R).
Proof.
  induction fuel as [|f IH]; intros i r st l HP; cbn zeta; cbn [rep_run_16].
  - exists []. rewrite app_nil_r. auto.
  - destruct ((r >=? 3) && mask_has mask 1); cbn zeta.
    + set (m := if r >? 6 then 6 else r).
      destruct (IH (i + m) (r - m) (eb (m - 3) 2 (ec 16 st)) (trace_bits (m - 3) 2 (trace_code 16 l)))
        as [t [E1 [E2 E3]]]; [apply Heb, Hec, HP|].
      exists ([TCode 16; TBits (m - 3) 2] ++ t). rewrite E1. unfold trace_bits, trace_code.
      rewrite <- !app_assoc. split; [reflexivity|]. split; [|exact E3]. rewrite E2.
      rewrite replay_app. reflexivity.
    + exists []. rewrite app_nil_r. auto.
Qed.

Lemma special_replay : forall i r st l, P st ->
  let R := rep_special ec eb mask i r st in
  exists t, rep_special trace_code trace_bits mask i r l = (fst (fst R), snd (fst R), l ++ t) /\
            snd R = replay ec eb t st /\ P (snd R).
Proof.
  intros i r st l HP. cbn zeta. unfold rep_special.
  destruct ((r =? 7) && mask_has mask 1 && negb (mask_has mask 8)).
  - exists [TCode 16; TBits (4 - 3) 2; TCode 16; TBits (3 - 3) 2]. unfold trace_bits, trace_code.
    rewrite <- !app_assoc. cbn. split; [reflexivity|]. split; [reflexivity|].
    apply Heb, Hec, Heb, Hec, HP.
  - destruct ((r =? 8) && mask_has mask 1 && negb (mask_has mask 16)).
    + exists [TCode 16; TBits (4 - 3) 2; TCode 16; TBits (4 - 3) 2]. unfold trace_bits, trace_code.
      rewrite <- !app_assoc. cbn. split; [reflexivity|]. split; [reflexivity|].
      apply Heb, Hec, Heb, Hec, HP.
    + exists []. rewrite app_nil_r. auto.
Qed.

Lemma loop_replay : forall fuel i st l, P st ->
  let R := var_lengths_loop ec eb b ok cl n mask fuel i st in
  exists t, var_lengths_loop trace_code trace_bits b (fun _ => true) cl n mask fuel i l = (fst R, l ++ t) /\
            snd R = replay ec eb t st.
Proof.
  induction fuel as [|f IH]; intros i st l HP; cbn zeta; cbn [var_lengths_loop].
  - exists []. rewrite app_nil_r. auto.
  - destruct (i <? n); [|exists []; rewrite app_nil_r; auto].
    set (r := run_length cl n (Z.to_nat (n - i)) i 1).
    destruct (cl i =? 0).
    + destruct (r >=? 3).
      * destruct (zero18_replay (Z.to_nat r) i r st l HP) as [t1 [E1 [S1 P1]]].
        destruct (zero_run_18 ec eb mask (Z.to_nat r) i r st) as [[i1 r1] st1] eqn:Z1.
        cbn [fst snd] in *. rewrite E1.
        destruct (zero17_replay (Z.to_nat r1) i1 r1 st1 (l ++ t1) P1) as [t2 [E2 [S2 P2]]].
        destruct (zero_run_17 ec eb mask (Z.to_nat r1) i1 r1 st1) as [[i2 r2] st2] eqn:Z2.
        cbn [fst snd] in *. rewrite E2.
        destruct (negb (r2 =? 0)).
        -- rewrite (Hok _ (Hec _ _ P2)).
           destruct (IH (i2 + 1) (ec (cl i2) st2) (trace_code (cl i2) ((l ++ t1) ++ t2))) as [t3 [E3 S3]];
             [apply Hec, P2|].
           exists (t1 ++ t2 ++ [TCode (cl i2)] ++ t3). rewrite E3. unfold trace_code.
           rewrite <- !app_assoc. split; [reflexivity|].
           rewrite S3, !replay_app, S2, S1. reflexivity.
        -- rewrite (Hok _ P2).
           destruct (IH i2 st2 ((l ++ t1) ++ t2)) as [t3 [E3 S3]]; [exact P2|].
           exists (t1 ++ t2 ++ t3). rewrite E3. rewrite <- !app_assoc. split; [reflexivity|].
           rewrite S3, !replay_app, S2, S1. reflexivity.
      * destruct (IH (i + 1) (ec (cl i) st) (trace_code (cl i) l)) as [t3 [E3 S3]]; [apply Hec, HP|].
        exists ([TCode (cl i)] ++ t3). rewrite E3. unfold trace_code.
        rewrite <- !app_assoc. split; [reflexivity|]. rewrite S3, replay_app. reflexivity.
    + destruct (b && (cl i >? 15)); [exists []; rewrite app_nil_r; auto|].
      cbn zeta.
      set (c := if cl i >? 15 then 15 else cl i).
      destruct (special_replay (i + 1) (r - 1) (ec c st) (trace_code c l)) as [t1 [E1 [S1 P1]]];
        [apply Hec, HP|].
      destruct (rep_special ec eb mask (i + 1) (r - 1) (ec c st)) as [[i1 r1] st1] eqn:Z1.
      cbn [fst snd] in *. rewrite E1.
      destruct (rep16_replay (Z.to_nat r1) i1 r1 st1 (trace_code c l ++ t1) P1) as [t2 [E2 [S2 P2]]].
      destruct (rep_run_16 ec eb mask (Z.to_nat r1) i1 r1 st1) as [[i2 r2] st2] eqn:Z2.
      cbn [fst snd] in *. rewrite E2. rewrite (Hok _ P2).
      destruct (IH i2 st2 ((trace_code c l ++ t1) ++ t2)) as [t3 [E3 S3]]; [exact P2|].
      exists ([TCode c] ++ t1 ++ t2 ++ t3). rewrite E3. unfold trace_code.
      rewrite <- !app_assoc. split; [reflexivity|].
      rewrite S3, !replay_app, S2, S1. reflexivity.
Qed.

End Replay.
End CodeLengthsProofs.


Module CodeLengthsProofs2.
Import BitWriter Huffman CodeLengths HuffmanProofs BitWriterProofs CodeLengthsProofs.

(** ** The token sequence of the run-length encoder *)

Lemma repeat_Z_app {A} (x : A) a b : 0 <= a -> 0 <= b ->
  repeat x (Z.to_nat a) ++ repeat x (Z.to_nat b) = repeat x (Z.to_nat (a + b)).
Proof. intros. rewrite Z2Nat.inj_add by lia. symmetry. apply repeat_app. Qed.

Lemma last_app_repeat_S (acc : list Z) p k d : last (acc ++ repeat p (S k)) d = p.
Proof. cbn [repeat]. rewrite repeat_cons, app_assoc. apply last_last. Qed.

Lemma repeat_app_S' (p : Z) a : repeat p (S O) ++ repeat p a = repeat p (S a).
Proof. reflexivity. Qed.

Lemma app_repeat_S_nonempty (acc : list Z) p k : acc ++ repeat p (S k) <> [].
Proof. destruct acc; discriminate. Qed.

Lemma map_zseq_seg (cl : array) c i j n (acc : list Z) :
  i <= j <= n -> (forall x, i <= x < j -> cl x = c) ->
  acc ++ repeat c (Z.to_nat (j - i)) ++ map cl (zseq j (Z.to_nat (n - j)))
  = acc ++ map cl (zseq i (Z.to_nat (n - i))).
Proof.
  intros Hij Hc. f_equal.
  replace (Z.to_nat (n - i)) with (Z.to_nat (j - i) + Z.to_nat (n - j))%nat by lia.
  rewrite zseq_app, map_app. rewrite Z2Nat.id by lia. replace (i + (j - i)) with j by lia.
  f_equal. assert (Hij' : i <= j) by lia. clear Hij. remember (Z.to_nat (j - i)) as k eqn:Ek.
  revert i Hij' Hc Ek. induction k as [|k IH]; intros i Hij Hc Ek; [reflexivity|].
  cbn [repeat zseq map]. rewrite (Hc i) by lia. f_equal. apply IH; [lia| |lia].
  intros x Hx. apply Hc. lia.
Qed.

Lemma read_lit s rest acc : 0 <= s <= 15 ->
  rfc1951_read_code_lengths (TCode s :: rest) acc = rfc1951_read_code_lengths rest (acc ++ [s]).
Proof.
  intros Hs. cbn [rfc1951_read_code_lengths].
  rewrite (proj2 (Z.leb_le 0 s)), (proj2 (Z.leb_le s 15)) by lia. reflexivity.
Qed.

Lemma read_16 v rest acc : acc <> [] -> 0 <= v < 4 ->
  rfc1951_read_code_lengths (TCode 16 :: TBits v 2 :: rest) acc
  = rfc1951_read_code_lengths rest (acc ++ repeat (last acc 0) (Z.to_nat (3 + v))).
Proof.
  intros Ha Hv. destruct acc as [|a acc]; [congruence|]. cbn [rfc1951_read_code_lengths].
  rewrite (proj2 (Z.leb_le 0 v)), (proj2 (Z.ltb_lt v 4)) by lia. reflexivity.
Qed.

Lemma read_17 v rest acc : 0 <= v < 8 ->
  rfc1951_read_code_lengths (TCode 17 :: TBits v 3 :: rest) acc
  = rfc1951_read_code_lengths rest (acc ++ repeat 0 (Z.to_nat (3 + v))).
Proof.
  intros Hv. cbn [rfc1951_read_code_lengths].
  rewrite (proj2 (Z.leb_le 0 v)), (proj2 (Z.ltb_lt v 8)) by lia. reflexivity.
Qed.

Lemma read_18 v rest acc : 0 <= v < 128 ->
  rfc1951_read_code_lengths (TCode 18 :: TBits v 7 :: rest) acc
  = rfc1951_read_code_lengths rest (acc ++ repeat 0 (Z.to_nat (11 + v))).
Proof.
  intros Hv. cbn [rfc1951_read_code_lengths].
  rewrite (proj2 (Z.leb_le 0 v)), (proj2 (Z.ltb_lt v 128)) by lia. reflexivity.
Qed.

Lemma zero18_list mask : forall fuel i r l, 0 <= r ->
  exists t i' r', zero_run_18 trace_code trace_bits mask fuel i r l = (i', r', l ++ t) /\
    0 <= r' <= r /\ i' = i + (r - r') /\
    forall rest acc, rfc1951_read_code_lengths (t ++ rest) acc
                     = rfc1951_read_code_lengths rest (acc ++ repeat 0 (Z.to_nat (r - r'))).
Proof.
  induction fuel as [|f IH]; intros i r l Hr; cbn [zero_run_18].
  - exists [], i, r. rewrite !app_nil_r. replace (r - r) with 0 by lia.
    split; [reflexivity|]. repeat split; try lia. intros. cbn. now rewrite ?app_nil_r.
  - destruct ((r >=? 11) && mask_has mask 4) eqn:C; cbv zeta.
    + apply andb_true_iff in C as [C _]. apply Z.geb_le in C.
      set (m := if r >? 138 then 138 else r).
      assert (Hm : 11 <= m <= 138 /\ m <= r) by (unfold m; destruct (Z.gtb_spec r 138); lia).
      destruct (IH (i + m) (r - m) (trace_bits (m - 11) 7 (trace_code 18 l))) as (t & i' & r' & E & R & I & D);
        [lia|].
      exists (TCode 18 :: TBits (m - 11) 7 :: t), i', r'. rewrite E. unfold trace_bits, trace_code.
      rewrite <- !app_assoc. split; [reflexivity|]. split; [lia|]. split; [lia|].
      intros rest acc. cbn [app]. rewrite read_18 by lia. rewrite D, <- app_assoc, repeat_Z_app by lia.
      do 4 f_equal. lia.
    + exists [], i, r. rewrite !app_nil_r. replace (r - r) with 0 by lia.
      split; [reflexivity|]. repeat split; try lia. intros. cbn. now rewrite ?app_nil_r.
Qed.

Lemma zero17_list mask : forall fuel i r l, 0 <= r ->
  exists t i' r', zero_run_17 trace_code trace_bits mask fuel i r l = (i', r', l ++ t) /\
    0 <= r' <= r /\ i' = i + (r - r') /\
    forall rest acc, rfc1951_read_code_lengths (t ++ rest) acc
                     = rfc1951_read_code_lengths rest (acc ++ repeat 0 (Z.to_nat (r - r'))).
Proof.
  induction fuel as [|f IH]; intros i r l Hr; cbn [zero_run_17].
  - exists [], i, r. rewrite !app_nil_r. replace (r - r) with 0 by lia.
    split; [reflexivity|]. repeat split; try lia. intros. cbn. now rewrite ?app_nil_r.
  - destruct ((r >=? 3) && mask_has mask 2) eqn:C; cbv zeta.
    + apply andb_true_iff in C as [C _]. apply Z.geb_le in C.
      set (m := if r >? 10 then 10 else r).
      assert (Hm : 3 <= m <= 10 /\ m <= r) by (unfold m; destruct (Z.gtb_spec r 10); lia).
      destruct (IH (i + m) (r - m) (trace_bits (m - 3) 3 (trace_code 17 l))) as (t & i' & r' & E & R & I & D);
        [lia|].
      exists (TCode 17 :: TBits (m - 3) 3 :: t), i', r'. rewrite E. unfold trace_bits, trace_code.
      rewrite <- !app_assoc. split; [reflexivity|]. split; [lia|]. split; [lia|].
      intros rest acc. cbn [app]. rewrite read_17 by lia. rewrite D, <- app_assoc, repeat_Z_app by lia.
      do 4 f_equal. lia.
    + exists [], i, r. rewrite !app_nil_r. replace (r - r) with 0 by lia.
      split; [reflexivity|]. repeat split; try lia. intros. cbn. now rewrite ?app_nil_r.
Qed.

Lemma rep16_list mask p : forall fuel i r l, 0 <= r ->
  exists t i' r', rep_run_16 trace_code trace_bits mask fuel i r l = (i', r', l ++ t) /\
    0 <= r' <= r /\ i' = i + (r - r') /\
    forall rest acc, acc <> [] -> last acc 0 = p ->
      rfc1951_read_code_lengths (t ++ rest) acc
      = rfc1951_read_code_lengths rest (acc ++ repeat p (Z.to_nat (r - r'))).
Proof.
  induction fuel as [|f IH]; intros i r l Hr; cbn [rep_run_16].
  - exists [], i, r. rewrite !app_nil_r. replace (r - r) with 0 by lia.
    split; [reflexivity|]. repeat split; try lia. intros. cbn. now rewrite ?app_nil_r.
  - destruct ((r >=? 3) && mask_has mask 1) eqn:C; cbv zeta.
    + apply andb_true_iff in C as [C _]. apply Z.geb_le in C.
      set (m := if r >? 6 then 6 else r).
      assert (Hm : 3 <= m <= 6 /\ m <= r) by (unfold m; destruct (Z.gtb_spec r 6); lia).
      destruct (IH (i + m) (r - m) (trace_bits (m - 3) 2 (trace_code 16 l))) as (t & i' & r' & E & R & I & D);
        [lia|].
      exists (TCode 16 :: TBits (m - 3) 2 :: t), i', r'. rewrite E. unfold trace_bits, trace_code.
      rewrite <- !app_assoc. split; [reflexivity|]. split; [lia|]. split; [lia|].
      intros rest acc Ha Hl. cbn [app]. rewrite read_16 by (auto; lia). rewrite Hl.
      replace (Z.to_nat (3 + (m - 3))) with (S (Z.to_nat (m - 1))) by lia.
      rewrite D.
      * rewrite <- app_assoc. replace (S (Z.to_nat (m - 1))) with (Z.to_nat m) by lia.
        rewrite repeat_Z_app by lia. do 4 f_equal. lia.
      * apply app_repeat_S_nonempty.
      * apply last_app_repeat_S.
    + exists [], i, r. rewrite !app_nil_r. replace (r - r) with 0 by lia.
      split; [reflexivity|]. repeat split; try lia. intros. cbn. now rewrite ?app_nil_r.
Qed.

Lemma special_list mask p : forall i r l, 0 <= r ->
  exists t i' r', rep_special trace_code trace_bits mask i r l = (i', r', l ++ t) /\
    0 <= r' <= r /\ i' = i + (r - r') /\
    forall rest acc, acc <> [] -> last acc 0 = p ->
      rfc1951_read_code_lengths (t ++ rest) acc
      = rfc1951_read_code_lengths rest (acc ++ repeat p (Z.to_nat (r - r'))).
Proof.
  intros i r l Hr. unfold rep_special.
  destruct ((r =? 7) && mask_has mask 1 && negb (mask_has mask 8)) eqn:C7.
  - apply andb_true_iff in C7 as [C7 _]. apply andb_true_iff in C7 as [C7 _]. apply Z.eqb_eq in C7. subst r.
    exists [TCode 16; TBits (4 - 3) 2; TCode 16; TBits (3 - 3) 2], (i + 7), (7 - 7).
    unfold trace_bits, trace_code. rewrite <- !app_assoc. split; [reflexivity|].
    split; [lia|]. split; [lia|]. intros rest acc Ha Hl. cbn [app].
    rewrite read_16 by (auto; lia). rewrite Hl. change (Z.to_nat (3 + (4 - 3))) with (S 3).
    rewrite read_16 by (apply app_repeat_S_nonempty || lia).
    rewrite last_app_repeat_S, <- app_assoc. reflexivity.
  - destruct ((r =? 8) && mask_has mask 1 && negb (mask_has mask 16)) eqn:C8.
    + apply andb_true_iff in C8 as [C8 _]. apply andb_true_iff in C8 as [C8 _]. apply Z.eqb_eq in C8. subst r.
      exists [TCode 16; TBits (4 - 3) 2; TCode 16; TBits (4 - 3) 2], (i + 8), (8 - 8).
      unfold trace_bits, trace_code. rewrite <- !app_assoc. split; [reflexivity|].
      split; [lia|]. split; [lia|]. intros rest acc Ha Hl. cbn [app].
      rewrite read_16 by (auto; lia). rewrite Hl. change (Z.to_nat (3 + (4 - 3))) with (S 3).
      rewrite read_16 by (apply app_repeat_S_nonempty || lia).
      rewrite last_app_repeat_S, <- app_assoc. reflexivity.
    + exists [], i, r. rewrite !app_nil_r. replace (r - r) with 0 by lia.
      split; [reflexivity|]. repeat split; try lia. intros. cbn. now rewrite ?app_nil_r.
Qed.

Lemma run_length_spec (cl : array) n : forall fuel i r, 1 <= r -> i + r <= n ->
  (forall j, i <= j < i + r -> cl j = cl i) ->
  let R := run_length cl n fuel i r in
  r <= R /\ i + R <= n /\ forall j, i <= j < i + R -> cl j = cl i.
Proof.
  induction fuel as [|f IH]; intros i r H1 Hn Hc; cbn [run_length]; cbv zeta.
  - auto with zarith.
  - destruct ((i + r <? n) && (cl (i + r) =? cl i)) eqn:C.
    + apply andb_true_iff in C as [C1 C2]. apply Z.ltb_lt in C1. apply Z.eqb_eq in C2.
      destruct (IH i (r + 1)) as (A & B & D); [lia|lia| |].
      * intros j Hj. destruct (Z.eq_dec j (i + r)) as [->|Hne]; [exact C2|]. apply Hc. lia.
      * split; [lia|auto].
    + auto with zarith.
Qed.


Ltac seg_close :=
  rewrite <- ?app_assoc; f_equal; rewrite ?app_assoc, ?repeat_Z_app by lia;
  match goal with
  | |- repeat ?p (Z.to_nat ?a) ++ ?m = repeat ?p (Z.to_nat ?b) ++ ?m => replace a with b by lia; reflexivity
  end.

Lemma trace_loop_done (cl : array) n i (l : list cl_token) : n <= i ->
  exists r t, (0, l) = (r, l ++ t) /\
    (r = -1 <-> exists j, i <= j < n /\ cl j > 15) /\ (r = 0 \/ r = -1) /\
    (r = 0 -> (forall j, i <= j < n -> 0 <= cl j) ->
     forall acc, rfc1951_read_code_lengths t acc = Some (acc ++ map cl (zseq i (Z.to_nat (n - i))))).
Proof.
  intros Hi. exists 0, []. rewrite app_nil_r. split; [reflexivity|].
  split; [split; [lia|intros (j & Hj & _); lia]|]. split; [auto|].
  intros _ _ acc. replace (Z.to_nat (n - i)) with O by lia. cbn. now rewrite app_nil_r.
Qed.

Lemma trace_loop_spec (cl : array) n mask : forall fuel i l, n - i <= Z.of_nat fuel ->
  exists r t, var_lengths_loop trace_code trace_bits true (fun _ => true) cl n mask fuel i l = (r, l ++ t) /\
    (r = -1 <-> exists j, i <= j < n /\ cl j > 15) /\ (r = 0 \/ r = -1) /\
    (r = 0 -> (forall j, i <= j < n -> 0 <= cl j) ->
     forall acc, rfc1951_read_code_lengths t acc = Some (acc ++ map cl (zseq i (Z.to_nat (n - i))))).
Proof.
  induction fuel as [|f IH]; intros i l Hf; cbn [var_lengths_loop].
  - apply trace_loop_done. lia.
  - destruct (Z.ltb_spec i n) as [Hin|Hin]; [|apply trace_loop_done; lia].
    set (r := run_length cl n (Z.to_nat (n - i)) i 1).
    destruct (run_length_spec cl n (Z.to_nat (n - i)) i 1) as (R1 & R2 & R3); [lia|lia| |].
    { intros j Hj. f_equal. lia. }
    fold r in R1, R2, R3.
    destruct (Z.eqb_spec (cl i) 0) as [H0|H0].
    + destruct (r >=? 3) eqn:E3.
      * apply Z.geb_le in E3.
        destruct (zero18_list mask (Z.to_nat r) i r l) as (t1 & i1 & r1 & E1 & Q1 & I1 & D1); [lia|].
        rewrite E1.
        destruct (zero17_list mask (Z.to_nat r1) i1 r1 (l ++ t1)) as (t2 & i2 & r2 & E2 & Q2 & I2 & D2); [lia|].
        rewrite E2.
        destruct (Z.eqb_spec r2 0) as [Hr2|Hr2]; cbn [negb]; cbv beta iota zeta.
        -- destruct (IH i2 ((l ++ t1) ++ t2)) as (r' & t3 & E & Hm & Hr & D); [lia|].
           rewrite E. exists r', (t1 ++ t2 ++ t3). rewrite <- !app_assoc. split; [reflexivity|].
           split; [|split; [exact Hr|]].
           { rewrite Hm. split; intros (j & Hj & Hg); [exists j; split; [lia|exact Hg]|].
             destruct (Z.lt_ge_cases j i2); [|exists j; split; [lia|exact Hg]].
             rewrite R3 in Hg by lia. lia. }
           intros Hr0 Hnn acc. rewrite D1, D2, D by (auto; intros; apply Hnn; lia).
           f_equal. rewrite <- (map_zseq_seg cl 0 i i2 n acc) by (try lia; intros; rewrite R3 by lia; exact H0).
           seg_close.
        -- destruct (IH (i2 + 1) (trace_code (cl i2) ((l ++ t1) ++ t2))) as (r' & t3 & E & Hm & Hr & D); [lia|].
           rewrite E. exists r', (t1 ++ t2 ++ [TCode (cl i2)] ++ t3). unfold trace_code.
           rewrite <- !app_assoc. split; [reflexivity|].
           assert (Hc2 : cl i2 = 0) by (rewrite R3 by lia; exact H0).
           split; [|split; [exact Hr|]].
           { rewrite Hm. split; intros (j & Hj & Hg); [exists j; split; [lia|exact Hg]|].
             destruct (Z.lt_ge_cases j (i2 + 1)); [|exists j; split; [lia|exact Hg]].
             rewrite R3 in Hg by lia. lia. }
           intros Hr0 Hnn acc. rewrite D1, D2, Hc2. cbn [app]. rewrite read_lit by lia.
           rewrite D by (auto; intros; apply Hnn; lia).
           f_equal. rewrite <- (map_zseq_seg cl 0 i (i2 + 1) n acc) by (try lia; intros; rewrite R3 by lia; exact H0).
           change [0] with (repeat 0 (Z.to_nat 1)). seg_close.
      * rewrite Z.geb_leb in E3. apply Z.leb_gt in E3.
        destruct (IH (i + 1) (trace_code (cl i) l)) as (r' & t3 & E & Hm & Hr & D); [lia|].
        rewrite E. exists r', ([TCode (cl i)] ++ t3). unfold trace_code.
        rewrite <- !app_assoc. split; [reflexivity|].
        split; [|split; [exact Hr|]].
        { rewrite Hm. split; intros (j & Hj & Hg); [exists j; split; [lia|exact Hg]|].
          destruct (Z.eq_dec j i) as [->|Hne]; [lia|exists j; split; [lia|exact Hg]]. }
        intros Hr0 Hnn acc. rewrite H0. cbn [app]. rewrite read_lit by lia.
        rewrite D by (auto; intros; apply Hnn; lia).
        f_equal. rewrite <- (map_zseq_seg cl 0 i (i + 1) n acc) by (try lia; intros x Hx; replace x with i by lia; exact H0).
        replace (i + 1 - i) with 1 by lia. now rewrite <- app_assoc.
    + cbn [andb]. destruct (cl i >? 15) eqn:Eg.
      * exists (-1), []. rewrite app_nil_r. split; [reflexivity|].
        split; [split; [intros _; exists i; split; [lia|apply Z.gtb_lt in Eg; lia]|reflexivity]|].
        split; [auto|]. intros; lia.
      * rewrite Z.gtb_ltb in Eg. apply Z.ltb_ge in Eg.
        destruct (special_list mask (cl i) (i + 1) (r - 1) (trace_code (cl i) l)) as (t1 & i1 & r1 & E1 & Q1 & I1 & D1);
          [lia|].
        rewrite E1.
        destruct (rep16_list mask (cl i) (Z.to_nat r1) i1 r1 (trace_code (cl i) l ++ t1))
          as (t2 & i2 & r2 & E2 & Q2 & I2 & D2); [lia|].
        rewrite E2. cbv beta iota zeta.
        destruct (IH i2 ((trace_code (cl i) l ++ t1) ++ t2)) as (r' & t3 & E & Hm & Hr & D); [lia|].
        rewrite E. exists r', ([TCode (cl i)] ++ t1 ++ t2 ++ t3). unfold trace_code.
        rewrite <- !app_assoc. split; [reflexivity|].
        split; [|split; [exact Hr|]].
        { rewrite Hm. split; intros (j & Hj & Hg); [exists j; split; [lia|exact Hg]|].
          destruct (Z.lt_ge_cases j i2); [|exists j; split; [lia|exact Hg]].
          rewrite R3 in Hg by lia. lia. }
        intros Hr0 Hnn acc. assert (Hc : 0 <= cl i) by (apply Hnn; lia).
        cbn [app]. rewrite read_lit by lia. change [cl i] with (repeat (cl i) (S O)).
        rewrite D1 by (apply app_repeat_S_nonempty || apply last_app_repeat_S).
        rewrite D2.
        -- rewrite D by (auto; intros; apply Hnn; lia).
           f_equal. rewrite <- (map_zseq_seg cl (cl i) i i2 n acc) by (try lia; intros; apply R3; lia).
           change (repeat (cl i) 1) with (repeat (cl i) (Z.to_nat 1)). seg_close.
        -- rewrite <- app_assoc, repeat_app_S'. apply app_repeat_S_nonempty.
        -- rewrite <- app_assoc, repeat_app_S'. apply last_app_repeat_S.
Qed.

Lemma trace_spec (cl : array) n mask :
  exists r t, var_lengths_trace cl n mask = (r, t) /\
    (r = -1 <-> exists j, 0 <= j < n /\ cl j > 15) /\ (r = 0 \/ r = -1) /\
    (r = 0 -> (forall j, 0 <= j < n -> 0 <= cl j) ->
     rfc1951_read_code_lengths t [] = Some (map cl (zseq 0 (Z.to_nat n)))).
Proof.
  destruct (trace_loop_spec cl n mask (Z.to_nat n) 0 []) as (r & t & E & H1 & H2 & H3); [lia|].
  exists r, t. unfold var_lengths_trace, var_lengths_run. rewrite E. split; [reflexivity|].
  split; [exact H1|]. split; [exact H2|]. intros Hr Hnn. rewrite (H3 Hr Hnn []).
  now replace (n - 0) with n by lia.
Qed.

(** ** Lengths above 15 only matter to the writer *)
Section FailLong.
Context {St : Type}.
Variable ec : Z -> St -> St.
Variable eb : Z -> Z -> St -> St.
Variable ok : St -> bool.
Variable cl : array.
Variable n mask : Z.

Lemma zero18_mono : forall fuel i r st, i <= fst (fst (zero_run_18 ec eb mask fuel i r st)).
Proof.
  induction fuel as [|f IH]; intros i r st; cbn [zero_run_18]; [cbn; lia|].
  destruct ((r >=? 11) && mask_has mask 4) eqn:C; cbv zeta; [|cbn; lia].
  apply andb_true_iff in C as [C _]. apply Z.geb_le in C.
  match goal with |- _ <= fst (fst (zero_run_18 _ _ _ _ ?a ?b ?c)) => specialize (IH a b c) end.
  destruct (Z.gtb_spec r 138); lia.
Qed.

Lemma zero17_mono : forall fuel i r st, i <= fst (fst (zero_run_17 ec eb mask fuel i r st)).
Proof.
  induction fuel as [|f IH]; intros i r st; cbn [zero_run_17]; [cbn; lia|].
  destruct ((r >=? 3) && mask_has mask 2) eqn:C; cbv zeta; [|cbn; lia].
  apply andb_true_iff in C as [C _]. apply Z.geb_le in C.
  match goal with |- _ <= fst (fst (zero_run_17 _ _ _ _ ?a ?b ?c)) => specialize (IH a b c) end.
  destruct (Z.gtb_spec r 10); lia.
Qed.

Lemma rep16_mono : forall fuel i r st, i <= fst (fst (rep_run_16 ec eb mask fuel i r st)).
Proof.
  induction fuel as [|f IH]; intros i r st; cbn [rep_run_16]; [cbn; lia|].
  destruct ((r >=? 3) && mask_has mask 1) eqn:C; cbv zeta; [|cbn; lia].
  apply andb_true_iff in C as [C _]. apply Z.geb_le in C.
  match goal with |- _ <= fst (fst (rep_run_16 _ _ _ _ ?a ?b ?c)) => specialize (IH a b c) end.
  destruct (Z.gtb_spec r 6); lia.
Qed.

Lemma special_mono i r st : i <= fst (fst (rep_special ec eb mask i r st)).
Proof.
  unfold rep_special.
  destruct ((r =? 7) && mask_has mask 1 && negb (mask_has mask 8)); [cbn; lia|].
  destruct ((r =? 8) && mask_has mask 1 && negb (mask_has mask 16)); cbn; lia.
Qed.

Hypothesis Hcl : forall j, 0 <= j < n -> cl j <= 15.

Lemma loop_fail_long : forall fuel i st, 0 <= i ->
  var_lengths_loop ec eb false ok cl n mask fuel i st = var_lengths_loop ec eb true ok cl n mask fuel i st.
Proof.
  induction fuel as [|f IH]; intros i st Hi; cbn [var_lengths_loop]; [reflexivity|].
  destruct (Z.ltb_spec i n) as [Hin|Hin]; [|reflexivity].
  destruct (cl i =? 0).
  - destruct (run_length cl n (Z.to_nat (n - i)) i 1 >=? 3); [|apply IH; lia].
    pose proof (zero18_mono (Z.to_nat (run_length cl n (Z.to_nat (n - i)) i 1)) i
                  (run_length cl n (Z.to_nat (n - i)) i 1) st) as M1.
    destruct (zero_run_18 _ _ _ _ _ _ _) as [[i1 r1] st1]. cbn [fst] in M1.
    pose proof (zero17_mono (Z.to_nat r1) i1 r1 st1) as M2.
    destruct (zero_run_17 _ _ _ _ _ _ _) as [[i2 r2] st2]. cbn [fst] in M2.
    destruct (negb (r2 =? 0)); cbv beta iota zeta; (destruct (ok _); [apply IH; lia|reflexivity]).
  - cbn [andb]. replace (cl i >? 15) with false by (symmetry; rewrite Z.gtb_ltb; apply Z.ltb_ge, Hcl; lia). cbv beta iota zeta.
    pose proof (special_mono (i + 1) (run_length cl n (Z.to_nat (n - i)) i 1 - 1) (ec (cl i) st)) as M1.
    destruct (rep_special _ _ _ _ _ _) as [[i1 r1] st1]. cbn [fst] in M1.
    pose proof (rep16_mono (Z.to_nat r1) i1 r1 st1) as M2.
    destruct (rep_run_16 _ _ _ _ _ _ _) as [[i2 r2] st2]. cbn [fst] in M2.
    destruct (ok st2); [apply IH; lia|reflexivity].
Qed.

End FailLong.

Lemma replay_entropy t : forall (E : array) s,
  replay (fun s E => upd E s (E s + 1)) (fun _ _ E => E) t E s = E s + code_count s t.
Proof.
  induction t as [|x t IH]; intros E s; [cbn; lia|].
  rewrite replay_cons, IH. unfold code_count, zsum. cbn [map fold_right].
  destruct x as [s'|v k]; cbn beta iota; [|lia].
  unfold upd. destruct (Z.eqb_spec s s'); destruct (Z.eqb_spec s' s); subst; try lia; congruence.
Qed.

Lemma replay_size e t : forall b0,
  replay (fun s b => b + nCodeLength e s) (fun _ k b => b + k) t b0 = b0 + tokens_bits e t.
Proof.
  induction t as [|x t IH]; intros b0; [cbn; lia|].
  rewrite replay_cons, IH. unfold tokens_bits, zsum. cbn [map fold_right]. destruct x; cbn; lia.
Qed.

(** ** Bit positions *)

Lemma flush_bitpos (k : nat) : forall w out r w' out',
  flush_whole_bytes k w out = (r, w', out') ->
  bit_position w' = bit_position w /\ nMaxOutDataOffset w' = nMaxOutDataOffset w /\
  nOutOffset w <= nOutOffset w' /\
  (nOutOffset w <= nMaxOutDataOffset w -> nOutOffset w' <= nMaxOutDataOffset w').
Proof.
  induction k as [|k IH]; intros w out r w' out' E; cbn [flush_whole_bytes] in E.
  - inversion E; subst. lia.
  - destruct (nEncBitCount w >=? 8); [|inversion E; subst; lia].
    destruct (nOutOffset w >=? nMaxOutDataOffset w) eqn:Eo; [inversion E; subst; lia|].
    rewrite Z.geb_leb in Eo. apply Z.leb_gt in Eo.
    apply IH in E. unfold bit_position in *. cbn [nEncBitCount nOutOffset nMaxOutDataOffset] in E. lia.
Qed.

Lemma put_bits_bitpos w out v n r w' out' :
  zultra_bitwriter_put_bits w out v n = (r, w', out') ->
  nMaxOutDataOffset w' = nMaxOutDataOffset w /\ nOutOffset w <= nOutOffset w' /\
  (nOutOffset w <= nMaxOutDataOffset w -> nOutOffset w' <= nMaxOutDataOffset w') /\
  (n <= 16 -> bit_position w' = bit_position w + n).
Proof.
  unfold zultra_bitwriter_put_bits. intros E. destruct (Z.gtb_spec n 16) as [Hn|Hn].
  - inversion E; subst. repeat split; lia.
  - apply flush_bitpos in E. unfold bit_position in *.
    cbn [nEncBitCount nOutOffset nMaxOutDataOffset] in E. lia.
Qed.

Lemma put_bits_room w out v n r w' out' :
  writer_inv w -> 0 <= n <= 16 -> bit_position w + n <= 8 * nMaxOutDataOffset w + 7 ->
  zultra_bitwriter_put_bits w out v n = (r, w', out') ->
  r = 0 /\ writer_inv w'.
Proof.
  intros [Hc Ho] Hn Hroom E. unfold bit_position in Hroom.
  apply put_bits_spec in E; [|lia|lia|lia]. cbv zeta in E.
  assert (Hk : (nEncBitCount w + n) / 8 < nMaxOutDataOffset w - nOutOffset w + 1)
    by (apply Z.div_lt_upper_bound; lia).
  destruct (Z.gtb_spec (nOutOffset w + (nEncBitCount w + n) / 8) (nMaxOutDataOffset w)); [lia|].
  destruct E as (-> & Hc' & Ho' & Hm' & _). split; [reflexivity|].
  pose proof (Z.mod_pos_bound (nEncBitCount w + n) 8 ltac:(lia)).
  pose proof (Z.div_mod (nEncBitCount w + n) 8 ltac:(lia)).
  unfold writer_inv. lia.
Qed.

(** ** The writer runs the token sequence *)


Lemma write_code_action_off e s st :
  0 <= nOutOffset (fst st) <= nMaxOutDataOffset (fst st) ->
  0 <= nOutOffset (fst (write_code_action e s st)) <= nMaxOutDataOffset (fst (write_code_action e s st)).
Proof.
  destruct st as [w out]. unfold write_code_action, zultra_huffman_encoder_write_codeword. cbn [fst snd].
  destruct ((s >=? 0) && (s <? nSymbols e)); [|auto].
  destruct (zultra_bitwriter_put_bits w out _ _) as [[r w'] out'] eqn:E.
  apply put_bits_bitpos in E. cbn [fst]. lia.
Qed.

Lemma write_bits_action_off v k st :
  0 <= nOutOffset (fst st) <= nMaxOutDataOffset (fst st) ->
  0 <= nOutOffset (fst (write_bits_action v k st)) <= nMaxOutDataOffset (fst (write_bits_action v k st)).
Proof.
  destruct st as [w out]. unfold write_bits_action. cbn [fst snd].
  destruct (zultra_bitwriter_put_bits w out _ _) as [[r w'] out'] eqn:E.
  apply put_bits_bitpos in E. cbn [fst]. lia.
Qed.

(** [zultra_huffman_encoder_write_var_lengths] performs the writes of
    the token sequence [var_lengths_trace] and returns its result. *)
Lemma write_var_lengths_trace e n cl mask w out :
  0 <= nOutOffset w <= nMaxOutDataOffset w ->
  zultra_huffman_encoder_write_var_lengths e n cl mask w out =
    (fst (var_lengths_trace cl n mask),
     fst (replay (write_code_action e) write_bits_action (snd (var_lengths_trace cl n mask)) (w, out)),
     snd (replay (write_code_action e) write_bits_action (snd (var_lengths_trace cl n mask)) (w, out))).
Proof.
  intros Ho. unfold zultra_huffman_encoder_write_var_lengths.
  assert (Hg : zultra_bitwriter_get_offset w = nOutOffset w).
  { unfold zultra_bitwriter_get_offset. rewrite (proj2 (Z.leb_le _ _)) by lia. reflexivity. }
  rewrite Hg, (proj2 (Z.ltb_ge _ _)) by lia.
  destruct (loop_replay (write_code_action e) write_bits_action
             (fun st => 0 <= nOutOffset (fst st) <= nMaxOutDataOffset (fst st))
             (fun s st => write_code_action_off e s st) (fun v k st => write_bits_action_off v k st)
             (fun st => zultra_bitwriter_get_offset (fst st) >=? 0))
    with (b := true) (cl := cl) (n := n) (mask := mask) (fuel := Z.to_nat n) (i := 0) (st := (w, out)) (l := @nil cl_token)
    as (t & E1 & E2).
  - intros [w' out'] Hst. cbn [fst] in *. unfold zultra_bitwriter_get_offset.
    rewrite (proj2 (Z.leb_le _ _)) by lia. apply Z.geb_le. lia.
  - cbn [fst]. exact Ho.
  - unfold var_lengths_trace, var_lengths_run. rewrite E1. cbn [fst snd app].
    rewrite <- E2.
    destruct (var_lengths_loop (write_code_action e) write_bits_action true
                (fun st => zultra_bitwriter_get_offset (fst st) >=? 0) cl n mask (Z.to_nat n) 0 (w, out))
      as [r [w' out']]. reflexivity.
Qed.

Lemma update_trace T n cl mask :
  (forall j, 0 <= j < n -> cl j <= 15) ->
  forall s, nEntropy (zultra_huffman_encoder_update_var_lengths_entropy T n cl mask) s
            = nEntropy T s + code_count s (snd (var_lengths_trace cl n mask)).
Proof.
  intros Hcl s. unfold zultra_huffman_encoder_update_var_lengths_entropy, var_lengths_run, set_entropy.
  cbn [nEntropy]. rewrite loop_fail_long by (auto; lia).
  destruct (loop_replay (fun s E => upd E s (E s + 1)) (fun _ _ E => E) (fun _ => True)
             (fun _ _ _ => I) (fun _ _ _ _ => I) (fun _ => true) (fun _ _ => eq_refl))
    with (b := true) (cl := cl) (n := n) (mask := mask) (fuel := Z.to_nat n) (i := 0) (st := nEntropy T) (l := @nil cl_token)
    as (t & E1 & E2); [exact I|].
  rewrite E2, replay_entropy. unfold var_lengths_trace, var_lengths_run. rewrite E1. reflexivity.
Qed.

Lemma size_trace e n cl mask :
  (forall j, 0 <= j < n -> cl j <= 15) ->
  zultra_huffman_encoder_get_var_lengths_size e n cl mask = tokens_bits e (snd (var_lengths_trace cl n mask)).
Proof.
  intros Hcl. unfold zultra_huffman_encoder_get_var_lengths_size, var_lengths_run.
  rewrite loop_fail_long by (auto; lia).
  destruct (loop_replay (fun s b => b + nCodeLength e s) (fun _ k b => b + k) (fun _ => True)
             (fun _ _ _ => I) (fun _ _ _ _ => I) (fun _ => true) (fun _ _ => eq_refl))
    with (b := true) (cl := cl) (n := n) (mask := mask) (fuel := Z.to_nat n) (i := 0) (st := 0) (l := @nil cl_token)
    as (t & E1 & E2); [exact I|].
  rewrite E2, replay_size. unfold var_lengths_trace, var_lengths_run. rewrite E1. reflexivity.
Qed.

Lemma read_tokens_small : forall N t acc res, (List.length t <= N)%nat ->
  rfc1951_read_code_lengths t acc = Some res ->
  Forall (fun tok => match tok with TCode s => 0 <= s <= 18 | TBits _ k => 0 <= k <= 7 end) t.
Proof.
  induction N as [|N IH]; intros t acc res Hl E.
  - destruct t; [constructor|cbn in Hl; lia].
  - destruct t as [|[s|v k] rest]; [constructor| |discriminate].
    cbn [rfc1951_read_code_lengths] in E.
    destruct ((0 <=? s) && (s <=? 15)) eqn:C.
    + apply andb_true_iff in C as [C1 C2]. apply Z.leb_le in C1, C2.
      constructor; [lia|]. apply (IH rest (acc ++ [s]) res); [cbn in Hl; lia|exact E].
    + destruct rest as [|[s'|v k] rest']; try discriminate.
      assert (Hl' : (List.length rest' <= N)%nat) by (cbn in Hl; lia).
      destruct ((s =? 16) && (k =? 2) && (0 <=? v) && (v <? 4)) eqn:C16.
      * repeat rewrite andb_true_iff in C16. destruct C16 as [[[C16 Ck] _] _].
        apply Z.eqb_eq in C16, Ck. subst.
        destruct acc; [discriminate|].
        constructor; [lia|]. constructor; [lia|]. eapply IH; eauto.
      * destruct ((s =? 17) && (k =? 3) && (0 <=? v) && (v <? 8)) eqn:C17.
        -- repeat rewrite andb_true_iff in C17. destruct C17 as [[[C17 Ck] _] _].
           apply Z.eqb_eq in C17, Ck. subst.
           constructor; [lia|]. constructor; [lia|]. eapply IH; eauto.
        -- destruct ((s =? 18) && (k =? 7) && (0 <=? v) && (v <? 128)) eqn:C18; [|discriminate].
           repeat rewrite andb_true_iff in C18. destruct C18 as [[[C18 Ck] _] _].
           apply Z.eqb_eq in C18, Ck. subst.
           constructor; [lia|]. constructor; [lia|]. eapply IH; eauto.
Qed.

Lemma tokens_bits_cons e x t : tokens_bits e (x :: t) = token_bits e x + tokens_bits e t.
Proof. reflexivity. Qed.

Lemma replay_write e t : forall st,
  writer_inv (fst st) ->
  Forall (fun tok => match tok with
                     | TCode s => 0 <= s < nSymbols e /\ 0 <= nCodeLength e s <= 16
                     | TBits _ k => 0 <= k <= 16 end) t ->
  bit_position (fst st) + tokens_bits e t <= 8 * nMaxOutDataOffset (fst st) + 7 ->
  writer_inv (fst (replay (write_code_action e) write_bits_action t st)) /\
  bit_position (fst (replay (write_code_action e) write_bits_action t st)) = bit_position (fst st) + tokens_bits e t.
Proof.
  induction t as [|x t IH]; intros [w out] Hw Hf Hroom; [cbn; split; [exact Hw|lia]|].
  inversion Hf as [|? ? Hx Ht]; subst. rewrite tokens_bits_cons in Hroom |- *.
  assert (Hnn : 0 <= tokens_bits e t).
  { unfold tokens_bits. apply zsum_nonneg. intros y Hy. apply in_map_iff in Hy as (tok & <- & Hin).
    rewrite Forall_forall in Ht. specialize (Ht tok Hin). destruct tok; cbn; lia. }
  rewrite replay_cons. cbn [fst] in *.
  destruct x as [s|v k]; cbn [token_bits] in *.
  - assert (Hs : (s >=? 0) && (s <? nSymbols e) = true)
      by (apply andb_true_iff; split; [apply Z.geb_le | apply Z.ltb_lt]; lia).
    destruct (zultra_bitwriter_put_bits w out (nCodeWord e s) (nCodeLength e s)) as [[r w'] out'] eqn:E.
    assert (Ha : write_code_action e s (w, out) = (w', out')).
    { unfold write_code_action, zultra_huffman_encoder_write_codeword. cbn [fst snd]. rewrite Hs, E. reflexivity. }
    rewrite Ha.
    pose proof E as E'. apply put_bits_room in E' as [_ Hw']; [|exact Hw|lia|lia].
    apply put_bits_bitpos in E as (Hm & _ & _ & Hb). specialize (Hb ltac:(lia)).
    assert (Hr : bit_position (fst (w', out')) + tokens_bits e t <= 8 * nMaxOutDataOffset (fst (w', out')) + 7)
      by (cbn [fst]; lia).
    destruct (IH (w', out') Hw' Ht Hr) as [H1 H2]. split; [exact H1|]. cbn [fst] in H2. lia.
  - destruct (zultra_bitwriter_put_bits w out v k) as [[r w'] out'] eqn:E.
    assert (Ha : write_bits_action v k (w, out) = (w', out')).
    { unfold write_bits_action. cbn [fst snd]. rewrite E. reflexivity. }
    rewrite Ha.
    pose proof E as E'. apply put_bits_room in E' as [_ Hw']; [|exact Hw|lia|lia].
    apply put_bits_bitpos in E as (Hm & _ & _ & Hb). specialize (Hb ltac:(lia)).
    assert (Hr : bit_position (fst (w', out')) + tokens_bits e t <= 8 * nMaxOutDataOffset (fst (w', out')) + 7)
      by (cbn [fst]; lia).
    destruct (IH (w', out') Hw' Ht Hr) as [H1 H2]. split; [exact H1|]. cbn [fst] in H2. lia.
Qed.

Lemma writes_trace_result e n cl mask w out :
  0 <= nOutOffset w <= nMaxOutDataOffset w ->
  exists r t, zultra_huffman_encoder_write_var_lengths e n cl mask w out =
      (r, fst (replay (write_code_action e) write_bits_action t (w, out)),
          snd (replay (write_code_action e) write_bits_action t (w, out))) /\
    var_lengths_trace cl n mask = (r, t) /\
    (r = -1 <-> exists j, 0 <= j < n /\ cl j > 15) /\ (r = 0 \/ r = -1) /\
    (r = 0 -> (forall j, 0 <= j < n -> 0 <= cl j) ->
     rfc1951_read_code_lengths t [] = Some (map cl (zseq 0 (Z.to_nat n)))).
Proof.
  intros Ho. destruct (trace_spec cl n mask) as (r & t & Et & H1 & H2 & H3).
  exists r, t. rewrite write_var_lengths_trace by exact Ho. rewrite Et. cbn [fst snd]. auto.
Qed.

Lemma no_long_lengths (cl : array) n : (forall j, 0 <= j < n -> cl j <= 15) ->
  ~ exists j, 0 <= j < n /\ cl j > 15.
Proof. intros H (j & Hj & Hg). specialize (H j Hj). lia. Qed.

(** ** Raw code length table *)

Lemma raw_table_size_loop_spec (len : array) N : forall fuel i, 4 <= i -> i - 4 <= Z.of_nat fuel ->
  (forall j, i <= j < N -> len (codelen_sym_idx j) = 0) ->
  let R := raw_table_size_loop len fuel i in
  4 <= R <= i /\ (forall j, R <= j < N -> len (codelen_sym_idx j) = 0) /\
  (R > 4 -> len (codelen_sym_idx (R - 1)) <> 0).
Proof.
  induction fuel as [|f IH]; intros i Hi Hf Hz; cbn [raw_table_size_loop]; cbv zeta.
  - split; [lia|]. split; [exact Hz|lia].
  - destruct ((i >? 4) && (len (codelen_sym_idx (i - 1)) =? 0)) eqn:C.
    + apply andb_true_iff in C as [C1 C2]. apply Z.gtb_lt in C1. apply Z.eqb_eq in C2.
      destruct (IH (i - 1)) as (A & B & D); [lia|lia| |].
      * intros j Hj. destruct (Z.eq_dec j (i - 1)) as [->|Hne]; [exact C2|]. apply Hz. lia.
      * split; [lia|auto].
    + split; [lia|]. split; [exact Hz|]. intros Hg.
      apply andb_false_iff in C as [C|C]; [rewrite Z.gtb_ltb in C; apply Z.ltb_ge in C; lia|]. apply Z.eqb_neq in C. exact C.
Qed.

Lemma raw_table_loop_spec e nLenBits nWrite : forall fuel i w out,
  0 <= nOutOffset w <= nMaxOutDataOffset w ->
  let '(r, w', out') := raw_table_loop e nLenBits nWrite fuel i w out in
  r = 0 /\ 0 <= nOutOffset w' <= nMaxOutDataOffset w' /\
  (nLenBits <= 16 -> bit_position w' = bit_position w + Z.max 0 (Z.min (Z.of_nat fuel) (nWrite - i)) * nLenBits) /\
  (writer_inv w -> 0 <= nLenBits <= 16 ->
   bit_position w + Z.max 0 (Z.min (Z.of_nat fuel) (nWrite - i)) * nLenBits <= 8 * nMaxOutDataOffset w + 7 ->
   writer_inv w').
Proof.
  induction fuel as [|f IH]; intros i w out Ho; cbn [raw_table_loop].
  - split; [reflexivity|]. split; [exact Ho|]. split; [intros; lia|auto].
  - destruct (Z.ltb_spec i nWrite) as [Hi|Hi].
    + destruct (zultra_bitwriter_put_bits w out _ nLenBits) as [[r1 w1] out1] eqn:E.
      pose proof E as E'. apply put_bits_bitpos in E' as (Hm & Ho1 & Hmx & Hb).
      assert (Hg : zultra_bitwriter_get_offset w1 = nOutOffset w1).
      { unfold zultra_bitwriter_get_offset. rewrite (proj2 (Z.leb_le _ _)) by lia. reflexivity. }
      rewrite Hg, (proj2 (Z.ltb_ge _ _)) by lia.
      specialize (IH (i + 1) w1 out1 ltac:(lia)).
      destruct (raw_table_loop e nLenBits nWrite f (i + 1) w1 out1) as [[r w'] out'].
      destruct IH as (Hr & Ho' & Hb' & Hi').
      split; [exact Hr|]. split; [exact Ho'|]. split.
      * intros Hn. rewrite Hb', Hb by lia. nia.
      * intros Hw Hn Hroom. apply Hi'; [| |specialize (Hb ltac:(lia)); nia].
        -- pose proof E as E2. apply put_bits_room in E2 as [_ ?]; [assumption|assumption|lia|nia].
        -- lia.
    + split; [reflexivity|]. split; [exact Ho|]. split; [intros; nia|auto].
Qed.

Ltac bounds_by_cases :=
  intros; cbv beta; repeat match goal with |- context [if ?c then _ else _] => destruct c end; lia.

(** The RFC 1951 code length round trip: from a bit writer whose offset
    lies within the buffer, with code lengths 0..15, the writer of the
    run-length-encoded lengths returns 0 for every mask of enabled repeat
    codes, and what it writes is a sequence of code length symbols and
    extra bits from which an RFC 1951 (3.2.7) inflater reads back exactly
    the [n] lengths. *)
Theorem write_var_lengths_round_trip e n cl mask w out :
  0 <= nOutOffset w <= nMaxOutDataOffset w ->
  (forall j, 0 <= j < n -> 0 <= cl j <= 15) ->
  exists t, zultra_huffman_encoder_write_var_lengths e n cl mask w out =
              (0, fst (replay (write_code_action e) write_bits_action t (w, out)),
                  snd (replay (write_code_action e) write_bits_action t (w, out))) /\
            rfc1951_read_code_lengths t [] = Some (map cl (zseq 0 (Z.to_nat n))).
Proof.
  intros Ho Hcl. destruct (writes_trace_result e n cl mask w out Ho) as (r & t & E & _ & H1 & H2 & H3).
  assert (Hr : r = 0).
  { destruct H2 as [->| ->]; [reflexivity|]. exfalso. apply (no_long_lengths cl n); [intros j Hj; apply Hcl, Hj|].
    apply H1. reflexivity. }
  subst r. exists t. split; [exact E|]. apply H3; [reflexivity|]. intros j Hj. apply Hcl, Hj.
Qed.

Lemma write_var_lengths_round_trip_witness :
  exists t, zultra_huffman_encoder_write_var_lengths
              (mkEncoder 19 7 (fun _ => 0) (fun _ => 0) (fun _ => 5)) 50
              (fun j => if j <? 10 then 8 else if j <? 40 then 0 else 5) 31
              (mkBitWriter 0 0 0 100) (fun _ => 0) =
              (0, fst (replay (write_code_action (mkEncoder 19 7 (fun _ => 0) (fun _ => 0) (fun _ => 5)))
                         write_bits_action t (mkBitWriter 0 0 0 100, fun _ => 0)),
                  snd (replay (write_code_action (mkEncoder 19 7 (fun _ => 0) (fun _ => 0) (fun _ => 5)))
                         write_bits_action t (mkBitWriter 0 0 0 100, fun _ => 0))) /\
            rfc1951_read_code_lengths t []
            = Some (map (fun j => if j <? 10 then 8 else if j <? 40 then 0 else 5) (zseq 0 (Z.to_nat 50))).
Proof.
  apply write_var_lengths_round_trip; [cbn; lia|bounds_by_cases].
Defined.

(** The result of [zultra_huffman_encoder_write_var_lengths] from a bit
    writer whose offset lies within the buffer is -1 exactly when one of
    the lengths exceeds 15, and 0 otherwise: it never reports a full
    output buffer, as the offset it checks never passes the maximum. *)
Theorem write_var_lengths_result e n cl mask w out :
  0 <= nOutOffset w <= nMaxOutDataOffset w ->
  (fst (fst (zultra_huffman_encoder_write_var_lengths e n cl mask w out)) = -1 <->
   exists j, 0 <= j < n /\ cl j > 15) /\
  (fst (fst (zultra_huffman_encoder_write_var_lengths e n cl mask w out)) = 0 \/
   fst (fst (zultra_huffman_encoder_write_var_lengths e n cl mask w out)) = -1).
Proof.
  intros Ho. destruct (writes_trace_result e n cl mask w out Ho) as (r & t & E & _ & H1 & H2 & _).
  rewrite E. cbn [fst]. auto.
Qed.

Lemma write_var_lengths_result_witness :
  (fst (fst (zultra_huffman_encoder_write_var_lengths
               (mkEncoder 19 7 (fun _ => 0) (fun _ => 0) (fun _ => 5)) 3
               (fun j => if j =? 1 then 16 else 4) 31 (mkBitWriter 0 0 0 0) (fun _ => 0))) = -1 <->
   exists j, 0 <= j < 3 /\ (fun j => if j =? 1 then 16 else 4) j > 15) /\
  (fst (fst (zultra_huffman_encoder_write_var_lengths
               (mkEncoder 19 7 (fun _ => 0) (fun _ => 0) (fun _ => 5)) 3
               (fun j => if j =? 1 then 16 else 4) 31 (mkBitWriter 0 0 0 0) (fun _ => 0))) = 0 \/
   fst (fst (zultra_huffman_encoder_write_var_lengths
               (mkEncoder 19 7 (fun _ => 0) (fun _ => 0) (fun _ => 5)) 3
               (fun j => if j =? 1 then 16 else 4) 31 (mkBitWriter 0 0 0 0) (fun _ => 0))) = -1).
Proof. apply write_var_lengths_result. cbn. lia. Defined.

(** The three run-length passes agree: for lengths up to 15, the counts
    [zultra_huffman_encoder_update_var_lengths_entropy] adds are, symbol
    by symbol, the number of times
    [zultra_huffman_encoder_write_var_lengths] (with the same mask)
    writes that code length symbol, and
    [zultra_huffman_encoder_get_var_lengths_size] is the number of bits
    of the codewords and extra bits it writes. *)
Theorem var_lengths_passes_agree e T n cl mask w out :
  0 <= nOutOffset w <= nMaxOutDataOffset w ->
  (forall j, 0 <= j < n -> cl j <= 15) ->
  exists t, zultra_huffman_encoder_write_var_lengths e n cl mask w out =
              (0, fst (replay (write_code_action e) write_bits_action t (w, out)),
                  snd (replay (write_code_action e) write_bits_action t (w, out))) /\
            (forall s, nEntropy (zultra_huffman_encoder_update_var_lengths_entropy T n cl mask) s
                       = nEntropy T s + code_count s t) /\
            zultra_huffman_encoder_get_var_lengths_size e n cl mask = tokens_bits e t.
Proof.
  intros Ho Hcl. destruct (writes_trace_result e n cl mask w out Ho) as (r & t & E & Et & H1 & H2 & _).
  assert (Hr : r = 0).
  { destruct H2 as [->| ->]; [reflexivity|]. exfalso. apply (no_long_lengths cl n Hcl). apply H1. reflexivity. }
  subst r. exists t. split; [exact E|]. split.
  - intros s. rewrite (update_trace T n cl mask Hcl s), Et. reflexivity.
  - rewrite (size_trace e n cl mask Hcl), Et. reflexivity.
Qed.

Lemma var_lengths_passes_agree_witness :
  exists t, zultra_huffman_encoder_write_var_lengths
              (mkEncoder 19 7 (fun _ => 0) (fun _ => 0) (fun _ => 5)) 50
              (fun j => if j <? 10 then 8 else if j <? 40 then 0 else 5) 7
              (mkBitWriter 0 0 0 100) (fun _ => 0) =
              (0, fst (replay (write_code_action (mkEncoder 19 7 (fun _ => 0) (fun _ => 0) (fun _ => 5)))
                         write_bits_action t (mkBitWriter 0 0 0 100, fun _ => 0)),
                  snd (replay (write_code_action (mkEncoder 19 7 (fun _ => 0) (fun _ => 0) (fun _ => 5)))
                         write_bits_action t (mkBitWriter 0 0 0 100, fun _ => 0))) /\
            (forall s, nEntropy (zultra_huffman_encoder_update_var_lengths_entropy
                                   (mkEncoder 19 7 (fun _ => 0) (fun _ => 0) (fun _ => 0)) 50
                                   (fun j => if j <? 10 then 8 else if j <? 40 then 0 else 5) 7) s
                       = nEntropy (mkEncoder 19 7 (fun _ => 0) (fun _ => 0) (fun _ => 0)) s + code_count s t) /\
            zultra_huffman_encoder_get_var_lengths_size
              (mkEncoder 19 7 (fun _ => 0) (fun _ => 0) (fun _ => 5)) 50
              (fun j => if j <? 10 then 8 else if j <? 40 then 0 else 5) 7
            = tokens_bits (mkEncoder 19 7 (fun _ => 0) (fun _ => 0) (fun _ => 5)) t.
Proof.
  apply var_lengths_passes_agree; [cbn; lia|bounds_by_cases].
Defined.

(** Bit accounting of [zultra_huffman_encoder_write_var_lengths]: with
    a tables encoder covering the 19 code length symbols with codeword
    lengths up to 16, lengths 0..15, and room in the buffer for
    [zultra_huffman_encoder_get_var_lengths_size] more bits, the writer
    returns 0, keeps the bit writer invariant, and advances the bit
    position (8 * offset + pending bits) by exactly that size. *)
Theorem write_var_lengths_bit_count e n cl mask w out :
  writer_inv w -> 0 <= nOutOffset w -> 19 <= nSymbols e ->
  (forall s, 0 <= s <= 18 -> 0 <= nCodeLength e s <= 16) ->
  (forall j, 0 <= j < n -> 0 <= cl j <= 15) ->
  bit_position w + zultra_huffman_encoder_get_var_lengths_size e n cl mask <= 8 * nMaxOutDataOffset w + 7 ->
  let '(r, w', _) := zultra_huffman_encoder_write_var_lengths e n cl mask w out in
  r = 0 /\ writer_inv w' /\
  bit_position w' = bit_position w + zultra_huffman_encoder_get_var_lengths_size e n cl mask.
Proof.
  intros Hw Ho0 HN Hlen Hcl Hroom.
  assert (Ho : 0 <= nOutOffset w <= nMaxOutDataOffset w) by (destruct Hw; lia).
  destruct (writes_trace_result e n cl mask w out Ho) as (r & t & E & Et & H1 & H2 & H3).
  assert (Hr : r = 0).
  { destruct H2 as [->| ->]; [reflexivity|]. exfalso. apply (no_long_lengths cl n); [intros j Hj; apply Hcl, Hj|].
    apply H1. reflexivity. }
  subst r. specialize (H3 eq_refl ltac:(intros j Hj; apply Hcl, Hj)).
  rewrite (size_trace e n cl mask ltac:(intros j Hj; apply Hcl, Hj)), Et in Hroom |- *. cbn [snd] in Hroom |- *.
  apply read_tokens_small with (N := List.length t) in H3; [|lia].
  destruct (replay_write e t (w, out)) as [Hw' Hb]; [exact Hw| |exact Hroom|].
  - eapply Forall_impl; [|exact H3]. intros [s|v k] Hs; [|lia]. split; [lia|apply Hlen; lia].
  - rewrite E. split; [reflexivity|]. split; [exact Hw'|exact Hb].
Qed.

Lemma write_var_lengths_bit_count_witness :
  let '(r, w', _) := zultra_huffman_encoder_write_var_lengths
                        (mkEncoder 19 7 (fun _ => 0) (fun _ => 0) (fun _ => 5)) 50
                        (fun j => if j <? 10 then 8 else if j <? 40 then 0 else 5) 31
                        (mkBitWriter 3 0 0 100) (fun _ => 0) in
  r = 0 /\ writer_inv w' /\
  bit_position w' = bit_position (mkBitWriter 3 0 0 100)
                    + zultra_huffman_encoder_get_var_lengths_size
                        (mkEncoder 19 7 (fun _ => 0) (fun _ => 0) (fun _ => 5)) 50
                        (fun j => if j <? 10 then 8 else if j <? 40 then 0 else 5) 31.
Proof.
  apply write_var_lengths_bit_count; [unfold writer_inv; cbn; lia|cbn; lia|cbn; lia|cbn; lia|bounds_by_cases|].
  vm_compute. discriminate.
Defined.

(** [zultra_huffman_encoder_get_raw_table_size] on an encoder of at
    least 4 symbols returns the number [i] of raw code lengths to send:
    at least 4 and at most the number of symbols, with every length
    after position [i] in the RFC 1951 order
    ([zultra_huffman_encoder_codelen_sym_idx]) zero and, above 4, a
    nonzero length at position [i - 1]. *)
Theorem get_raw_table_size_spec e : 4 <= nSymbols e ->
  let i := zultra_huffman_encoder_get_raw_table_size e in
  4 <= i <= nSymbols e /\
  (forall j, i <= j < nSymbols e -> nCodeLength e (codelen_sym_idx j) = 0) /\
  (i > 4 -> nCodeLength e (codelen_sym_idx (i - 1)) <> 0).
Proof.
  intros HN. unfold zultra_huffman_encoder_get_raw_table_size.
  apply raw_table_size_loop_spec; [lia|lia|intros; lia].
Qed.

Lemma get_raw_table_size_spec_witness :
  let i := zultra_huffman_encoder_get_raw_table_size
             (mkEncoder 19 7 (fun _ => 0) (fun _ => 0) (fun s => if s =? 1 then 0 else 3)) in
  4 <= i <= 19 /\
  (forall j, i <= j < 19 ->
     (fun s => if s =? 1 then 0 else 3) (codelen_sym_idx j) = 0) /\
  (i > 4 -> (fun s => if s =? 1 then 0 else 3) (codelen_sym_idx (i - 1)) <> 0).
Proof. apply (get_raw_table_size_spec (mkEncoder 19 7 (fun _ => 0) (fun _ => 0) (fun s => if s =? 1 then 0 else 3))). cbn. lia. Defined.

(** [zultra_huffman_encoder_write_raw_table] from a bit writer whose
    offset lies within the buffer returns -1 exactly when the count of
    lengths to write is below 4 or above the number of symbols, and
    never reports a full buffer; with room for them, the count's lengths
    take [nLenBits] bits each: the bit position advances by their
    product and the writer invariant is kept. *)
Theorem write_raw_table_result e nLenBits nWriteSymbols w out :
  0 <= nOutOffset w <= nMaxOutDataOffset w ->
  let '(r, w', _) := zultra_huffman_encoder_write_raw_table e nLenBits nWriteSymbols w out in
  (r = -1 <-> nWriteSymbols < 4 \/ nWriteSymbols > nSymbols e) /\ (r = 0 \/ r = -1) /\
  (4 <= nWriteSymbols <= nSymbols e -> writer_inv w -> 0 <= nLenBits <= 16 ->
   bit_position w + nWriteSymbols * nLenBits <= 8 * nMaxOutDataOffset w + 7 ->
   writer_inv w' /\ bit_position w' = bit_position w + nWriteSymbols * nLenBits).
Proof.
  intros Ho. unfold zultra_huffman_encoder_write_raw_table.
  destruct ((nWriteSymbols <? 4) || (nWriteSymbols >? nSymbols e)) eqn:C.
  - apply orb_true_iff in C. split; [split; [intros _|intros _; reflexivity]|].
    + destruct C as [C|C]; [apply Z.ltb_lt in C|apply Z.gtb_lt in C]; lia.
    + split; [auto|]. intros Hb. destruct C as [C|C]; [apply Z.ltb_lt in C|apply Z.gtb_lt in C]; lia.
  - apply orb_false_iff in C as [C1 C2]. apply Z.ltb_ge in C1. rewrite Z.gtb_ltb in C2. apply Z.ltb_ge in C2.
    assert (Hg : zultra_bitwriter_get_offset w = nOutOffset w).
    { unfold zultra_bitwriter_get_offset. rewrite (proj2 (Z.leb_le _ _)) by lia. reflexivity. }
    rewrite Hg, (proj2 (Z.ltb_ge _ _)) by lia.
    pose proof (raw_table_loop_spec e nLenBits nWriteSymbols (Z.to_nat nWriteSymbols) 0 w out Ho) as L.
    destruct (raw_table_loop e nLenBits nWriteSymbols (Z.to_nat nWriteSymbols) 0 w out) as [[r w'] out'].
    destruct L as (-> & _ & Hb & Hi).
    replace (Z.max 0 (Z.min (Z.of_nat (Z.to_nat nWriteSymbols)) (nWriteSymbols - 0))) with nWriteSymbols
      in Hb, Hi by lia.
    split; [split; [discriminate|lia]|]. split; [auto|].
    intros _ Hw Hn Hroom. split; [apply Hi; auto|apply Hb; lia].
Qed.

Lemma write_raw_table_result_witness :
  let '(r, w', _) := zultra_huffman_encoder_write_raw_table
                        (mkEncoder 19 7 (fun _ => 0) (fun _ => 0) (fun _ => 3)) 3 15
                        (mkBitWriter 2 0 1 20) (fun _ => 0) in
  (r = -1 <-> 15 < 4 \/ 15 > 19) /\ (r = 0 \/ r = -1) /\
  (4 <= 15 <= 19 -> writer_inv (mkBitWriter 2 0 1 20) -> 0 <= 3 <= 16 ->
   bit_position (mkBitWriter 2 0 1 20) + 15 * 3 <= 8 * 20 + 7 ->
   writer_inv w' /\ bit_position w' = bit_position (mkBitWriter 2 0 1 20) + 15 * 3).
Proof.
  apply (write_raw_table_result (mkEncoder 19 7 (fun _ => 0) (fun _ => 0) (fun _ => 3)) 3 15
           (mkBitWriter 2 0 1 20) (fun _ => 0)). cbn. lia.
Defined.

End CodeLengthsProofs2.

Module CanonicalProofs.
Import BitWriter Huffman CodeLengths HuffmanProofs.

Lemma zsum_add f g xs : zsum (fun x => f x + g x) xs = zsum f xs + zsum g xs.
Proof. unfold zsum. induction xs as [|x xs IH]; cbn; lia. Qed.

Lemma rev_word_check :
  forallb (fun l => forallb (fun w => rev_word w l =? bit_reverse (Z.to_nat l) w) (zseq 0 (Z.to_nat (2 ^ l))))
          (zseq 0 17) = true.
Proof. vm_compute. reflexivity. Qed.

(** The codeword reversal of the builders is [bit_reverse]. *)
Lemma rev_word_bit_reverse w l : 0 <= l <= 16 -> 0 <= w < 2 ^ l -> rev_word w l = bit_reverse (Z.to_nat l) w.
Proof.
  intros Hl Hw. pose proof rev_word_check as H. rewrite forallb_forall in H.
  specialize (H l (proj2 (In_zseq l 0 17) ltac:(lia))). rewrite forallb_forall in H.
  specialize (H w (proj2 (In_zseq w 0 (Z.to_nat (2 ^ l))) ltac:(rewrite Z2Nat.id by lia; lia))).
  apply Z.eqb_eq in H. exact H.
Qed.

Lemma zsum_zseq_snoc f i : 0 <= i ->
  zsum f (zseq 0 (Z.to_nat (i + 1))) = zsum f (zseq 0 (Z.to_nat i)) + f i.
Proof.
  intros Hi. replace (Z.to_nat (i + 1)) with (S (Z.to_nat i)) by lia.
  rewrite zseq_snoc, zsum_app. cbn. rewrite Z2Nat.id by lia. lia.
Qed.

Lemma zsum_zseq_mono f i j : (forall x, 0 <= f x) -> 0 <= i <= j ->
  zsum f (zseq 0 (Z.to_nat i)) <= zsum f (zseq 0 (Z.to_nat j)).
Proof.
  intros Hf Hij. replace (Z.to_nat j) with (Z.to_nat i + Z.to_nat (j - i))%nat by lia.
  rewrite zseq_app, zsum_app. pose proof (zsum_nonneg f (zseq (0 + Z.of_nat (Z.to_nat i)) (Z.to_nat (j - i))) (fun x _ => Hf x)).
  lia.
Qed.

(** ** The canonical codeword issue loop *)
Section Issue.
Variables (len q : array) (m : Z).
Hypothesis Hlen : forall j, 0 <= j < m -> 1 <= len (q j) <= 16.
Hypothesis Hinj : forall i j, 0 <= i < m -> 0 <= j < m -> q i = q j -> i = j.
Hypothesis Hsort : forall j, 0 <= j < m - 1 -> len (q j) <= len (q (j + 1)).
Hypothesis Hkraft : zsum (fun k => 2 ^ (16 - len (q k))) (zseq 0 (Z.to_nat m)) <= 2 ^ 16.

Lemma kprefix_room j : 0 <= j < m ->
  zsum (fun k => 2 ^ (16 - len (q k))) (zseq 0 (Z.to_nat j)) + 2 ^ (16 - len (q j)) <= 2 ^ 16.
Proof.
  intros Hj. rewrite <- (zsum_zseq_snoc (fun k => 2 ^ (16 - len (q k))) j) by lia.
  pose proof (zsum_zseq_mono (fun k => 2 ^ (16 - len (q k))) (j + 1) m
                ltac:(intros; apply Z.pow_nonneg; lia) ltac:(lia)). lia.
Qed.

Lemma issue_spec : forall fuel i w cw, Z.of_nat fuel = m - i -> 0 <= i < m -> 0 <= w ->
  w * 2 ^ (16 - len (q i)) = zsum (fun k => 2 ^ (16 - len (q k))) (zseq 0 (Z.to_nat i)) ->
  let r := issue_codewords len q m fuel i w (len (q i)) cw in
  (forall j, i <= j < m -> exists W, 0 <= W /\
       W * 2 ^ (16 - len (q j)) = zsum (fun k => 2 ^ (16 - len (q k))) (zseq 0 (Z.to_nat j)) /\
       r (q j) = rev_word W (len (q j))) /\
  (forall x, (forall j, i <= j < m -> q j <> x) -> r x = cw x).
Proof.
  induction fuel as [|f IH]; intros i w cw Hf Hi Hw HK; cbn zeta; [lia|].
  cbn [issue_codewords]. set (cw1 := upd cw (q i) (rev_word w (len (q i)))).
  destruct (Z.ltb_spec (i + 1) m) as [Hi1|Hi1].
  - set (d := len (q (i + 1)) - len (q i)).
    assert (Hd : 0 <= d) by (unfold d; pose proof (Hsort i ltac:(lia)); lia).
    pose proof (Hlen i ltac:(lia)) as Hl0. pose proof (Hlen (i + 1) ltac:(lia)) as Hl1.
    assert (Hsplit : 2 ^ (16 - len (q i)) = 2 ^ d * 2 ^ (16 - len (q (i + 1))))
      by (rewrite <- Z.pow_add_r by lia; f_equal; unfold d; lia).
    assert (HK1 : (w + 1) * 2 ^ d * 2 ^ (16 - len (q (i + 1)))
                  = zsum (fun k => 2 ^ (16 - len (q k))) (zseq 0 (Z.to_nat (i + 1)))).
    { rewrite zsum_zseq_snoc by lia. rewrite <- HK, <- Z.mul_assoc, <- Hsplit. lia. }
    assert (Hroom : (w + 1) * 2 ^ d * 2 ^ (16 - len (q (i + 1))) < 2 ^ 16).
    { rewrite HK1. pose proof (kprefix_room (i + 1) ltac:(lia)).
      pose proof (Z.pow_pos_nonneg 2 (16 - len (q (i + 1))) ltac:(lia) ltac:(lia)). lia. }
    assert (Hsm : 0 <= (w + 1) * 2 ^ d < 2 ^ 32).
    { pose proof (Z.pow_pos_nonneg 2 d ltac:(lia) Hd).
      pose proof (Z.pow_pos_nonneg 2 (16 - len (q (i + 1))) ltac:(lia) ltac:(lia)). split; [nia|].
      assert ((w + 1) * 2 ^ d < 2 ^ 16) by nia. change (2 ^ 32) with (2 ^ 16 * 2 ^ 16). nia. }
    assert (Hw' : u32 (Z.shiftl (w + 1) d) = (w + 1) * 2 ^ d).
    { unfold u32. rewrite Z.shiftl_mul_pow2 by exact Hd. apply Z.mod_small. exact Hsm. }
    fold d. rewrite Hw'.
    destruct (IH (i + 1) ((w + 1) * 2 ^ d) cw1) as [A B]; [lia|lia|lia|exact HK1|].
    split.
    + intros j Hj. destruct (Z.eq_dec j i) as [->|Hne].
      * exists w. split; [exact Hw|]. split; [exact HK|]. rewrite B.
        -- unfold cw1. apply upd_eq.
        -- intros j' Hj' He. apply Hinj in He; lia.
      * apply A. lia.
    + intros x Hx. rewrite B by (intros j Hj; apply Hx; lia). unfold cw1. apply upd_neq.
      intros ->. apply (Hx i); [lia|reflexivity].
  - assert (f = O) by lia. subst f. cbn [issue_codewords]. split.
    + intros j Hj. replace j with i by lia. exists w. split; [exact Hw|]. split; [exact HK|].
      unfold cw1. apply upd_eq.
    + intros x Hx. unfold cw1. apply upd_neq. intros ->. apply (Hx i); [lia|reflexivity].
Qed.

Lemma issue_words cw : 1 <= m ->
  forall j, 0 <= j < m -> exists W, 0 <= W < 2 ^ len (q j) /\
    W * 2 ^ (16 - len (q j)) = zsum (fun k => 2 ^ (16 - len (q k))) (zseq 0 (Z.to_nat j)) /\
    issue_codewords len q m (Z.to_nat m) 0 0 (len (q 0)) cw (q j) = bit_reverse (Z.to_nat (len (q j))) W.
Proof.
  intros Hm j Hj.
  destruct (issue_spec (Z.to_nat m) 0 0 cw ltac:(lia) ltac:(lia) ltac:(lia) ltac:(cbn; lia)) as [A _].
  destruct (A j ltac:(lia)) as (W & HW & HK & Hr). exists W.
  pose proof (Hlen j Hj) as Hl. pose proof (kprefix_room j Hj) as Hroom.
  assert (Hb : W < 2 ^ len (q j)).
  { assert (E : 2 ^ 16 = 2 ^ len (q j) * 2 ^ (16 - len (q j))) by (rewrite <- Z.pow_add_r by lia; f_equal; lia).
    pose proof (Z.pow_pos_nonneg 2 (16 - len (q j)) ltac:(lia) ltac:(lia)). nia. }
  split; [lia|]. split; [exact HK|]. rewrite Hr. apply rev_word_bit_reverse; lia.
Qed.

End Issue.

Lemma NoDup_map_zseq_of_inj (q : array) : forall n l,
  (forall i j, l <= i < l + Z.of_nat n -> l <= j < l + Z.of_nat n -> q i = q j -> i = j) ->
  NoDup (map q (zseq l n)).
Proof.
  induction n as [|n IH]; intros l Hi; cbn [zseq map]; constructor.
  - intros Hin. apply in_map_zseq in Hin as (x & Hx & He). apply Hi in He; lia.
  - apply IH. intros i j Hi' Hj' He. apply Hi; [lia|lia|exact He].
Qed.

Ltac zbool := repeat match goal with
  | |- context [?a <=? ?b] => destruct (Z.leb_spec a b)
  | |- context [?a <? ?b] => destruct (Z.ltb_spec a b)
  | |- context [?a =? ?b] => destruct (Z.eqb_spec a b)
  end; cbn [andb orb negb]; try lia.

Lemma next_code_scaled (len : array) N : forall b, (b <= 16)%nat ->
  rfc1951_next_code len N b * 2 ^ (16 - Z.of_nat b)
  = zsum (fun t => if (1 <=? len t) && (len t <? Z.of_nat b) then 2 ^ (16 - len t) else 0)
         (zseq 0 (Z.to_nat N)).
Proof.
  induction b as [|b IH]; intros Hb.
  - cbn [rfc1951_next_code]. symmetry. apply zsum_zero_on. intros t _. zbool.
  - cbn [rfc1951_next_code]. specialize (IH ltac:(lia)).
    assert (E : 2 * 2 ^ (16 - Z.of_nat (S b)) = 2 ^ (16 - Z.of_nat b)).
    { rewrite <- (Z.pow_1_r 2) at 1. rewrite <- Z.pow_add_r by lia. f_equal. lia. }
    transitivity (rfc1951_next_code len N b * 2 ^ (16 - Z.of_nat b)
      + (if Z.of_nat b =? 0 then 0 else rfc1951_bl_count len N (Z.of_nat b)) * 2 ^ (16 - Z.of_nat b)).
    { rewrite <- E. lia. }
    rewrite IH. destruct (Z.eqb_spec (Z.of_nat b) 0) as [Hb0|Hb0].
    + rewrite Z.mul_0_l, Z.add_0_r. apply zsum_ext_in. intros t _.
      rewrite Hb0. replace (Z.of_nat (S b)) with 1 by lia. zbool.
    + unfold rfc1951_bl_count. rewrite Z.mul_comm, <- zsum_scale, <- zsum_add.
      apply zsum_ext_in. intros t _.
      destruct (Z.eqb_spec (len t) (Z.of_nat b)) as [Ht|Ht].
      * rewrite Ht. zbool.
      * zbool.
Qed.

(** ** Canonical codes: the issue loop gives the RFC 1951 codes *)
Section Canonical.
Variables (len q : array) (m N : Z).
Hypothesis Hm : 1 <= m.
Hypothesis Hq : forall j, 0 <= j < m -> 0 <= q j < N.
Hypothesis Hlen : forall j, 0 <= j < m -> 1 <= len (q j) <= 16.
Hypothesis Hinj : forall i j, 0 <= i < m -> 0 <= j < m -> q i = q j -> i = j.
Hypothesis Hcover : forall s, 0 <= s < N -> len s <> 0 -> exists j, 0 <= j < m /\ q j = s.
Hypothesis Hadj : forall j, 0 <= j < m - 1 -> qsort_gt len (q j) (q (j + 1)) = false.
Hypothesis Hkraft : kraft_sum 16 len N <= 2 ^ 16.

Let key t := len t * N + t.

Lemma len_range s : 0 <= s < N -> len s = 0 \/ 1 <= len s <= 16.
Proof.
  intros Hs. destruct (Z.eq_dec (len s) 0) as [|Hn]; [now left|right].
  destruct (Hcover s Hs Hn) as (j & Hj & <-). now apply Hlen.
Qed.

Lemma adj_key j : 0 <= j < m - 1 -> key (q j) < key (q (j + 1)).
Proof.
  intros Hj. pose proof (Hadj j Hj) as H. unfold qsort_gt in H.
  apply orb_false_iff in H as [H1 H2]. rewrite Z.gtb_ltb, Z.ltb_ge in H1.
  pose proof (Hq j ltac:(lia)). pose proof (Hq (j + 1) ltac:(lia)).
  assert (Hne : q j <> q (j + 1)) by (intros He; apply Hinj in He; lia).
  unfold key. destruct (Z.eq_dec (len (q j)) (len (q (j + 1)))) as [He|Hl].
  - rewrite He in H2 |- *. rewrite Z.eqb_refl in H2. cbn in H2. rewrite Z.gtb_ltb, Z.ltb_ge in H2. lia.
  - assert (len (q j) + 1 <= len (q (j + 1))) by lia. nia.
Qed.

Lemma adj_len j : 0 <= j < m - 1 -> len (q j) <= len (q (j + 1)).
Proof.
  intros Hj. pose proof (Hadj j Hj) as H. unfold qsort_gt in H.
  apply orb_false_iff in H as [H1 _]. rewrite Z.gtb_ltb, Z.ltb_ge in H1. lia.
Qed.

Lemma key_strict j j' : 0 <= j -> j < j' -> j' < m -> key (q j) < key (q j').
Proof.
  intros Hj Hjj Hj'.
  pose proof (sorted_from_adj (fun k => key (q k) - k) m
    ltac:(intros k Hk; pose proof (adj_key k Hk); cbv beta; lia) j j' ltac:(lia)). cbn beta in H. lia.
Qed.

Lemma key_lex t s : 0 <= t < N -> 0 <= s < N -> 0 <= len t -> 0 <= len s ->
  (key t <? key s) = (len t <? len s) || ((len t =? len s) && (t <? s)).
Proof.
  intros Ht Hs Hlt Hls. unfold key.
  destruct (Z.ltb_spec (len t) (len s)) as [Hl|Hl]; cbn [orb].
  - apply Z.ltb_lt. assert (len t + 1 <= len s) by lia. nia.
  - destruct (Z.eqb_spec (len t) (len s)) as [He|He]; cbn [andb].
    + rewrite He. destruct (Z.ltb_spec t s), (Z.ltb_spec (len s * N + t) (len s * N + s)); lia.
    + apply Z.ltb_ge. assert (len s + 1 <= len t) by lia. nia.
Qed.

Lemma prefix_perm (P : Z -> bool) j : 0 <= j <= m ->
  (forall x, In x (map q (zseq 0 (Z.to_nat j))) <-> (0 <= x < N /\ P x = true)) ->
  Permutation (map q (zseq 0 (Z.to_nat j))) (filter P (zseq 0 (Z.to_nat N))).
Proof.
  intros Hj Hx. apply NoDup_Permutation.
  - apply NoDup_map_zseq_of_inj. intros a b Ha Hb. apply Hinj; lia.
  - apply NoDup_filter_zseq.
  - intros x. rewrite Hx, In_filter_zseq. assert (0 <= N) by (pose proof (Hq 0 ltac:(lia)); lia).
    rewrite Z2Nat.id, Z.add_0_l by lia. reflexivity.
Qed.

Lemma prefix_sum (P : Z -> bool) j : 0 <= j <= m ->
  (forall x, In x (map q (zseq 0 (Z.to_nat j))) <-> (0 <= x < N /\ P x = true)) ->
  zsum (fun k => 2 ^ (16 - len (q k))) (zseq 0 (Z.to_nat j))
  = zsum (fun t => if P t then 2 ^ (16 - len t) else 0) (zseq 0 (Z.to_nat N)).
Proof.
  intros Hj Hx. rewrite (zsum_enumeration P _ (map q (zseq 0 (Z.to_nat j))) (Z.to_nat N)).
  - rewrite zsum_map. apply zsum_ext_in. intros k Hk.
    assert (Hin : In (q k) (map q (zseq 0 (Z.to_nat j)))) by (apply in_map; exact Hk).
    apply Hx in Hin as [_ ->]. reflexivity.
  - apply prefix_perm; assumption.
  - intros s _ ->. reflexivity.
Qed.

Lemma kraft_prefix : zsum (fun k => 2 ^ (16 - len (q k))) (zseq 0 (Z.to_nat m)) = kraft_sum 16 len N.
Proof.
  rewrite (prefix_sum (fun t => negb (len t =? 0))).
  2: lia.
  2:{ intros x. split.
      - intros Hin. apply in_map_zseq in Hin as (k & Hk & ->).
        pose proof (Hq k ltac:(lia)). pose proof (Hlen k ltac:(lia)).
        split; [lia|]. apply negb_true_iff, Z.eqb_neq. lia.
      - intros [Hx Hp]. apply negb_true_iff, Z.eqb_neq in Hp.
        destruct (Hcover x Hx Hp) as (k & Hk & <-). apply in_map, In_zseq. lia. }
  unfold kraft_sum. apply zsum_ext_in. intros t _. destruct (len t =? 0); reflexivity.
Qed.

Lemma prefix_code j : 0 <= j < m ->
  zsum (fun k => 2 ^ (16 - len (q k))) (zseq 0 (Z.to_nat j))
  = rfc1951_code len N (q j) * 2 ^ (16 - len (q j)).
Proof.
  intros Hj. set (s := q j). pose proof (Hq j Hj) as Hs. pose proof (Hlen j Hj) as Hls. fold s in Hs, Hls.
  rewrite (prefix_sum (fun t => negb (len t =? 0) && (key t <? key s))).
  2: lia.
  2: { intros x. split.
       - intros Hin. apply in_map_zseq in Hin as (k & Hk & ->).
         pose proof (Hq k ltac:(lia)). pose proof (Hlen k ltac:(lia)).
         split; [lia|]. apply andb_true_iff. split; [apply negb_true_iff, Z.eqb_neq; lia|].
         apply Z.ltb_lt. apply key_strict; lia.
       - intros [Hx Hp]. apply andb_true_iff in Hp as [Hp Hk]. apply negb_true_iff, Z.eqb_neq in Hp.
         destruct (Hcover x Hx Hp) as (k & Hk' & <-). apply in_map, In_zseq.
         destruct (Z_lt_le_dec k j) as [Hkj|Hkj]; [lia|].
         apply Z.ltb_lt in Hk. destruct (Z.eq_dec k j) as [->|Hne]; [unfold s in Hk; lia|].
         pose proof (key_strict j k ltac:(lia) ltac:(lia) ltac:(lia)). unfold s in Hk. lia. }
  unfold rfc1951_code. rewrite Z.mul_add_distr_r.
  pose proof (next_code_scaled len N (Z.to_nat (len s)) ltac:(lia)) as NC.
  rewrite Z2Nat.id in NC by lia. rewrite NC. clear NC.
  rewrite Z.mul_comm, <- zsum_scale.
  assert (HN : Z.to_nat N = (Z.to_nat s + Z.to_nat (N - s))%nat) by lia.
  replace (zsum (fun x => 2 ^ (16 - len s) * (if len x =? len s then 1 else 0)) (zseq 0 (Z.to_nat s)))
    with (zsum (fun t => if (len t =? len s) && (t <? s) then 2 ^ (16 - len s) else 0) (zseq 0 (Z.to_nat N))).
  2:{ rewrite HN, zseq_app, zsum_app.
      rewrite (zsum_zero_on _ (zseq (0 + Z.of_nat (Z.to_nat s)) _)).
      - rewrite Z.add_0_r. apply zsum_ext_in. intros t Ht. apply In_zseq in Ht. zbool.
      - intros t Ht. apply In_zseq in Ht. zbool. }
  rewrite <- zsum_add. apply zsum_ext_in. intros t Ht. apply In_zseq in Ht.
  assert (Ht' : 0 <= t < N) by lia.
  destruct (len_range t Ht') as [H0|H1].
  - rewrite H0. zbool.
  - rewrite key_lex by lia. destruct (Z.eqb_spec (len t) (len s)) as [He|He].
    + rewrite He. zbool.
    + zbool.
Qed.

Lemma issue_canonical cw :
  let r := issue_codewords len q m (Z.to_nat m) 0 0 (len (q 0)) cw in
  (forall s, 0 <= s < N -> len s <> 0 -> r s = bit_reverse (Z.to_nat (len s)) (rfc1951_code len N s)) /\
  (forall x, (forall j, 0 <= j < m -> q j <> x) -> r x = cw x).
Proof.
  cbn zeta. split.
  - intros s Hs Hn. destruct (Hcover s Hs Hn) as (j & Hj & <-).
    destruct (issue_words len q m Hlen Hinj adj_len (ltac:(rewrite kraft_prefix; exact Hkraft)) cw Hm j Hj)
      as (W & HW & HK & Hr).
    rewrite Hr. f_equal. rewrite prefix_code in HK by exact Hj.
    pose proof (Hlen j Hj). pose proof (Z.pow_pos_nonneg 2 (16 - len (q j)) ltac:(lia) ltac:(lia)). nia.
  - apply (issue_spec len q m Hlen Hinj adj_len (ltac:(rewrite kraft_prefix; exact Hkraft))
             (Z.to_nat m) 0 0 cw); cbn; lia.
Qed.

End Canonical.

Lemma filter_all_true (xs : list Z) : filter (fun _ => true) xs = xs.
Proof. induction xs as [|x xs IH]; cbn; [reflexivity|now rewrite IH]. Qed.

Lemma estimate_code_word e : nCodeWord (snd (zultra_huffman_encoder_estimate_dynamic_codelens e)) = nCodeWord e.
Proof.
  unfold zultra_huffman_encoder_estimate_dynamic_codelens.
  destruct ((nSymbols e <? 0) || (nSymbols e >? MAX_SYMBOLS)); [reflexivity|].
  destruct (enum_symbols nonzero (nEntropy e) (Z.to_nat (nSymbols e)) 0 uninit 0) as [q m].
  destruct (m >? 1); reflexivity.
Qed.

(** An enumeration [q] of the symbols of [S] over [0..m-1]. *)
Lemma enumeration_facts (q : array) m N (P : Z -> bool) :
  0 <= m ->
  Permutation (filter P (zseq 0 (Z.to_nat N))) (map q (zseq 0 (Z.to_nat m))) ->
  (forall j, 0 <= j < m -> 0 <= q j < N /\ P (q j) = true) /\
  (forall i j, 0 <= i < m -> 0 <= j < m -> q i = q j -> i = j) /\
  (forall s, 0 <= s < N -> P s = true -> exists j, 0 <= j < m /\ q j = s).
Proof.
  intros Hm Hp. split; [|split].
  - intros j Hj. assert (Hin : In (q j) (map q (zseq 0 (Z.to_nat m)))) by (apply in_map, In_zseq; lia).
    apply (Permutation_in _ (Permutation_sym Hp)) in Hin. apply In_filter_zseq in Hin as [Hr HP].
    split; [lia|exact HP].
  - intros i j Hi Hj. apply (NoDup_map_zseq_inj q 0 (Z.to_nat m)); [|lia|lia].
    apply (Permutation_NoDup Hp), NoDup_filter_zseq.
  - intros s Hs HP. assert (Hin : In s (filter P (zseq 0 (Z.to_nat N)))) by (apply In_filter_zseq; split; [lia|exact HP]).
    apply (Permutation_in _ Hp) in Hin. apply in_map_zseq in Hin as (j & Hj & ->). exists j. split; [lia|reflexivity].
Qed.

(** [zultra_huffman_encoder_build_static_codewords] gives every symbol
    the RFC 1951 canonical code of its length, bit-reversed for the
    LSB-first writer, when every length is in [1..16] and the lengths
    satisfy the Kraft inequality; lengths and other codewords are kept. *)
Theorem build_static_codewords_canonical e :
  0 <= nSymbols e ->
  (forall s, 0 <= s < nSymbols e -> 1 <= nCodeLength e s <= 16) ->
  kraft_sum 16 (nCodeLength e) (nSymbols e) <= 2 ^ 16 ->
  let r := zultra_huffman_encoder_build_static_codewords e in
  fst r = 0 /\ nCodeLength (snd r) = nCodeLength e /\ nSymbols (snd r) = nSymbols e /\
  (forall s, 0 <= s < nSymbols e ->
     nCodeWord (snd r) s = bit_reverse (Z.to_nat (nCodeLength e s)) (rfc1951_code (nCodeLength e) (nSymbols e) s)) /\
  (forall s, ~ (0 <= s < nSymbols e) -> nCodeWord (snd r) s = nCodeWord e s).
Proof.
  intros HN Hl Hk. cbn zeta. unfold zultra_huffman_encoder_build_static_codewords.
  set (N := nSymbols e) in *. set (len := nCodeLength e) in *.
  pose proof (enum_symbols_spec (fun _ => true) len (Z.to_nat N) 0 uninit 0 ltac:(lia)) as [H1 [H2 _]].
  destruct (enum_symbols (fun _ => true) len (Z.to_nat N) 0 uninit 0) as [q0 m0] eqn:Eq. cbn [fst snd] in *.
  rewrite filter_all_true in H1, H2. rewrite zseq_length in H2. change (Z.to_nat 0) with O in H1. cbn [zseq map app] in H1.
  rewrite Z2Nat.id in H2 by lia. rewrite Z.add_0_l in H2. subst m0.
  destruct (N >? 0) eqn:EN.
  - apply Z.gtb_lt in EN. unfold zultra_huffman_encoder_qsort.
    pose proof (qsort_rec_spec len (Z.to_nat (N - 1 - 0 + 1)) q0 0 (N - 1) ltac:(lia)) as [_ [Q2 Q3]].
    set (q1 := qsort_rec len (Z.to_nat (N - 1 - 0 + 1)) q0 0 (N - 1)) in *.
    replace (N - 1 - 0 + 1) with N in Q2 by lia. rewrite H1 in Q2.
    assert (Q2' : Permutation (filter (fun _ => true) (zseq 0 (Z.to_nat N))) (map q1 (zseq 0 (Z.to_nat N))))
      by (rewrite filter_all_true; exact Q2).
    destruct (enumeration_facts q1 N N (fun _ => true) ltac:(lia) Q2') as [F1 [F2 F3]].
    destruct (issue_canonical len q1 N N ltac:(lia) (fun j Hj => proj1 (F1 j Hj))
                (fun j Hj => Hl (q1 j) (proj1 (F1 j Hj))) F2
                (fun s Hs _ => F3 s Hs eq_refl) (fun j Hj => Q3 j ltac:(lia)) Hk (nCodeWord e)) as [C1 C2].
    cbn [fst snd set_code_word nCodeWord nCodeLength nSymbols].
    split; [reflexivity|]. split; [reflexivity|]. split; [reflexivity|]. split.
    + intros s' Hs. apply C1; [exact Hs|]. pose proof (Hl s' Hs). lia.
    + intros s' Hs. apply C2. intros j Hj <-. apply Hs. apply (F1 j Hj).
  - rewrite Z.gtb_ltb, Z.ltb_ge in EN. cbn [fst snd]. split; [reflexivity|]. split; [reflexivity|]. split; [reflexivity|].
    split; [intros; lia|]. intros; reflexivity.
Qed.

(** The shape of the issue step of [zultra_huffman_encoder_build_dynamic_codewords]:
    the codewords are issued over an enumeration of the used symbols,
    sorted by the final lengths. *)
Lemma build_dynamic_issue e :
  0 <= nSymbols e <= MAX_SYMBOLS -> 1 <= nMaxCodeLength e -> 2 <= count_nonzero (nEntropy e) (nSymbols e) ->
  let r := zultra_huffman_encoder_build_dynamic_codewords e in
  exists q m, 1 <= m /\
    nCodeWord (snd r) = issue_codewords (nCodeLength (snd r)) q m (Z.to_nat m) 0 0 (nCodeLength (snd r) (q 0)) (nCodeWord e) /\
    Permutation (filter (fun s => nonzero (nEntropy e s)) (zseq 0 (Z.to_nat (nSymbols e)))) (map q (zseq 0 (Z.to_nat m))) /\
    (forall j, 0 <= j < m - 1 -> qsort_gt (nCodeLength (snd r)) (q j) (q (j + 1)) = false).
Proof.
  intros HN HL Hc. cbn zeta. unfold zultra_huffman_encoder_build_dynamic_codewords.
  pose proof (estimate_code_word e) as Ecw.
  destruct (estimate_spec e HN Hc) as [E1 [E2 [E3 [E4 _]]]].
  destruct (zultra_huffman_encoder_estimate_dynamic_codelens e) as [r0 e1] eqn:Ee.
  cbn [fst snd] in *. subst r0. rewrite (proj2 (Z.ltb_ge 0 0)) by lia.
  set (N := nSymbols e) in *. set (E := nEntropy e) in *.
  set (len1 := nCodeLength e1) in *. rewrite E2.
  set (F := filter (fun s => nonzero (E s)) (zseq 0 (Z.to_nat N))).
  assert (HF : filter (fun s => nonzero (len1 s)) (zseq 0 (Z.to_nat N)) = F).
  { apply filter_ext_in. intros s Hs. apply In_zseq in Hs. unfold nonzero.
    destruct (Z.eqb_spec (len1 s) 0) as [H|H]; destruct (Z.eqb_spec (E s) 0) as [H'|H']; try reflexivity.
    - apply E4 in H; [congruence|lia].
    - apply E4 in H'; [congruence|lia]. }
  rewrite count_nonzero_filter in Hc. fold F in Hc. set (m := Z.of_nat (List.length F)) in *.
  pose proof (enum_symbols_spec nonzero len1 (Z.to_nat N) 0 uninit 0 ltac:(lia)) as [H1 [H2 _]].
  destruct (enum_symbols nonzero len1 (Z.to_nat N) 0 uninit 0) as [q0 m0] eqn:Eq. cbn [fst snd] in *.
  rewrite HF in H1, H2. change (Z.to_nat 0) with O in H1. cbn [zseq map app] in H1.
  rewrite Z.add_0_l in H2. fold m in H2. subst m0.
  rewrite (proj2 (Z.gtb_lt m 0)) by lia.
  unfold zultra_huffman_encoder_qsort.
  replace (m - 1 - 0 + 1) with m by lia.
  pose proof (qsort_rec_spec len1 (Z.to_nat m) q0 0 (m - 1) ltac:(lia)) as [_ [Q2 Q3]].
  replace (m - 1 - 0 + 1) with m in Q2 by lia.
  set (q1 := qsort_rec len1 (Z.to_nat m) q0 0 (m - 1)) in *.
  assert (P1 : Permutation F (map q1 (zseq 0 (Z.to_nat m)))) by (rewrite <- H1; exact Q2).
  destruct (nMaxCodeLength e1 >? 0) eqn:EL; cbn [andb].
  - destruct (len1 (q1 (m - 1)) >? nMaxCodeLength e1) eqn:Elim.
    + set (len2 := limit_code_lengths (nMaxCodeLength e1) q1 m len1).
      pose proof (qsort_rec_spec len2 (Z.to_nat m) q1 0 (m - 1) ltac:(lia)) as [_ [R2 R3]].
      replace (m - 1 - 0 + 1) with m in R2 by lia.
      set (q2 := qsort_rec len2 (Z.to_nat m) q1 0 (m - 1)) in *.
      exists q2, m. cbn [snd set_code_word set_code_length nCodeWord nCodeLength].
      split; [lia|]. split; [rewrite Ecw; reflexivity|]. split.
      * exact (perm_trans P1 R2).
      * intros j Hj. apply R3. lia.
    + exists q1, m. cbn [snd set_code_word set_code_length nCodeWord nCodeLength].
      split; [lia|]. split; [rewrite Ecw; reflexivity|]. split; [exact P1|].
      intros j Hj. apply Q3. lia.
  - exists q0, m. cbn [snd set_code_word set_code_length nCodeWord nCodeLength].
    split; [lia|]. split; [rewrite Ecw; reflexivity|]. split; [rewrite H1; apply Permutation_refl|].
    exfalso. rewrite Z.gtb_ltb, Z.ltb_ge in EL. lia.
Qed.

(** [zultra_huffman_encoder_build_dynamic_codewords], when at least two
    symbols are used, gives every used symbol the RFC 1951 canonical code
    of the length it assigns, bit-reversed for the LSB-first writer; the
    codewords of the other symbols are left as they were. *)
Theorem build_dynamic_codewords_canonical e :
  0 <= nSymbols e <= MAX_SYMBOLS -> 1 <= nMaxCodeLength e <= 15 ->
  nSymbols e <= 2 ^ nMaxCodeLength e ->
  2 <= count_nonzero (nEntropy e) (nSymbols e) ->
  let r := zultra_huffman_encoder_build_dynamic_codewords e in
  let len := nCodeLength (snd r) in
  (forall s, 0 <= s < nSymbols e -> nEntropy e s <> 0 ->
     nCodeWord (snd r) s = bit_reverse (Z.to_nat (len s)) (rfc1951_code len (nSymbols e) s)) /\
  (forall s, ~ (0 <= s < nSymbols e /\ nEntropy e s <> 0) -> nCodeWord (snd r) s = nCodeWord e s).
Proof.
  intros HN HL HNL Hc. cbn zeta.
  destruct (build_dynamic_codewords_spec e HN ltac:(lia) HNL Hc) as [_ [_ [B3 [B4 [_ B6]]]]].
  destruct (build_dynamic_issue e HN ltac:(lia) Hc) as (q & m & Hm & Hcw & Hp & Had).
  set (r := zultra_huffman_encoder_build_dynamic_codewords e) in *.
  set (len := nCodeLength (snd r)) in *. set (N := nSymbols e) in *.
  destruct (enumeration_facts q m N (fun s => nonzero (nEntropy e s)) ltac:(lia) Hp) as [F1 [F2 F3]].
  assert (Hnz : forall s, 0 <= s < N -> (len s <> 0 <-> nEntropy e s <> 0)) by (intros s Hs; rewrite (B3 s Hs); tauto).
  assert (Hqe : forall j, 0 <= j < m -> 0 <= q j < N /\ nEntropy e (q j) <> 0).
  { intros j Hj. destruct (F1 j Hj) as [Hr Hn]. unfold nonzero in Hn.
    apply Bool.negb_true_iff, Z.eqb_neq in Hn. split; [exact Hr|exact Hn]. }
  assert (Hk16 : kraft_sum 16 len N = 2 ^ 16).
  { apply (kraft_sum_rescale (nMaxCodeLength e) 16 len N); [lia|lia| |exact B6].
    intros s Hs Hn. pose proof (B4 s). lia. }
  destruct (issue_canonical len q m N Hm (fun j Hj => proj1 (Hqe j Hj))
              (fun j Hj => ltac:(pose proof (B4 (q j)); pose proof (proj2 (Hnz (q j) (proj1 (Hqe j Hj))));
                                 destruct (Hqe j Hj); split; [|lia]; enough (len (q j) <> 0) by lia; tauto))
              F2
              (fun s Hs Hn => F3 s Hs ltac:(unfold nonzero; apply Bool.negb_true_iff, Z.eqb_neq; apply (Hnz s Hs); exact Hn))
              Had ltac:(lia) (nCodeWord e)) as [C1 C2].
  rewrite Hcw. split.
  - intros s Hs Hn. apply C1; [exact Hs|]. apply (Hnz s Hs). exact Hn.
  - intros s Hs. apply C2. intros j Hj <-. apply Hs. apply Hqe. exact Hj.
Qed.

Lemma filter_none (P : Z -> bool) xs : (forall x, In x xs -> P x = false) -> filter P xs = [].
Proof.
  induction xs as [|x xs IH]; intros H; cbn; [reflexivity|].
  rewrite (H x (or_introl eq_refl)). apply IH. intros y Hy. apply H. right. exact Hy.
Qed.

(** With at most one used symbol, [zultra_huffman_encoder_build_dynamic_codewords]
    gives symbol 0 the one-bit codeword 0 and every other symbol the
    length 0, whichever symbol is the used one. *)
Theorem build_dynamic_codewords_single e :
  1 <= nSymbols e <= MAX_SYMBOLS -> 1 <= nMaxCodeLength e ->
  count_nonzero (nEntropy e) (nSymbols e) <= 1 ->
  let r := zultra_huffman_encoder_build_dynamic_codewords e in
  fst r = 0 /\ nCodeLength (snd r) = upd (fun _ => 0) 0 1 /\ nCodeWord (snd r) = upd (nCodeWord e) 0 0.
Proof.
  intros HN HL Hc. cbn zeta. unfold zultra_huffman_encoder_build_dynamic_codewords,
    zultra_huffman_encoder_estimate_dynamic_codelens.
  rewrite (proj2 (Z.ltb_ge (nSymbols e) 0)) by lia.
  rewrite Z.gtb_ltb, (proj2 (Z.ltb_ge MAX_SYMBOLS (nSymbols e))) by lia. cbn [orb].
  pose proof (enum_symbols_spec nonzero (nEntropy e) (Z.to_nat (nSymbols e)) 0 uninit 0 ltac:(lia)) as [_ [H2 _]].
  destruct (enum_symbols nonzero (nEntropy e) (Z.to_nat (nSymbols e)) 0 uninit 0) as [q m] eqn:Eq.
  cbn [fst snd] in H2. rewrite count_nonzero_filter in Hc. rewrite (Z.gtb_ltb m 1).
  rewrite (proj2 (Z.ltb_ge 1 m)) by lia. cbn [fst snd]. rewrite (proj2 (Z.ltb_ge 0 0)) by lia.
  cbn [nCodeLength nSymbols set_code_length nMaxCodeLength nCodeWord].
  set (L1 := upd (fun _ => 0) 0 1).
  assert (HF : filter (fun s => nonzero (L1 s)) (zseq 0 (Z.to_nat (nSymbols e))) = [0]).
  { replace (Z.to_nat (nSymbols e)) with (S (Z.to_nat (nSymbols e - 1))) by lia. cbn [zseq filter].
    unfold L1 at 1, upd at 1. cbn. f_equal. apply filter_none. intros x Hx. apply In_zseq in Hx.
    unfold L1, upd, nonzero. rewrite (proj2 (Z.eqb_neq x 0)) by lia. reflexivity. }
  pose proof (enum_symbols_spec nonzero L1 (Z.to_nat (nSymbols e)) 0 uninit 0 ltac:(lia)) as [G1 [G2 _]].
  destruct (enum_symbols nonzero L1 (Z.to_nat (nSymbols e)) 0 uninit 0) as [q0 m0] eqn:Eq0.
  cbn [fst snd] in G1, G2. rewrite HF in G1, G2. cbn in G2. subst m0. cbn in G1. injection G1 as G1.
  rewrite (proj2 (Z.gtb_lt (nMaxCodeLength e) 0)) by lia. cbn [andb].
  unfold zultra_huffman_encoder_qsort. change (Z.to_nat (1 - 1 - 0 + 1)) with 1%nat. change (1 - 1) with 0.
  assert (Hq : qsort_rec L1 1 q0 0 0 = q0) by reflexivity. rewrite Hq.
  assert (HL1 : (L1 (q0 0) >? nMaxCodeLength e) = false)
    by (rewrite G1; rewrite Z.gtb_ltb; apply Z.ltb_ge; unfold L1, upd; cbn; lia).
  rewrite HL1. change (1 >? 0) with true. cbn [andb snd fst set_code_word set_code_length nCodeLength nCodeWord].
  split; [reflexivity|]. split; [reflexivity|].
  change (Z.to_nat 1) with 1%nat. cbn [issue_codewords]. rewrite G1. destruct (0 + 1 <? 1); reflexivity.
Qed.

(** [zultra_huffman_encoder_qsort] reorders the entries [left..right] of
    [idx] into ascending order of [value], ties broken by ascending index
    value, and leaves the entries outside the range alone. *)
Theorem qsort_sorted_lex value idx left right :
  let idx' := zultra_huffman_encoder_qsort value idx left right in
  (forall j, j < left \/ right < j -> idx' j = idx j) /\
  Permutation (map idx (zseq left (Z.to_nat (right - left + 1))))
              (map idx' (zseq left (Z.to_nat (right - left + 1)))) /\
  (forall j, left <= j < right ->
     value (idx' j) < value (idx' (j + 1)) \/
     (value (idx' j) = value (idx' (j + 1)) /\ idx' j <= idx' (j + 1))).
Proof.
  cbn zeta. unfold zultra_huffman_encoder_qsort.
  destruct (qsort_rec_spec value (Z.to_nat (right - left + 1)) idx left right ltac:(lia)) as [A [B C]].
  split; [exact A|]. split; [exact B|].
  intros j Hj. specialize (C j Hj). unfold qsort_gt in C.
  apply orb_false_iff in C as [C1 C2]. rewrite Z.gtb_ltb, Z.ltb_ge in C1.
  destruct (Z.eqb_spec (value (qsort_rec value (Z.to_nat (right - left + 1)) idx left right j))
                       (value (qsort_rec value (Z.to_nat (right - left + 1)) idx left right (j + 1)))) as [He|He].
  - right. cbn [andb] in C2. rewrite Z.gtb_ltb, Z.ltb_ge in C2. split; [exact He|exact C2].
  - left. lia.
Qed.

(** The RFC 1951 fixed literal/length table of [zultra_block_deflate]. *)
Lemma build_static_codewords_canonical_witness :
  let e := mkEncoder 288 15 (fun _ => 0) (fun _ => 0)
             (fun s => if s <? 144 then 8 else if s <? 256 then 9 else if s <? 280 then 7 else 8) in
  (0 <= nSymbols e /\ (forall s, 0 <= s < nSymbols e -> 1 <= nCodeLength e s <= 16) /\
   kraft_sum 16 (nCodeLength e) (nSymbols e) <= 2 ^ 16) /\
  let r := zultra_huffman_encoder_build_static_codewords e in
  fst r = 0 /\ nCodeLength (snd r) = nCodeLength e /\ nSymbols (snd r) = nSymbols e /\
  (forall s, 0 <= s < nSymbols e ->
     nCodeWord (snd r) s = bit_reverse (Z.to_nat (nCodeLength e s)) (rfc1951_code (nCodeLength e) (nSymbols e) s)) /\
  (forall s, ~ (0 <= s < nSymbols e) -> nCodeWord (snd r) s = nCodeWord e s).
Proof.
  cbn zeta.
  assert (H2 : forall s, 0 <= s < 288 ->
            1 <= (if s <? 144 then 8 else if s <? 256 then 9 else if s <? 280 then 7 else 8) <= 16)
    by (intros s Hs; destruct (s <? 144), (s <? 256), (s <? 280); lia).
  split.
  - split; [cbn; lia|]. split; [exact H2|]. vm_compute. discriminate.
  - apply build_static_codewords_canonical; [cbn; lia|exact H2|vm_compute; discriminate].
Defined.

(** The Fibonacci frequencies 1, 1, 2, 3, 5 with [L = 3]: the length
    limiting runs before the codewords are issued. *)
Lemma build_dynamic_codewords_canonical_witness :
  let e := mkEncoder 5 3 (fun s => nth (Z.to_nat s) [1; 1; 2; 3; 5] 0) (fun _ => 0) (fun _ => 0) in
  (0 <= nSymbols e <= MAX_SYMBOLS /\ 1 <= nMaxCodeLength e <= 15 /\
   nSymbols e <= 2 ^ nMaxCodeLength e /\ 2 <= count_nonzero (nEntropy e) (nSymbols e)) /\
  let r := zultra_huffman_encoder_build_dynamic_codewords e in
  let len := nCodeLength (snd r) in
  (forall s, 0 <= s < nSymbols e -> nEntropy e s <> 0 ->
     nCodeWord (snd r) s = bit_reverse (Z.to_nat (len s)) (rfc1951_code len (nSymbols e) s)) /\
  (forall s, ~ (0 <= s < nSymbols e /\ nEntropy e s <> 0) -> nCodeWord (snd r) s = nCodeWord e s).
Proof.
  cbn zeta. split.
  - split; [vm_compute; split; discriminate|]. split; [vm_compute; split; discriminate|].
    split; vm_compute; discriminate.
  - apply build_dynamic_codewords_canonical.
    + vm_compute. split; discriminate.
    + vm_compute. split; discriminate.
    + vm_compute. discriminate.
    + vm_compute. discriminate.
Defined.

(** A code-length encoder of 19 symbols where only symbol 5 is used. *)
Lemma build_dynamic_codewords_single_witness :
  let e := mkEncoder 19 7 (fun s => if s =? 5 then 3 else 0) (fun _ => 0) (fun _ => 0) in
  (1 <= nSymbols e <= MAX_SYMBOLS /\ 1 <= nMaxCodeLength e /\ count_nonzero (nEntropy e) (nSymbols e) <= 1) /\
  let r := zultra_huffman_encoder_build_dynamic_codewords e in
  fst r = 0 /\ nCodeLength (snd r) = upd (fun _ => 0) 0 1 /\ nCodeWord (snd r) = upd (nCodeWord e) 0 0.
Proof.
  cbn zeta. split.
  - split; [vm_compute; split; discriminate|]. split; vm_compute; [discriminate|discriminate].
  - apply build_dynamic_codewords_single.
    + vm_compute. split; discriminate.
    + vm_compute. discriminate.
    + vm_compute. discriminate.
Defined.

End CanonicalProofs.


Module DeflateProofs.
Import BitWriter Huffman Parser CodeLengths Deflate HuffmanProofs BitWriterProofs CodeLengthsProofs2.

Lemma forallb_zseq (f : Z -> bool) l n :
  forallb f (zseq l n) = true -> forall x, l <= x < l + Z.of_nat n -> f x = true.
Proof.
  intros H x Hx. rewrite forallb_forall in H. apply H. apply In_zseq. lia.
Qed.

Lemma offset_table_check :
  forallb (fun d => match offset_fields d with
                    | Some (s, b, x) =>
                        (s =? rfc1951_dist_code d) && (b =? nth (Z.to_nat s) rfc1951_dist_base 0) &&
                        (x =? nth (Z.to_nat s) rfc1951_dist_extra 0) && (0 <=? d - b) && (d - b <? 2 ^ x) &&
                        (zultra_get_offset_symbol d =? s) && (tbl g_nRevOffsetSymbolBits_table s =? x) &&
                        (0 <=? s) && (s <? 30) && (0 <=? x) && (x <=? 13)
                    | None => false end) (zseq 1 (Z.to_nat 32768)) = true.
Proof. vm_compute. reflexivity. Qed.

Lemma varlen_table_check :
  forallb (fun n => let s := tbl g_nMatchLenSymbol_table n in
                    let b := tbl g_nMatchLenBase_table n in
                    let x := tbl g_nMatchLenExtraBits_table n in
                    (s =? rfc1951_length_code (n + 3)) && (b + 3 =? nth (Z.to_nat (s - 257)) rfc1951_length_base 0) &&
                    (x =? nth (Z.to_nat (s - 257)) rfc1951_length_extra 0) && (0 <=? n - b) && (n - b <? 2 ^ x) &&
                    (tbl g_nRevMatchSymbolBits_table (s - 257) =? x) && (257 <=? s) && (s <? 286) &&
                    (0 <=? x) && (x <=? 5)) (zseq 0 256) = true.
Proof. vm_compute. reflexivity. Qed.

Lemma u32_id x : 0 <= x < 2 ^ 32 -> u32 x = x.
Proof. intros H. unfold u32. apply Z.mod_small. exact H. Qed.

Ltac andb_split H :=
  repeat match type of H with
  | (_ && _)%bool = true => apply andb_true_iff in H
  | _ /\ _ => let H1 := fresh H in destruct H as [H1 H]; andb_split H1
  | (_ =? _) = true => apply Z.eqb_eq in H
  | (_ <=? _) = true => apply Z.leb_le in H
  | (_ <? _) = true => apply Z.ltb_lt in H
  end.

(** The fields [zultra_write_offset] looks up for a distance in
    [1..32768] are those of RFC 1951. *)
Lemma offset_fields_rfc d : 1 <= d <= 32768 ->
  let c := rfc1951_dist_code d in
  let b := nth (Z.to_nat c) rfc1951_dist_base 0 in
  let x := nth (Z.to_nat c) rfc1951_dist_extra 0 in
  offset_fields d = Some (c, b, x) /\ 0 <= c < 30 /\ 0 <= d - b < 2 ^ x /\
  zultra_get_offset_symbol d = c /\ tbl g_nRevOffsetSymbolBits_table c = x /\ 0 <= x <= 13.
Proof.
  intros Hd. pose proof (forallb_zseq _ _ _ offset_table_check d ltac:(lia)) as H. cbv beta in H.
  destruct (offset_fields d) as [[[s b] x]|]; [|discriminate].
  andb_split H. subst. cbv zeta. repeat split; try lia; congruence.
Qed.

Lemma length_fields_rfc n : 0 <= n <= 255 ->
  let s := tbl g_nMatchLenSymbol_table n in
  let b := tbl g_nMatchLenBase_table n in
  let x := tbl g_nMatchLenExtraBits_table n in
  s = rfc1951_length_code (n + 3) /\ b + 3 = nth (Z.to_nat (s - 257)) rfc1951_length_base 0 /\
  x = nth (Z.to_nat (s - 257)) rfc1951_length_extra 0 /\ 0 <= n - b < 2 ^ x /\
  tbl g_nRevMatchSymbolBits_table (s - 257) = x /\ 257 <= s < 286 /\ 0 <= x <= 5.
Proof.
  intros Hn. pose proof (forallb_zseq _ _ _ varlen_table_check n ltac:(lia)) as H. cbv beta zeta in H.
  andb_split H. cbv zeta. repeat split; lia.
Qed.

Lemma varlen_symbol_small n : 0 <= n <= 255 ->
  zultra_get_varlen_symbol n = tbl g_nMatchLenSymbol_table n.
Proof.
  intros Hn. unfold zultra_get_varlen_symbol. rewrite u32_id by lia.
  rewrite Z.gtb_ltb, (proj2 (Z.ltb_ge _ _)) by lia. reflexivity.
Qed.

Lemma offset_size_fields (L : array) d :
  zultra_get_offset_size L d =
    match offset_fields d with Some (s, _, x) => L s + x | None => NOFFSETSYMS end.
Proof.
  unfold zultra_get_offset_size, offset_fields.
  destruct (u32 (d - 1) <? 256); [reflexivity|]. destruct (u32 (d - 1) <? 32768); reflexivity.
Qed.

(** ** Bit counts of the writes *)

Lemma put_bits_ok w out v k r w' out' :
  writer_inv w -> 0 <= k <= 16 -> bit_position w + k <= 8 * nMaxOutDataOffset w + 7 ->
  zultra_bitwriter_put_bits w out v k = (r, w', out') ->
  r = 0 /\ writer_inv w' /\ bit_position w' = bit_position w + k /\ nMaxOutDataOffset w' = nMaxOutDataOffset w.
Proof.
  intros Hw Hk Hr E. destruct (put_bits_bitpos w out v k r w' out' E) as (Hm & _ & _ & Hb).
  destruct (put_bits_room w out v k r w' out' Hw Hk Hr E) as [-> Hw'].
  split; [reflexivity|]. split; [exact Hw'|]. split; [apply Hb; lia|exact Hm].
Qed.

Lemma write_codeword_ok e s w out r w' out' :
  writer_inv w -> 0 <= s < nSymbols e -> 0 <= nCodeLength e s <= 16 ->
  bit_position w + nCodeLength e s <= 8 * nMaxOutDataOffset w + 7 ->
  zultra_huffman_encoder_write_codeword e s w out = (r, w', out') ->
  r = 0 /\ writer_inv w' /\ bit_position w' = bit_position w + nCodeLength e s /\
  nMaxOutDataOffset w' = nMaxOutDataOffset w.
Proof.
  intros Hw Hs Hl Hr. unfold zultra_huffman_encoder_write_codeword.
  rewrite (proj2 (andb_true_iff _ _)) by (split; [apply Z.geb_le|apply Z.ltb_lt]; lia).
  apply put_bits_ok; assumption.
Qed.

(** Two writes in sequence, as [zultra_write_offset] and
    [zultra_write_varlen] perform them. *)
Lemma write_pair_ok e s v k w out r w' out' :
  writer_inv w -> 0 <= s < nSymbols e -> 0 <= nCodeLength e s <= 16 -> 0 <= k <= 16 ->
  bit_position w + nCodeLength e s + k <= 8 * nMaxOutDataOffset w + 7 ->
  (let '(r, w, out) := zultra_huffman_encoder_write_codeword e s w out in
   if r <? 0 then (-1, w, out) else
   let '(r, w, out) := zultra_bitwriter_put_bits w out v k in
   if r <? 0 then (-1, w, out) else (0, w, out)) = (r, w', out') ->
  r = 0 /\ writer_inv w' /\ bit_position w' = bit_position w + nCodeLength e s + k /\
  nMaxOutDataOffset w' = nMaxOutDataOffset w.
Proof.
  intros Hw Hs Hl Hk Hr.
  destruct (zultra_huffman_encoder_write_codeword e s w out) as [[r1 w1] o1] eqn:E1.
  destruct (write_codeword_ok e s w out r1 w1 o1 Hw Hs Hl ltac:(lia) E1) as (-> & Hw1 & Hb1 & Hm1).
  cbn [Z.ltb Z.compare]. 
  destruct (zultra_bitwriter_put_bits w1 o1 v k) as [[r2 w2] o2] eqn:E2.
  destruct (put_bits_ok w1 o1 v k r2 w2 o2 Hw1 Hk ltac:(lia) E2) as (-> & Hw2 & Hb2 & Hm2).
  cbn [Z.ltb Z.compare]. intros E. inversion E; subst.
  split; [reflexivity|]. split; [exact Hw2|]. split; lia.
Qed.

Lemma write_offset_ok off d w out r w' out' :
  1 <= d <= 32768 -> writer_inv w -> 30 <= nSymbols off ->
  let c := rfc1951_dist_code d in
  0 <= nCodeLength off c <= 16 ->
  bit_position w + nCodeLength off c + tbl g_nRevOffsetSymbolBits_table c <= 8 * nMaxOutDataOffset w + 7 ->
  zultra_write_offset off d w out = (r, w', out') ->
  r = 0 /\ writer_inv w' /\
  bit_position w' = bit_position w + nCodeLength off c + tbl g_nRevOffsetSymbolBits_table c /\
  nMaxOutDataOffset w' = nMaxOutDataOffset w.
Proof.
  intros Hd Hw Hn. cbv zeta. intros Hl Hr.
  destruct (offset_fields_rfc d Hd) as (Hf & Hc & Hb & _ & Hx & Hx').
  unfold zultra_write_offset. rewrite Hf. rewrite Hx in Hr |- *.
  apply write_pair_ok; auto; lia.
Qed.

Lemma write_varlen_ok lit n w out r w' out' :
  0 <= n <= 255 -> writer_inv w -> 286 <= nSymbols lit ->
  let s := tbl g_nMatchLenSymbol_table n in
  0 <= nCodeLength lit s <= 16 ->
  bit_position w + nCodeLength lit s + tbl g_nRevMatchSymbolBits_table (s - 257) <= 8 * nMaxOutDataOffset w + 7 ->
  zultra_write_varlen lit n w out = (r, w', out') ->
  r = 0 /\ writer_inv w' /\
  bit_position w' = bit_position w + nCodeLength lit s + tbl g_nRevMatchSymbolBits_table (s - 257) /\
  nMaxOutDataOffset w' = nMaxOutDataOffset w.
Proof.
  intros Hn Hw Hs. cbv zeta. intros Hl Hr.
  destruct (length_fields_rfc n Hn) as (_ & _ & _ & _ & Hx & Hsr & Hx').
  unfold zultra_write_varlen. rewrite u32_id by lia.
  rewrite Z.gtb_ltb, (proj2 (Z.ltb_ge _ _)) by lia. rewrite Hx in Hr |- *.
  apply write_pair_ok; auto; lia.
Qed.

Lemma write_literal_ok lit b w out r w' out' :
  0 <= b < 256 -> writer_inv w -> 256 <= nSymbols lit -> 0 <= nCodeLength lit b <= 16 ->
  bit_position w + nCodeLength lit b <= 8 * nMaxOutDataOffset w + 7 ->
  zultra_write_literal lit b w out = (r, w', out') ->
  r = 0 /\ writer_inv w' /\ bit_position w' = bit_position w + nCodeLength lit b /\
  nMaxOutDataOffset w' = nMaxOutDataOffset w.
Proof.
  intros Hb Hw Hs Hl Hr. unfold zultra_write_literal. rewrite u32_id by lia.
  rewrite Z.geb_leb, (proj2 (Z.leb_gt _ _)) by lia.
  destruct (zultra_huffman_encoder_write_codeword lit b w out) as [[r1 w1] o1] eqn:E1.
  destruct (write_codeword_ok lit b w out r1 w1 o1 Hw ltac:(lia) Hl Hr E1) as (-> & H1 & H2 & H3).
  cbn [Z.ltb Z.compare]. intros E. inversion E; subst. auto.
Qed.

(** ** The data cost counts the bits of the block *)

Lemma zsum_incr_in h (E : array) s xs : NoDup xs -> In s xs ->
  zsum (fun i => incr E s i * h i) xs = zsum (fun i => E i * h i) xs + h s.
Proof.
  intros Hnd Hin. rewrite (zsum_point (fun i => E i * h i) (fun i => incr E s i * h i) xs s Hnd Hin).
  - unfold incr. rewrite upd_eq. lia.
  - intros x _ Hx. unfold incr. rewrite upd_neq by exact Hx. reflexivity.
Qed.

Lemma zsum_incr_out h (E : array) s xs : ~ In s xs ->
  zsum (fun i => incr E s i * h i) xs = zsum (fun i => E i * h i) xs.
Proof.
  intros Hin. apply zsum_ext_in. intros x Hx. unfold incr. rewrite upd_neq; [reflexivity|].
  intros ->. contradiction.
Qed.

Lemma in_zseq_Z x l n : 0 <= n -> (In x (zseq l (Z.to_nat n)) <-> l <= x < l + n).
Proof. intros Hn. rewrite In_zseq, Z2Nat.id by exact Hn. reflexivity. Qed.

Section DataCost.
Variables lit off : zultra_huffman_encoder_t.

Local Notation C E F := (evaluate_data_cost (set_entropy lit E) (set_entropy off F)).

Lemma cost_literal E F s : 0 <= s < 257 -> C (incr E s) F = C E F + nCodeLength lit s.
Proof.
  intros Hs. unfold evaluate_data_cost, set_entropy. cbn [nEntropy nCodeLength].
  rewrite (zsum_incr_in (nCodeLength lit)) by (apply NoDup_zseq || (apply in_zseq_Z; unfold NMATCHLENSYMSTART; lia)).
  pose proof (zsum_incr_out (fun i => nCodeLength lit i + tbl g_nRevMatchSymbolBits_table (i - NMATCHLENSYMSTART))
                E s (zseq NMATCHLENSYMSTART (Z.to_nat NMATCHLENSYMS))) as H.
  cbv beta in H. rewrite H; [lia|]. rewrite in_zseq_Z; unfold NMATCHLENSYMSTART, NMATCHLENSYMS; lia.
Qed.

Lemma cost_length E F s : 257 <= s < 286 ->
  C (incr E s) F = C E F + (nCodeLength lit s + tbl g_nRevMatchSymbolBits_table (s - NMATCHLENSYMSTART)).
Proof.
  intros Hs. unfold evaluate_data_cost, set_entropy. cbn [nEntropy nCodeLength].
  rewrite (zsum_incr_out (nCodeLength lit)) by (rewrite in_zseq_Z; unfold NMATCHLENSYMSTART; lia).
  pose proof (zsum_incr_in (fun i => nCodeLength lit i + tbl g_nRevMatchSymbolBits_table (i - NMATCHLENSYMSTART))
                E s (zseq NMATCHLENSYMSTART (Z.to_nat NMATCHLENSYMS))) as H.
  cbv beta in H. rewrite H; [lia|apply NoDup_zseq|]. rewrite in_zseq_Z; unfold NMATCHLENSYMSTART, NMATCHLENSYMS; lia.
Qed.

Lemma cost_offset E F s : 0 <= s < 32 ->
  C E (incr F s) = C E F + (nCodeLength off s + tbl g_nRevOffsetSymbolBits_table s).
Proof.
  intros Hs. unfold evaluate_data_cost, set_entropy. cbn [nEntropy nCodeLength].
  pose proof (zsum_incr_in (fun i => nCodeLength off i + tbl g_nRevOffsetSymbolBits_table i)
                F s (zseq 0 (Z.to_nat NOFFSETSYMS))) as H.
  cbv beta in H. rewrite H; [lia|apply NoDup_zseq|]. rewrite in_zseq_Z; unfold NOFFSETSYMS; lia.
Qed.

Hypothesis Hlit_n : 286 <= nSymbols lit.
Hypothesis Hlit_l : forall s, 0 <= s < 286 -> 0 <= nCodeLength lit s <= 16.
Hypothesis Hoff_n : 30 <= nSymbols off.
Hypothesis Hoff_l : forall s, 0 <= s < 30 -> 0 <= nCodeLength off s <= 16.

Variables (pInWindow : array) (best_match : Z -> zultra_match_t) (nStartOffset nEndOffset : Z).

Hypothesis Hparse : forall j, nStartOffset <= j < nEndOffset ->
  0 <= pInWindow j < 256 /\
  (MIN_MATCH_SIZE <= length (best_match j) -> length (best_match j) <= 258 /\ 1 <= offset (best_match j) <= 32768).

(** What the loops see at a position: a literal byte, or a match whose
    encoded length and offset have in-range symbols. *)
Lemma match_facts i : nStartOffset <= i < nEndOffset -> MIN_MATCH_SIZE <= length (best_match i) ->
  let n := u32 (length (best_match i) - MIN_MATCH_SIZE) in
  let s := tbl g_nMatchLenSymbol_table n in
  let c := rfc1951_dist_code (offset (best_match i)) in
  0 <= n <= 255 /\ zultra_get_varlen_symbol n = s /\ 257 <= s < 286 /\
  zultra_get_offset_symbol (offset (best_match i)) = c /\ 0 <= c < 30.
Proof.
  intros Hi Hm. destruct (Hparse i Hi) as [_ Hp]. destruct (Hp Hm) as [Hl Ho].
  unfold MIN_MATCH_SIZE in *. cbv zeta. rewrite u32_id by lia.
  destruct (length_fields_rfc (length (best_match i) - 3) ltac:(lia)) as (_ & _ & _ & _ & _ & Hs & _).
  destruct (offset_fields_rfc (offset (best_match i)) Ho) as (_ & Hc & _ & Hsym & _).
  rewrite varlen_symbol_small by lia. repeat split; try lia; assumption.
Qed.

Lemma final_entropy_mono : forall fuel i E F, nStartOffset <= i ->
  let '(E', F') := final_entropy_loop pInWindow best_match nEndOffset fuel i E F in
  C E F <= C E' F'.
Proof.
  induction fuel as [|fuel IH]; intros i E F Hi; cbn [final_entropy_loop]; [lia|].
  destruct (Z.ltb_spec i nEndOffset) as [Hlt|Hge]; [|lia].
  destruct (Z.geb_spec (length (best_match i)) MIN_MATCH_SIZE) as [Hm|Hm].
  - destruct (match_facts i ltac:(lia) ltac:(lia)) as (Hn & -> & Hs & -> & Hc).
    specialize (IH (i + length (best_match i))
                  (incr E (tbl g_nMatchLenSymbol_table (u32 (length (best_match i) - MIN_MATCH_SIZE))))
                  (incr F (rfc1951_dist_code (offset (best_match i)))) ltac:(unfold MIN_MATCH_SIZE in *; lia)).
    destruct (final_entropy_loop _ _ _ _ _ _ _) as [E' F'].
    rewrite cost_offset, cost_length in IH by lia.
    pose proof (Hlit_l (tbl g_nMatchLenSymbol_table (u32 (length (best_match i) - MIN_MATCH_SIZE))) ltac:(lia)).
    pose proof (Hoff_l (rfc1951_dist_code (offset (best_match i))) Hc).
    destruct (length_fields_rfc _ Hn) as (_ & _ & _ & _ & Hx & _ & Hx').
    destruct (offset_fields_rfc (offset (best_match i))) as (_ & _ & _ & _ & Hy & Hy');
      [apply (Hparse i); lia|].
    unfold NMATCHLENSYMSTART in *. rewrite Hx, Hy in IH. lia.
  - destruct (Hparse i ltac:(lia)) as [Hb _].
    rewrite (proj2 (Z.ltb_lt _ _)) by lia.
    specialize (IH (i + 1) (incr E (pInWindow i)) F ltac:(lia)).
    destruct (final_entropy_loop _ _ _ _ _ _ _) as [E' F'].
    rewrite cost_literal in IH by lia. pose proof (Hlit_l (pInWindow i) ltac:(lia)). lia.
Qed.

Lemma write_block_loop_bits : forall fuel i E F w out, nStartOffset <= i -> writer_inv w ->
  let '(E', F') := final_entropy_loop pInWindow best_match nEndOffset fuel i E F in
  bit_position w + (C E' F' - C E F) <= 8 * nMaxOutDataOffset w + 7 ->
  let '(r, w', out') := write_block_loop lit off pInWindow best_match nEndOffset fuel i w out in
  r = 0 /\ writer_inv w' /\ bit_position w' = bit_position w + (C E' F' - C E F) /\
  nMaxOutDataOffset w' = nMaxOutDataOffset w.
Proof.
  induction fuel as [|fuel IH]; intros i E F w out Hi Hw; cbn [final_entropy_loop write_block_loop].
  { intros _. split; [reflexivity|]. split; [exact Hw|]. lia. }
  destruct (Z.ltb_spec i nEndOffset) as [Hlt|Hge].
  2:{ intros _. split; [reflexivity|]. split; [exact Hw|]. lia. }
  destruct (Z.geb_spec (length (best_match i)) MIN_MATCH_SIZE) as [Hm|Hm].
  - destruct (match_facts i ltac:(lia) ltac:(lia)) as (Hn & Hvs & Hs & Hos & Hc).
    rewrite Hvs, Hos.
    set (n := u32 (length (best_match i) - MIN_MATCH_SIZE)) in *.
    set (sy := tbl g_nMatchLenSymbol_table n) in *.
    set (c := rfc1951_dist_code (offset (best_match i))) in *.
    destruct (Hparse i ltac:(lia)) as [_ Hp]. destruct (Hp ltac:(lia)) as [Hlen Hoff].
    assert (Hi' : nStartOffset <= i + length (best_match i)) by (unfold MIN_MATCH_SIZE in *; lia).
    pose proof (final_entropy_mono fuel (i + length (best_match i)) (incr E sy) (incr F c) Hi') as Hmono.
    destruct (length_fields_rfc n Hn) as (_ & _ & _ & _ & Hx & _ & Hx').
    destruct (offset_fields_rfc (offset (best_match i)) Hoff) as (_ & _ & _ & _ & Hy & Hy').
    fold sy in Hx. fold c in Hy.
    pose proof (Hlit_l sy ltac:(lia)) as Hls. pose proof (Hoff_l c Hc) as Hlc. fold c in Hy'.
    assert (Hcost : C (incr E sy) (incr F c) =
                    C E F + (nCodeLength lit sy + tbl g_nRevMatchSymbolBits_table (sy - 257)) +
                    (nCodeLength off c + tbl g_nRevOffsetSymbolBits_table c)).
    { rewrite cost_offset, cost_length by lia. reflexivity. }
    rewrite Hx, Hy in Hcost.
    rewrite (proj2 (orb_false_iff _ _)) by (split; [apply Z.ltb_ge|rewrite Z.gtb_ltb; apply Z.ltb_ge]; unfold MIN_OFFSET, MAX_OFFSET; lia).
    destruct (final_entropy_loop pInWindow best_match nEndOffset fuel (i + length (best_match i)) (incr E sy) (incr F c))
      as [E' F'] eqn:EF.
    intros Hroom.
    destruct (zultra_write_varlen lit n w out) as [[r1 w1] o1] eqn:E1.
    destruct (write_varlen_ok lit n w out r1 w1 o1 Hn Hw Hlit_n) as (-> & Hw1 & Hb1 & Hm1);
      [fold sy; lia|fold sy; rewrite Hx; lia|exact E1|].
    fold sy in Hb1. rewrite Hx in Hb1. cbn [Z.ltb Z.compare].
    destruct (zultra_write_offset off (offset (best_match i)) w1 o1) as [[r2 w2] o2] eqn:E2.
    destruct (write_offset_ok off (offset (best_match i)) w1 o1 r2 w2 o2 Hoff Hw1 Hoff_n) as (-> & Hw2 & Hb2 & Hm2);
      [fold c; lia|fold c; rewrite Hy; lia|exact E2|].
    fold c in Hb2. rewrite Hy in Hb2. cbn [Z.ltb Z.compare].
    specialize (IH (i + length (best_match i)) (incr E sy) (incr F c) w2 o2 Hi' Hw2).
    rewrite EF in IH.
    destruct (write_block_loop _ _ _ _ _ _ _ _ _) as [[r3 w3] o3].
    destruct IH as (-> & Hw3 & Hb3 & Hm3); [lia|].
    split; [reflexivity|]. split; [exact Hw3|]. lia.
  - destruct (Hparse i ltac:(lia)) as [Hb _].
    rewrite (proj2 (Z.ltb_lt _ _)) by lia.
    pose proof (final_entropy_mono fuel (i + 1) (incr E (pInWindow i)) F ltac:(lia)) as Hmono.
    pose proof (cost_literal E F (pInWindow i) ltac:(lia)) as Hcost.
    pose proof (Hlit_l (pInWindow i) ltac:(lia)) as Hl.
    destruct (final_entropy_loop pInWindow best_match nEndOffset fuel (i + 1) (incr E (pInWindow i)) F)
      as [E' F'] eqn:EF.
    intros Hroom.
    destruct (zultra_write_literal lit (pInWindow i) w out) as [[r1 w1] o1] eqn:E1.
    destruct (write_literal_ok lit (pInWindow i) w out r1 w1 o1 Hb Hw ltac:(lia) Hl ltac:(lia) E1)
      as (-> & Hw1 & Hb1 & Hm1).
    cbn [Z.ltb Z.compare].
    specialize (IH (i + 1) (incr E (pInWindow i)) F w1 o1 ltac:(lia) Hw1).
    rewrite EF in IH.
    destruct (write_block_loop _ _ _ _ _ _ _ _ _) as [[r3 w3] o3].
    destruct IH as (-> & Hw3 & Hb3 & Hm3); [lia|].
    split; [reflexivity|]. split; [exact Hw3|]. lia.
Qed.

End DataCost.

Lemma set_entropy_twice e a b : set_entropy (set_entropy e a) b = set_entropy e b.
Proof. reflexivity. Qed.

Lemma nEntropy_set_entropy e a : nEntropy (set_entropy e a) = a.
Proof. reflexivity. Qed.

Lemma data_cost_zero lit off :
  evaluate_data_cost (set_entropy lit (fun _ => 0)) (set_entropy off (fun _ => 0)) = 0.
Proof.
  unfold evaluate_data_cost, set_entropy. cbn [nEntropy nCodeLength].
  rewrite !zsum_zero_on by (intros; lia). reflexivity.
Qed.

(** The whole block: [zultra_write_block_lwd] writes exactly the bits the
    data loops of the cost evaluation count on the entropies of
    [zultra_build_final_entropy_lwd]. *)
Lemma write_block_bits_gen lit off pInWindow best_match nStartOffset nEndOffset w out :
  286 <= nSymbols lit -> (forall s, 0 <= s < 286 -> 0 <= nCodeLength lit s <= 16) ->
  30 <= nSymbols off -> (forall s, 0 <= s < 30 -> 0 <= nCodeLength off s <= 16) ->
  (forall j, nStartOffset <= j < nEndOffset ->
     0 <= pInWindow j < 256 /\
     (MIN_MATCH_SIZE <= length (best_match j) -> length (best_match j) <= 258 /\ 1 <= offset (best_match j) <= 32768)) ->
  writer_inv w ->
  let '(lit', off') := zultra_build_final_entropy_lwd (set_entropy lit (fun _ => 0)) (set_entropy off (fun _ => 0))
                         pInWindow best_match nStartOffset nEndOffset in
  bit_position w + evaluate_data_cost lit' off' <= 8 * nMaxOutDataOffset w + 7 ->
  let '(r, w', out') := zultra_write_block_lwd lit off pInWindow best_match nStartOffset nEndOffset w out in
  r = 0 /\ writer_inv w' /\ bit_position w' = bit_position w + evaluate_data_cost lit' off'.
Proof.
  intros Hln Hll Hon Hol Hparse Hw.
  unfold zultra_build_final_entropy_lwd, zultra_write_block_lwd. rewrite !nEntropy_set_entropy.
  pose proof (write_block_loop_bits lit off Hln Hll Hon Hol pInWindow best_match nStartOffset nEndOffset Hparse
                (Z.to_nat (nEndOffset - nStartOffset)) nStartOffset (fun _ => 0) (fun _ => 0) w out
                ltac:(lia) Hw) as H.
  pose proof (final_entropy_mono lit off Hll Hol pInWindow best_match nStartOffset nEndOffset Hparse
                (Z.to_nat (nEndOffset - nStartOffset)) nStartOffset (fun _ => 0) (fun _ => 0) ltac:(lia)) as Hmono.
  rewrite data_cost_zero in H, Hmono.
  destruct (final_entropy_loop _ _ _ _ _ _ _) as [E F].
  rewrite !set_entropy_twice.
  rewrite cost_literal by (unfold NEODMARKERSYM; lia).
  pose proof (Hll NEODMARKERSYM ltac:(unfold NEODMARKERSYM; lia)) as Hl.
  intros Hroom.
  destruct (write_block_loop _ _ _ _ _ _ _ _ _) as [[r1 w1] o1].
  destruct H as (-> & Hw1 & Hb1 & Hm1); [lia|]. cbn [Z.ltb Z.compare].
  destruct (zultra_huffman_encoder_write_codeword lit NEODMARKERSYM w1 o1) as [[r2 w2] o2] eqn:E2.
  destruct (write_codeword_ok lit NEODMARKERSYM w1 o1 r2 w2 o2 Hw1 ltac:(unfold NEODMARKERSYM; lia) Hl
              ltac:(lia) E2) as (-> & Hw2 & Hb2 & _).
  cbn [Z.ltb Z.compare]. split; [reflexivity|]. split; [exact Hw2|]. lia.
Qed.

Lemma final_entropy_lengths lit off pInWindow best_match nStartOffset nEndOffset :
  let '(lit', off') := zultra_build_final_entropy_lwd lit off pInWindow best_match nStartOffset nEndOffset in
  nCodeLength lit' = nCodeLength lit /\ nCodeLength off' = nCodeLength off.
Proof.
  unfold zultra_build_final_entropy_lwd. destruct (final_entropy_loop _ _ _ _ _ _ _). split; reflexivity.
Qed.

(** ** Extra properties *)

(** [zultra_write_offset] sends every distance in [1..32768] as RFC 1951
    3.2.5 prescribes: the code of its distance code (one of 0..29), then
    the distance minus that code's base in the code's number of extra
    bits, a value that fits in them; [zultra_get_offset_symbol] returns
    the same distance code. *)
Theorem write_offset_rfc off d w out : 1 <= d <= 32768 ->
  zultra_write_offset off d w out = rfc1951_write_distance off d w out /\
  zultra_get_offset_symbol d = rfc1951_dist_code d /\ 0 <= rfc1951_dist_code d < 30 /\
  0 <= d - nth (Z.to_nat (rfc1951_dist_code d)) rfc1951_dist_base 0 <
       2 ^ nth (Z.to_nat (rfc1951_dist_code d)) rfc1951_dist_extra 0.
Proof.
  intros Hd. destruct (offset_fields_rfc d Hd) as (Hf & Hc & Hb & Hs & _ & _).
  split; [|split; [exact Hs|split; assumption]].
  unfold zultra_write_offset, rfc1951_write_distance. rewrite Hf. rewrite u32_id.
  - reflexivity.
  - pose proof (Z.pow_le_mono_r 2 (nth (Z.to_nat (rfc1951_dist_code d)) rfc1951_dist_extra 0) 32).
    destruct (offset_fields_rfc d Hd) as (_ & _ & _ & _ & _ & Hx). lia.
Qed.

Lemma write_offset_rfc_witness :
  1 <= 1000 <= 32768 /\
  zultra_write_offset (mkEncoder 32 15 (fun _ => 0) (fun _ => 0) (fun _ => 5)) 1000 (mkBitWriter 0 0 0 16) (fun _ => 0) =
    rfc1951_write_distance (mkEncoder 32 15 (fun _ => 0) (fun _ => 0) (fun _ => 5)) 1000 (mkBitWriter 0 0 0 16) (fun _ => 0) /\
  zultra_get_offset_symbol 1000 = rfc1951_dist_code 1000 /\ 0 <= rfc1951_dist_code 1000 < 30 /\
  0 <= 1000 - nth (Z.to_nat (rfc1951_dist_code 1000)) rfc1951_dist_base 0 <
       2 ^ nth (Z.to_nat (rfc1951_dist_code 1000)) rfc1951_dist_extra 0.
Proof. split; [lia|]. apply write_offset_rfc. lia. Defined.

(** [zultra_write_varlen] sends every encoded match length [n] in
    [0..255] (a match of [n + 3] bytes) as RFC 1951 3.2.5 prescribes: the
    code of its length code (one of 257..285), then the length minus that
    code's base in the code's number of extra bits, a value that fits in
    them; [zultra_get_varlen_symbol] returns the same length code. *)
Theorem write_varlen_rfc lit n w out : 0 <= n <= 255 ->
  zultra_write_varlen lit n w out = rfc1951_write_length lit (n + 3) w out /\
  zultra_get_varlen_symbol n = rfc1951_length_code (n + 3) /\ 257 <= rfc1951_length_code (n + 3) < 286 /\
  0 <= n + 3 - nth (Z.to_nat (rfc1951_length_code (n + 3) - 257)) rfc1951_length_base 0 <
       2 ^ nth (Z.to_nat (rfc1951_length_code (n + 3) - 257)) rfc1951_length_extra 0.
Proof.
  intros Hn. destruct (length_fields_rfc n Hn) as (Hs & Hb & Hx & Hd & _ & Hr & Hx').
  rewrite <- Hs, <- Hb, <- Hx. rewrite varlen_symbol_small by exact Hn.
  split; [|split; [reflexivity|split; [exact Hr|lia]]].
  unfold zultra_write_varlen, rfc1951_write_length. rewrite <- Hs, <- Hb, <- Hx.
  rewrite (u32_id n) by lia. rewrite Z.gtb_ltb, (proj2 (Z.ltb_ge _ _)) by lia.
  rewrite u32_id by (pose proof (Z.pow_le_mono_r 2 (tbl g_nMatchLenExtraBits_table n) 32); lia).
  replace (n + 3 - (tbl g_nMatchLenBase_table n + 3)) with (n - tbl g_nMatchLenBase_table n) by lia.
  reflexivity.
Qed.

Lemma write_varlen_rfc_witness :
  0 <= 100 <= 255 /\
  zultra_write_varlen (mkEncoder 288 15 (fun _ => 0) (fun _ => 0) (fun _ => 8)) 100 (mkBitWriter 0 0 0 16) (fun _ => 0) =
    rfc1951_write_length (mkEncoder 288 15 (fun _ => 0) (fun _ => 0) (fun _ => 8)) (100 + 3) (mkBitWriter 0 0 0 16) (fun _ => 0) /\
  zultra_get_varlen_symbol 100 = rfc1951_length_code (100 + 3) /\ 257 <= rfc1951_length_code (100 + 3) < 286 /\
  0 <= 100 + 3 - nth (Z.to_nat (rfc1951_length_code (100 + 3) - 257)) rfc1951_length_base 0 <
       2 ^ nth (Z.to_nat (rfc1951_length_code (100 + 3) - 257)) rfc1951_length_extra 0.
Proof. split; [lia|]. apply write_varlen_rfc. lia. Defined.

(** An offset outside [1..32768] (as an [unsigned int]) is refused:
    [zultra_write_offset] returns -1 and leaves the writer and the output
    untouched, and [zultra_get_offset_symbol] and [zultra_get_offset_size]
    return the out-of-range value [NOFFSETSYMS]. *)
Theorem write_offset_out_of_range off (L : array) d w out :
  0 <= d < 2 ^ 32 -> d < 1 \/ 32768 < d ->
  zultra_write_offset off d w out = (-1, w, out) /\
  zultra_get_offset_symbol d = NOFFSETSYMS /\ zultra_get_offset_size L d = NOFFSETSYMS.
Proof.
  intros Hd Hr.
  assert (Hu : 32768 <= u32 (d - 1)).
  { unfold u32. destruct Hr as [Hr|Hr].
    - replace d with 0 by lia. change ((0 - 1) mod 2 ^ 32) with 4294967295. lia.
    - rewrite Z.mod_small by lia. lia. }
  assert (Hf : offset_fields d = None).
  { unfold offset_fields. rewrite (proj2 (Z.ltb_ge _ _)) by lia. rewrite (proj2 (Z.ltb_ge _ _)) by lia. reflexivity. }
  split; [unfold zultra_write_offset; rewrite Hf; reflexivity|].
  split; [|rewrite offset_size_fields, Hf; reflexivity].
  unfold zultra_get_offset_symbol. rewrite (proj2 (Z.ltb_ge _ _)) by lia. rewrite (proj2 (Z.ltb_ge _ _)) by lia.
  reflexivity.
Qed.

Lemma write_offset_out_of_range_witness :
  0 <= 40000 < 2 ^ 32 /\ (40000 < 1 \/ 32768 < 40000) /\
  zultra_write_offset (mkEncoder 32 15 (fun _ => 0) (fun _ => 0) (fun _ => 5)) 40000 (mkBitWriter 0 0 0 16) (fun _ => 0) =
    (-1, mkBitWriter 0 0 0 16, fun _ => 0) /\
  zultra_get_offset_symbol 40000 = NOFFSETSYMS /\ zultra_get_offset_size (fun _ => 5) 40000 = NOFFSETSYMS.
Proof. split; [lia|]. split; [lia|]. apply write_offset_out_of_range; lia. Defined.

(** The price the optimal parser charges for an offset in [1..32768],
    [zultra_get_offset_size], is exactly the number of bits
    [zultra_write_offset] then writes: with a writer in its invariant, code
    lengths of at most 16 and room for those bits, the write succeeds and
    advances the bit position by that price. *)
Theorem write_offset_size off d w out :
  1 <= d <= 32768 -> writer_inv w -> 30 <= nSymbols off ->
  (forall s, 0 <= s < 30 -> 0 <= nCodeLength off s <= 16) ->
  bit_position w + zultra_get_offset_size (nCodeLength off) d <= 8 * nMaxOutDataOffset w + 7 ->
  let '(r, w', out') := zultra_write_offset off d w out in
  r = 0 /\ writer_inv w' /\ bit_position w' = bit_position w + zultra_get_offset_size (nCodeLength off) d.
Proof.
  intros Hd Hw Hn Hl Hr.
  destruct (offset_fields_rfc d Hd) as (Hf & Hc & _ & _ & Hx & _).
  rewrite offset_size_fields, Hf, <- Hx in Hr |- *.
  destruct (zultra_write_offset off d w out) as [[r w'] out'] eqn:E.
  destruct (write_offset_ok off d w out r w' out' Hd Hw Hn (Hl _ Hc) ltac:(lia) E) as (-> & Hw' & Hb & _).
  split; [reflexivity|split; [exact Hw'|lia]].
Qed.

Lemma write_offset_size_witness :
  let off := mkEncoder 32 15 (fun _ => 0) (fun _ => 0) (fun _ => 5) in
  let '(r, w', out') := zultra_write_offset off 1000 (mkBitWriter 3 0 0 4) (fun _ => 0) in
  r = 0 /\ writer_inv w' /\ bit_position w' = bit_position (mkBitWriter 3 0 0 4) + zultra_get_offset_size (nCodeLength off) 1000.
Proof.
  apply write_offset_size.
  - lia.
  - unfold writer_inv. cbn. lia.
  - cbn. lia.
  - intros s _. cbn. lia.
  - vm_compute. discriminate.
Defined.

(** Likewise for an encoded match length in [0..255]: the parser's
    price [zultra_get_varlen_size] is exactly the number of bits
    [zultra_write_varlen] writes. *)
Theorem write_varlen_size lit n w out :
  0 <= n <= 255 -> writer_inv w -> 286 <= nSymbols lit ->
  (forall s, 257 <= s < 286 -> 0 <= nCodeLength lit s <= 16) ->
  bit_position w + zultra_get_varlen_size (nCodeLength lit) n <= 8 * nMaxOutDataOffset w + 7 ->
  let '(r, w', out') := zultra_write_varlen lit n w out in
  r = 0 /\ writer_inv w' /\ bit_position w' = bit_position w + zultra_get_varlen_size (nCodeLength lit) n.
Proof.
  intros Hn Hw Hs Hl Hr.
  destruct (length_fields_rfc n Hn) as (_ & _ & _ & _ & Hx & Hsr & _).
  assert (Hsz : zultra_get_varlen_size (nCodeLength lit) n =
                nCodeLength lit (tbl g_nMatchLenSymbol_table n) +
                tbl g_nRevMatchSymbolBits_table (tbl g_nMatchLenSymbol_table n - 257)).
  { unfold zultra_get_varlen_size. rewrite u32_id by lia.
    rewrite Z.gtb_ltb, (proj2 (Z.ltb_ge _ _)) by lia. rewrite Hx. reflexivity. }
  rewrite Hsz in Hr |- *.
  destruct (zultra_write_varlen lit n w out) as [[r w'] out'] eqn:E.
  destruct (write_varlen_ok lit n w out r w' out' Hn Hw Hs (Hl _ Hsr) ltac:(lia) E) as (-> & Hw' & Hb & _).
  split; [reflexivity|split; [exact Hw'|lia]].
Qed.

Lemma write_varlen_size_witness :
  let lit := mkEncoder 288 15 (fun _ => 0) (fun _ => 0) (fun _ => 8) in
  let '(r, w', out') := zultra_write_varlen lit 100 (mkBitWriter 3 0 0 4) (fun _ => 0) in
  r = 0 /\ writer_inv w' /\ bit_position w' = bit_position (mkBitWriter 3 0 0 4) + zultra_get_varlen_size (nCodeLength lit) 100.
Proof.
  apply write_varlen_size.
  - lia.
  - unfold writer_inv. cbn. lia.
  - cbn. lia.
  - intros s _. cbn. lia.
  - vm_compute. discriminate.
Defined.

(** And for a literal byte: [zultra_get_literal_size] is exactly the
    number of bits [zultra_write_literal] writes. *)
Theorem write_literal_size lit b w out :
  0 <= b < 256 -> writer_inv w -> 256 <= nSymbols lit -> 0 <= nCodeLength lit b <= 16 ->
  bit_position w + zultra_get_literal_size (nCodeLength lit) b <= 8 * nMaxOutDataOffset w + 7 ->
  let '(r, w', out') := zultra_write_literal lit b w out in
  r = 0 /\ writer_inv w' /\ bit_position w' = bit_position w + zultra_get_literal_size (nCodeLength lit) b.
Proof.
  intros Hb Hw Hs Hl Hr. unfold zultra_get_literal_size in *.
  rewrite (proj2 (Z.ltb_lt _ _)) in Hr |- * by lia.
  destruct (zultra_write_literal lit b w out) as [[r w'] out'] eqn:E.
  destruct (write_literal_ok lit b w out r w' out' Hb Hw Hs Hl Hr E) as (-> & Hw' & Hb' & _).
  auto.
Qed.

Lemma write_literal_size_witness :
  let lit := mkEncoder 288 15 (fun _ => 0) (fun _ => 0) (fun _ => 8) in
  let '(r, w', out') := zultra_write_literal lit 65 (mkBitWriter 3 0 0 4) (fun _ => 0) in
  r = 0 /\ writer_inv w' /\ bit_position w' = bit_position (mkBitWriter 3 0 0 4) + zultra_get_literal_size (nCodeLength lit) 65.
Proof.
  apply write_literal_size.
  - lia.
  - unfold writer_inv. cbn. lia.
  - cbn. lia.
  - cbn. lia.
  - vm_compute. discriminate.
Defined.

(** [zultra_write_block_lwd] writes exactly the number of bits that the
    data loops of [zultra_block_evaluate_dynamic_cost] count for the same
    parse: on entropies counted from zero by
    [zultra_build_final_entropy_lwd], with code lengths of at most 16, a
    parse of bytes and of matches of 3..258 bytes at offsets 1..32768, a
    writer in its invariant and room for those bits, the write succeeds
    and advances the bit position by that count (end-of-block marker
    included). *)
Theorem write_block_lwd_bits lit off pInWindow best_match nStartOffset nEndOffset w out :
  286 <= nSymbols lit -> (forall s, 0 <= s < 286 -> 0 <= nCodeLength lit s <= 16) ->
  30 <= nSymbols off -> (forall s, 0 <= s < 30 -> 0 <= nCodeLength off s <= 16) ->
  (forall j, nStartOffset <= j < nEndOffset ->
     0 <= pInWindow j < 256 /\
     (MIN_MATCH_SIZE <= length (best_match j) -> length (best_match j) <= 258 /\ 1 <= offset (best_match j) <= 32768)) ->
  writer_inv w ->
  let ent := zultra_build_final_entropy_lwd (set_entropy lit (fun _ => 0)) (set_entropy off (fun _ => 0))
               pInWindow best_match nStartOffset nEndOffset in
  bit_position w + evaluate_data_cost (fst ent) (snd ent) <= 8 * nMaxOutDataOffset w + 7 ->
  let '(r, w', out') := zultra_write_block_lwd lit off pInWindow best_match nStartOffset nEndOffset w out in
  r = 0 /\ writer_inv w' /\ bit_position w' = bit_position w + evaluate_data_cost (fst ent) (snd ent).
Proof.
  intros Hln Hll Hon Hol Hparse Hw ent.
  pose proof (write_block_bits_gen lit off pInWindow best_match nStartOffset nEndOffset w out Hln Hll Hon Hol Hparse Hw) as H.
  unfold ent. destruct (zultra_build_final_entropy_lwd _ _ _ _ _ _) as [lit' off']. exact H.
Qed.

Lemma write_block_lwd_bits_witness :
  let lit := mkEncoder 288 15 (fun _ => 0) (fun _ => 0) (fun s => if s <? 144 then 8 else 9) in
  let off := mkEncoder 32 15 (fun _ => 0) (fun _ => 0) (fun _ => 5) in
  let best_match := fun j => if j =? 2 then mkMatch 5 2 else mkMatch 0 0 in
  let ent := zultra_build_final_entropy_lwd (set_entropy lit (fun _ => 0)) (set_entropy off (fun _ => 0))
               (fun j => j mod 256) best_match 0 10 in
  let '(r, w', out') := zultra_write_block_lwd lit off (fun j => j mod 256) best_match 0 10 (mkBitWriter 0 0 0 100) (fun _ => 0) in
  r = 0 /\ writer_inv w' /\ bit_position w' = bit_position (mkBitWriter 0 0 0 100) + evaluate_data_cost (fst ent) (snd ent).
Proof.
  intros lit off best_match ent.
  apply (write_block_lwd_bits lit off (fun j => j mod 256) best_match 0 10 (mkBitWriter 0 0 0 100) (fun _ => 0)).
  - cbn. lia.
  - intros s _. cbn. destruct (s <? 144); lia.
  - cbn. lia.
  - intros s _. cbn. lia.
  - intros j Hj. split; [pose proof (Z.mod_pos_bound j 256 ltac:(lia)); lia|].
    unfold best_match. destruct (j =? 2); cbn; unfold MIN_MATCH_SIZE; lia.
  - unfold writer_inv. cbn. lia.
  - vm_compute. discriminate.
Defined.

(** For the static tables, [zultra_block_evaluate_static_cost] minus its
    3 header bits is exactly the number of bits [zultra_write_block_lwd]
    writes: with the literal code lengths of RFC 1951 3.2.6 and offset
    code lengths of 5, on entropies counted from zero by
    [zultra_build_final_entropy_lwd], a parse as above, a writer in its
    invariant and room for those bits, the write succeeds and advances the
    bit position by that cost. *)
Theorem write_block_lwd_static_bits lit off pInWindow best_match nStartOffset nEndOffset w out :
  286 <= nSymbols lit -> (forall s, 0 <= s < 288 -> nCodeLength lit s = nStaticLiteralCodeLength s) ->
  30 <= nSymbols off -> (forall s, 0 <= s < 32 -> nCodeLength off s = 5) ->
  (forall j, nStartOffset <= j < nEndOffset ->
     0 <= pInWindow j < 256 /\
     (MIN_MATCH_SIZE <= length (best_match j) -> length (best_match j) <= 258 /\ 1 <= offset (best_match j) <= 32768)) ->
  writer_inv w ->
  let ent := zultra_build_final_entropy_lwd (set_entropy lit (fun _ => 0)) (set_entropy off (fun _ => 0))
               pInWindow best_match nStartOffset nEndOffset in
  bit_position w + (zultra_block_evaluate_static_cost (fst ent) (snd ent) - 3) <= 8 * nMaxOutDataOffset w + 7 ->
  let '(r, w', out') := zultra_write_block_lwd lit off pInWindow best_match nStartOffset nEndOffset w out in
  r = 0 /\ writer_inv w' /\ bit_position w' = bit_position w + (zultra_block_evaluate_static_cost (fst ent) (snd ent) - 3).
Proof.
  intros Hln Hll Hon Hol Hparse Hw ent.
  assert (Hll' : forall s, 0 <= s < 286 -> 0 <= nCodeLength lit s <= 16).
  { intros s Hs. rewrite Hll by lia. unfold nStaticLiteralCodeLength.
    destruct (s <? 144), (s <? 256), (s <? 280); lia. }
  assert (Hol' : forall s, 0 <= s < 30 -> 0 <= nCodeLength off s <= 16).
  { intros s Hs. rewrite Hol by lia. lia. }
  pose proof (write_block_bits_gen lit off pInWindow best_match nStartOffset nEndOffset w out Hln Hll' Hon Hol' Hparse Hw) as H.
  pose proof (final_entropy_lengths (set_entropy lit (fun _ => 0)) (set_entropy off (fun _ => 0))
                pInWindow best_match nStartOffset nEndOffset) as HL.
  unfold ent. destruct (zultra_build_final_entropy_lwd _ _ _ _ _ _) as [lit' off']. cbn [fst snd].
  destruct HL as [HL1 HL2]. cbn [nCodeLength set_entropy] in HL1, HL2.
  assert (Hc : zultra_block_evaluate_static_cost lit' off' = evaluate_data_cost lit' off' + 3).
  { unfold zultra_block_evaluate_static_cost, evaluate_data_cost.
    rewrite (zsum_ext_in (fun i => nEntropy lit' i * nStaticLiteralCodeLength i)
                         (fun i => nEntropy lit' i * nCodeLength lit' i)).
    2:{ intros x Hx. apply in_zseq_Z in Hx; [|unfold NMATCHLENSYMSTART; lia].
        rewrite HL1, Hll by (unfold NMATCHLENSYMSTART in Hx; lia). reflexivity. }
    rewrite (zsum_ext_in (fun i => nEntropy lit' i * (nStaticLiteralCodeLength i + tbl g_nRevMatchSymbolBits_table (i - NMATCHLENSYMSTART)))
                         (fun i => nEntropy lit' i * (nCodeLength lit' i + tbl g_nRevMatchSymbolBits_table (i - NMATCHLENSYMSTART)))).
    2:{ intros x Hx. apply in_zseq_Z in Hx; [|unfold NMATCHLENSYMS; lia].
        rewrite HL1, Hll by (unfold NMATCHLENSYMSTART, NMATCHLENSYMS in Hx; lia). reflexivity. }
    rewrite (zsum_ext_in (fun i => nEntropy off' i * (5 + tbl g_nRevOffsetSymbolBits_table i))
                         (fun i => nEntropy off' i * (nCodeLength off' i + tbl g_nRevOffsetSymbolBits_table i))).
    2:{ intros x Hx. apply in_zseq_Z in Hx; [|unfold NOFFSETSYMS; lia].
        rewrite HL2, Hol by (unfold NOFFSETSYMS in Hx; lia). reflexivity. }
    lia. }
  rewrite Hc. replace (evaluate_data_cost lit' off' + 3 - 3) with (evaluate_data_cost lit' off') by lia.
  exact H.
Qed.

Lemma write_block_lwd_static_bits_witness :
  let lit := mkEncoder 288 15 (fun _ => 0) (fun _ => 0) nStaticLiteralCodeLength in
  let off := mkEncoder 32 15 (fun _ => 0) (fun _ => 0) (fun _ => 5) in
  let best_match := fun j => if j =? 2 then mkMatch 5 2 else mkMatch 0 0 in
  let ent := zultra_build_final_entropy_lwd (set_entropy lit (fun _ => 0)) (set_entropy off (fun _ => 0))
               (fun j => j mod 256) best_match 0 10 in
  let '(r, w', out') := zultra_write_block_lwd lit off (fun j => j mod 256) best_match 0 10 (mkBitWriter 0 0 0 100) (fun _ => 0) in
  r = 0 /\ writer_inv w' /\ bit_position w' = bit_position (mkBitWriter 0 0 0 100) + (zultra_block_evaluate_static_cost (fst ent) (snd ent) - 3).
Proof.
  intros lit off best_match ent.
  apply (write_block_lwd_static_bits lit off (fun j => j mod 256) best_match 0 10 (mkBitWriter 0 0 0 100) (fun _ => 0)).
  - cbn. lia.
  - intros s _. reflexivity.
  - cbn. lia.
  - intros s _. reflexivity.
  - intros j Hj. split; [pose proof (Z.mod_pos_bound j 256 ltac:(lia)); lia|].
    unfold best_match. destruct (j =? 2); cbn; unfold MIN_MATCH_SIZE; lia.
  - unfold writer_inv. cbn. lia.
  - vm_compute. discriminate.
Defined.

End DeflateProofs.


Module DeflateProofs2.
Import BitWriter Huffman Parser CodeLengths Deflate HuffmanProofs BitWriterProofs CodeLengthsProofs2 DeflateProofs.

Lemma varlen_size_eq (L : array) n : 0 <= n <= 255 ->
  zultra_get_varlen_size L n =
    L (tbl g_nMatchLenSymbol_table n) + tbl g_nRevMatchSymbolBits_table (tbl g_nMatchLenSymbol_table n - 257).
Proof.
  intros Hn. destruct (length_fields_rfc n Hn) as (_ & _ & _ & _ & Hx & _).
  unfold zultra_get_varlen_size. rewrite u32_id by lia.
  rewrite Z.gtb_ltb, (proj2 (Z.ltb_ge _ _)) by lia. rewrite Hx. reflexivity.
Qed.

Lemma offset_size_eq (L : array) d : 1 <= d <= 32768 ->
  zultra_get_offset_size L d = L (rfc1951_dist_code d) + tbl g_nRevOffsetSymbolBits_table (rfc1951_dist_code d).
Proof.
  intros Hd. destruct (offset_fields_rfc d Hd) as (Hf & _ & _ & _ & Hx & _).
  rewrite offset_size_fields, Hf, Hx. reflexivity.
Qed.

Lemma literals_cost_loop_spec (L pIn : array) s len cost : forall fuel j acc,
  Z.of_nat fuel = len - j ->
  let r := literals_cost_loop L pIn s len cost fuel j acc in
  r = -1 \/ cost <= r \/ r = acc + zsum (fun x => L (pIn x)) (zseq (s + j) fuel).
Proof.
  induction fuel as [|f IH]; intros j acc Hf; cbn [literals_cost_loop].
  - right; right. cbn. lia.
  - rewrite (proj2 (Z.ltb_lt j len)) by lia. cbn [andb].
    destruct (Z.ltb_spec acc cost) as [Hc|Hc]; [|right; left; lia].
    destruct (Z.eqb_spec (L (pIn (s + j))) 0) as [H0|H0]; [left; reflexivity|].
    destruct (IH (j + 1) (acc + L (pIn (s + j))) ltac:(lia)) as [H|[H|H]]; [left; exact H|right; left; exact H|].
    right; right. rewrite H. cbn [zseq zsum fold_right]. fold (zsum (fun x => L (pIn x)) (zseq (s + j + 1) f)).
    replace (s + (j + 1)) with (s + j + 1) by lia. lia.
Qed.

Lemma clear_match_loop_spec s len : forall fuel j bm, Z.of_nat fuel = len - j ->
  forall x, clear_match_loop bm s len fuel j x =
            if (s + j <=? x) && (x <? s + len) then mkMatch 0 (offset (bm x)) else bm x.
Proof.
  induction fuel as [|f IH]; intros j bm Hf x; cbn [clear_match_loop].
  - destruct (Z.leb_spec (s + j) x), (Z.ltb_spec x (s + len)); cbn [andb]; try reflexivity; lia.
  - rewrite (proj2 (Z.ltb_lt j len)) by lia. rewrite IH by lia. unfold updm.
    destruct (Z.eqb_spec x (s + j)) as [->|Hx].
    + rewrite (proj2 (Z.leb_gt (s + (j + 1)) (s + j))) by lia.
      rewrite (proj2 (Z.leb_le (s + j) (s + j))), (proj2 (Z.ltb_lt (s + j) (s + len))) by lia. reflexivity.
    + destruct (Z.leb_spec (s + (j + 1)) x), (Z.leb_spec (s + j) x), (Z.ltb_spec x (s + len));
        cbn [andb]; try reflexivity; lia.
Qed.

Section PostOptimize.
Variables lit off : zultra_huffman_encoder_t.
Variables (pInWindow : array) (nStartOffset nEndOffset : Z).

Local Notation C E F := (evaluate_data_cost (set_entropy lit E) (set_entropy off F)).
Local Notation ENT bm fuel i E F := (final_entropy_loop pInWindow bm nEndOffset fuel i E F).
Local Notation po := (post_optimize_loop (nCodeLength lit) (nCodeLength off) pInWindow nEndOffset).
Local Notation valid bm := (forall j, nStartOffset <= j < nEndOffset ->
  0 <= pInWindow j < 256 /\
  (MIN_MATCH_SIZE <= length (bm j) ->
   length (bm j) <= 258 /\ 1 <= offset (bm j) <= 32768 /\ j + length (bm j) <= nEndOffset)).

Lemma valid_parse (bm : Z -> zultra_match_t) : valid bm ->
  forall j, nStartOffset <= j < nEndOffset ->
  0 <= pInWindow j < 256 /\
  (MIN_MATCH_SIZE <= length (bm j) -> length (bm j) <= 258 /\ 1 <= offset (bm j) <= 32768).
Proof. intros Hv j Hj. destruct (Hv j Hj) as [Hb Hm]. split; [exact Hb|]. intros H. specialize (Hm H). lia. Qed.

Lemma ent_step_match bm f i E F : i < nEndOffset -> MIN_MATCH_SIZE <= length (bm i) ->
  ENT bm (S f) i E F =
  ENT bm f (i + length (bm i)) (incr E (zultra_get_varlen_symbol (u32 (length (bm i) - MIN_MATCH_SIZE))))
      (incr F (zultra_get_offset_symbol (offset (bm i)))).
Proof.
  intros Hi Hm. cbn [final_entropy_loop]. rewrite (proj2 (Z.ltb_lt _ _)) by exact Hi.
  rewrite Z.geb_leb, (proj2 (Z.leb_le _ _)) by exact Hm. reflexivity.
Qed.

Lemma ent_step_lit bm f i E F : i < nEndOffset -> length (bm i) < MIN_MATCH_SIZE -> 0 <= pInWindow i < 256 ->
  ENT bm (S f) i E F = ENT bm f (i + 1) (incr E (pInWindow i)) F.
Proof.
  intros Hi Hm Hb. cbn [final_entropy_loop]. rewrite (proj2 (Z.ltb_lt _ _)) by exact Hi.
  rewrite Z.geb_leb, (proj2 (Z.leb_gt _ _)) by exact Hm. rewrite (proj2 (Z.ltb_lt _ _)) by lia. reflexivity.
Qed.

Lemma ent_frame : forall fuel i bm1 bm2 E F, (forall x, i <= x -> bm1 x = bm2 x) ->
  ENT bm1 fuel i E F = ENT bm2 fuel i E F.
Proof.
  induction fuel as [|f IH]; intros i bm1 bm2 E F Hx; cbn [final_entropy_loop]; [reflexivity|].
  rewrite (Hx i ltac:(lia)).
  destruct (i <? nEndOffset); [|reflexivity].
  destruct (Z.geb_spec (length (bm2 i)) MIN_MATCH_SIZE) as [Hm|Hm].
  - apply IH. intros x Hx'. apply Hx. unfold MIN_MATCH_SIZE in Hm. lia.
  - destruct (pInWindow i <? 256); apply IH; intros x Hx'; apply Hx; lia.
Qed.

Lemma ent_fuel : forall fuel k i bm E F, nEndOffset - i <= Z.of_nat fuel ->
  ENT bm (fuel + k) i E F = ENT bm fuel i E F.
Proof.
  induction fuel as [|f IH]; intros k i bm E F Hf.
  - destruct k; cbn [Nat.add final_entropy_loop]; [reflexivity|].
    rewrite (proj2 (Z.ltb_ge _ _)) by lia. reflexivity.
  - cbn [Nat.add final_entropy_loop].
    destruct (Z.ltb_spec i nEndOffset); [|reflexivity].
    destruct (Z.geb_spec (length (bm i)) MIN_MATCH_SIZE) as [Hm|Hm].
    + apply IH. unfold MIN_MATCH_SIZE in Hm. lia.
    + destruct (pInWindow i <? 256); apply IH; lia.
Qed.

Lemma ent_linear : forall fuel i bm E F E2 F2, nStartOffset <= i -> valid bm ->
  C (fst (ENT bm fuel i E F)) (snd (ENT bm fuel i E F)) - C E F =
  C (fst (ENT bm fuel i E2 F2)) (snd (ENT bm fuel i E2 F2)) - C E2 F2.
Proof.
  induction fuel as [|f IH]; intros i bm E F E2 F2 Hi Hv; [cbn; lia|].
  destruct (Z.ltb_spec i nEndOffset) as [Hlt|Hge].
  2:{ cbn [final_entropy_loop]. rewrite (proj2 (Z.ltb_ge _ _)) by lia. cbn [fst snd]. lia. }
  destruct (Z.leb_spec MIN_MATCH_SIZE (length (bm i))) as [Hm|Hm].
  - destruct (match_facts pInWindow bm nStartOffset nEndOffset (valid_parse bm Hv) i ltac:(lia) Hm)
      as (Hn & Hvs & Hs & Hos & Hc).
    rewrite !ent_step_match by assumption. rewrite Hvs, Hos.
    set (s := tbl g_nMatchLenSymbol_table (u32 (length (bm i) - MIN_MATCH_SIZE))) in *.
    set (c := rfc1951_dist_code (offset (bm i))) in *.
    pose proof (IH (i + length (bm i)) bm (incr E s) (incr F c) (incr E2 s) (incr F2 c)
                   ltac:(unfold MIN_MATCH_SIZE in Hm; lia) Hv) as HI.
    rewrite !cost_offset, !cost_length in HI by lia. lia.
  - destruct (Hv i ltac:(lia)) as [Hb _].
    rewrite !ent_step_lit by assumption.
    pose proof (IH (i + 1) bm (incr E (pInWindow i)) F (incr E2 (pInWindow i)) F2 ltac:(lia) Hv) as HI.
    rewrite !cost_literal in HI by lia. lia.
Qed.

Lemma ent_literals bm fuel : forall n i E F,
  (forall x, i <= x < i + Z.of_nat n -> length (bm x) < MIN_MATCH_SIZE /\ x < nEndOffset /\ 0 <= pInWindow x < 256) ->
  exists E', ENT bm (n + fuel) i E F = ENT bm fuel (i + Z.of_nat n) E' F /\
             C E' F = C E F + zsum (fun x => nCodeLength lit (pInWindow x)) (zseq i n).
Proof.
  induction n as [|n IH]; intros i E F Hx.
  - exists E. rewrite Z.add_0_r. split; [reflexivity|]. cbn. lia.
  - destruct (Hx i ltac:(lia)) as (Hm & Hlt & Hb).
    change (S n + fuel)%nat with (S (n + fuel)). rewrite ent_step_lit by assumption.
    destruct (IH (i + 1) (incr E (pInWindow i)) F) as (E' & HE & HC).
    { intros x Hx'. apply Hx. lia. }
    exists E'. split.
    + rewrite HE. f_equal. lia.
    + rewrite HC, cost_literal by lia. cbn [zseq zsum fold_right].
      fold (zsum (fun x => nCodeLength lit (pInWindow x)) (zseq (i + 1) n)). lia.
Qed.

Lemma po_frame : forall fuel i bm x, x < i -> po fuel i bm x = bm x.
Proof.
  induction fuel as [|f IH]; intros i bm x Hx; cbn [post_optimize_loop]; [reflexivity|].
  destruct (i <? nEndOffset); [|reflexivity].
  destruct (Z.geb_spec (length (bm i)) MIN_MATCH_SIZE) as [Hm|Hm]; unfold MIN_MATCH_SIZE in Hm.
  - destruct (_ || _); [apply IH; lia|].
    destruct (_ =? -1); [apply IH; lia|].
    destruct (_ <? _); [|apply IH; lia].
    rewrite IH by lia. rewrite clear_match_loop_spec by lia.
    rewrite (proj2 (Z.leb_gt _ _)) by lia. reflexivity.
  - apply IH. lia.
Qed.

Lemma po_shape : forall fuel i bm x,
  po fuel i bm x = bm x \/ (length (po fuel i bm x) = 0 /\ offset (po fuel i bm x) = offset (bm x)).
Proof.
  induction fuel as [|f IH]; intros i bm x; cbn [post_optimize_loop]; [now left|].
  destruct (i <? nEndOffset); [|now left].
  destruct (Z.geb_spec (length (bm i)) MIN_MATCH_SIZE) as [Hm|Hm]; [|apply IH]. unfold MIN_MATCH_SIZE in Hm.
  destruct (_ || _); [apply IH|]. destruct (_ =? -1); [apply IH|]. destruct (_ <? _); [|apply IH].
  set (bm1 := clear_match_loop bm i (length (bm i)) (Z.to_nat (length (bm i))) 0).
  assert (H1 : bm1 x = bm x \/ (length (bm1 x) = 0 /\ offset (bm1 x) = offset (bm x))).
  { unfold bm1. rewrite clear_match_loop_spec by (rewrite Z2Nat.id by lia; lia).
    destruct (_ && _); [right; split; reflexivity|left; reflexivity]. }
  destruct (IH (i + length (bm i)) bm1 x) as [H|H]; rewrite ?H; [exact H1|].
  right. destruct H as [H H']. split; [exact H|]. rewrite H'. destruct H1 as [H1|H1]; [rewrite H1|]; tauto.
Qed.

Lemma po_valid fuel i bm : valid bm -> valid (po fuel i bm).
Proof.
  intros Hv j Hj. destruct (Hv j Hj) as [Hb Hm]. split; [exact Hb|].
  destruct (po_shape fuel i bm j) as [H|[H _]]; rewrite H; [exact Hm|].
  unfold MIN_MATCH_SIZE. lia.
Qed.

Lemma po_cost : forall fuel i bm E F, nStartOffset <= i -> valid bm -> nEndOffset - i <= Z.of_nat fuel ->
  C (fst (ENT (po fuel i bm) fuel i E F)) (snd (ENT (po fuel i bm) fuel i E F)) <=
  C (fst (ENT bm fuel i E F)) (snd (ENT bm fuel i E F)).
Proof.
  induction fuel as [|f IH]; intros i bm E F Hi Hv Hf; [cbn; lia|].
  destruct (Z.ltb_spec i nEndOffset) as [Hlt|Hge].
  2:{ cbn [post_optimize_loop]. rewrite (proj2 (Z.ltb_ge _ _)) by lia. lia. }
  destruct (Hv i ltac:(lia)) as [Hb Hmv].
  destruct (Z.leb_spec MIN_MATCH_SIZE (length (bm i))) as [Hm|Hm].
  - destruct (Hmv Hm) as (Hl & Ho & He).
    destruct (match_facts pInWindow bm nStartOffset nEndOffset (valid_parse bm Hv) i ltac:(lia) Hm)
      as (Hn & Hvs & Hs & Hos & Hc).
    set (len := length (bm i)) in *. set (d := offset (bm i)) in *.
    set (s := tbl g_nMatchLenSymbol_table (u32 (len - MIN_MATCH_SIZE))) in *.
    set (c := rfc1951_dist_code d) in *.
    unfold MIN_MATCH_SIZE in Hm.
    rewrite (ent_step_match bm) by (unfold MIN_MATCH_SIZE; lia). fold len d. rewrite Hvs, Hos.
    cbn [post_optimize_loop]. rewrite (proj2 (Z.ltb_lt _ _)) by lia.
    fold len d. rewrite Z.geb_leb, (proj2 (Z.leb_le _ _)) by (unfold MIN_MATCH_SIZE; lia).
    rewrite (proj2 (Z.ltb_ge d MIN_OFFSET)) by (unfold MIN_OFFSET; lia).
    rewrite Z.gtb_ltb, (proj2 (Z.ltb_ge MAX_OFFSET d)) by (unfold MAX_OFFSET; lia). cbn [orb].
    set (cost := zultra_get_varlen_size _ _ + zultra_get_offset_size _ _).
    set (lc := literals_cost_loop _ _ _ _ _ _ _ _).
    (* the match is kept *)
    assert (Hkept : C (fst (ENT (po f (i + len) bm) (S f) i E F)) (snd (ENT (po f (i + len) bm) (S f) i E F)) <=
                    C (fst (ENT bm f (i + len) (incr E s) (incr F c))) (snd (ENT bm f (i + len) (incr E s) (incr F c)))).
    { assert (Hri : po f (i + len) bm i = bm i) by (apply po_frame; lia).
      rewrite (ent_step_match (po f (i + len) bm)) by (try rewrite Hri; fold len; unfold MIN_MATCH_SIZE; lia).
      rewrite Hri. fold len d. rewrite Hvs, Hos. apply IH; [lia|exact Hv|lia]. }
    destruct (lc =? -1) eqn:E1; [exact Hkept|].
    destruct (Z.ltb_spec lc cost) as [Hlc|Hlc]; [|exact Hkept].
    (* the match is replaced by literals *)
    set (bm1 := clear_match_loop bm i len (Z.to_nat len) 0).
    assert (Hb1 : forall x, bm1 x = if (i + 0 <=? x) && (x <? i + len) then mkMatch 0 (offset (bm x)) else bm x)
      by (intros x; apply clear_match_loop_spec; lia).
    assert (Hv1 : valid bm1).
    { intros j Hj. destruct (Hv j Hj) as [Hbj Hmj]. split; [exact Hbj|]. rewrite Hb1.
      destruct (_ && _); [cbn [length]; unfold MIN_MATCH_SIZE; lia|exact Hmj]. }
    set (r := po f (i + len) bm1).
    assert (Hr : forall x, x < i + len -> r x = bm1 x) by (intros x Hx; apply po_frame; exact Hx).
    destruct (literals_cost_loop_spec (nCodeLength lit) pInWindow i len cost (Z.to_nat len) 0 0
                ltac:(rewrite Z2Nat.id; lia)) as [H|[H|H]]; fold lc in H.
    { rewrite H in E1. discriminate. }
    { lia. }
    rewrite Z.add_0_r, Z.add_0_l in H.
    destruct (ent_literals r (S f - Z.to_nat len) (Z.to_nat len) i E F) as (E' & HE & HC).
    { intros x Hx. rewrite Z2Nat.id in Hx by lia. rewrite Hr, Hb1 by lia.
      rewrite (proj2 (Z.leb_le _ _)), (proj2 (Z.ltb_lt _ _)) by lia. cbn [andb length].
      destruct (Hv x ltac:(lia)) as [Hbx _]. unfold MIN_MATCH_SIZE. lia. }
    replace (S f) with (Z.to_nat len + (S f - Z.to_nat len))%nat by lia.
    rewrite HE, Z2Nat.id by lia.
    rewrite <- (ent_fuel (S f - Z.to_nat len) (f - (S f - Z.to_nat len)) (i + len) r E' F) by lia.
    replace (S f - Z.to_nat len + (f - (S f - Z.to_nat len)))%nat with f by lia.
    pose proof (IH (i + len) bm1 E' F ltac:(lia) Hv1 ltac:(lia)) as HI. fold r in HI.
    rewrite (ent_frame f (i + len) bm1 bm) in HI.
    2:{ intros x Hx. rewrite Hb1. rewrite (proj2 (Z.ltb_ge x _)) by lia. rewrite andb_false_r. reflexivity. }
    pose proof (ent_linear f (i + len) bm E' F (incr E s) (incr F c) ltac:(lia) Hv) as HL.
    rewrite cost_offset, cost_length in HL by lia.
    assert (Hcost : cost = nCodeLength lit s + tbl g_nRevMatchSymbolBits_table (s - NMATCHLENSYMSTART) +
                           (nCodeLength off c + tbl g_nRevOffsetSymbolBits_table c)).
    { unfold cost, s, c. rewrite varlen_size_eq, offset_size_eq by lia.
      unfold NMATCHLENSYMSTART. reflexivity. }
    lia.
  - assert (Hri : po f (i + 1) bm i = bm i) by (apply po_frame; lia).
    cbn [post_optimize_loop]. rewrite (proj2 (Z.ltb_lt _ _)) by lia.
    rewrite Z.geb_leb, (proj2 (Z.leb_gt _ _)) by lia.
    rewrite !ent_step_lit by (rewrite ?Hri; lia).
    apply IH; [lia|exact Hv|lia].
Qed.

End PostOptimize.

Lemma final_entropy_cost lit off pInWindow bm nStartOffset nEndOffset :
  let ent := zultra_build_final_entropy_lwd (set_entropy lit (fun _ => 0)) (set_entropy off (fun _ => 0))
               pInWindow bm nStartOffset nEndOffset in
  let p := final_entropy_loop pInWindow bm nEndOffset (Z.to_nat (nEndOffset - nStartOffset)) nStartOffset
             (fun _ => 0) (fun _ => 0) in
  evaluate_data_cost (fst ent) (snd ent) =
  evaluate_data_cost (set_entropy lit (fst p)) (set_entropy off (snd p)) + nCodeLength lit NEODMARKERSYM.
Proof.
  intros ent p. unfold ent, zultra_build_final_entropy_lwd. rewrite !nEntropy_set_entropy. fold p.
  destruct p as [e1 f1]. cbn [fst snd]. rewrite !set_entropy_twice.
  apply cost_literal. unfold NEODMARKERSYM. lia.
Qed.

(** Post-optimisation of a block ([zultra_post_optimize_block_lwd]) on a
    well-formed parse (bytes below 256; every match of at least
    [MIN_MATCH_SIZE] bytes has length at most 258, an offset in
    [1, 32768] and ends inside the block): each entry of the resulting
    parse is either unchanged or turned into a literal (length 0, same
    offset), the result is again well formed, and the number of data bits
    that the final entropy of the block costs under the same code lengths
    ([evaluate_data_cost] of [zultra_build_final_entropy_lwd]) never
    increases. *)
Theorem post_optimize_never_worse (lit off : zultra_huffman_encoder_t) (pInWindow : array)
    (best_match : Z -> zultra_match_t) (nStartOffset nEndOffset : Z) :
  (forall j, nStartOffset <= j < nEndOffset ->
     0 <= pInWindow j < 256 /\
     (MIN_MATCH_SIZE <= length (best_match j) ->
      length (best_match j) <= 258 /\ 1 <= offset (best_match j) <= 32768 /\
      j + length (best_match j) <= nEndOffset)) ->
  let bm' := zultra_post_optimize_block_lwd (nCodeLength lit) (nCodeLength off) pInWindow best_match
               nStartOffset nEndOffset in
  let cost bm := let ent := zultra_build_final_entropy_lwd (set_entropy lit (fun _ => 0))
                              (set_entropy off (fun _ => 0)) pInWindow bm nStartOffset nEndOffset in
                 evaluate_data_cost (fst ent) (snd ent) in
  (forall x, bm' x = best_match x \/ (length (bm' x) = 0 /\ offset (bm' x) = offset (best_match x))) /\
  (forall j, nStartOffset <= j < nEndOffset ->
     0 <= pInWindow j < 256 /\
     (MIN_MATCH_SIZE <= length (bm' j) ->
      length (bm' j) <= 258 /\ 1 <= offset (bm' j) <= 32768 /\ j + length (bm' j) <= nEndOffset)) /\
  cost bm' <= cost best_match.
Proof.
  intros Hv bm' cost. split; [|split].
  - intros x. apply po_shape.
  - apply po_valid. exact Hv.
  - unfold cost. rewrite !final_entropy_cost.
    destruct (Z.leb_spec nEndOffset nStartOffset) as [Hle|Hgt].
    + unfold bm', zultra_post_optimize_block_lwd.
      replace (Z.to_nat (nEndOffset - nStartOffset)) with O by lia. cbn. lia.
    + pose proof (po_cost lit off pInWindow nStartOffset nEndOffset (Z.to_nat (nEndOffset - nStartOffset))
                    nStartOffset best_match (fun _ => 0) (fun _ => 0) ltac:(lia) Hv ltac:(lia)) as H.
      unfold bm', zultra_post_optimize_block_lwd. lia.
Qed.

(** Witness: with one-bit literals a five-byte match is replaced by
    literals. *)
Lemma post_optimize_never_worse_witness :
  let lit := mkEncoder 288 15 (fun _ => 0) (fun _ => 0) (fun s => if s <? 256 then 1 else 9) in
  let off := mkEncoder 32 15 (fun _ => 0) (fun _ => 0) (fun _ => 5) in
  let best_match := fun j => if j =? 2 then mkMatch 5 2 else mkMatch 0 0 in
  let bm' := zultra_post_optimize_block_lwd (nCodeLength lit) (nCodeLength off) (fun j => j mod 256)
               best_match 0 10 in
  let cost bm := let ent := zultra_build_final_entropy_lwd (set_entropy lit (fun _ => 0))
                              (set_entropy off (fun _ => 0)) (fun j => j mod 256) bm 0 10 in
                 evaluate_data_cost (fst ent) (snd ent) in
  length (bm' 2) = 0 /\ cost bm' < cost best_match /\
  ((forall x, bm' x = best_match x \/ (length (bm' x) = 0 /\ offset (bm' x) = offset (best_match x))) /\
   (forall j, 0 <= j < 10 ->
      0 <= j mod 256 < 256 /\
      (MIN_MATCH_SIZE <= length (bm' j) ->
       length (bm' j) <= 258 /\ 1 <= offset (bm' j) <= 32768 /\ j + length (bm' j) <= 10)) /\
   cost bm' <= cost best_match).
Proof.
  intros lit off best_match bm' cost.
  split; [vm_compute; reflexivity|]. split; [vm_compute; reflexivity|].
  apply (post_optimize_never_worse lit off (fun j => j mod 256) best_match 0 10).
  intros j Hj. split; [apply Z.mod_pos_bound; lia|].
  unfold best_match. destruct (Z.eqb_spec j 2) as [->|Hj2]; cbn; unfold MIN_MATCH_SIZE; lia.
Defined.

End DeflateProofs2.


Module BitSequenceProofs.
Import BitWriter BitSequence BitWriterProofs.

Lemma bytes_value_ext (out out' : array) : forall m o,
  (forall j, o <= j < o + Z.of_nat m -> out j = out' j) ->
  bytes_value out o m = bytes_value out' o m.
Proof.
  induction m as [|m IH]; intros o H; cbn [bytes_value]; [reflexivity|].
  rewrite (H o ltac:(lia)), (IH (o + 1)) by (intros j Hj; apply H; lia). reflexivity.
Qed.

Lemma bytes_value_split (out : array) : forall a b o,
  bytes_value out o (a + b) = bytes_value out o a + 2 ^ (8 * Z.of_nat a) * bytes_value out (o + Z.of_nat a) b.
Proof.
  induction a as [|a IH]; intros b o.
  - cbn [bytes_value Nat.add Z.of_nat]. rewrite Z.mul_0_r, Z.pow_0_r, Z.add_0_r. lia.
  - change (S a + b)%nat with (S (a + b)). cbn [bytes_value]. rewrite IH.
    replace (o + 1 + Z.of_nat a) with (o + Z.of_nat (S a)) by lia.
    replace (8 * Z.of_nat (S a)) with (8 + 8 * Z.of_nat a) by lia.
    rewrite Z.pow_add_r by lia. change (2 ^ 8) with 256. lia.
Qed.

Lemma put_bits_step (w : zultra_bitwriter_t) (out : array) (v n : Z) r w' out' :
  writer_ok w -> 0 <= n <= 16 -> 0 <= v < 2 ^ n ->
  8 * nOutOffset w + nEncBitCount w + n <= 8 * nMaxOutDataOffset w + 7 ->
  zultra_bitwriter_put_bits w out v n = (r, w', out') ->
  let k := (nEncBitCount w + n) / 8 in
  r = 0 /\ writer_ok w' /\ nMaxOutDataOffset w' = nMaxOutDataOffset w /\
  nOutOffset w' = nOutOffset w + k /\ nEncBitCount w' = nEncBitCount w + n - 8 * k /\
  bytes_value out' (nOutOffset w) (Z.to_nat k) + nEncBitsData w' * 2 ^ (8 * k)
    = nEncBitsData w + v * 2 ^ nEncBitCount w /\
  (forall j, j < nOutOffset w \/ nOutOffset w + k <= j -> out' j = out j) /\
  (forall j, nOutOffset w <= j < nOutOffset w + k -> 0 <= out' j < 256).
Proof.
  intros (Hc & Hd & Ho) Hn Hv Hroom E k.
  pose proof (put_bits_spec w out v n r w' out' ltac:(lia) Hn Ho E) as S. cbv zeta in S.
  fold k in S.
  assert (Hk8 : 8 * k <= nEncBitCount w + n < 8 * k + 8)
    by (unfold k; pose proof (Z.mod_pos_bound (nEncBitCount w + n) 8);
        pose proof (Z.div_mod (nEncBitCount w + n) 8); lia).
  replace (nOutOffset w + k >? nMaxOutDataOffset w) with false in S
    by (symmetry; rewrite Z.gtb_ltb; apply Z.ltb_ge; lia).
  destruct S as (-> & Hc' & Ho' & Hm' & Hout & Hb & Hacc).
  set (c := nEncBitCount w) in *. set (d := nEncBitsData w) in *.
  assert (Hpc : 0 < 2 ^ c) by (apply Z.pow_pos_nonneg; lia).
  assert (Hpn : 0 < 2 ^ n) by (apply Z.pow_pos_nonneg; lia).
  assert (Hcn : 2 ^ (c + n) = 2 ^ c * 2 ^ n) by (apply Z.pow_add_r; lia).
  assert (Hsum : d + v * 2 ^ c < 2 ^ (c + n)) by nia.
  assert (Hlt32 : 2 ^ (c + n) <= 2 ^ 32) by (apply Z.pow_le_mono_r; lia).
  assert (Hacc' : Z.lor d (u32 (Z.shiftl v c)) = d + v * 2 ^ c).
  { unfold u32. rewrite Z.shiftl_mul_pow2 by lia.
    rewrite Z.mod_small by nia. apply lor_disjoint_add; lia. }
  rewrite Hacc' in Hacc. destruct (Hacc ltac:(lia)) as [Hbv Hd'].
  refine (conj eq_refl (conj _ (conj Hm' (conj Ho' (conj Hc' (conj Hbv (conj Hout Hb))))))).
  unfold writer_ok. rewrite Hc', Ho', Hd'. split; [lia|]. split; [|lia]. split.
  - apply Z.div_pos; [nia|]. apply Z.pow_pos_nonneg; lia.
  - apply Z.div_lt_upper_bound; [apply Z.pow_pos_nonneg; lia|].
    rewrite <- Z.pow_add_r by lia.
    match goal with |- _ < 2 ^ ?e => replace e with (c + n) by lia end. exact Hsum.
Qed.

Lemma put_bits_seq_spec : forall l w out r w1 o1,
  writer_ok w -> Forall (fun p => 0 <= snd p <= 16 /\ 0 <= fst p < 2 ^ snd p) l ->
  8 * nOutOffset w + nEncBitCount w + seq_bits l <= 8 * nMaxOutDataOffset w + 7 ->
  put_bits_seq w out l = (r, w1, o1) ->
  r = 0 /\ writer_ok w1 /\ nMaxOutDataOffset w1 = nMaxOutDataOffset w /\
  nOutOffset w <= nOutOffset w1 /\
  8 * nOutOffset w1 + nEncBitCount w1 = 8 * nOutOffset w + nEncBitCount w + seq_bits l /\
  bytes_value o1 (nOutOffset w) (Z.to_nat (nOutOffset w1 - nOutOffset w))
    + nEncBitsData w1 * 2 ^ (8 * (nOutOffset w1 - nOutOffset w))
    = nEncBitsData w + seq_value l * 2 ^ nEncBitCount w /\
  (forall j, j < nOutOffset w \/ nOutOffset w1 <= j -> o1 j = out j) /\
  (forall j, nOutOffset w <= j < nOutOffset w1 -> 0 <= o1 j < 256).
Proof.
  induction l as [|[v n] l IH]; intros w out r w1 o1 Hw Hl Hroom E.
  - cbn in E. injection E as <- <- <-. rewrite Z.sub_diag.
    refine (conj eq_refl (conj Hw (conj eq_refl (conj _ (conj _ (conj _ (conj _ _))))))).
    + lia.
    + cbn [seq_bits]. lia.
    + cbn [Z.to_nat bytes_value seq_value]. rewrite Z.mul_0_r, Z.pow_0_r. lia.
    + reflexivity.
    + lia.
  - inversion Hl as [|? ? [Hn Hv] Hl']; subst. cbn [fst snd] in Hn, Hv.
    cbn [seq_bits] in Hroom.
    assert (Hpos : 0 <= seq_bits l).
    { clear -Hl'. induction l as [|[a b] l IHl]; cbn; [lia|].
      inversion Hl'; subst. cbn in *. specialize (IHl H2). lia. }
    cbn [put_bits_seq] in E.
    destruct (zultra_bitwriter_put_bits w out v n) as [[r0 w0] o0] eqn:P.
    destruct (put_bits_step w out v n r0 w0 o0 Hw Hn Hv ltac:(lia) P)
      as (-> & Hw0 & Hm0 & Ho0 & Hc0 & Hb0 & Hout0 & Hr0).
    cbn [Z.ltb Z.compare] in E.
    destruct (IH w0 o0 r w1 o1 Hw0 Hl' ltac:(lia) E)
      as (-> & Hw1 & Hm1 & Ho1 & Hc1 & Hb1 & Hout1 & Hr1).
    set (k := (nEncBitCount w + n) / 8) in *.
    assert (Hk : 0 <= k) by (apply Z.div_pos; destruct Hw as (? & _); lia).
    set (k2 := nOutOffset w1 - nOutOffset w0) in *.
    assert (Hsplit : Z.to_nat (nOutOffset w1 - nOutOffset w) = (Z.to_nat k + Z.to_nat k2)%nat) by lia.
    rewrite Hsplit, bytes_value_split, Z2Nat.id by lia.
    rewrite (bytes_value_ext o1 o0 (Z.to_nat k))
      by (intros j Hj; rewrite Z2Nat.id in Hj by lia; apply Hout1; lia).
    rewrite <- Ho0.
    cbn [seq_value].
    destruct Hw as (Hc & _). 
    assert (E1 : 2 ^ (8 * (nOutOffset w1 - nOutOffset w)) = 2 ^ (8 * k) * 2 ^ (8 * k2))
      by (rewrite <- Z.pow_add_r by lia; f_equal; lia).
    assert (E2 : 2 ^ (8 * k) * 2 ^ nEncBitCount w0 = 2 ^ nEncBitCount w * 2 ^ n)
      by (rewrite <- !Z.pow_add_r by (destruct Hw0 as (? & _); lia); f_equal; lia).
    refine (conj eq_refl (conj Hw1 (conj _ (conj _ (conj _ (conj _ (conj _ _))))))).
    + lia.
    + lia.
    + cbn [seq_bits]. lia.
    + rewrite E1.
      replace (bytes_value o0 (nOutOffset w) (Z.to_nat k) + 2 ^ (8 * k) * bytes_value o1 (nOutOffset w0) (Z.to_nat k2)
               + nEncBitsData w1 * (2 ^ (8 * k) * 2 ^ (8 * k2)))
        with (bytes_value o0 (nOutOffset w) (Z.to_nat k) +
              2 ^ (8 * k) * (bytes_value o1 (nOutOffset w0) (Z.to_nat k2) + nEncBitsData w1 * 2 ^ (8 * k2)))
        by ring.
      rewrite Hb1.
      replace (bytes_value o0 (nOutOffset w) (Z.to_nat k) + 2 ^ (8 * k) * (nEncBitsData w0 + seq_value l * 2 ^ nEncBitCount w0))
        with ((bytes_value o0 (nOutOffset w) (Z.to_nat k) + nEncBitsData w0 * 2 ^ (8 * k))
              + seq_value l * (2 ^ (8 * k) * 2 ^ nEncBitCount w0)) by ring.
      rewrite Hb0, E2. ring.
    + intros j Hj. rewrite Hout1 by lia. apply Hout0. lia.
    + intros j Hj. destruct (Z.lt_ge_cases j (nOutOffset w0)).
      * rewrite Hout1 by lia. apply Hr0. lia.
      * apply Hr1. lia.
Qed.

(** A run of [zultra_bitwriter_put_bits] calls followed by
    [zultra_bitwriter_flush_bits] emits the concatenation of the values,
    least significant bit first, behind the pending bits, padded with zero
    bits to a whole byte: from a writer state satisfying [writer_ok], with
    every value fitting in its count of at most 16 bits and room in the
    buffer for the padded bits, every call returns 0, no bit stays pending,
    the offset advances by the number of bytes those bits fill, the bytes
    written hold exactly the old pending bits followed by the run, and the
    buffer is unchanged elsewhere. *)
Theorem put_bits_seq_flush w out l :
  writer_ok w -> Forall (fun p => 0 <= snd p <= 16 /\ 0 <= fst p < 2 ^ snd p) l ->
  8 * nOutOffset w + nEncBitCount w + seq_bits l <= 8 * nMaxOutDataOffset w ->
  let '(r, w1, o1) := put_bits_seq w out l in
  let '(r2, w2, o2) := zultra_bitwriter_flush_bits w1 o1 in
  r = 0 /\ r2 = 0 /\ nEncBitCount w2 = 0 /\ nEncBitsData w2 = 0 /\
  nOutOffset w2 = nOutOffset w + (nEncBitCount w + seq_bits l + 7) / 8 /\
  bytes_value o2 (nOutOffset w) (Z.to_nat (nOutOffset w2 - nOutOffset w))
    = nEncBitsData w + seq_value l * 2 ^ nEncBitCount w /\
  (forall j, j < nOutOffset w \/ nOutOffset w2 <= j -> o2 j = out j) /\
  (forall j, nOutOffset w <= j < nOutOffset w2 -> 0 <= o2 j < 256).
Proof.
  intros Hw Hl Hroom.
  destruct (put_bits_seq w out l) as [[r w1] o1] eqn:E.
  destruct (put_bits_seq_spec l w out r w1 o1 Hw Hl ltac:(lia) E)
    as (-> & (Hc1 & Hd1 & Ho1) & Hm1 & Hle & Hbits & Hb & Hout & Hr).
  destruct w1 as [c1 d1 off1 mx1]. cbn [nEncBitCount nEncBitsData nOutOffset nMaxOutDataOffset] in *.
  unfold zultra_bitwriter_flush_bits. cbn [nEncBitCount nEncBitsData nOutOffset nMaxOutDataOffset].
  replace (c1 >? 8) with false by (symmetry; rewrite Z.gtb_ltb; apply Z.ltb_ge; lia).
  destruct (Z.gtb_spec c1 0) as [Hpos|Hz].
  - replace (off1 >=? mx1) with false by (symmetry; rewrite Z.geb_leb; apply Z.leb_gt; lia).
    cbn [nEncBitCount nEncBitsData nOutOffset].
    assert (Hland : Z.land d1 (Z.shiftl 1 c1 - 1) mod 256 = d1).
    { replace (Z.shiftl 1 c1 - 1) with (Z.ones c1) by (unfold Z.ones; lia).
      rewrite Z.land_ones by lia. rewrite (Z.mod_small d1 (2 ^ c1)) by lia.
      apply Z.mod_small. assert (2 ^ c1 <= 2 ^ 8) by (apply Z.pow_le_mono_r; lia).
      change (2 ^ 8) with 256 in *. lia. }
    rewrite Hland.
    refine (conj eq_refl (conj eq_refl (conj eq_refl (conj eq_refl (conj _ (conj _ (conj _ _))))))).
    + assert (Hq : off1 + 1 - nOutOffset w = (nEncBitCount w + seq_bits l + 7) / 8)
        by (apply Z.div_unique with (c1 - 1); lia).
      lia.
    + replace (Z.to_nat (off1 + 1 - nOutOffset w)) with (Z.to_nat (off1 - nOutOffset w) + 1)%nat by lia.
      rewrite bytes_value_split, Z2Nat.id by lia.
      rewrite (bytes_value_ext _ o1 (Z.to_nat (off1 - nOutOffset w)))
        by (intros j Hj; rewrite Z2Nat.id in Hj by lia; apply upd_neq; lia).
      cbn [bytes_value]. replace (nOutOffset w + (off1 - nOutOffset w)) with off1 by lia.
      rewrite upd_eq. lia.
    + intros j Hj. rewrite upd_neq by lia. apply Hout. lia.
    + intros j Hj. destruct (Z.eq_dec j off1) as [->|Hne].
      * rewrite upd_eq. assert (2 ^ c1 <= 2 ^ 8) by (apply Z.pow_le_mono_r; lia).
        change (2 ^ 8) with 256 in *. lia.
      * rewrite upd_neq by exact Hne. apply Hr. lia.
  - assert (c1 = 0) by lia. subst c1. cbn in Hd1. assert (d1 = 0) by lia. subst d1.
    cbn [nEncBitCount nEncBitsData nOutOffset].
    refine (conj eq_refl (conj eq_refl (conj eq_refl (conj eq_refl (conj _ (conj _ (conj Hout Hr))))))).
    + assert (Hq : off1 - nOutOffset w = (nEncBitCount w + seq_bits l + 7) / 8)
        by (apply Z.div_unique with 7; lia).
      lia.
    + lia.
Qed.

(** Witness: 3, 1 and 9 bits written into a fresh writer fill two bytes. *)
Lemma put_bits_seq_flush_witness :
  let l := [(5, 3); (1, 1); (300, 9)] in
  writer_ok (zultra_bitwriter_init 0 4) /\
  Forall (fun p => 0 <= snd p <= 16 /\ 0 <= fst p < 2 ^ snd p) l /\
  8 * nOutOffset (zultra_bitwriter_init 0 4) + nEncBitCount (zultra_bitwriter_init 0 4) + seq_bits l
    <= 8 * nMaxOutDataOffset (zultra_bitwriter_init 0 4) /\
  let '(r, w1, o1) := put_bits_seq (zultra_bitwriter_init 0 4) (fun _ => 0) l in
  let '(r2, w2, o2) := zultra_bitwriter_flush_bits w1 o1 in
  r = 0 /\ r2 = 0 /\ nEncBitCount w2 = 0 /\ nEncBitsData w2 = 0 /\
  nOutOffset w2 = nOutOffset (zultra_bitwriter_init 0 4)
                  + (nEncBitCount (zultra_bitwriter_init 0 4) + seq_bits l + 7) / 8 /\
  bytes_value o2 (nOutOffset (zultra_bitwriter_init 0 4))
    (Z.to_nat (nOutOffset w2 - nOutOffset (zultra_bitwriter_init 0 4)))
    = nEncBitsData (zultra_bitwriter_init 0 4) + seq_value l * 2 ^ nEncBitCount (zultra_bitwriter_init 0 4) /\
  (forall j, j < nOutOffset (zultra_bitwriter_init 0 4) \/ nOutOffset w2 <= j -> o2 j = (fun _ => 0) j) /\
  (forall j, nOutOffset (zultra_bitwriter_init 0 4) <= j < nOutOffset w2 -> 0 <= o2 j < 256).
Proof.
  intros l.
  assert (Hw : writer_ok (zultra_bitwriter_init 0 4)) by (unfold writer_ok; cbn; lia).
  assert (Hl : Forall (fun p => 0 <= snd p <= 16 /\ 0 <= fst p < 2 ^ snd p) l)
    by (repeat constructor; cbn; lia).
  split; [exact Hw|]. split; [exact Hl|]. split; [cbn; lia|].
  apply (put_bits_seq_flush (zultra_bitwriter_init 0 4) (fun _ => 0) l Hw Hl). cbn. lia.
Defined.

End BitSequenceProofs.


Module HuffmanProofs2.
Import Huffman HuffmanProofs.

Lemma defined_count_loop_last (len : array) m :
  forall fuel i, Z.of_nat fuel = i - m ->
    let c := defined_count_loop len m fuel i in
    m <= c <= i /\ (forall j, c <= j < i -> len j = 0) /\ (c > m -> len (c - 1) <> 0).
Proof.
  induction fuel as [|f IH]; intros i Hf; cbn zeta; cbn [defined_count_loop].
  - split; [lia|]. split; [intros; lia|lia].
  - rewrite (proj2 (Z.gtb_lt i m)) by lia. cbn [andb].
    destruct (Z.eqb_spec (len (i - 1)) 0) as [H0|H0].
    + destruct (IH (i - 1) ltac:(lia)) as (I1 & I2 & I3).
      split; [lia|]. split; [|exact I3].
      intros j Hj. destruct (Z.eq_dec j (i - 1)) as [->|Hne]; [exact H0|apply I2; lia].
    + split; [lia|]. split; [intros; lia|intros _; exact H0].
Qed.

(** [zultra_huffman_encoder_get_defined_var_lengths_count] drops the
    trailing zero code lengths down to [nMinSymbols]: with [nMinSymbols]
    at most the number of symbols, it returns a count [c] between the two
    such that every length from [c] on is zero and, above
    [nMinSymbols], the length at [c - 1] is not; with [nMinSymbols] above
    the number of symbols it returns the number of symbols. *)
Theorem get_defined_var_lengths_count_spec e nMinSymbols :
  let c := zultra_huffman_encoder_get_defined_var_lengths_count e nMinSymbols in
  (nMinSymbols <= nSymbols e ->
     nMinSymbols <= c <= nSymbols e /\
     (forall j, c <= j < nSymbols e -> nCodeLength e j = 0) /\
     (c > nMinSymbols -> nCodeLength e (c - 1) <> 0)) /\
  (nSymbols e < nMinSymbols -> c = nSymbols e).
Proof.
  cbn zeta. unfold zultra_huffman_encoder_get_defined_var_lengths_count. split.
  - intros H. apply (defined_count_loop_last (nCodeLength e) nMinSymbols). lia.
  - intros H. replace (Z.to_nat (nSymbols e - nMinSymbols)) with O by lia. reflexivity.
Qed.

(** The code lengths [zultra_huffman_encoder_build_dynamic_codewords]
    assigns when at least two symbols are used: a symbol gets a nonzero
    length exactly when its frequency is nonzero, no length exceeds the
    encoder's maximum code length, symbols outside the alphabet get
    length 0, and the number of symbols is kept. *)
Theorem build_dynamic_codewords_lengths e :
  0 <= nSymbols e <= MAX_SYMBOLS -> 1 <= nMaxCodeLength e ->
  nSymbols e <= 2 ^ nMaxCodeLength e ->
  2 <= count_nonzero (nEntropy e) (nSymbols e) ->
  let r := zultra_huffman_encoder_build_dynamic_codewords e in
  fst r = 0 /\ nSymbols (snd r) = nSymbols e /\
  (forall s, 0 <= s < nSymbols e -> (nCodeLength (snd r) s <> 0 <-> nEntropy e s <> 0)) /\
  (forall s, 0 <= nCodeLength (snd r) s <= nMaxCodeLength e) /\
  (forall s, ~ (0 <= s < nSymbols e) -> nCodeLength (snd r) s = 0).
Proof.
  intros HN HL HNL Hc.
  destruct (build_dynamic_codewords_spec e HN HL HNL Hc) as (B1 & B2 & B3 & B4 & B5 & _).
  cbn zeta in *. split; [exact B1|]. split; [exact B2|]. split; [|split; [exact B4|exact B5]].
  intros s Hs. specialize (B3 s Hs). tauto.
Qed.

(** Witness: frequencies 1, 1, 2, 3, 5 (and 0 for the sixth symbol) with
    a maximum length of 3. *)
Lemma build_dynamic_codewords_lengths_witness :
  let e := mkEncoder 6 3 (fun s => if s =? 0 then 1 else if s =? 1 then 1 else if s =? 2 then 2
                                   else if s =? 3 then 3 else if s =? 4 then 5 else 0)
                     (fun _ => 0) (fun _ => 0) in
  let r := zultra_huffman_encoder_build_dynamic_codewords e in
  nCodeLength (snd r) 5 = 0 /\ nCodeLength (snd r) 4 <> 0 /\
  (fst r = 0 /\ nSymbols (snd r) = nSymbols e /\
   (forall s, 0 <= s < nSymbols e -> (nCodeLength (snd r) s <> 0 <-> nEntropy e s <> 0)) /\
   (forall s, 0 <= nCodeLength (snd r) s <= nMaxCodeLength e) /\
   (forall s, ~ (0 <= s < nSymbols e) -> nCodeLength (snd r) s = 0)).
Proof.
  intros e r. split; [vm_compute; reflexivity|]. split; [vm_compute; discriminate|].
  apply (build_dynamic_codewords_lengths e).
  - cbn. unfold MAX_SYMBOLS. lia.
  - cbn. lia.
  - cbn. lia.
  - vm_compute. discriminate.
Defined.

End HuffmanProofs2.
